(** * ULedger Go SDK: typed binary codec, Merkle commitment builders and
      signature commitment assembler

    A shallow embedding of
      - [pkg/transaction/serializer.go]     (Encode, Decode, GetType),
      - [pkg/transaction/transaction.go]    (splitHash32, GetSignatureCommitment,
        GetUnboundCommitment, HashSignatureCommitment,
        GenerateMerkleTreeWithHardBound, GenerateMerkleTree),
      - [pkg/transaction/transaction_session.go] (the commitment that
        GenerateTransaction hands to SignData),
      - [pkg/crypto/key.go]                 (KeyType, GetHasherByType),
    together with the parts of the Go runtime and of the libraries these
    functions lean on: slices with a capacity, encoding/binary's big-endian
    accessors, sort.Strings, the hash.Hash interface, gnark-crypto's
    accumulator/merkletree and what the [Write] of its MiMC hashers takes.

    Further on: the names of key types, statuses, transaction types and
    outputs with their parsers ([pkg/crypto/key.go],
    [pkg/transaction/transaction.go]), the hex helpers and the
    deterministic reader of [pkg/crypto/utils.go], and the addresses and
    entropy sizes of [pkg/wallet], over the ASCII part of strings and
    encoding/hex. *)

From Stdlib Require Import ZArith List Lia Strings.Byte Permutation Sorted.
From Stdlib Require Import String.
From stdpp Require Import base list sorting.
Import ListNotations.

Set Warnings "-register-all".

Local Open Scope Z_scope.

(* ===================================================================== *)
(** * Go runtime: bytes, fixed-width integers, outcomes                   *)
(* ===================================================================== *)

Module Go.

(** A Go [byte].  [byte(v)] keeps the low eight bits of [v]. *)
Definition byte_of_Z (v : Z) : byte :=
  match Byte.of_N (Z.to_N (v mod 256)) with
  | Some b => b
  | None => x00
  end.

Definition Z_of_byte (b : byte) : Z := Z.of_N (Byte.to_N b).

(** Conversions to fixed-width integer types wrap around. *)
Definition uint32 (v : Z) : Z := v mod 2 ^ 32.
Definition uint64 (v : Z) : Z := v mod 2 ^ 64.
Definition int32 (v : Z) : Z := (v + 2 ^ 31) mod 2 ^ 32 - 2 ^ 31.
Definition int64 (v : Z) : Z := (v + 2 ^ 63) mod 2 ^ 64 - 2 ^ 63.
(** [int] is 64 bits wide on every platform the SDK targets. *)
Definition int (v : Z) : Z := int64 v.

(** [len] of a list as a Go [int]. *)
Definition len {A} (l : list A) : Z := Z.of_nat (length l).

(** [make([]byte, n)] for a non-negative [n]. *)
Definition zeros (n : nat) : list byte := repeat x00 n.

(** A Go string is a finite sequence of bytes. *)
Abbreviation gostring := (list byte).

#[global] Instance byte_eq_decision : EqDecision byte := Byte.byte_eq_dec.

Definition str (s : string) : gostring := list_byte_of_string s.

(** How a call ends: with a value, with an [error] value, with a runtime
    panic, or not at all. *)
Inductive outcome (E A : Type) : Type :=
| Ok (a : A)
| Err (e : E)
| Panic
| Diverges.
Arguments Ok {E A} a.
Arguments Err {E A} e.
Arguments Panic {E A}.
Arguments Diverges {E A}.

Definition bind {E A B} (m : outcome E A) (k : A -> outcome E B) : outcome E B :=
  match m with
  | Ok a => k a
  | Err e => Err e
  | Panic => Panic
  | Diverges => Diverges
  end.

(** [wrap f m]: the [if err != nil { return nil, fmt.Errorf("...: %w", err) }]
    idiom. *)
Definition wrap {E A} (f : E -> E) (m : outcome E A) : outcome E A :=
  match m with
  | Err e => Err (f e)
  | other => other
  end.

(** ** Slices

    A slice is a window on a backing array.  Only the part of the array
    from the slice's first element onwards can be reached through it, so a
    slice is modelled by that part ([arr], whose length is the capacity)
    and by its length. *)
Record slice : Type := Slice { arr : list byte; slen : nat }.

Definition cap (s : slice) : nat := length (arr s).
Definition wf (s : slice) : Prop := (slen s <= cap s)%nat.

(** The bytes a slice denotes. *)
Definition contents (s : slice) : list byte := take (slen s) (arr s).

(** A slice that fills its backing array. *)
Definition of_list (l : list byte) : slice := Slice l (length l).
(** A slice whose backing array goes on with [spare] behind the elements. *)
Definition of_list_cap (l spare : list byte) : slice := Slice (l ++ spare) (length l).

(** [s[lo:hi]]: the bounds are checked against the capacity. *)
Definition reslice {E} (s : slice) (lo hi : Z) : outcome E slice :=
  if (0 <=? lo) && (lo <=? hi) && (hi <=? Z.of_nat (cap s))
  then Ok (Slice (drop (Z.to_nat lo) (arr s)) (Z.to_nat (hi - lo)))
  else Panic.

(** [s[lo:]] is [s[lo:len(s)]]. *)
Definition reslice_from {E} (s : slice) (lo : Z) : outcome E slice :=
  if (0 <=? lo) && (lo <=? Z.of_nat (slen s))
  then Ok (Slice (drop (Z.to_nat lo) (arr s)) (slen s - Z.to_nat lo))
  else Panic.

(** [s[i]]: the index is checked against the length. *)
Definition index {E} (s : slice) (i : Z) : outcome E byte :=
  if (0 <=? i) && (i <? Z.of_nat (slen s))
  then Ok (nth (Z.to_nat i) (arr s) x00)
  else Panic.

End Go.
Export Go.

Declare Scope outcome_scope.
Delimit Scope outcome_scope with outcome.
Notation "'let!' x ':=' m 'in' k" := (bind m (fun x => k))
  (at level 10, x pattern, m at level 100, k at level 200) : outcome_scope.
Local Open Scope outcome_scope.

(* ===================================================================== *)
(** * encoding/binary: big-endian accessors                               *)
(* ===================================================================== *)

Module BigEndian.

(** [binary.BigEndian.PutUint32(b, v)] writes these four bytes. *)
Definition PutUint32 (v : Z) : list byte :=
  [byte_of_Z (Z.shiftr v 24); byte_of_Z (Z.shiftr v 16);
   byte_of_Z (Z.shiftr v 8); byte_of_Z v].

Definition PutUint64 (v : Z) : list byte :=
  [byte_of_Z (Z.shiftr v 56); byte_of_Z (Z.shiftr v 48);
   byte_of_Z (Z.shiftr v 40); byte_of_Z (Z.shiftr v 32);
   byte_of_Z (Z.shiftr v 24); byte_of_Z (Z.shiftr v 16);
   byte_of_Z (Z.shiftr v 8); byte_of_Z v].

(** The value of a big-endian byte string. *)
Definition be_value (bs : list byte) : Z :=
  fold_left (fun acc b => acc * 256 + Z_of_byte b) bs 0.

(** [binary.BigEndian.Uint32(b)] starts with the bounds check [_ = b[3]]
    and reads [b[0..3]]. *)
Definition Uint32 {E} (b : slice) : outcome E Z :=
  if (4 <=? slen b)%nat then Ok (be_value (take 4 (arr b))) else Panic.

(** [binary.BigEndian.Uint64(b)] starts with [_ = b[7]]. *)
Definition Uint64 {E} (b : slice) : outcome E Z :=
  if (8 <=? slen b)%nat then Ok (be_value (take 8 (arr b))) else Panic.

End BigEndian.
Import BigEndian.

(* ===================================================================== *)
(** * sort.Strings                                                       *)
(* ===================================================================== *)

(** Go compares strings byte by byte, a proper prefix being smaller. *)
Fixpoint string_leb (a b : gostring) : bool :=
  match a, b with
  | [], _ => true
  | _ :: _, [] => false
  | x :: a', y :: b' =>
      if Z_of_byte x <? Z_of_byte y then true
      else if Z_of_byte y <? Z_of_byte x then false
      else string_leb a' b'
  end.

Definition string_le (a b : gostring) : Prop := string_leb a b = true.

#[global] Instance string_le_dec : RelDecision string_le.
Proof. intros a b. unfold string_le. apply _. Defined.

(** [sort.Strings(keys)].  The library sorts in place with an unstable
    pattern-defeating quicksort; since equal strings cannot be told apart,
    every sorting algorithm returns the same slice (see [sortStrings_spec]),
    and a merge sort stands for it here. *)
Definition sortStrings (keys : list gostring) : list gostring :=
  merge_sort string_le keys.

(* ===================================================================== *)
(** * pkg/transaction/serializer.go                                      *)
(* ===================================================================== *)

Module Serializer.

(** [type ContractDataType byte] and its ten constants. *)
Definition TypeNull : Z := 0.
Definition TypeBool : Z := 1.
Definition TypeInt32 : Z := 2.
Definition TypeInt64 : Z := 3.
Definition TypeString : Z := 4.
Definition TypeBytes : Z := 5.
Definition TypeArray : Z := 6.
Definition TypeMap : Z := 7.
Definition TypeFloat32 : Z := 8.
Definition TypeFloat64 : Z := 9.

(** The dynamic values [Encode] is handed as [interface{}] and [Decode]
    hands back.
    - [VArray] is any slice other than [[]byte] ([Decode] returns
      [[]interface{}]).
    - [VMap] is a [map[string]interface{}], listed in the order in which
      [range] happens to visit it; a Go map holds each key once.
    - A float is kept as its IEEE-754 bit pattern, the only thing the codec
      looks at ([math.Float32bits], [math.Float32frombits]).
    - [VOther] is a value of any other dynamic type ([int], [uint8], a
      struct, a map with other key or value types, ...). *)
Inductive Value : Type :=
| VNil
| VBool (b : bool)
| VInt32 (v : Z)
| VInt64 (v : Z)
| VString (s : gostring)
| VBytes (b : list byte)
| VFloat32 (bits : Z)
| VFloat64 (bits : Z)
| VArray (elems : list Value)
| VMap (entries : list (gostring * Value))
| VOther.

(** The errors of the codec, one constructor per [fmt.Errorf] call site. *)
Inductive error : Type :=
| EUnsupportedType
| EEncodeElement (cause : error)
| EEncodeKey (cause : error)
| EEncodeValue (cause : error)
| ETooShort
| EBoolLength (got : Z)
| EInt32Length (got : Z)
| EInt64Length (got : Z)
| EStringLength (expected got : Z)
| EBytesLength (expected got : Z)
| EFloat32Length (got : Z)
| EFloat64Length (got : Z)
| EMapTooShort (expected got : Z)
| EDecodeKey (cause : error)
| EKeyNotString
| EDecodeValue (cause : error)
| EArrayTooShort (expected got : Z)
| EDecodeElement (cause : error)
| EUnsupportedTag (tag : Z).

Definition res := outcome error.

(** [binary.BigEndian.PutUint32(result[pos:], v)]: four bytes of [result]
    are overwritten in place. *)
Definition store32 (result : list byte) (pos : nat) (v : Z) : list byte :=
  take pos result ++ PutUint32 v ++ drop (pos + 4) result.

(** *** Encode *)

(** The [case string] branch; the map branch reaches it through
    [Encode(k)]. *)
Definition encodeString (v : gostring) : list byte :=
  [byte_of_Z TypeString] ++ PutUint32 (uint32 (len v)) ++ v.

Definition encodeNil : list byte := [byte_of_Z TypeNull; x00; x00; x00; x00].

Section EncodeLoops.
Variable Encode : Value -> res (list byte).

(** [for i := 0; i < val.Len(); i++ { ... }] of the slice branch. *)
Fixpoint encodeElems (elems : list Value) (result : list byte) (totalSize : Z)
  : res (list byte * Z) :=
  match elems with
  | [] => Ok (result, totalSize)
  | elem :: rest =>
      let! elemEnc := wrap EEncodeElement (Encode elem) in
      encodeElems rest (result ++ elemEnc) (totalSize + len elemEnc)
  end.

(** [Encode(v[k])]; a key that is not in the map reads as [nil]. *)
Fixpoint encodeAt (v : list (gostring * Value)) (k : gostring) : res (list byte) :=
  match v with
  | [] => Ok encodeNil
  | (k', x) :: v' => if decide (k' = k) then Encode x else encodeAt v' k
  end.

(** [for _, k := range keys { ... }] of the map branch. *)
Fixpoint encodeEntries (v : list (gostring * Value)) (keys : list gostring)
    (result : list byte) (totalSize : Z) : res (list byte * Z) :=
  match keys with
  | [] => Ok (result, totalSize)
  | k :: rest =>
      let keyEnc := encodeString k in
      let result := result ++ keyEnc in
      let totalSize := totalSize + len keyEnc in
      let! valEnc := wrap EEncodeValue (encodeAt v k) in
      encodeEntries v rest (result ++ valEnc) (totalSize + len valEnc)
  end.
End EncodeLoops.

Fixpoint Encode (data : Value) : res (list byte) :=
  match data with
  | VArray elems =>
      let result := [byte_of_Z TypeArray] in
      let arrLen := PutUint32 (uint32 (len elems)) in
      let result := result ++ arrLen in
      let sizePos := length result in
      let result := result ++ zeros 4 in
      let! (result, totalSize) := encodeElems Encode elems result 0 in
      Ok (store32 result sizePos (uint32 totalSize))
  | VNil => Ok encodeNil
  | VBool v =>
      let b := [byte_of_Z TypeBool; x00; x00; x00; x01] in
      Ok (if v then b ++ [x01] else b ++ [x00])
  | VInt32 v =>
      Ok ([byte_of_Z TypeInt32] ++ PutUint32 4 ++ PutUint32 (uint32 v))
  | VInt64 v =>
      Ok ([byte_of_Z TypeInt64] ++ PutUint32 8 ++ PutUint64 (uint64 v))
  | VString v => Ok (encodeString v)
  | VBytes v =>
      Ok ([byte_of_Z TypeBytes] ++ PutUint32 (uint32 (len v)) ++ v)
  | VFloat32 bits =>
      Ok ([byte_of_Z TypeFloat32] ++ PutUint32 4 ++ PutUint32 bits)
  | VFloat64 bits =>
      Ok ([byte_of_Z TypeFloat64] ++ PutUint32 8 ++ PutUint64 bits)
  | VMap v =>
      let keys := sortStrings (map fst v) in
      let result := [byte_of_Z TypeMap] in
      let mapLen := PutUint32 (uint32 (len keys)) in
      let result := result ++ mapLen in
      let sizePos := length result in
      let result := result ++ zeros 4 in
      let! (result, totalSize) := encodeEntries Encode v keys result 0 in
      Ok (store32 result sizePos (uint32 totalSize))
  | VOther => Err EUnsupportedType
  end.

(** *** Decode *)

(** [result[key] = valueIface] on a map kept as an association list. *)
Fixpoint mapSet (m : list (gostring * Value)) (key : gostring) (v : Value)
  : list (gostring * Value) :=
  match m with
  | [] => [(key, v)]
  | (k', x) :: m' =>
      if decide (k' = key) then (k', v) :: m' else (k', x) :: mapSet m' key v
  end.

Section DecodeLoops.
Variable Decode : slice -> res Value.

(** [for i := uint32(0); i < numEntries; i++ { ... }] of the map branch;
    [n] counts the iterations still to run. *)
Fixpoint decodeEntries (data : slice) (n : nat) (offset : Z)
    (result : list (gostring * Value)) : res (list (gostring * Value)) :=
  match n with
  | O => Ok result
  | S n' =>
      let! hdr := reslice data (offset + 1) (offset + 5) in
      let! keySize := Uint32 hdr in
      let! keyData := reslice data offset (offset + 5 + keySize) in
      let! keyIface := wrap EDecodeKey (Decode keyData) in
      match keyIface with
      | VString key =>
          let offset := offset + (5 + keySize) in
          let! hdr := reslice data (offset + 1) (offset + 5) in
          let! valueSize := Uint32 hdr in
          let! valueData := reslice data offset (offset + 5 + valueSize) in
          let! valueIface := wrap EDecodeValue (Decode valueData) in
          let offset := offset + (5 + valueSize) in
          decodeEntries data n' offset (mapSet result key valueIface)
      | _ => Err EKeyNotString
      end
  end.

(** [for i := uint32(0); i < numElements; i++ { ... }] of the array
    branch; [result] holds the elements stored so far. *)
Fixpoint decodeElems (data : slice) (n : nat) (offset : Z)
    (result : list Value) : res (list Value) :=
  match n with
  | O => Ok result
  | S n' =>
      let! hdr := reslice data (offset + 1) (offset + 5) in
      let! valueSize := Uint32 hdr in
      let! elemData := reslice data offset (offset + 5 + valueSize) in
      let! elem := wrap EDecodeElement (Decode elemData) in
      decodeElems data n' (offset + (5 + valueSize)) (result ++ [elem])
  end.

(** The body of [Decode]; its recursive calls go to the section's
    [Decode]. *)
Definition decodeBody (data : slice) : res Value :=
  if (slen data <? 5)%nat then Err ETooShort else
  let! tag := index data 0 in
  let dataType := Z_of_byte tag in
  let! hdr := reslice data 1 5 in
  let! length := Uint32 hdr in
  if dataType =? TypeNull then Ok VNil
  else if dataType =? TypeBool then
    if negb (length =? 1) then Err (EBoolLength length) else
    let! b := index data 5 in
    Ok (VBool (negb (Z_of_byte b =? 0)))
  else if dataType =? TypeInt32 then
    if negb (length =? 4) then Err (EInt32Length length) else
    let! body := reslice_from data 5 in
    let! u := Uint32 body in
    Ok (VInt32 (int32 u))
  else if dataType =? TypeInt64 then
    if negb (length =? 8) then Err (EInt64Length length) else
    let! body := reslice_from data 5 in
    let! u := Uint64 body in
    Ok (VInt64 (int64 u))
  else if dataType =? TypeString then
    let! body := reslice_from data 5 in
    if negb (length =? uint32 (Z.of_nat (slen body)))
    then Err (EStringLength length (Z.of_nat (slen body)))
    else Ok (VString (contents body))
  else if dataType =? TypeBytes then
    let! body := reslice_from data 5 in
    if negb (length =? uint32 (Z.of_nat (slen body)))
    then Err (EBytesLength length (Z.of_nat (slen body)))
    else Ok (VBytes (contents body))
  else if dataType =? TypeFloat32 then
    if negb (length =? 4) then Err (EFloat32Length length) else
    let! body := reslice_from data 5 in
    let! u := Uint32 body in
    Ok (VFloat32 u)
  else if dataType =? TypeFloat64 then
    if negb (length =? 8) then Err (EFloat64Length length) else
    let! body := reslice_from data 5 in
    let! u := Uint64 body in
    Ok (VFloat64 u)
  else if dataType =? TypeMap then
    let! hdr := reslice data 1 5 in
    let! numEntries := Uint32 hdr in
    let! hdr := reslice data 5 9 in
    let! totalSize := Uint32 hdr in
    if Z.of_nat (slen data) <? 9 + totalSize
    then Err (EMapTooShort (9 + totalSize) (Z.of_nat (slen data)))
    else
      let! result :=
        decodeEntries data (Z.to_nat numEntries) 9 [] in
      Ok (VMap result)
  else if dataType =? TypeArray then
    let! hdr := reslice data 1 5 in
    let! numElements := Uint32 hdr in
    let! hdr := reslice data 5 9 in
    let! totalSize := Uint32 hdr in
    if Z.of_nat (slen data) <? 9 + totalSize
    then Err (EArrayTooShort (9 + totalSize) (Z.of_nat (slen data)))
    else
      let! result :=
        decodeElems data (Z.to_nat numElements) 9 [] in
      Ok (VArray result)
  else Err (EUnsupportedTag dataType).
End DecodeLoops.

(** [Decode] calls itself on sub-slices that start at least nine bytes
    into [data], so their capacity is smaller: [fuel] bounds the depth of
    the calls and [Decode] below supplies more than can be used (see
    [Decode_terminates]). *)
Fixpoint DecodeFuel (fuel : nat) (data : slice) : res Value :=
  match fuel with
  | O => Diverges
  | S fuel' => decodeBody (DecodeFuel fuel') data
  end.

Definition Decode (data : slice) : res Value := DecodeFuel (S (cap data)) data.

(** [GetType]. *)
Definition GetType (data : slice) : outcome error Z :=
  if (slen data <? 1)%nat then Err ETooShort
  else let! tag := index data 0 in Ok (Z_of_byte tag).

End Serializer.
Import Serializer.
Arguments DecodeFuel : simpl never.

(* ===================================================================== *)
(** * hash.Hash                                                           *)
(* ===================================================================== *)

Module Hash.

(** A [hash.Hash] object: the function that turns the sequence of byte
    strings written since the last [Reset] into the digest, and that
    sequence.  The writes are kept apart: a streaming hash looks at their
    concatenation only, a hasher that works on field elements may look at
    each [Write] on its own, and the model covers both. *)
Record t : Type := Make {
  digest : list (list byte) -> list byte;
  written : list (list byte)
}.

Definition Reset (h : t) : t := Make (digest h) [].
Definition Write (h : t) (p : list byte) : t := Make (digest h) (written h ++ [p]).
(** [h.Sum(nil)]. *)
Definition Sum (h : t) : list byte := digest h (written h).

End Hash.

(* ===================================================================== *)
(** * gnark-crypto: accumulator/merkletree                                *)
(* ===================================================================== *)

(** The library the commitment builders call (version 0.19.2, files
    tree.go, readers.go and verify.go); it is not part of the SDK.  Every
    use of the hasher starts with [Reset], so the functions depend on two
    things of the hasher only: which byte strings its [Write] takes, and
    its digest function.  Leaf counters are [uint64]. *)
Module MerkleTree.

Inductive error : Type :=
| EIndexNotReached.

(** A [subTree] without its [next] pointer: the tree is the list of its
    subtrees, [head] first. *)
Record subTree : Type := SubTree { height : Z; ssum : list byte }.

Record Tree : Type := MkTree {
  head : list subTree;
  currentIndex : Z;
  proofIndex : Z;
  proofSet : list (list byte)
}.

(** [New(h)] followed by [SetIndex(index)]. *)
Definition New (index : Z) : Tree := MkTree [] 0 index [].

Section WithHasher.
(** Whether [h.Write(p)] returns without an error.  The interface asks
    that it always does; a hasher over field elements, as MiMC is, turns
    down what is no sequence of field elements. *)
Variable accepts : list byte -> bool.
Variable digest : list (list byte) -> list byte.

(** The loop of [sum]: [_, err := h.Write(d)], and a panic on an error
    (a [Write] that panics itself has the same effect). *)
Fixpoint writeAll (h : Hash.t) (data : list (list byte)) : outcome error Hash.t :=
  match data with
  | [] => Ok h
  | d :: rest => if accepts d then writeAll (Hash.Write h d) rest else Panic
  end.

(** [sum(h, data...)]: [h.Reset()], one [h.Write] per argument,
    [h.Sum(nil)]. *)
Definition sum (data : list (list byte)) : outcome error (list byte) :=
  let! h := writeAll (Hash.Reset (Hash.Make digest [])) data in
  Ok (Hash.Sum h).

Definition leafSum (data : list byte) : outcome error (list byte) := sum [data].
Definition nodeSum (a b : list byte) : outcome error (list byte) := sum [a; b].

Definition joinSubTrees (a b : subTree) : outcome error subTree :=
  let! s := nodeSum (ssum a) (ssum b) in
  Ok (SubTree (height a + 1) s).

(** [joinAllSubTrees]: [hd] is [t.head], [rest] what follows it. *)
Fixpoint joinAllSubTrees (cur pidx : Z) (hd : subTree) (rest : list subTree)
    (ps : list (list byte)) : outcome error (list subTree * list (list byte)) :=
  match rest with
  | [] => Ok ([hd], ps)
  | next :: rest' =>
      if height hd =? height next then
        let! ps :=
          if height hd =? len ps - 1 then
            let leaves := uint64 (2 ^ height hd) in
            if leaves =? 0 then Panic else
            let mid := uint64 ((cur / leaves) * leaves) in
            let ps := if pidx <? mid then ps ++ [ssum hd] else ps ++ [ssum next] in
            if pidx <? uint64 (mid - leaves) then Panic else Ok ps
          else Ok ps in
        let! joined := joinSubTrees next hd in
        joinAllSubTrees cur pidx joined rest' ps
      else Ok (hd :: rest, ps)
  end.

Definition Push (t : Tree) (data : list byte) : outcome error Tree :=
  let ps := if currentIndex t =? proofIndex t
            then proofSet t ++ [data] else proofSet t in
  let! s := leafSum data in
  let hd := SubTree 0 s in
  let! (stack, ps) := joinAllSubTrees (currentIndex t) (proofIndex t) hd (head t) ps in
  Ok (MkTree stack (uint64 (currentIndex t + 1)) (proofIndex t) ps).

(** [ReadAll] on a [bytes.Buffer] holding [buf]: full segments, then what
    is left as a last short segment.  [fuel] bounds the number of
    segments. *)
Fixpoint readSegments (fuel : nat) (t : Tree) (buf : list byte) (segmentSize : nat)
    : outcome error Tree :=
  match buf with
  | [] => Ok t
  | _ :: _ =>
      match fuel with
      | O => Diverges
      | S fuel' =>
          let! t := Push t (take segmentSize buf) in
          readSegments fuel' t (drop segmentSize buf) segmentSize
      end
  end.

(** With a segment size of zero [io.ReadFull] reads nothing and reports
    no error, so the loop never ends; a negative size makes [make]
    panic. *)
Definition ReadAll (t : Tree) (buf : list byte) (segmentSize : Z) : outcome error Tree :=
  if segmentSize <? 0 then Panic
  else if segmentSize =? 0 then Diverges
  else readSegments (length buf) t buf (Z.to_nat segmentSize).

(** [Root]: the subtrees are joined from the smallest to the tallest. *)
Fixpoint collapse (current : subTree) (rest : list subTree) : outcome error subTree :=
  match rest with
  | [] => Ok current
  | next :: rest' =>
      let! joined := joinSubTrees next current in
      collapse joined rest'
  end.

Definition Root (t : Tree) : outcome error (list byte) :=
  match head t with
  | [] => Ok []
  | hd :: rest => let! top := collapse hd rest in Ok (ssum top)
  end.

(** The first loop of [Prove]: join while the next subtree is lower than
    the one that holds the proof index. *)
Fixpoint joinLower (current : subTree) (rest : list subTree) (n : Z)
    : outcome error (subTree * list subTree) :=
  match rest with
  | next :: rest' =>
      if height next <? n - 1
      then let! joined := joinSubTrees next current in joinLower joined rest' n
      else Ok (current, rest)
  | [] => Ok (current, [])
  end.

Definition Prove (t : Tree) : outcome error (list byte * list (list byte) * Z * Z) :=
  match head t with
  | [] =>
      let! root := Root t in
      Ok (root, [], proofIndex t, currentIndex t)
  | hd :: rest =>
      if len (proofSet t) =? 0
      then
        let! root := Root t in
        Ok (root, [], proofIndex t, currentIndex t)
      else
        let ps := proofSet t in
        let! (current, rest) := joinLower hd rest (len ps) in
        (* sanity check: [current] or [current.next] holds the proof index *)
        if negb (height current =? len ps - 1)
           && match rest with
              | next :: _ => negb (height next =? len ps - 1)
              | [] => false
              end
        then Panic
        else
          let '(ps, rest) :=
            match rest with
            | next :: rest' =>
                (* [current] is an aggregate to the right of [next], the
                   subtree with the proof index *)
                if height next =? len ps - 1
                then (ps ++ [ssum current], rest')
                else (ps, rest)
            | [] => (ps, [])
            end in
          (* the remaining subtrees are left siblings *)
          let! root := Root t in
          Ok (root, ps ++ map ssum rest, proofIndex t, currentIndex t)
  end.

(** [BuildReaderProof(r, h, segmentSize, index)]. *)
Definition BuildReaderProof (buf : list byte) (segmentSize : Z) (index : Z)
    : outcome error (list byte * list (list byte) * Z) :=
  let tree := New index in
  let! tree := ReadAll tree buf segmentSize in
  let! (root, proofSet, _, numLeaves) := Prove tree in
  if len proofSet =? 0 then Err EIndexNotReached
  else Ok (root, proofSet, numLeaves).

(** The first loop of [VerifyProof]: [None] stands for its
    [return false]. [fuel] bounds the height, which stays below 64 since
    [numLeaves] is a [uint64]. *)
Fixpoint verifyStable (fuel : nat) (proofSet : list (list byte))
    (proofIndex numLeaves : Z) (height : Z) (sum : list byte) (stableEnd : Z)
    : outcome error (option (Z * list byte * Z)) :=
  match fuel with
  | O => Ok (Some (height, sum, stableEnd))
  | S fuel' =>
      let size := uint64 (2 ^ height) in
      if size =? 0 then Ok (Some (height, sum, stableEnd)) else
      let subTreeStartIndex := uint64 ((proofIndex / size) * size) in
      let subTreeEndIndex := uint64 (subTreeStartIndex + size - 1) in
      if subTreeEndIndex >=? numLeaves then Ok (Some (height, sum, stableEnd))
      else
        let stableEnd := subTreeEndIndex in
        if len proofSet <=? height then Ok None
        else
          let sibling := nth (Z.to_nat height) proofSet [] in
          let! sum :=
            if uint64 (proofIndex - subTreeStartIndex) <? uint64 (2 ^ (height - 1))
            then nodeSum sum sibling else nodeSum sibling sum in
          verifyStable fuel' proofSet proofIndex numLeaves (height + 1) sum stableEnd
  end.

(** The last loop of [VerifyProof]: what is left of the proof set are
    left siblings. *)
Fixpoint joinLeft (siblings : list (list byte)) (sum : list byte)
    : outcome error (list byte) :=
  match siblings with
  | [] => Ok sum
  | sibling :: rest => let! sum := nodeSum sibling sum in joinLeft rest sum
  end.

Definition VerifyProof (merkleRoot : list byte) (proofSet : list (list byte))
    (proofIndex numLeaves : Z) : outcome error bool :=
  if bool_decide (merkleRoot = []) then Ok false
  else if proofIndex >=? numLeaves then Ok false
  else
    match proofSet with
    | [] => Ok false
    | leaf :: _ =>
        let! sum := leafSum leaf in
        let! stable := verifyStable 64 proofSet proofIndex numLeaves 1 sum proofIndex in
        match stable with
        | None => Ok false
        | Some (height, sum, stableEnd) =>
            let! orphan :=
              if negb (stableEnd =? uint64 (numLeaves - 1)) then
                if len proofSet <=? height then Ok None
                else
                  let! sum := nodeSum sum (nth (Z.to_nat height) proofSet []) in
                  Ok (Some (height + 1, sum))
              else Ok (Some (height, sum)) in
            match orphan with
            | None => Ok false
            | Some (height, sum) =>
                let! sum := joinLeft (drop (Z.to_nat height) proofSet) sum in
                Ok (bool_decide (sum = merkleRoot))
            end
        end
    end.
End WithHasher.

End MerkleTree.

(* ===================================================================== *)
(** * pkg/crypto/key.go                                                   *)
(* ===================================================================== *)

Module Crypto.

(** [type KeyType int] and its constants, numbered by [iota]. *)
Definition KeyTypeSecp256k1 : Z := 0.
Definition KeyTypeMlDSA87 : Z := 1.
Definition KeyTypeED25519 : Z := 2.
Definition KeyTypeBLS12377 : Z := 3.

Definition DEFAULT_KEY_TYPE : Z := KeyTypeSecp256k1.

(** The two hashers [GetHasherByType] constructs:
    [mimc_bn254.NewMiMC(...)] and [mimc_bw6_761.NewMiMC(...)], both with
    big-endian byte order. *)
Inductive Hasher : Type :=
| MiMC_BN254
| MiMC_BW6_761.

Definition GetHasherByType (keyType : Z) : Hasher :=
  if keyType =? KeyTypeSecp256k1 then MiMC_BN254
  else if keyType =? KeyTypeBLS12377 then MiMC_BW6_761
  else MiMC_BN254.

(** [hex.EncodeToString] followed by [strings.ToUpper]. *)
Definition hexDigit (v : Z) : byte :=
  if v <? 10 then byte_of_Z (48 + v) else byte_of_Z (55 + v).

Definition BytesToHex (b : list byte) : list byte :=
  flat_map (fun x => [hexDigit (Z_of_byte x / 16); hexDigit (Z_of_byte x mod 16)]) b.

End Crypto.

(* ===================================================================== *)
(** * math/big and gnark-crypto/ecc                                       *)
(* ===================================================================== *)

Module Big.

(** [x.Bytes()]: the absolute value of [x] as a big-endian byte string
    without leading zeros. *)
Definition byteLen (x : Z) : nat :=
  if x =? 0 then 0%nat else Z.to_nat ((Z.log2 (Z.abs x) + 8) / 8).

Definition Bytes (x : Z) : list byte :=
  let n := byteLen x in
  map (fun i => byte_of_Z (Z.shiftr (Z.abs x) (8 * Z.of_nat (n - 1 - i)))) (seq 0 n).

End Big.

Module Ecc.

(** [ecc.BN254.ScalarField()]: the order of the BN254 groups. *)
Definition BN254_ScalarField : Z :=
  21888242871839275222246405745257275088548364400416034343698204186575808495617.

(** [ecc.BW6_761.ScalarField()]: the order of the BW6-761 groups, which is
    the base field of BLS12-377. *)
Definition BW6_761_ScalarField : Z :=
  258664426012969094010652733694893533536393512754914660539884262666720468348340822774968888139573360124440321458177.

End Ecc.

(** gnark-crypto's MiMC hashers ([ecc/bn254/fr/mimc] and
    [ecc/bw6-761/fr/mimc]); the library is not part of the SDK.  Only what
    [Write] takes is modelled, the permutation is not. *)
Module Mimc.

(** [BlockSize]: the byte width of an element of the hasher's field. *)
Definition BlockSize (kind : Crypto.Hasher) : Z :=
  match kind with
  | Crypto.MiMC_BN254 => 32
  | Crypto.MiMC_BW6_761 => 48
  end.

(** The modulus of the hasher's field, [fr.Modulus()]. *)
Definition Modulus (kind : Crypto.Hasher) : Z :=
  match kind with
  | Crypto.MiMC_BN254 => Ecc.BN254_ScalarField
  | Crypto.MiMC_BW6_761 => Ecc.BW6_761_ScalarField
  end.

(** Whether [Write(p)] returns without an error.  A [p] shorter than a
    block is put behind zero bytes to fill one block; then every block of
    [p] has to be the big-endian form of a number below the modulus, and
    [p] has to end with a block.  On every other [p], [Write] returns an
    error or runs over the end of [p] and panics. *)
Definition accepts (kind : Crypto.Hasher) (p : list byte) : bool :=
  let size := Z.to_nat (BlockSize kind) in
  let p := if (0 <? len p) && (len p <? BlockSize kind)
           then zeros (size - length p) ++ p else p in
  (length p mod size =? 0)%nat
  && forallb (fun k => be_value (take size (drop (k * size) p)) <? Modulus kind)
             (seq 0 (length p / size)).

End Mimc.

(* ===================================================================== *)
(** * pkg/transaction/transaction.go, transaction_session.go              *)
(* ===================================================================== *)

Module Transaction.

Definition TIMESTAMP_SIZE : Z := 8.
Definition CHUNK_SIZE : Z := 16.
Definition DEPTH : Z := 6.

Definition ECDSA_CURVE : Z := Ecc.BN254_ScalarField.
Definition BLS_CURVE : Z := Ecc.BW6_761_ScalarField.

(** [type ULTransactionType int], numbered by [iota]. *)
Inductive ULTransactionType : Type :=
| INVALID_TX_TYPE
| TX_DATA
| TX_CREATE_WALLET
| TX_ALTER_WALLET
| DEPLOY_SMART_CONTRACT
| INVOKE_SMART_CONTRACT
| UPGRADE_SMART_CONTRACT
| ROLLBACK_SMART_CONTRACT
| CREATE_TOKEN
| TRANSFER_TOKEN
| APPROVE_TOKEN
| MINT_TOKEN
| BURN_TOKEN
| MINT_NFT
| TRANSFER_NFT
| APPROVE_NFT
| SET_APPROVAL_FOR_ALL
| TRANSFER_MULTI_TOKEN
| MINT_MULTI_TOKEN
| CONVERT_TOKEN.

(** [func (tt ULTransactionType) String() string]. *)
Definition String (tt : ULTransactionType) : gostring :=
  str match tt with
      | TX_DATA => "DATA"
      | TX_CREATE_WALLET => "CREATE_WALLET"
      | TX_ALTER_WALLET => "ALTER_WALLET"
      | DEPLOY_SMART_CONTRACT => "DEPLOY_SMART_CONTRACT"
      | INVOKE_SMART_CONTRACT => "INVOKE_SMART_CONTRACT"
      | UPGRADE_SMART_CONTRACT => "UPGRADE_SMART_CONTRACT"
      | ROLLBACK_SMART_CONTRACT => "ROLLBACK_SMART_CONTRACT"
      | CREATE_TOKEN => "CREATE_TOKEN"
      | TRANSFER_TOKEN => "TRANSFER_TOKEN"
      | APPROVE_TOKEN => "APPROVE_TOKEN"
      | MINT_TOKEN => "MINT_TOKEN"
      | BURN_TOKEN => "BURN_TOKEN"
      | MINT_NFT => "MINT_NFT"
      | TRANSFER_NFT => "TRANSFER_NFT"
      | APPROVE_NFT => "APPROVE_NFT"
      | SET_APPROVAL_FOR_ALL => "SET_APPROVAL_FOR_ALL"
      | TRANSFER_MULTI_TOKEN => "TRANSFER_MULTI_TOKEN"
      | MINT_MULTI_TOKEN => "MINT_MULTI_TOKEN"
      | CONVERT_TOKEN => "CONVERT_TOKEN"
      | INVALID_TX_TYPE => ""
      end.

(** The errors of the commitment code, one constructor per error return. *)
Inductive error : Type :=
| EHashLength (got : Z)
| EPayloadTooLarge (maxSize got : Z)
| ELeafCount
| EProofNotValid
| EMerkle (cause : MerkleTree.error).

Definition res := outcome error.

(** A call into the Merkle tree library; its errors are passed on as they
    are. *)
Definition lib {A} (m : outcome MerkleTree.error A) : res A :=
  match m with
  | Ok a => Ok a
  | Err e => Err (EMerkle e)
  | Panic => Panic
  | Diverges => Diverges
  end.

Record TransactionCommitment : Type := {
  BlockchainIdHigh : list byte;
  BlockchainIdLow : list byte;
  FromHigh : list byte;
  FromLow : list byte;
  ToHigh : list byte;
  ToLow : list byte;
  PayloadRoot : list byte;
  Timestamp : Z;
  SuggestorHigh : list byte;
  SuggestorLow : list byte;
  ProofElements : list (list byte);
  ChunkIndex : Z;
  NumLeaves : Z;
  ChunkSize : Z;
  ProofChunk : list byte;
  Depth : Z
}.

(** [ULTransactionInput]; [SenderTimestamp] is kept as its Unix time in
    seconds, the only thing the commitment reads from it, and
    [PayloadRoot] is named [InputPayloadRoot] to keep it apart from the
    field of [TransactionCommitment]. *)
Record ULTransactionInput : Type := {
  BlockchainId : gostring;
  To : gostring;
  From : gostring;
  Payload : gostring;
  SenderSignature : gostring;
  PayloadType : gostring;
  Suggestor : gostring;
  SenderTimestamp : Z;
  InputPayloadRoot : gostring;
  KeyType : Z
}.

(** [make([]byte, n)] panics for a negative [n]. *)
Definition make {E} (n : Z) : outcome E (list byte) :=
  if n <? 0 then Panic else Ok (zeros (Z.to_nat n)).

(** [payload[start:end]] for a payload that fills its backing array. *)
Definition sub {E} (payload : list byte) (start end_ : Z) : outcome E (list byte) :=
  if (0 <=? start) && (start <=? end_) && (end_ <=? len payload)
  then Ok (take (Z.to_nat (end_ - start)) (drop (Z.to_nat start) payload))
  else Panic.

(** [1 << depth] on [int]: a negative shift count panics, and bits
    shifted out are lost. *)
Definition shl1 {E} (depth : Z) : outcome E Z :=
  if depth <? 0 then Panic else Ok (int (2 ^ depth)).

Section WithPrimitives.
(** [sha256.Sum256] of the standard library. *)
Variable Sum256 : list byte -> list byte.

(** [splitHash32]. *)
Definition splitHash32 (data : gostring) : res (list byte * list byte) :=
  let hash := Sum256 data in
  if negb (len hash =? 32) then Err (EHashLength (len hash))
  else Ok (take 16 hash, drop 16 hash).

Section WithHasher.
(** The [hasher hash.Hash] argument: which byte strings its [Write]
    takes, and its digest function. *)
Variable accepts : list byte -> bool.
Variable digest : list (list byte) -> list byte.

(** The loop of [GenerateMerkleTreeWithHardBound]: [n] iterations are
    still to run, [i] is the loop counter. *)
Fixpoint hardBoundLeaves (n : nat) (i : Z) (payload : list byte)
    (modulusSizeBytes chunkSize proofIndex : Z)
    (buf proofChunk : list byte) : res (list byte * list byte) :=
  match n with
  | O => Ok (buf, proofChunk)
  | S n' =>
      let! chunk := make chunkSize in
      let! chunk :=
        if int (i * chunkSize) <? len payload then
          let start := int (i * chunkSize) in
          let end_ := int (start + chunkSize) in
          let end_ := if end_ >? len payload then len payload else end_ in
          let! part := sub payload start end_ in
          let chunk := chunk ++ part in
          let! pad := make (modulusSizeBytes - len chunk) in
          Ok (chunk ++ pad)
        else Ok chunk in
      let proofChunk := if i =? int proofIndex then chunk else proofChunk in
      let! chunk :=
        if len chunk <? modulusSizeBytes then
          let! pad := make (modulusSizeBytes - len chunk) in
          Ok (chunk ++ pad)
        else Ok chunk in
      let! lead := make (modulusSizeBytes - len chunk) in
      let buf := (buf ++ lead) ++ chunk in
      hardBoundLeaves n' (i + 1) payload modulusSizeBytes chunkSize proofIndex
                      buf proofChunk
  end.

Definition GenerateMerkleTreeWithHardBound (payload : list byte) (modulus : Z)
    (chunkSize depth : Z) (proofIndex : Z)
    : res (list byte * list (list byte) * list byte * Z) :=
  let! leaves := shl1 depth in
  let maxSize := int (chunkSize * leaves) in
  if len payload >? maxSize
  then Err (EPayloadTooLarge maxSize (len payload))
  else
    let modulusSizeBytes := len (Big.Bytes modulus) in
    let! (buf, proofChunk) :=
      hardBoundLeaves (Z.to_nat leaves) 0 payload modulusSizeBytes chunkSize
                      proofIndex [] [] in
    let! (merkleRoot, proofElements, numLeaves) :=
      lib (MerkleTree.BuildReaderProof accepts digest buf modulusSizeBytes proofIndex) in
    if negb (numLeaves =? uint64 leaves) then Err ELeafCount
    else
      let! verified :=
        lib (MerkleTree.VerifyProof accepts digest merkleRoot proofElements
               proofIndex numLeaves) in
      if negb verified then Err EProofNotValid
      else Ok (merkleRoot, proofElements, proofChunk, numLeaves).

(** The loop of [GenerateMerkleTree]. *)
Fixpoint exactLeaves (n : nat) (i : Z) (payload : list byte)
    (modulusSizeBytes chunkSize proofIndex : Z)
    (buf proofChunk : list byte) : res (list byte * list byte) :=
  match n with
  | O => Ok (buf, proofChunk)
  | S n' =>
      let start := int (i * chunkSize) in
      let end_ := int (start + chunkSize) in
      let end_ := if end_ >? len payload then len payload else end_ in
      let! chunk := sub payload start end_ in
      let! paddedChunk := make (modulusSizeBytes - len chunk) in
      let paddedChunk := paddedChunk ++ chunk in
      let proofChunk := if i =? int proofIndex then paddedChunk else proofChunk in
      exactLeaves n' (i + 1) payload modulusSizeBytes chunkSize proofIndex
                  (buf ++ paddedChunk) proofChunk
  end.

(** [GenerateMerkleTree].  The last result, [treeDepth], is
    [int(math.Log2(float64(numLeaves)))]; no caller in the SDK reads
    it, and it is given here as the integer logarithm. *)
Definition GenerateMerkleTree (payload : list byte) (modulus : Z)
    (chunkSize : Z) (proofIndex : Z)
    : res (list byte * list (list byte) * list byte * Z * Z) :=
  let modulusSizeBytes := len (Big.Bytes modulus) in
  if chunkSize =? 0 then Panic (* integer division by zero *) else
  let nrLeaves := int (Z.quot (int (int (len payload + chunkSize) - 1)) chunkSize) in
  let! (buf, proofChunk) :=
    exactLeaves (Z.to_nat nrLeaves) 0 payload modulusSizeBytes chunkSize
                proofIndex [] [] in
  let! (merkleRoot, proofElements, numLeaves) :=
    lib (MerkleTree.BuildReaderProof accepts digest buf modulusSizeBytes proofIndex) in
  let! verified :=
    lib (MerkleTree.VerifyProof accepts digest merkleRoot proofElements
           proofIndex numLeaves) in
  if negb verified then Err EProofNotValid
  else Ok (merkleRoot, proofElements, proofChunk, numLeaves, Z.log2 numLeaves).

(** The [switch t.KeyType] of both commitment methods. *)
Definition field (keyType : Z) : Z :=
  if keyType =? Crypto.KeyTypeBLS12377 then BLS_CURVE else ECDSA_CURVE.

Definition GetSignatureCommitment (t : ULTransactionInput) (computeRoot : bool)
    : res TransactionCommitment :=
  let! (blockchainIdHigh, blockchainIdLow) := splitHash32 (BlockchainId t) in
  let! (fromHigh, fromLow) := splitHash32 (From t) in
  let! (toHigh, toLow) := splitHash32 (To t) in
  let! (suggestorHigh, suggestorLow) := splitHash32 (Suggestor t) in
  let field := field (KeyType t) in
  let! (payloadRoot, proofElements, proofChunk, numLeaves) :=
    GenerateMerkleTreeWithHardBound (Payload t) field CHUNK_SIZE DEPTH (uint64 0) in
  Ok {| BlockchainIdHigh := blockchainIdHigh;
        BlockchainIdLow := blockchainIdLow;
        FromHigh := fromHigh;
        FromLow := fromLow;
        ToHigh := toHigh;
        ToLow := toLow;
        Timestamp := uint64 (SenderTimestamp t);
        SuggestorHigh := suggestorHigh;
        SuggestorLow := suggestorLow;
        ChunkIndex := 0;
        ChunkSize := CHUNK_SIZE;
        Depth := DEPTH;
        PayloadRoot := payloadRoot;
        ProofElements := proofElements;
        NumLeaves := numLeaves;
        ProofChunk := proofChunk |}.

Definition GetUnboundCommitment (t : ULTransactionInput) : res (list byte) :=
  let field := field (KeyType t) in
  let! (payloadRoot, _, _, _, _) :=
    GenerateMerkleTree (Payload t) field CHUNK_SIZE (uint64 0) in
  Ok payloadRoot.
End WithHasher.

(** [HashSignatureCommitment], on the hasher object itself;
    [binary.Write(hasher, binary.BigEndian, commitment.Timestamp)] is one
    [Write] of the eight bytes of the timestamp.  The hasher is returned
    in the state the call leaves it in. *)
Definition HashSignatureCommitment (hasher : Hash.t) (commitment : TransactionCommitment)
    : list byte * Hash.t :=
  let hasher := Hash.Reset hasher in
  let hasher := Hash.Write hasher (BlockchainIdHigh commitment) in
  let hasher := Hash.Write hasher (BlockchainIdLow commitment) in
  let hasher := Hash.Write hasher (FromHigh commitment) in
  let hasher := Hash.Write hasher (FromLow commitment) in
  let hasher := Hash.Write hasher (ToHigh commitment) in
  let hasher := Hash.Write hasher (ToLow commitment) in
  let hasher := Hash.Write hasher (PayloadRoot commitment) in
  let hasher := Hash.Write hasher (PutUint64 (Timestamp commitment)) in
  let hasher := Hash.Write hasher (SuggestorHigh commitment) in
  let hasher := Hash.Write hasher (SuggestorLow commitment) in
  (Hash.Sum hasher, hasher).

(** The digest functions of the two MiMC hashers of gnark-crypto; what
    their [Write] takes is [Mimc.accepts]. *)
Variable MiMC : Crypto.Hasher -> list (list byte) -> list byte.

Definition NewHasher (kind : Crypto.Hasher) : Hash.t := Hash.Make (MiMC kind) [].

(** What [GenerateTransaction] needs of the session: the suggestor and
    the wallet's address and key type. *)
Record Session : Type := {
  suggestor : gostring;
  walletAddress : gostring;
  walletKeyType : Z
}.

(** [GenerateTransaction] up to the call of [SignData]: the input as
    completed by the session and the [commitment] that is signed.
    [curTime] is the Unix time in seconds read from the clock (the code
    formats [time.Now()] to RFC 3339 and parses it back, which drops the
    fraction of a second). *)
Definition GenerateTransaction_commitment (session : Session)
    (input : ULTransactionInput) (curTime : Z)
    : res (list byte * ULTransactionInput) :=
  let input := {| BlockchainId := BlockchainId input; To := To input;
                  From := if bool_decide (PayloadType input <> String TX_CREATE_WALLET)
                          then walletAddress session else From input;
                  Payload := Payload input;
                  SenderSignature := SenderSignature input;
                  PayloadType := PayloadType input;
                  Suggestor := suggestor session;
                  SenderTimestamp := curTime;
                  InputPayloadRoot := InputPayloadRoot input;
                  KeyType := walletKeyType session |} in
  let hasher := NewHasher (Crypto.GetHasherByType (KeyType input)) in
  let accepts := Mimc.accepts (Crypto.GetHasherByType (KeyType input)) in
  let withRoot root :=
    {| BlockchainId := BlockchainId input; To := To input; From := From input;
       Payload := Payload input; SenderSignature := SenderSignature input;
       PayloadType := PayloadType input; Suggestor := Suggestor input;
       SenderTimestamp := SenderTimestamp input;
       InputPayloadRoot := Crypto.BytesToHex root;
       KeyType := KeyType input |} in
  if bool_decide (PayloadType input = String DEPLOY_SMART_CONTRACT)
     || bool_decide (PayloadType input = String UPGRADE_SMART_CONTRACT)
     || bool_decide (PayloadType input = String TX_CREATE_WALLET)
     || bool_decide (PayloadType input = String TX_ALTER_WALLET)
  then
    let! commitment := GetUnboundCommitment accepts (Hash.digest hasher) input in
    Ok (commitment, withRoot commitment)
  else
    let! signatureCommitment :=
      GetSignatureCommitment accepts (Hash.digest hasher) input true in
    let '(commitment, _) := HashSignatureCommitment hasher signatureCommitment in
    Ok (commitment, withRoot (PayloadRoot signatureCommitment)).
End WithPrimitives.

End Transaction.

(* ===================================================================== *)
(** * strings and encoding/hex                                            *)
(* ===================================================================== *)

Module Strings.

(** A byte below [utf8.RuneSelf]. *)
Definition isASCII (c : byte) : bool := Z_of_byte c <? 128.

Definition upperByte (c : byte) : byte :=
  if (97 <=? Z_of_byte c) && (Z_of_byte c <=? 122) then byte_of_Z (Z_of_byte c - 32) else c.

Definition lowerByte (c : byte) : byte :=
  if (65 <=? Z_of_byte c) && (Z_of_byte c <=? 90) then byte_of_Z (Z_of_byte c + 32) else c.

Section Unicode.
(** [strings.Map(unicode.ToUpper, s)] and [strings.Map(unicode.ToLower, s)],
    which the library falls back on for a string with a byte that is not
    ASCII; the Unicode tables are not modelled. *)
Variables mapUnicodeUpper mapUnicodeLower : gostring -> gostring.

(** [strings.ToUpper]: an ASCII string is mapped byte by byte. *)
Definition ToUpper (s : gostring) : gostring :=
  if forallb isASCII s then map upperByte s else mapUnicodeUpper s.

(** [strings.ToLower]. *)
Definition ToLower (s : gostring) : gostring :=
  if forallb isASCII s then map lowerByte s else mapUnicodeLower s.
End Unicode.

End Strings.

Module Hex.

(** [hextable], the digits [EncodeToString] writes. *)
Definition digit (v : Z) : byte :=
  if v <? 10 then byte_of_Z (48 + v) else byte_of_Z (87 + v).

(** [hex.EncodeToString]. *)
Definition EncodeToString (src : list byte) : gostring :=
  flat_map (fun x => [digit (Z.shiftr (Z_of_byte x) 4); digit (Z.land (Z_of_byte x) 15)]) src.

(** [reverseHexTable]: the value of a hexadecimal digit of either case. *)
Definition fromHexChar (c : byte) : option Z :=
  let v := Z_of_byte c in
  if (48 <=? v) && (v <=? 57) then Some (v - 48)
  else if (97 <=? v) && (v <=? 102) then Some (v - 97 + 10)
  else if (65 <=? v) && (v <=? 70) then Some (v - 65 + 10)
  else None.

Inductive error : Type :=
| InvalidByteError (c : byte)
| ErrLength.

(** [hex.Decode], pair by pair: the bytes decoded before the first
    error, and that error.  A string of odd length is reported as such
    only if its last character is a digit. *)
Fixpoint Decode (src : list byte) : list byte * option error :=
  match src with
  | [] => ([], None)
  | [p] =>
      match fromHexChar p with
      | None => ([], Some (InvalidByteError p))
      | Some _ => ([], Some ErrLength)
      end
  | p :: q :: rest =>
      match fromHexChar p, fromHexChar q with
      | None, _ => ([], Some (InvalidByteError p))
      | Some _, None => ([], Some (InvalidByteError q))
      | Some a, Some b =>
          let '(dst, err) := Decode rest in
          (byte_of_Z (Z.lor (Z.shiftl a 4) b) :: dst, err)
      end
  end.

(** [hex.DecodeString]. *)
Definition DecodeString (s : gostring) : list byte * option error := Decode s.

End Hex.

(* ===================================================================== *)
(** * pkg/crypto: the names of the key types, the hex helpers and the     *)
(** * deterministic reader                                                *)
(* ===================================================================== *)

Module CryptoKey.
Import Crypto.

(** [func (k KeyType) String() string]. *)
Definition String (k : Z) : gostring :=
  if k =? KeyTypeBLS12377 then str "bls12377"
  else if k =? KeyTypeED25519 then str "ed25519"
  else if k =? KeyTypeMlDSA87 then str "mldsa87"
  else if k =? KeyTypeSecp256k1 then str "secp256k1"
  else str "secp256k1".

Section Unicode.
Variable mapUnicodeLower : gostring -> gostring.

(** [ParseCryptoKeyType]. *)
Definition ParseCryptoKeyType (key : gostring) : Z :=
  let lower := Strings.ToLower mapUnicodeLower key in
  if bool_decide (lower = String KeyTypeBLS12377) then KeyTypeBLS12377
  else if bool_decide (lower = String KeyTypeED25519) then KeyTypeED25519
  else if bool_decide (lower = String KeyTypeMlDSA87) then KeyTypeMlDSA87
  else if bool_decide (lower = String KeyTypeSecp256k1) then KeyTypeSecp256k1
  else DEFAULT_KEY_TYPE.
End Unicode.

(** The four implementations of [ULKey], as [NewSecp256k1Key],
    [NewMLDSA87Key], [NewED25519Key] and [NewBLS12377Key] return them:
    with no key set. *)
Inductive ULKey : Type :=
| Secp256k1Key
| MLDSA87Key
| ED25519Key
| BLS12377Key.

(** The [GetType] method of each implementation. *)
Definition GetType (key : ULKey) : Z :=
  match key with
  | Secp256k1Key => KeyTypeSecp256k1
  | MLDSA87Key => KeyTypeMlDSA87
  | ED25519Key => KeyTypeED25519
  | BLS12377Key => KeyTypeBLS12377
  end.

Inductive error : Type :=
| EInvalidKeyType (keyType : Z).

(** [GetKeyByType]; the constructors ignore the hasher. *)
Definition GetKeyByType (keyType : Z) (hasher : Hasher) : outcome error ULKey :=
  if keyType =? KeyTypeSecp256k1 then Ok Secp256k1Key
  else if keyType =? KeyTypeMlDSA87 then Ok MLDSA87Key
  else if keyType =? KeyTypeED25519 then Ok ED25519Key
  else if keyType =? KeyTypeBLS12377 then Ok BLS12377Key
  else Err (EInvalidKeyType keyType).

End CryptoKey.

Module CryptoUtils.

Inductive error : Type :=
| EUnableToDecode (cause : Hex.error).

(** [HexToBytes]. *)
Definition HexToBytes (h : gostring) : outcome error (list byte) :=
  match Hex.DecodeString h with
  | (data, None) => Ok data
  | (_, Some err) => Err (EUnableToDecode err)
  end.

(** [deterministicReader]. *)
Record deterministicReader : Type := Reader { data : list byte; offset : Z }.

(** [NewDeterministicReader]; [Key] is [pbkdf2.Key] with SHA-1. *)
Definition NewDeterministicReader (Key : list byte -> list byte -> Z -> Z -> list byte)
    (seed salt : list byte) : deterministicReader :=
  Reader (Key seed salt 4096 64) 0.

(** [NewDeterministicReaderHexSeed]; the error of [hex.DecodeString] is
    returned as it is. *)
Definition NewDeterministicReaderHexSeed (seedHex : gostring)
  : outcome Hex.error deterministicReader :=
  match Hex.DecodeString seedHex with
  | (seed, None) => Ok (Reader seed 0)
  | (_, Some err) => Err err
  end.

(** [io.EOF]. *)
Inductive ioError : Type :=
| EOF.

(** [func (r *deterministicReader) Read(p []byte) (n int, err error)]:
    the reader and the buffer [p] after the call, and [n].  [copy] fills
    the front of [p] with as many bytes as both sides have. *)
Definition Read (r : deterministicReader) (p : list byte)
  : outcome ioError (deterministicReader * list byte * Z) :=
  if offset r >=? len (data r) then Err EOF
  else if offset r <? 0 then Panic
  else
    let src := drop (Z.to_nat (offset r)) (data r) in
    let n := Z.min (len p) (len src) in
    Ok (Reader (data r) (int (offset r + n)),
        take (Z.to_nat n) src ++ drop (Z.to_nat n) p,
        n).

End CryptoUtils.

(* ===================================================================== *)
(** * pkg/transaction/transaction.go: names of statuses, types, outputs   *)
(* ===================================================================== *)

Module TransactionParsing.
Import Transaction.

Inductive error : Type :=
| ErrParsingTransactionStatus (Msg : gostring)
| ErrParsingTransactionType (Msg : gostring)
| ErrParsingTransactionOutput (Msg : gostring).

(** [type UL_TransactionStatus int]. *)
Definition INVALID_TX_STATUS : Z := 0.
Definition TX_SUBMITTED : Z := 1.
Definition TX_ACCEPTED : Z := 2.
Definition TX_REJECTED : Z := 3.

(** [func (ts UL_TransactionStatus) String() string]. *)
Definition UL_TransactionStatus_String (ts : Z) : gostring :=
  if ts =? TX_SUBMITTED then str "SUBMITTED"
  else if ts =? TX_ACCEPTED then str "ACCEPTED"
  else if ts =? TX_REJECTED then str "REJECTED"
  else str "".

(** [type UL_TransactionOutput int]. *)
Definition INVALID_TX_OUTPUT : Z := 0.
Definition TO_BE_PROCESSED : Z := 1.
Definition TX_SUCCESS : Z := 2.
Definition TX_REJECTED_BY_DUPLICATE : Z := 3.
Definition TX_REJECTED_BY_UNEXISTING : Z := 4.
Definition TX_REJECTED_BY_DISABLED : Z := 5.
Definition TX_REJECTED_BY_UNAUTHORIZED : Z := 6.
Definition TX_REJECTED_BY_INVALID_SIGNATURE : Z := 7.
Definition TX_TRANSACTION_ERROR : Z := 8.
Definition TX_REJECTED_BY_INVALID_KEY_TYPE : Z := 9.

(** [func (tt UL_TransactionOutput) String() string]. *)
Definition UL_TransactionOutput_String (tt : Z) : gostring :=
  if tt =? TO_BE_PROCESSED then str "TO_BE_PROCESSED"
  else if tt =? TX_SUCCESS then str "SUCCESS"
  else if tt =? TX_REJECTED_BY_DUPLICATE then str "REJECTED_BY_DUPLICATE"
  else if tt =? TX_REJECTED_BY_UNEXISTING then str "REJECTED_BY_UNEXISTING"
  else if tt =? TX_REJECTED_BY_DISABLED then str "REJECTED_BY_DISABLED"
  else if tt =? TX_REJECTED_BY_UNAUTHORIZED then str "REJECTED_BY_UNAUTHORIZED"
  else if tt =? TX_REJECTED_BY_INVALID_SIGNATURE then str "REJECTED_BY_INVALID_SIGNATURE"
  else if tt =? TX_TRANSACTION_ERROR then str "TRANSACTION_ERROR"
  else if tt =? TX_REJECTED_BY_INVALID_KEY_TYPE then str "REJECTED_BY_INVALID_KEY_TYPE"
  else str "".

(** A [switch] on a string whose cases are the names of [cases], tried
    from the first to the last. *)
Definition switchOn {A} (name : A -> gostring) (cases : list A) (tag : gostring) : option A :=
  find (fun c => bool_decide (tag = name c)) cases.

Section Unicode.
Variable mapUnicodeUpper : gostring -> gostring.

(** [ParseTransactionStatus]. *)
Definition ParseTransactionStatus (s : gostring) : outcome error Z :=
  match switchOn UL_TransactionStatus_String
          [TX_SUBMITTED; TX_ACCEPTED; TX_REJECTED]
          (Strings.ToUpper mapUnicodeUpper s) with
  | Some ts => Ok ts
  | None => Err (ErrParsingTransactionStatus s)
  end.

(** [ParseTransactionType]: the [switch] has no case for [TX_CREATE_WALLET]
    and none for [TX_ALTER_WALLET]. *)
Definition ParseTransactionType (s : gostring) : outcome error ULTransactionType :=
  match switchOn String
          [TX_DATA; DEPLOY_SMART_CONTRACT; INVOKE_SMART_CONTRACT;
           UPGRADE_SMART_CONTRACT; ROLLBACK_SMART_CONTRACT; CREATE_TOKEN;
           TRANSFER_TOKEN; APPROVE_TOKEN; MINT_TOKEN; BURN_TOKEN; MINT_NFT;
           TRANSFER_NFT; APPROVE_NFT; SET_APPROVAL_FOR_ALL;
           TRANSFER_MULTI_TOKEN; MINT_MULTI_TOKEN; CONVERT_TOKEN]
          (Strings.ToUpper mapUnicodeUpper s) with
  | Some kind => Ok kind
  | None => Err (ErrParsingTransactionType s)
  end.

(** [ParseTransactionOutput]. *)
Definition ParseTransactionOutput (s : gostring) : outcome error Z :=
  match switchOn UL_TransactionOutput_String
          [TO_BE_PROCESSED; TX_SUCCESS; TX_REJECTED_BY_DUPLICATE;
           TX_REJECTED_BY_UNEXISTING; TX_REJECTED_BY_DISABLED;
           TX_REJECTED_BY_UNAUTHORIZED; TX_REJECTED_BY_INVALID_SIGNATURE;
           TX_TRANSACTION_ERROR; TX_REJECTED_BY_INVALID_KEY_TYPE]
          (Strings.ToUpper mapUnicodeUpper s) with
  | Some out => Ok out
  | None => Err (ErrParsingTransactionOutput s)
  end.
End Unicode.

End TransactionParsing.

(* ===================================================================== *)
(** * pkg/wallet: addresses and entropy sizes                             *)
(* ===================================================================== *)

Module Wallet.

Section WithPrimitives.
Variable mapUnicodeLower : gostring -> gostring.
(** [sha256.Sum256]. *)
Variable Sum256 : list byte -> list byte.

(** [ParseAddress]. *)
Definition ParseAddress (publicKeyHex : gostring) : gostring :=
  let lower := Strings.ToLower mapUnicodeLower publicKeyHex in
  let d := Sum256 lower in
  Hex.EncodeToString d.
End WithPrimitives.

(** [type Entropy int]: sizes in bits. *)
Definition Entropy128 : Z := 128.
Definition Entropy160 : Z := 160.
Definition Entropy192 : Z := 192.
Definition Entropy224 : Z := 224.
Definition Entropy256 : Z := 256.
Definition DefaultEntropy : Z := Entropy256.

(** [MakeEntropy]. *)
Definition MakeEntropy (i : Z) : Z :=
  if i =? 128 then Entropy128
  else if i =? 160 then Entropy160
  else if i =? 192 then Entropy192
  else if i =? 224 then Entropy224
  else if i =? 256 then Entropy256
  else DefaultEntropy.

Inductive error (E : Type) : Type :=
| EEntropySize
| EGenerateEntropy (cause : E)
| EGenerateMnemonic (cause : E).
Arguments EEntropySize {E}.
Arguments EGenerateEntropy {E} cause.
Arguments EGenerateMnemonic {E} cause.

Section Mnemonic.
Variable E : Type.
(** What [rand.Read] makes of the buffer it is given, and
    [bip39.NewMnemonic]. *)
Variable randRead : list byte -> outcome E (list byte).
Variable NewMnemonic : list byte -> outcome E gostring.

(** [GenerateMnemonic]; [%] and [/] of Go truncate. *)
Definition GenerateMnemonic (entropySize : Z) : outcome (error E) gostring :=
  if negb (Z.rem entropySize 32 =? 0) || (entropySize <? 128) || (entropySize >? 256)
  then Err EEntropySize
  else
    match randRead (zeros (Z.to_nat (Z.quot entropySize 8))) with
    | Err e => Err (EGenerateEntropy e)
    | Panic => Panic
    | Diverges => Diverges
    | Ok entropy =>
        match NewMnemonic entropy with
        | Err e => Err (EGenerateMnemonic e)
        | Panic => Panic
        | Diverges => Diverges
        | Ok mnemonic => Ok mnemonic
        end
    end.
End Mnemonic.

End Wallet.

(* ===================================================================== *)
(** * Vocabulary of the statements                                        *)
(* ===================================================================== *)

(** ** The codec *)

(** [extends d d']: [d'] is [d] with a longer backing array.  A call that
    neither panics nor runs out of fuel on [d] never looks behind the
    capacity of [d], so it ends in the same way on [d'], and with any
    larger fuel. *)
Definition extends (d d' : slice) : Prop :=
  wf d /\ slen d' = slen d /\ exists spare, arr d' = arr d ++ spare.

(** A call that returned, with a value or with an error. *)
Definition settled {A} (r : res A) : Prop :=
  match r with Ok _ | Err _ => True | _ => False end.

(** A call that came to an end, were it with a panic. *)
Definition halts {A} (r : res A) : Prop := r <> Diverges.

(** Induction on values, with the induction hypothesis for the elements of
    an array and for the values of a map. *)
Section ValueInd.
Variable P : Value -> Prop.
Hypothesis HNil : P VNil.
Hypothesis HBool : forall b, P (VBool b).
Hypothesis HInt32 : forall v, P (VInt32 v).
Hypothesis HInt64 : forall v, P (VInt64 v).
Hypothesis HString : forall s, P (VString s).
Hypothesis HBytes : forall b, P (VBytes b).
Hypothesis HFloat32 : forall v, P (VFloat32 v).
Hypothesis HFloat64 : forall v, P (VFloat64 v).
Hypothesis HArray : forall elems, Forall P elems -> P (VArray elems).
Hypothesis HMap : forall entries, Forall (fun e => P (snd e)) entries -> P (VMap entries).
Hypothesis HOther : P VOther.

Fixpoint Value_nested_ind (v : Value) : P v :=
  match v with
  | VNil => HNil
  | VBool b => HBool b
  | VInt32 z => HInt32 z
  | VInt64 z => HInt64 z
  | VString s => HString s
  | VBytes b => HBytes b
  | VFloat32 z => HFloat32 z
  | VFloat64 z => HFloat64 z
  | VArray elems =>
      HArray elems
        ((fix go (l : list Value) : Forall P l :=
            match l with
            | [] => List.Forall_nil P
            | x :: l' => @List.Forall_cons _ P x l' (Value_nested_ind x) (go l')
            end) elems)
  | VMap entries =>
      HMap entries
        ((fix go (l : list (gostring * Value)) : Forall (fun e => P (snd e)) l :=
            match l with
            | [] => List.Forall_nil _
            | e :: l' => @List.Forall_cons _ _ e l' (Value_nested_ind (snd e)) (go l')
            end) entries)
  | VOther => HOther
  end.
End ValueInd.

(** Two values have the same content: equal scalars, slices with the same
    elements in the same order, maps with the same entries, whatever the
    order in which they are listed.  As [VArray] stands for a slice of any
    type, and no constructor tells a nil slice or map from an empty one,
    this is coarser than Go's equality of the two values: it is their
    equality up to the type of their slices and up to nil against empty.
    [Decode] always hands back [[]interface{}]. *)
Inductive same_value : Value -> Value -> Prop :=
| same_nil : same_value VNil VNil
| same_bool b : same_value (VBool b) (VBool b)
| same_int32 v : same_value (VInt32 v) (VInt32 v)
| same_int64 v : same_value (VInt64 v) (VInt64 v)
| same_string s : same_value (VString s) (VString s)
| same_bytes b : same_value (VBytes b) (VBytes b)
| same_float32 v : same_value (VFloat32 v) (VFloat32 v)
| same_float64 v : same_value (VFloat64 v) (VFloat64 v)
| same_other : same_value VOther VOther
| same_array l1 l2 :
    Forall2 same_value l1 l2 -> same_value (VArray l1) (VArray l2)
| same_map m1 m1' m2 :
    NoDup (map fst m1) ->
    Forall2 (fun e1 e2 => fst e1 = fst e2 /\ same_value (snd e1) (snd e2)) m1 m1' ->
    m1' ≡ₚ m2 ->
    same_value (VMap m1) (VMap m2).

(** The bytes of a map entry: the encoded key, then the encoded value. *)
Definition entryBytes (e : gostring * Value) (valEnc : list byte) : list byte :=
  encodeString (fst e) ++ valEnc.

(** The entries of a map, listed by ascending key. *)
Definition entry_le (e1 e2 : gostring * Value) : Prop := string_le (fst e1) (fst e2).

#[global] Instance entry_le_dec : RelDecision entry_le.
Proof. intros e1 e2. unfold entry_le. apply _. Defined.

Definition sortEntries (m : list (gostring * Value)) : list (gostring * Value) :=
  merge_sort entry_le m.

(** A scalar that its Go type can hold. *)
Definition scalar (v : Value) : Prop :=
  match v with
  | VNil | VBool _ => True
  | VInt32 z => - 2 ^ 31 <= z < 2 ^ 31
  | VInt64 z => - 2 ^ 63 <= z < 2 ^ 63
  | VString s | VBytes s => len s < 2 ^ 32
  | VFloat32 bits => 0 <= bits < 2 ^ 32
  | VFloat64 bits => 0 <= bits < 2 ^ 64
  | VArray _ | VMap _ | VOther => False
  end.

(** An encoding whose length word is the length of its body. *)
Definition framed (enc : list byte) : Prop :=
  (5 <= length enc)%nat /\ be_value (take 4 (drop 1 enc)) = len enc - 5.

(** A value made of scalars only: a scalar, a slice of scalars or a map of
    scalars with less than 2^32 members. *)
Definition flat (v : Value) : Prop :=
  match v with
  | VArray elems => len elems < 2 ^ 32 /\ Forall scalar elems
  | VMap m =>
      len m < 2 ^ 32 /\ NoDup (map fst m)
      /\ Forall (fun e => len (fst e) < 2 ^ 32 /\ scalar (snd e)) m
  | _ => scalar v
  end.

(** What [Decode] hands back for the encoding of [v]: the map it builds has
    the entries of [v], listed here by ascending key. *)
Definition decoded (v : Value) : Value :=
  match v with
  | VMap m => VMap (sortEntries m)
  | _ => v
  end.

(** ** Values [Encode] accepts, and hand-made buffers *)

(** A value [Encode] has a case for, all the way down. *)
Fixpoint supported (v : Value) : bool :=
  match v with
  | VOther => false
  | VArray elems => forallb supported elems
  | VMap m => forallb (fun e => supported (snd e)) m
  | _ => true
  end.

(** Every map inside the value holds each of its keys once, as a Go map
    does. *)
Fixpoint distinctKeys (v : Value) : bool :=
  match v with
  | VArray elems => forallb distinctKeys elems
  | VMap m => bool_decide (NoDup (map fst m)) && forallb (fun e => distinctKeys (snd e)) m
  | _ => true
  end.

(** The [ContractDataType] of a supported value. *)
Definition tagOf (v : Value) : Z :=
  match v with
  | VNil => TypeNull
  | VBool _ => TypeBool
  | VInt32 _ => TypeInt32
  | VInt64 _ => TypeInt64
  | VString _ => TypeString
  | VBytes _ => TypeBytes
  | VArray _ => TypeArray
  | VMap _ => TypeMap
  | VFloat32 _ => TypeFloat32
  | VFloat64 _ => TypeFloat64
  | VOther => -1
  end.

(** [v, ok := m[key]]. *)
Fixpoint mapGet (m : list (gostring * Value)) (key : gostring) : option Value :=
  match m with
  | [] => None
  | (k', x) :: m' => if decide (k' = key) then Some x else mapGet m' key
  end.
(** A hand-made array buffer: count word [len elems], any size word [t],
    the encodings of the elements, then [junk]. *)
Definition arrayBuffer (elems : list Value) (t : Z) (encs : list (list byte))
    (junk : list byte) : list byte :=
  [x06] ++ PutUint32 (len elems) ++ PutUint32 t ++ concat encs ++ junk.

Definition mapBuffer (es : list (gostring * Value)) (t : Z) (encs : list (list byte))
    (junk : list byte) : list byte :=
  [x07] ++ PutUint32 (len es) ++ PutUint32 t ++ concat (zip_with entryBytes es encs) ++ junk.

(** ** The commitment protocol *)

Module CommitmentSpec.
Import Transaction.

(** The [CommitmentPreimage]: the byte strings written to the hasher, in
    the order in which they are written. *)
Definition CommitmentPreimage (c : TransactionCommitment) : list (list byte) :=
  [BlockchainIdHigh c; BlockchainIdLow c; FromHigh c; FromLow c; ToHigh c; ToLow c;
   PayloadRoot c; PutUint64 (Timestamp c); SuggestorHigh c; SuggestorLow c].

(** [hi] and [lo] are the first and the last sixteen bytes of the 32-byte
    digest [h]. *)
Definition halves (h hi lo : list byte) : Prop :=
  length h = 32%nat /\ hi = take 16 h /\ lo = drop 16 h
  /\ length hi = 16%nat /\ length lo = 16%nat /\ h = hi ++ lo.

(** The bytes [GenerateTransaction] passes to [SignData]. *)
Definition signedBytes Sum256 MiMC (session : Session) (input : ULTransactionInput)
    (curTime : Z) : res (list byte) :=
  let! r := GenerateTransaction_commitment Sum256 MiMC session input curTime in
  Ok (fst r).

(** The transaction kinds of the unbound branch. *)
Definition unbound (kind : ULTransactionType) : bool :=
  match kind with
  | DEPLOY_SMART_CONTRACT | UPGRADE_SMART_CONTRACT
  | TX_CREATE_WALLET | TX_ALTER_WALLET => true
  | _ => false
  end.

(** The input of the bound branch, as the session completes it. *)
Definition boundInput (session : Session) (input : ULTransactionInput) (curTime : Z)
  : ULTransactionInput :=
  {| BlockchainId := BlockchainId input; To := To input;
     From := walletAddress session;
     Payload := Payload input;
     SenderSignature := SenderSignature input;
     PayloadType := PayloadType input;
     Suggestor := suggestor session;
     SenderTimestamp := curTime;
     InputPayloadRoot := InputPayloadRoot input;
     KeyType := walletKeyType session |}.

(** [payload[i*chunkSize : min((i+1)*chunkSize, len(payload))]]. *)
Definition chunkOf (payload : list byte) (chunkSize i : Z) : list byte :=
  take (Z.to_nat chunkSize) (drop (Z.to_nat (i * chunkSize)) payload).

(** A chunk with zero bytes in front, [w] bytes in all. *)
Definition leftPad (w : Z) (chunk : list byte) : list byte :=
  zeros (Z.to_nat (w - len chunk)) ++ chunk.

(** The leaf the hard-bound builder writes for slot [i]. *)
Definition hardBoundLeaf (payload : list byte) (w chunkSize i : Z) : list byte :=
  if i * chunkSize <? len payload
  then zeros (Z.to_nat chunkSize) ++ chunkOf payload chunkSize i
       ++ zeros (Z.to_nat (w - chunkSize - len (chunkOf payload chunkSize i)))
  else zeros (Z.to_nat w).

End CommitmentSpec.

(** ** The Merkle tree library when no write is turned down

    The functions of [MerkleTree] with the hasher's digest function alone:
    what they compute as long as the hasher takes every byte string
    written to it.  The perfect trees and the forests below are stated on
    them, and [MerkleTree]'s functions are shown to return what these
    compute whenever the leaves and the digests are byte strings the hasher
    takes. *)
Module PureTree.
Import MerkleTree.

Section WithHasher.
Variable digest : list (list byte) -> list byte.

(** [sum] when every [Write] is taken. *)
Definition sum (data : list (list byte)) : list byte :=
  Hash.Sum (fold_left Hash.Write data (Hash.Reset (Hash.Make digest []))).

Definition leafSum (data : list byte) : list byte := sum [data].
Definition nodeSum (a b : list byte) : list byte := sum [a; b].

Definition joinSubTrees (a b : subTree) : subTree :=
  SubTree (height a + 1) (nodeSum (ssum a) (ssum b)).

Fixpoint joinAllSubTrees (cur pidx : Z) (hd : subTree) (rest : list subTree)
    (ps : list (list byte)) : outcome error (list subTree * list (list byte)) :=
  match rest with
  | [] => Ok ([hd], ps)
  | next :: rest' =>
      if height hd =? height next then
        let! ps :=
          if height hd =? len ps - 1 then
            let leaves := uint64 (2 ^ height hd) in
            if leaves =? 0 then Panic else
            let mid := uint64 ((cur / leaves) * leaves) in
            let ps := if pidx <? mid then ps ++ [ssum hd] else ps ++ [ssum next] in
            if pidx <? uint64 (mid - leaves) then Panic else Ok ps
          else Ok ps in
        joinAllSubTrees cur pidx (joinSubTrees next hd) rest' ps
      else Ok (hd :: rest, ps)
  end.

Definition Push (t : Tree) (data : list byte) : outcome error Tree :=
  let ps := if currentIndex t =? proofIndex t
            then proofSet t ++ [data] else proofSet t in
  let hd := SubTree 0 (leafSum data) in
  let! (stack, ps) := joinAllSubTrees (currentIndex t) (proofIndex t) hd (head t) ps in
  Ok (MkTree stack (uint64 (currentIndex t + 1)) (proofIndex t) ps).

Fixpoint readSegments (fuel : nat) (t : Tree) (buf : list byte) (segmentSize : nat)
    : outcome error Tree :=
  match buf with
  | [] => Ok t
  | _ :: _ =>
      match fuel with
      | O => Diverges
      | S fuel' =>
          let! t := Push t (take segmentSize buf) in
          readSegments fuel' t (drop segmentSize buf) segmentSize
      end
  end.

Definition ReadAll (t : Tree) (buf : list byte) (segmentSize : Z) : outcome error Tree :=
  if segmentSize <? 0 then Panic
  else if segmentSize =? 0 then Diverges
  else readSegments (length buf) t buf (Z.to_nat segmentSize).

Fixpoint collapse (current : subTree) (rest : list subTree) : subTree :=
  match rest with
  | [] => current
  | next :: rest' => collapse (joinSubTrees next current) rest'
  end.

Definition Root (t : Tree) : list byte :=
  match head t with
  | [] => []
  | hd :: rest => ssum (collapse hd rest)
  end.

Fixpoint joinLower (current : subTree) (rest : list subTree) (n : Z)
    : subTree * list subTree :=
  match rest with
  | next :: rest' =>
      if height next <? n - 1 then joinLower (joinSubTrees next current) rest' n
      else (current, rest)
  | [] => (current, [])
  end.

Definition Prove (t : Tree) : outcome error (list byte * list (list byte) * Z * Z) :=
  match head t with
  | [] => Ok (Root t, [], proofIndex t, currentIndex t)
  | hd :: rest =>
      if len (proofSet t) =? 0
      then Ok (Root t, [], proofIndex t, currentIndex t)
      else
        let ps := proofSet t in
        let '(current, rest) := joinLower hd rest (len ps) in
        if negb (height current =? len ps - 1)
           && match rest with
              | next :: _ => negb (height next =? len ps - 1)
              | [] => false
              end
        then Panic
        else
          let '(ps, rest) :=
            match rest with
            | next :: rest' =>
                if height next =? len ps - 1
                then (ps ++ [ssum current], rest')
                else (ps, rest)
            | [] => (ps, [])
            end in
          Ok (Root t, ps ++ map ssum rest, proofIndex t, currentIndex t)
  end.

Definition BuildReaderProof (buf : list byte) (segmentSize : Z) (index : Z)
    : outcome error (list byte * list (list byte) * Z) :=
  let tree := New index in
  let! tree := ReadAll tree buf segmentSize in
  let! (root, proofSet, _, numLeaves) := Prove tree in
  if len proofSet =? 0 then Err EIndexNotReached
  else Ok (root, proofSet, numLeaves).

Fixpoint verifyStable (fuel : nat) (proofSet : list (list byte))
    (proofIndex numLeaves : Z) (height : Z) (sum : list byte) (stableEnd : Z)
    : option (Z * list byte * Z) :=
  match fuel with
  | O => Some (height, sum, stableEnd)
  | S fuel' =>
      let size := uint64 (2 ^ height) in
      if size =? 0 then Some (height, sum, stableEnd) else
      let subTreeStartIndex := uint64 ((proofIndex / size) * size) in
      let subTreeEndIndex := uint64 (subTreeStartIndex + size - 1) in
      if subTreeEndIndex >=? numLeaves then Some (height, sum, stableEnd)
      else
        let stableEnd := subTreeEndIndex in
        if len proofSet <=? height then None
        else
          let sibling := nth (Z.to_nat height) proofSet [] in
          let sum :=
            if uint64 (proofIndex - subTreeStartIndex) <? uint64 (2 ^ (height - 1))
            then nodeSum sum sibling else nodeSum sibling sum in
          verifyStable fuel' proofSet proofIndex numLeaves (height + 1) sum stableEnd
  end.

Definition VerifyProof (merkleRoot : list byte) (proofSet : list (list byte))
    (proofIndex numLeaves : Z) : bool :=
  if bool_decide (merkleRoot = []) then false
  else if proofIndex >=? numLeaves then false
  else
    match proofSet with
    | [] => false
    | leaf :: _ =>
        let sum := leafSum leaf in
        match verifyStable 64 proofSet proofIndex numLeaves 1 sum proofIndex with
        | None => false
        | Some (height, sum, stableEnd) =>
            let orphan :=
              if negb (stableEnd =? uint64 (numLeaves - 1)) then
                if len proofSet <=? height then None
                else Some (height + 1, nodeSum sum (nth (Z.to_nat height) proofSet []))
              else Some (height, sum) in
            match orphan with
            | None => false
            | Some (height, sum) =>
                let sum :=
                  fold_left (fun sum sibling => nodeSum sibling sum)
                            (drop (Z.to_nat height) proofSet) sum in
                bool_decide (sum = merkleRoot)
            end
        end
    end.
End WithHasher.

End PureTree.

(** ** Perfect Merkle trees *)

Module MerkleSpec.
Import MerkleTree PureTree.

Definition pow2 (d : nat) : Z := 2 ^ Z.of_nat d.

Section WithHasher.
Variable digest : list (list byte) -> list byte.

(** The root of the perfect tree of depth [d] over [2^d] leaves. *)
Fixpoint mroot (d : nat) (leaves : list (list byte)) : list byte :=
  match d with
  | O => leafSum digest (nth 0 leaves [])
  | S d' => nodeSum digest (mroot d' (take (2 ^ d') leaves)) (mroot d' (drop (2 ^ d') leaves))
  end.

(** The siblings on the way from leaf [p] to the root, lowest first. *)
Fixpoint mpath (d : nat) (leaves : list (list byte)) (p : nat) : list (list byte) :=
  match d with
  | O => []
  | S d' =>
      if (p <? 2 ^ d')%nat
      then mpath d' (take (2 ^ d') leaves) p ++ [mroot d' (drop (2 ^ d') leaves)]
      else mpath d' (drop (2 ^ d') leaves) (p - 2 ^ d') ++ [mroot d' (take (2 ^ d') leaves)]
  end.

Fixpoint pushAll (t : Tree) (leaves : list (list byte)) : outcome error Tree :=
  match leaves with
  | [] => Ok t
  | leaf :: rest => let! t := Push digest t leaf in pushAll t rest
  end.

(** What the proof set holds once the block of [2^d] leaves that starts at
      [cur] has been pushed. *)
Definition blockProof (d : nat) (leaves : list (list byte)) (cur p : Z)
    (ps : list (list byte)) : list (list byte) :=
  if bool_decide (ps = []) && (cur <=? p) && (p <? cur + pow2 d)
  then nth (Z.to_nat (p - cur)) leaves [] :: mpath d leaves (Z.to_nat (p - cur))
  else ps.

(** The hashes [VerifyProof] computes on its way up, with the sibling
      list [sibs] starting at height [h]. *)
Fixpoint climb (sibs : list (list byte)) (p h : Z) (sum : list byte) : list byte :=
  match sibs with
  | [] => sum
  | s :: rest =>
      climb rest p (h + 1)
            (if p - (p / 2 ^ h) * 2 ^ h <? 2 ^ (h - 1)
             then nodeSum digest sum s else nodeSum digest s sum)
  end.

End WithHasher.

End MerkleSpec.

(** ** The leaves and proof chunks of the builders *)

(** The proof chunk the hard-bound builder hands back for slot [i]: the
    copy is taken before the slots behind the payload are widened. *)
Definition hardBoundProofChunk (payload : list byte) (w chunkSize i : Z) : list byte :=
  if i * chunkSize <? len payload
  then CommitmentSpec.hardBoundLeaf payload w chunkSize i
  else zeros (Z.to_nat chunkSize).

(** The [2^depth] leaves of the hard-bound builder. *)
Definition hardBoundLeafList (payload : list byte) (w chunkSize : Z) (depth : nat)
  : list (list byte) :=
  map (fun k => CommitmentSpec.hardBoundLeaf payload w chunkSize (Z.of_nat k)) (seq 0 (2 ^ depth)).

(** ** Trees over any number of leaves *)

Module ForestSpec.
Import MerkleTree PureTree MerkleSpec.

Section WithHasher.
Variable digest : list (list byte) -> list byte.

(** The stack of subtrees the library holds once it has pushed [leaves],
    fewer than [2^d] of them: one perfect tree per binary digit of their
    number, the smallest first. *)
Fixpoint forest (d : nat) (leaves : list (list byte)) : list subTree :=
  match d with
  | O => []
  | S d' =>
      if (2 ^ d' <=? length leaves)%nat
      then forest d' (drop (2 ^ d') leaves)
             ++ [SubTree (Z.of_nat d') (mroot digest d' (take (2 ^ d') leaves))]
      else forest d' leaves
  end.

(** The proof set the library holds at that point; [cur] is the index of
    the first of [leaves]. *)
Fixpoint forestProof (d : nat) (leaves : list (list byte)) (cur p : Z)
    (ps : list (list byte)) : list (list byte) :=
  match d with
  | O => ps
  | S d' =>
      if (2 ^ d' <=? length leaves)%nat
      then forestProof d' (drop (2 ^ d') leaves) (cur + pow2 d') p
             (blockProof digest d' (take (2 ^ d') leaves) cur p ps)
      else forestProof d' leaves cur p ps
  end.

(** The sum [Root] and [Prove] reach when they join the subtrees [rest],
    one after the other, onto the sum [current]. *)
Definition joined (current : list byte) (rest : list subTree) : list byte :=
  fold_left (fun cur next => nodeSum digest (ssum next) cur) rest current.

End WithHasher.
End ForestSpec.

(** The leaves of the exact-mode builder. *)
Definition exactLeafList (payload : list byte) (w chunkSize : Z) (n : nat)
  : list (list byte) :=
  map (fun k => CommitmentSpec.leftPad w (CommitmentSpec.chunkOf payload chunkSize (Z.of_nat k))) (seq 0 n).

(** [(len(payload) + chunkSize - 1) / chunkSize]. *)
Definition leafCount (payload : list byte) (chunkSize : Z) : Z :=
  (len payload + chunkSize - 1) / chunkSize.

(** The test of the unbound branch of [GenerateTransaction]. *)
Definition unboundType (payloadType : gostring) : bool :=
  bool_decide (payloadType = Transaction.String Transaction.DEPLOY_SMART_CONTRACT)
  || bool_decide (payloadType = Transaction.String Transaction.UPGRADE_SMART_CONTRACT)
  || bool_decide (payloadType = Transaction.String Transaction.TX_CREATE_WALLET)
  || bool_decide (payloadType = Transaction.String Transaction.TX_ALTER_WALLET).

(** ** Hexadecimal text *)

(** A hexadecimal digit of either case. *)
Definition isHexDigit (c : byte) : bool :=
  let v := Z_of_byte c in
  ((48 <=? v) && (v <=? 57)) || ((97 <=? v) && (v <=? 102)) || ((65 <=? v) && (v <=? 70)).

(** A digit or a lower-case letter from a to f. *)
Definition isLowerHexDigit (c : byte) : bool :=
  let v := Z_of_byte c in
  ((48 <=? v) && (v <=? 57)) || ((97 <=? v) && (v <=? 102)).

(** ** Stand-ins for the examples

    A digest function and a 32-byte hash to run the definitions on; they
    are not MiMC and not SHA-256. *)

Definition exampleDigest (segments : list (list byte)) : list byte :=
  [byte_of_Z (fold_left (fun acc seg => acc * 31 + be_value seg + len seg) segments 7);
   byte_of_Z (fold_left (fun acc seg => acc * 17 + be_value seg + 3) segments 1)].

Definition exampleSum256 (data : list byte) : list byte :=
  take 32 (data ++ map (fun i => byte_of_Z (Z.of_nat i + len data)) (seq 0 32)).

Definition exampleInput : Transaction.ULTransactionInput :=
  {| Transaction.BlockchainId := str "MyBlockchain1";
     Transaction.To := str "receiver";
     Transaction.From := str "sender";
     Transaction.Payload := str "test";
     Transaction.SenderSignature := [];
     Transaction.PayloadType := str "DATA";
     Transaction.Suggestor := str "node";
     Transaction.SenderTimestamp := 1700000000;
     Transaction.InputPayloadRoot := [];
     Transaction.KeyType := Crypto.KeyTypeSecp256k1 |}.

Definition exampleSession : Transaction.Session :=
  {| Transaction.suggestor := str "node";
     Transaction.walletAddress := str "sender";
     Transaction.walletKeyType := Crypto.KeyTypeED25519 |}.
(* ===================================================================== *)
(** * Facts about bytes and big-endian words                              *)
(* ===================================================================== *)

Lemma Z_of_byte_range (b : byte) : 0 <= Z_of_byte b < 256.
Proof.
  unfold Z_of_byte. pose proof (Byte.to_N_bounded b). lia.
Qed.

Lemma Z_of_byte_of_Z (v : Z) : Z_of_byte (byte_of_Z v) = v mod 256.
Proof.
  unfold Z_of_byte, byte_of_Z.
  assert (Hr : 0 <= v mod 256 < 256) by (apply Z.mod_pos_bound; lia).
  destruct (Byte.of_N (Z.to_N (v mod 256))) as [b|] eqn:Hb.
  - apply Byte.to_of_N in Hb. rewrite Hb. lia.
  - apply Byte.of_N_None_iff in Hb. lia.
Qed.

Lemma byte_of_Z_of_byte (b : byte) : byte_of_Z (Z_of_byte b) = b.
Proof.
  unfold byte_of_Z. pose proof (Z_of_byte_range b) as Hr.
  rewrite Z.mod_small by lia. unfold Z_of_byte. rewrite N2Z.id.
  now rewrite Byte.of_to_N.
Qed.

Lemma Z_of_byte_inj (a b : byte) : Z_of_byte a = Z_of_byte b -> a = b.
Proof.
  intros H. rewrite <- (byte_of_Z_of_byte a), <- (byte_of_Z_of_byte b).
  now rewrite H.
Qed.

Lemma Z_of_byte_zero (b : byte) : Z_of_byte b = 0 <-> b = x00.
Proof.
  split; [intros H; apply Z_of_byte_inj; rewrite H; reflexivity | now intros ->].
Qed.

Lemma be_value_PutUint32 (v : Z) : be_value (PutUint32 v) = v mod 2 ^ 32.
Proof.
  unfold be_value, PutUint32. simpl. rewrite !Z_of_byte_of_Z, !Z.shiftr_div_pow2 by lia.
  change (2 ^ 32) with (256 * (256 * (256 * 256))).
  change (2 ^ 24) with (256 * (256 * 256)).
  change (2 ^ 16) with (256 * 256). change (2 ^ 8) with 256.
  rewrite !Z.rem_mul_r by lia.
  rewrite <- !Z.div_div by lia. lia.
Qed.

Lemma be_value_PutUint64 (v : Z) : be_value (PutUint64 v) = v mod 2 ^ 64.
Proof.
  unfold be_value, PutUint64. simpl. rewrite !Z_of_byte_of_Z, !Z.shiftr_div_pow2 by lia.
  change (2 ^ 64) with (256 * (256 * (256 * (256 * (256 * (256 * (256 * 256))))))).
  change (2 ^ 56) with (256 * (256 * (256 * (256 * (256 * (256 * 256)))))).
  change (2 ^ 48) with (256 * (256 * (256 * (256 * (256 * 256))))).
  change (2 ^ 40) with (256 * (256 * (256 * (256 * 256)))).
  change (2 ^ 32) with (256 * (256 * (256 * 256))).
  change (2 ^ 24) with (256 * (256 * 256)).
  change (2 ^ 16) with (256 * 256). change (2 ^ 8) with 256.
  rewrite !Z.rem_mul_r by lia.
  rewrite <- !Z.div_div by lia. lia.
Qed.

Lemma length_PutUint32 (v : Z) : length (PutUint32 v) = 4%nat.
Proof. reflexivity. Qed.

Lemma length_PutUint64 (v : Z) : length (PutUint64 v) = 8%nat.
Proof. reflexivity. Qed.

(* ===================================================================== *)
(** * Facts about slices                                                  *)
(* ===================================================================== *)

Lemma reslice_Ok {E} (s : slice) (lo hi : Z) :
  0 <= lo <= hi -> hi <= Z.of_nat (cap s) ->
  @reslice E s lo hi = Ok (Slice (drop (Z.to_nat lo) (arr s)) (Z.to_nat (hi - lo))).
Proof.
  intros [H1 H2] H3. unfold reslice.
  destruct (Z.leb_spec 0 lo); [|lia]. destruct (Z.leb_spec lo hi); [|lia].
  destruct (Z.leb_spec hi (Z.of_nat (cap s))); [|lia]. reflexivity.
Qed.

Lemma reslice_Panic {E} (s : slice) (lo hi : Z) :
  Z.of_nat (cap s) < hi -> @reslice E s lo hi = Panic.
Proof.
  intros H. unfold reslice.
  destruct (Z.leb_spec hi (Z.of_nat (cap s))); [lia|].
  now rewrite andb_false_r.
Qed.

Lemma reslice_from_Ok {E} (s : slice) (lo : Z) :
  0 <= lo <= Z.of_nat (slen s) ->
  @reslice_from E s lo = Ok (Slice (drop (Z.to_nat lo) (arr s)) (slen s - Z.to_nat lo)).
Proof.
  intros [H1 H2]. unfold reslice_from.
  destruct (Z.leb_spec 0 lo); [|lia].
  destruct (Z.leb_spec lo (Z.of_nat (slen s))); [|lia]. reflexivity.
Qed.

Lemma index_Ok {E} (s : slice) (i : Z) :
  0 <= i < Z.of_nat (slen s) -> @index E s i = Ok (nth (Z.to_nat i) (arr s) x00).
Proof.
  intros [H1 H2]. unfold index.
  destruct (Z.leb_spec 0 i); [|lia].
  destruct (Z.ltb_spec i (Z.of_nat (slen s))); [|lia]. reflexivity.
Qed.

Lemma cap_of_list_cap (l spare : list byte) :
  cap (of_list_cap l spare) = (length l + length spare)%nat.
Proof. unfold cap, of_list_cap. simpl. now rewrite length_app. Qed.

Lemma contents_of_list_cap (l spare : list byte) :
  contents (of_list_cap l spare) = l.
Proof. unfold contents, of_list_cap. simpl. now rewrite take_app_length. Qed.

(* ===================================================================== *)
(** * The codec                                                           *)
(* ===================================================================== *)

Lemma DecodeFuel_unfold (fuel : nat) (data : slice) :
  DecodeFuel (S fuel) data = decodeBody (DecodeFuel fuel) data.
Proof. reflexivity. Qed.

Lemma extends_of_list_cap l spare : extends (of_list l) (of_list_cap l spare).
Proof. unfold extends, wf, cap, of_list, of_list_cap; simpl. eauto. Qed.

Lemma index_extends {E} d d' i : extends d d' -> @index E d' i = index d i.
Proof.
  intros (Hwf & Hl & spare & Ha). unfold index. rewrite Hl.
  destruct ((0 <=? i) && (i <? Z.of_nat (slen d))) eqn:Hc; [|reflexivity].
  apply andb_prop in Hc as [H1 H2]. apply Z.leb_le in H1. apply Z.ltb_lt in H2.
  rewrite Ha. rewrite app_nth1; [reflexivity|]. unfold wf, cap in Hwf. lia.
Qed.

Lemma reslice_extends {E} d d' lo hi s :
  extends d d' -> @reslice E d lo hi = Ok s ->
  exists s', @reslice E d' lo hi = Ok s' /\ extends s s'.
Proof.
  intros (Hwf & Hl & spare & Ha) H. unfold reslice in *.
  destruct ((0 <=? lo) && (lo <=? hi) && (hi <=? Z.of_nat (cap d))) eqn:Hc; [|discriminate].
  apply andb_prop in Hc as [Hc H3]. apply andb_prop in Hc as [H1 H2].
  apply Z.leb_le in H1, H2, H3. injection H as <-.
  assert (Hc' : (0 <=? lo) && (lo <=? hi) && (hi <=? Z.of_nat (cap d')) = true).
  { unfold cap in *. rewrite Ha, length_app.
    repeat (apply andb_true_intro; split); apply Z.leb_le; lia. }
  rewrite Hc'. eexists; split; [reflexivity|].
  unfold extends, wf, cap in *; simpl. rewrite length_drop. repeat split; [lia|].
  exists spare. rewrite Ha, drop_app_le by lia. reflexivity.
Qed.

Lemma reslice_from_extends {E} d d' lo s :
  extends d d' -> @reslice_from E d lo = Ok s ->
  exists s', @reslice_from E d' lo = Ok s' /\ extends s s'.
Proof.
  intros (Hwf & Hl & spare & Ha) H. unfold reslice_from in *. rewrite Hl.
  destruct ((0 <=? lo) && (lo <=? Z.of_nat (slen d))) eqn:Hc; [|discriminate].
  apply andb_prop in Hc as [H1 H2]. apply Z.leb_le in H1, H2. injection H as <-.
  eexists; split; [reflexivity|].
  unfold extends, wf, cap in *; simpl. rewrite length_drop. repeat split; [lia|].
  exists spare. rewrite Ha, drop_app_le by lia. reflexivity.
Qed.

Lemma Uint32_extends {E} s s' : extends s s' -> @Uint32 E s' = Uint32 s.
Proof.
  intros (Hwf & Hl & spare & Ha). unfold Uint32. rewrite Hl.
  destruct (4 <=? slen s)%nat eqn:Hc; [|reflexivity].
  apply Nat.leb_le in Hc. rewrite Ha, take_app_le; [reflexivity|].
  unfold wf, cap in Hwf. lia.
Qed.

Lemma Uint64_extends {E} s s' : extends s s' -> @Uint64 E s' = Uint64 s.
Proof.
  intros (Hwf & Hl & spare & Ha). unfold Uint64. rewrite Hl.
  destruct (8 <=? slen s)%nat eqn:Hc; [|reflexivity].
  apply Nat.leb_le in Hc. rewrite Ha, take_app_le; [reflexivity|].
  unfold wf, cap in Hwf. lia.
Qed.

Lemma contents_extends s s' : extends s s' -> contents s' = contents s.
Proof.
  intros (Hwf & Hl & spare & Ha). unfold contents. rewrite Hl, Ha.
  apply take_app_le. exact Hwf.
Qed.

Lemma slen_extends s s' : extends s s' -> slen s' = slen s.
Proof. now intros (_ & Hl & _). Qed.

Lemma sim_bind {A B} (m m' : res A) (k k' : A -> res B) :
  (settled m -> m' = m) ->
  (forall a, settled (k a) -> k' a = k a) ->
  settled (bind m k) -> bind m' k' = bind m k.
Proof.
  intros Hm Hk Hs. destruct m; cbn in *; try contradiction.
  - rewrite Hm by exact I. cbn. now apply Hk.
  - now rewrite Hm.
Qed.

Lemma sim_bind_slice {B} (m m' : res slice) (k k' : slice -> res B) :
  (forall a, m = Ok a -> exists a', m' = Ok a' /\ extends a a') ->
  (forall e, m <> Err e) ->
  (forall a a', extends a a' -> settled (k a) -> k' a' = k a) ->
  settled (bind m k) -> bind m' k' = bind m k.
Proof.
  intros Hm He Hk Hs. destruct m; cbn in *; try contradiction.
  - destruct (Hm _ eq_refl) as (a' & -> & Ha). cbn. now apply Hk.
  - now destruct (He e).
Qed.

Lemma reslice_not_Err {E} d lo hi (e : E) : reslice d lo hi <> Err e.
Proof. unfold reslice. now destruct (_ && _). Qed.

Lemma reslice_from_not_Err {E} d lo (e : E) : reslice_from d lo <> Err e.
Proof. unfold reslice_from. now destruct (_ && _). Qed.

Lemma sim_wrap (Dec Dec' : slice -> res Value) f c c' :
  (forall c c', extends c c' -> settled (Dec c) -> Dec' c' = Dec c) ->
  extends c c' -> settled (wrap f (Dec c)) -> wrap f (Dec' c') = wrap f (Dec c).
Proof.
  intros H E Hs. rewrite (H c c' E); [reflexivity|]. now destruct (Dec c).
Qed.

Ltac sim :=
  repeat match goal with
  | E : extends ?d ?d' |- context [slen ?d'] => rewrite (slen_extends d d' E)
  | E : extends ?d ?d' |- context [contents ?d'] => rewrite (contents_extends d d' E)
  end;
  lazymatch goal with
  | |- settled (bind (reslice _ _ _) _) -> _ =>
      apply sim_bind_slice;
      [ intros ? ?; eapply reslice_extends; eassumption
      | intros ?; apply reslice_not_Err
      | intros ? ? ? ]
  | |- settled (bind (reslice_from _ _) _) -> _ =>
      apply sim_bind_slice;
      [ intros ? ?; eapply reslice_from_extends; eassumption
      | intros ?; apply reslice_from_not_Err
      | intros ? ? ? ]
  | |- settled (bind (index _ _) _) -> _ =>
      apply sim_bind; [ intros _; apply index_extends; assumption | intros ? ]
  | |- settled (bind (Uint32 _) _) -> _ =>
      apply sim_bind; [ intros _; apply Uint32_extends; assumption | intros ? ]
  | |- settled (bind (Uint64 _) _) -> _ =>
      apply sim_bind; [ intros _; apply Uint64_extends; assumption | intros ? ]
  | |- settled (bind (wrap _ _) _) -> _ =>
      apply sim_bind; [ apply sim_wrap; assumption | intros ? ]
  | |- settled (let x := _ in _) -> _ => cbv zeta
  | |- settled (if ?c then _ else _) -> _ => destruct c
  | |- settled (match ?v with _ => _ end) -> _ => destruct v
  | |- _ -> ?x = ?x => reflexivity
  end.

Section Sim.
Variables Dec Dec' : slice -> res Value.
Hypothesis HDec : forall c c', extends c c' -> settled (Dec c) -> Dec' c' = Dec c.

Lemma decodeElems_extends d d' n : forall offset result,
  extends d d' ->
  settled (decodeElems Dec d n offset result) ->
  decodeElems Dec' d' n offset result = decodeElems Dec d n offset result.
Proof.
  induction n as [|n IH]; intros offset result E; [reflexivity|].
  cbn [decodeElems]. repeat sim. now apply IH.
Qed.

Lemma decodeEntries_extends d d' n : forall offset result,
  extends d d' ->
  settled (decodeEntries Dec d n offset result) ->
  decodeEntries Dec' d' n offset result = decodeEntries Dec d n offset result.
Proof.
  induction n as [|n IH]; intros offset result E; [reflexivity|].
  cbn [decodeEntries]. repeat sim. now apply IH.
Qed.
End Sim.

Lemma DecodeFuel_extends (f : nat) : forall (f' : nat) (d d' : slice),
  (f <= f')%nat -> extends d d' ->
  settled (DecodeFuel f d) -> DecodeFuel f' d' = DecodeFuel f d.
Proof.
  induction f as [|f IH]; intros f' d d' Hf E; [intros []|].
  destruct f' as [|f']; [lia|]. rewrite !DecodeFuel_unfold.
  assert (HDec : forall c c', extends c c' ->
            settled (DecodeFuel f c) -> DecodeFuel f' c' = DecodeFuel f c)
    by (intros; apply IH; [lia|assumption..]).
  unfold decodeBody. repeat sim.
  - apply sim_bind; [apply decodeEntries_extends; assumption | intros ?; sim].
  - apply sim_bind; [apply decodeElems_extends; assumption | intros ?; sim].
Qed.

Lemma Decode_extends (d d' : slice) :
  extends d d' -> settled (Decode d) -> Decode d' = Decode d.
Proof.
  intros E. apply DecodeFuel_extends; [|exact E].
  destruct E as (_ & _ & spare & Ha). unfold cap. rewrite Ha, length_app. lia.
Qed.

(** What [Decode] does with a buffer that fills its backing array, it does
    with the same buffer in any larger backing array. *)
Lemma Decode_of_list_cap (l spare : list byte) (r : res Value) :
  Decode (of_list l) = r -> settled r -> Decode (of_list_cap l spare) = r.
Proof.
  intros <- Hs. apply Decode_extends; [apply extends_of_list_cap | exact Hs].
Qed.

Lemma halts_bind {A B} (m : res A) (k : A -> res B) :
  halts m -> (forall a, m = Ok a -> halts (k a)) -> halts (bind m k).
Proof.
  unfold halts. intros Hm Hk. destruct m; cbn; auto; discriminate.
Qed.

Lemma halts_wrap {A} f (m : res A) : halts m -> halts (wrap f m).
Proof. unfold halts. destruct m; cbn; auto; discriminate. Qed.

Lemma be_fold_nonneg (bs : list byte) : forall acc : Z,
  0 <= acc -> 0 <= fold_left (fun acc b => acc * 256 + Z_of_byte b) bs acc.
Proof.
  induction bs as [|b bs IH]; intros acc Hacc; cbn; [exact Hacc|].
  apply IH. pose proof (Z_of_byte_range b). lia.
Qed.

Lemma be_value_nonneg (bs : list byte) : 0 <= be_value bs.
Proof. apply be_fold_nonneg. lia. Qed.

Lemma Uint32_nonneg {E} s v : @Uint32 E s = Ok v -> 0 <= v.
Proof.
  unfold Uint32. destruct (_ <=? _)%nat; [|discriminate].
  intros [= <-]. apply be_value_nonneg.
Qed.

Lemma reslice_cap {E} d lo hi s :
  @reslice E d lo hi = Ok s -> 0 <= lo /\ Z.of_nat (cap s) = Z.of_nat (cap d) - lo.
Proof.
  unfold reslice. destruct (_ && _) eqn:Hc; [|discriminate].
  apply andb_prop in Hc as [Hc H3]. apply andb_prop in Hc as [H1 H2].
  apply Z.leb_le in H1, H2, H3. intros [= <-]. unfold cap in *. cbn.
  rewrite length_drop. lia.
Qed.

Lemma halts_reslice d lo hi : halts (@reslice error d lo hi).
Proof. unfold halts, reslice. destruct (_ && _); discriminate. Qed.
Lemma halts_reslice_from d lo : halts (@reslice_from error d lo).
Proof. unfold halts, reslice_from. destruct (_ && _); discriminate. Qed.
Lemma halts_index d i : halts (@index error d i).
Proof. unfold halts, index. destruct (_ && _); discriminate. Qed.
Lemma halts_Uint32 d : halts (@Uint32 error d).
Proof. unfold halts, Uint32. destruct (_ <=? _)%nat; discriminate. Qed.
Lemma halts_Uint64 d : halts (@Uint64 error d).
Proof. unfold halts, Uint64. destruct (_ <=? _)%nat; discriminate. Qed.

Ltac halt :=
  lazymatch goal with
  | |- halts (bind _ _) => apply halts_bind; [|intros ? ?]
  | |- halts (reslice _ _ _) => apply halts_reslice
  | |- halts (reslice_from _ _) => apply halts_reslice_from
  | |- halts (index _ _) => apply halts_index
  | |- halts (Uint32 _) => apply halts_Uint32
  | |- halts (Uint64 _) => apply halts_Uint64
  | |- halts (wrap _ _) => apply halts_wrap
  | |- halts (let x := _ in _) => cbv zeta
  | |- halts (if ?c then _ else _) => destruct c
  | |- halts (match ?v with _ => _ end) => destruct v
  | |- halts (Ok _) => unfold halts; discriminate
  | |- halts (Err _) => unfold halts; discriminate
  end.

Section Halts.
Variable Dec : slice -> res Value.
Variable d : slice.
Hypothesis HDec : forall c, (cap c + 9 <= cap d)%nat -> halts (Dec c).

Lemma HDec_reslice offset hi c :
  9 <= offset -> @reslice error d offset hi = Ok c -> halts (Dec c).
Proof. intros Ho Hc. apply reslice_cap in Hc. apply HDec. lia. Qed.

Lemma halts_decodeElems n : forall offset result,
  9 <= offset -> halts (decodeElems Dec d n offset result).
Proof.
  induction n as [|n IH]; intros offset result Ho; cbn [decodeElems]; [unfold halts; discriminate|].
  repeat halt; try (eapply HDec_reslice; eassumption).
  apply IH. match goal with H : Uint32 _ = Ok _ |- _ => apply Uint32_nonneg in H end. lia.
Qed.

Lemma halts_decodeEntries n : forall offset result,
  9 <= offset -> halts (decodeEntries Dec d n offset result).
Proof.
  induction n as [|n IH]; intros offset result Ho; cbn [decodeEntries]; [unfold halts; discriminate|].
  repeat match goal with H : Uint32 _ = Ok _ |- _ => apply Uint32_nonneg in H end.
  repeat halt; repeat match goal with H : Uint32 _ = Ok _ |- _ => apply Uint32_nonneg in H end;
    try (eapply HDec_reslice; [|eassumption]; lia).
  apply IH. lia.
Qed.
End Halts.

Lemma DecodeFuel_halts (f : nat) : forall d, (cap d < f)%nat -> halts (DecodeFuel f d).
Proof.
  induction f as [|f IH]; intros d Hf; [lia|]. rewrite DecodeFuel_unfold.
  assert (HDec : forall c, (cap c + 9 <= cap d)%nat -> halts (DecodeFuel f c))
    by (intros; apply IH; lia).
  unfold decodeBody. repeat halt.
  - apply halts_decodeEntries; [assumption|lia].
  - apply halts_decodeElems; [assumption|lia].
Qed.

(** [Decode] always comes to an end: the fuel it starts with is never used up. *)
Lemma Decode_terminates (d : slice) : Decode d <> Diverges.
Proof. apply DecodeFuel_halts. lia. Qed.

(** C9.  A Bool whose body byte is any non-zero value decodes to [true],
    whatever lies behind the six bytes in the backing array, although
    [Encode] itself only ever writes the body bytes 0 and 1. *)
Theorem Decode_bool_any_nonzero_byte :
  (forall (b : byte) (spare : list byte),
      exists v : bool,
        Decode (of_list_cap [x01; x00; x00; x00; x01; b] spare) = Ok (VBool v)
        /\ (v = true <-> b <> x00))
  /\ (forall v : bool,
      Encode (VBool v)
      = Ok [x01; x00; x00; x00; x01; if v then x01 else x00]).
Proof.
  split.
  - intros b spare. exists (negb (Z_of_byte b =? 0)). split.
    + apply Decode_of_list_cap; [reflexivity | exact I].
    + rewrite negb_true_iff, Z.eqb_neq. now rewrite Z_of_byte_zero.
  - intros []; reflexivity.
Qed.

(** C1 (failing inputs).  [Decode] takes the four bytes behind a child's
    tag for the child's length; for a child that is itself an array or a
    map they hold its element count, so the child is cut short and
    rejected: [Decode (Encode v)] is an error for these four values, in
    every backing array. *)
Theorem Decode_Encode_nested_container_fails :
  (exists bs, Encode (VArray [VArray [VInt32 5]]) = Ok bs /\
     forall spare, Decode (of_list_cap bs spare)
                   = Err (EDecodeElement (EArrayTooShort 18 6)))
  /\ (exists bs, Encode (VArray [VMap []]) = Ok bs /\
     forall spare, Decode (of_list_cap bs spare)
                   = Err (EDecodeElement (EMapTooShort 9 5)))
  /\ (exists bs, Encode (VMap [(str "k", VArray [])]) = Ok bs /\
     forall spare, Decode (of_list_cap bs spare)
                   = Err (EDecodeValue (EArrayTooShort 9 5)))
  /\ (exists bs, Encode (VMap [(str "k", VMap [(str "a", VNil)])]) = Ok bs /\
     forall spare, Decode (of_list_cap bs spare)
                   = Err (EDecodeValue (EMapTooShort 20 6))).
Proof.
  repeat split; eexists; (split; [vm_compute; reflexivity|]);
    intros spare; (apply Decode_of_list_cap; [vm_compute; reflexivity | exact I]).
Qed.

(** C8 (failing inputs).  [Decode] reads the body before it has checked
    that the body is there: a Bool without its body byte, an Int32 with a
    one-byte body and an Array or Map header without the size word end in a
    runtime panic; and an Int32 followed by a stray byte is accepted
    although its declared length is not the length of what follows the
    header. *)
Theorem Decode_panics_on_truncated_buffers :
  Decode (of_list [x01; x00; x00; x00; x01]) = Panic
  /\ Decode (of_list [x02; x00; x00; x00; x04; x00]) = Panic
  /\ Decode (of_list [x06; x00; x00; x00; x00]) = Panic
  /\ Decode (of_list [x07; x00; x00; x00; x00; x00; x00; x00]) = Panic
  /\ (forall spare,
       Decode (of_list_cap [x02; x00; x00; x00; x04; x00; x00; x00; x05; xff] spare)
       = Ok (VInt32 5)).
Proof.
  repeat split; try (vm_compute; reflexivity).
  intros spare. apply Decode_of_list_cap; [vm_compute; reflexivity | exact I].
Qed.

(** ** The order of strings and [sort.Strings] *)

Lemma string_leb_refl a : string_leb a a = true.
Proof.
  induction a as [|x a IH]; cbn; [reflexivity|].
  rewrite Z.ltb_irrefl. exact IH.
Qed.

Lemma string_leb_total a : forall b, string_leb a b = true \/ string_leb b a = true.
Proof.
  induction a as [|x a IH]; intros [|y b]; cbn; auto.
  destruct (Z.ltb_spec (Z_of_byte x) (Z_of_byte y)); auto.
  destruct (Z.ltb_spec (Z_of_byte y) (Z_of_byte x)); auto.
Qed.

Lemma string_leb_antisym a : forall b,
  string_leb a b = true -> string_leb b a = true -> a = b.
Proof.
  induction a as [|x a IH]; intros [|y b]; cbn; try discriminate; auto.
  destruct (Z.ltb_spec (Z_of_byte x) (Z_of_byte y));
    destruct (Z.ltb_spec (Z_of_byte y) (Z_of_byte x)); try discriminate; try lia.
  intros H1 H2. f_equal; [apply Z_of_byte_inj; lia | auto].
Qed.

Lemma string_leb_trans a : forall b c,
  string_leb a b = true -> string_leb b c = true -> string_leb a c = true.
Proof.
  induction a as [|x a IH]; intros [|y b] [|z c]; cbn; try discriminate; auto.
  destruct (Z.ltb_spec (Z_of_byte x) (Z_of_byte y));
    destruct (Z.ltb_spec (Z_of_byte y) (Z_of_byte x));
    destruct (Z.ltb_spec (Z_of_byte y) (Z_of_byte z));
    destruct (Z.ltb_spec (Z_of_byte z) (Z_of_byte y));
    destruct (Z.ltb_spec (Z_of_byte x) (Z_of_byte z));
    destruct (Z.ltb_spec (Z_of_byte z) (Z_of_byte x));
    try discriminate; try lia; auto.
  intros; eapply IH; eauto.
Qed.

#[global] Instance string_le_total : Total string_le.
Proof. intros a b. apply string_leb_total. Qed.
#[global] Instance string_le_trans : Transitive string_le.
Proof. intros a b c. apply string_leb_trans. Qed.
#[global] Instance string_le_antisym : AntiSymm (=) string_le.
Proof. intros a b. apply string_leb_antisym. Qed.

Lemma sortStrings_spec (keys sorted : list gostring) :
  sortStrings keys = sorted <-> (Sorted string_le sorted /\ sorted ≡ₚ keys).
Proof.
  split.
  - intros <-. split; [apply Sorted_merge_sort; apply _ | apply merge_sort_Permutation].
  - intros [Hs Hp]. apply (Sorted_unique string_le).
    + apply Sorted_merge_sort; apply _.
    + exact Hs.
    + unfold sortStrings. rewrite merge_sort_Permutation. now symmetry.
Qed.

Lemma sortStrings_perm (k1 k2 : list gostring) :
  k1 ≡ₚ k2 -> sortStrings k1 = sortStrings k2.
Proof.
  intros Hp. apply sortStrings_spec. split.
  - apply Sorted_merge_sort; apply _.
  - unfold sortStrings. now rewrite merge_sort_Permutation.
Qed.

Section EncodeCongruence.
Variable enc : Value -> res (list byte).

Lemma encodeElems_cong l1 l2 :
  Forall2 (fun a b => enc a = enc b) l1 l2 ->
  forall result totalSize,
    encodeElems enc l1 result totalSize = encodeElems enc l2 result totalSize.
Proof.
  induction 1 as [|a b l1 l2 Hab _ IH]; intros result totalSize; cbn; [reflexivity|].
  rewrite Hab. destruct (enc b); cbn; auto.
Qed.

Lemma encodeAt_cong m1 m2 k :
  Forall2 (fun e1 e2 => fst e1 = fst e2 /\ enc (snd e1) = enc (snd e2)) m1 m2 ->
  encodeAt enc m1 k = encodeAt enc m2 k.
Proof.
  induction 1 as [|[k1 x1] [k2 x2] m1 m2 [Hk Hx] _ IH]; cbn in *; [reflexivity|].
  subst k2. now destruct (decide (k1 = k)).
Qed.

Lemma encodeAt_not_in m k :
  k ∉ map fst m -> encodeAt enc m k = Ok encodeNil.
Proof.
  induction m as [|[k' x] m IH]; cbn; [reflexivity|]. intros Hk.
  rewrite not_elem_of_cons in Hk. destruct Hk as [Hne Hk].
  destruct (decide (k' = k)); [congruence|auto].
Qed.

Lemma encodeAt_perm m1 m2 k :
  NoDup (map fst m1) -> m1 ≡ₚ m2 -> encodeAt enc m1 k = encodeAt enc m2 k.
Proof.
  intros Hnd Hp. revert Hnd.
  induction Hp as [|[k' x] m1 m2 Hp IH|[k1 x1] [k2 x2] m|m1 m2 m3 Hp1 IH1 Hp2 IH2];
    intros Hnd; cbn in *.
  - reflexivity.
  - apply NoDup_cons in Hnd as [_ Hnd]. destruct (decide (k' = k)); auto.
  - apply NoDup_cons in Hnd as [Hni _]. rewrite not_elem_of_cons in Hni.
    destruct (decide (k1 = k)), (decide (k2 = k)); try reflexivity.
    destruct Hni as [Hne _]. congruence.
  - rewrite IH1 by assumption. apply IH2.
    now rewrite <- Hp1.
Qed.

Lemma encodeEntries_ext m1 m2 keys :
  (forall k, encodeAt enc m1 k = encodeAt enc m2 k) ->
  forall result totalSize,
    encodeEntries enc m1 keys result totalSize
    = encodeEntries enc m2 keys result totalSize.
Proof.
  intros H. induction keys as [|k keys IH]; intros result totalSize; cbn; [reflexivity|].
  rewrite H. destruct (encodeAt enc m2 k); cbn; auto.
Qed.
End EncodeCongruence.

Lemma Forall2_fst_eq {A B} (R : B -> B -> Prop) (m1 m2 : list (A * B)) :
  Forall2 (fun e1 e2 => fst e1 = fst e2 /\ R (snd e1) (snd e2)) m1 m2 ->
  map fst m1 = map fst m2.
Proof. induction 1 as [|? ? ? ? [? _]]; cbn; congruence. Qed.

Lemma Encode_same_value (v1 : Value) : forall v2,
  same_value v1 v2 -> Encode v1 = Encode v2.
Proof.
  induction v1 as [| | | | | | | |l1 IH|m1 IH|] using Value_nested_ind;
    intros v2 Hv;
    inversion Hv as [ | | | | | | | | | ? l2 HF | ? m1' m2 Hnd HF Hp ];
    subst; try reflexivity.
  - (* arrays *)
    cbn [Encode].
    assert (Hl : len l1 = len l2) by (unfold len; now rewrite (Forall2_length _ _ _ HF)).
    rewrite Hl.
    rewrite (encodeElems_cong Encode l1 l2); [reflexivity|].
    clear Hl Hv. induction HF as [|a b l1 l2 Hab HF IHF]; constructor.
    + apply Forall_cons in IH as [IHa _]. now apply IHa.
    + apply IHF. now apply Forall_cons in IH as [_ IH].
  - (* maps *)
    pose proof (Forall2_fst_eq _ _ _ HF) as Hk.
    assert (Hkeys : sortStrings (map fst m1) = sortStrings (map fst m2)).
    { apply sortStrings_perm. rewrite Hk. now apply fmap_Permutation. }
    cbn [Encode]. rewrite Hkeys.
    rewrite (encodeEntries_ext Encode m1 m2); [reflexivity|].
    intros k. transitivity (encodeAt Encode m1' k).
    + apply encodeAt_cong. clear Hk Hkeys Hp Hnd Hv.
      induction HF as [|a b l1 l2 [Hab1 Hab2] HF IHF]; constructor.
      * split; [assumption|]. apply Forall_cons in IH as [IHa _]. now apply IHa.
      * apply IHF. now apply Forall_cons in IH as [_ IH].
    + apply encodeAt_perm; [now rewrite <- Hk | assumption].
Qed.

(** ** The layout of an encoded container *)

Lemma store32_header (tag : byte) (n v : Z) (body : list byte) :
  store32 ((([tag] ++ PutUint32 n) ++ zeros 4) ++ body) (length ([tag] ++ PutUint32 n)) v
  = [tag] ++ PutUint32 n ++ PutUint32 v ++ body.
Proof. reflexivity. Qed.

Lemma len_app {A} (l1 l2 : list A) : len (l1 ++ l2) = len l1 + len l2.
Proof. unfold len. rewrite length_app. lia. Qed.

Section EncodeLayout.
Variable enc : Value -> res (list byte).

Lemma encodeElems_Ok elems bodies :
  Forall2 (fun x b => enc x = Ok b) elems bodies ->
  forall result totalSize,
    encodeElems enc elems result totalSize
    = Ok (result ++ concat bodies, totalSize + len (concat bodies)).
Proof.
  induction 1 as [|x b elems bodies Hx _ IH]; intros result totalSize;
    cbn [encodeElems concat].
  - rewrite app_nil_r. f_equal. f_equal. unfold len; cbn; lia.
  - rewrite Hx. cbn [wrap bind]. rewrite IH. rewrite <- app_assoc, len_app.
    f_equal. f_equal. lia.
Qed.

Lemma encodeAt_in m k x :
  NoDup (map fst m) -> (k, x) ∈ m -> encodeAt enc m k = enc x.
Proof.
  induction m as [|[k' x'] m IH]; cbn; intros Hnd Hin.
  - now apply elem_of_nil in Hin.
  - apply NoDup_cons in Hnd as [Hni Hnd].
    apply elem_of_cons in Hin as [[= -> ->]|Hin].
    + now rewrite decide_True.
    + destruct (decide (k' = k)) as [->|]; [|auto].
      exfalso. apply Hni. apply list_elem_of_fmap. now exists (k, x).
Qed.

Lemma encodeEntries_Ok m es bodies :
  Forall2 (fun e b => encodeAt enc m (fst e) = Ok b) es bodies ->
  forall result totalSize,
    encodeEntries enc m (map fst es) result totalSize
    = Ok (result ++ concat (zip_with entryBytes es bodies),
          totalSize + len (concat (zip_with entryBytes es bodies))).
Proof.
  induction 1 as [|e b es bodies He _ IH]; intros result totalSize;
    cbn [encodeEntries map zip_with concat].
  - rewrite app_nil_r. f_equal. f_equal. unfold len; cbn; lia.
  - rewrite He. cbn [wrap bind]. rewrite IH.
    change (entryBytes e b) with (encodeString (fst e) ++ b).
    rewrite <- !app_assoc, !len_app. f_equal. f_equal. lia.
Qed.
End EncodeLayout.

Lemma Encode_array_layout (elems : list Value) (bodies : list (list byte)) :
  Forall2 (fun x b => Encode x = Ok b) elems bodies ->
  Encode (VArray elems)
  = Ok ([x06] ++ PutUint32 (uint32 (len elems))
          ++ PutUint32 (uint32 (len (concat bodies))) ++ concat bodies).
Proof.
  intros H. cbn [Encode]. rewrite (encodeElems_Ok Encode elems bodies H). cbn [bind].
  rewrite Z.add_0_l. now rewrite store32_header.
Qed.

Lemma Forall2_encodeAt (enc : Value -> res (list byte)) (m : list (gostring * Value)) :
  NoDup (map fst m) ->
  forall es bodies,
    (forall e, e ∈ es -> e ∈ m) ->
    Forall2 (fun e b => enc (snd e) = Ok b) es bodies ->
    Forall2 (fun e b => encodeAt enc m (fst e) = Ok b) es bodies.
Proof.
  intros Hnd es bodies Hsub H. revert Hsub.
  induction H as [|[k x] b es bodies He _ IH]; intros Hsub; constructor.
  - cbn [fst]. rewrite (encodeAt_in enc m k x Hnd); [exact He|].
    apply Hsub. now left.
  - apply IH. intros e He'. apply Hsub. now right.
Qed.

Lemma Encode_map_layout (m : list (gostring * Value)) (bodies : list (list byte)) :
  NoDup (map fst m) ->
  Sorted string_le (map fst m) ->
  Forall2 (fun e b => Encode (snd e) = Ok b) m bodies ->
  Encode (VMap m)
  = Ok ([x07] ++ PutUint32 (uint32 (len m))
          ++ PutUint32 (uint32 (len (concat (zip_with entryBytes m bodies))))
          ++ concat (zip_with entryBytes m bodies)).
Proof.
  intros Hnd Hs H. cbn [Encode].
  assert (Hk : sortStrings (map fst m) = map fst m) by (now apply sortStrings_spec).
  rewrite Hk.
  rewrite (encodeEntries_Ok Encode m m bodies).
  - cbn [bind]. rewrite Z.add_0_l, store32_header. unfold len. now rewrite length_map.
  - apply Forall2_encodeAt; auto.
Qed.

Lemma Encode_map_perm (m1 m2 : list (gostring * Value)) :
  NoDup (map fst m1) -> m1 ≡ₚ m2 -> Encode (VMap m1) = Encode (VMap m2).
Proof.
  intros Hnd Hp. cbn [Encode].
  rewrite (sortStrings_perm (map fst m1) (map fst m2)) by (now apply fmap_Permutation).
  rewrite (encodeEntries_ext Encode m1 m2); [reflexivity|].
  intros k. now apply encodeAt_perm.
Qed.

#[global] Instance entry_le_total : Total entry_le.
Proof. intros e1 e2. unfold entry_le. apply total, _. Qed.

Lemma sortEntries_perm (m : list (gostring * Value)) : sortEntries m ≡ₚ m.
Proof. apply merge_sort_Permutation. Qed.

Lemma sortEntries_sorted (m : list (gostring * Value)) :
  Sorted string_le (map fst (sortEntries m)).
Proof.
  apply (Sorted_fmap fst entry_le string_le); [now intros ? ?|].
  apply Sorted_merge_sort, _.
Qed.

Lemma Forall_exists_Forall2 {A B} (R : A -> B -> Prop) (l : list A) :
  Forall (fun a => exists b, R a b) l -> exists bs, Forall2 R l bs.
Proof.
  induction 1 as [|a l [b Hb] _ [bs IH]]; [now exists []|].
  exists (b :: bs). now constructor.
Qed.

(** C7.  A map is encoded entry by entry in ascending byte-wise key order,
    whatever the order in which the map is traversed: maps with the same
    entries, and more generally equal values, have one encoding, and the
    body of the encoding lists the entries by ascending key.  For
    [{"b": 1, "a": 2}] the entry of ["a"] comes first. *)
Theorem Encode_map_canonical :
  (forall m1 m2 : list (gostring * Value),
      NoDup (map fst m1) -> m1 ≡ₚ m2 -> Encode (VMap m1) = Encode (VMap m2))
  /\ (forall v1 v2 : Value, same_value v1 v2 -> Encode v1 = Encode v2)
  /\ (forall m : list (gostring * Value),
      NoDup (map fst m) ->
      Forall (fun e => exists b, Encode (snd e) = Ok b) m ->
      exists (sorted : list (gostring * Value)) (bodies : list (list byte)),
        sorted ≡ₚ m
        /\ Sorted string_le (map fst sorted)
        /\ Forall2 (fun e b => Encode (snd e) = Ok b) sorted bodies
        /\ Encode (VMap m)
           = Ok ([x07] ++ PutUint32 (uint32 (len m))
                   ++ PutUint32 (uint32 (len (concat (zip_with entryBytes sorted bodies))))
                   ++ concat (zip_with entryBytes sorted bodies)))
  /\ (let a := encodeString (str "a") ++ [x02; x00; x00; x00; x04; x00; x00; x00; x02] in
      let b := encodeString (str "b") ++ [x02; x00; x00; x00; x04; x00; x00; x00; x01] in
      let expected := Ok ([x07; x00; x00; x00; x02; x00; x00; x00; x1e] ++ a ++ b) in
      Encode (VMap [(str "b", VInt32 1); (str "a", VInt32 2)]) = expected
      /\ Encode (VMap [(str "a", VInt32 2); (str "b", VInt32 1)]) = expected).
Proof.
  split; [exact Encode_map_perm|]. split; [intros v1 v2; apply Encode_same_value|].
  split; [|split; vm_compute; reflexivity].
  intros m Hnd Henc.
  assert (Hp := sortEntries_perm m).
  assert (Henc' : Forall (fun e => exists b, Encode (snd e) = Ok b) (sortEntries m))
    by (now rewrite Hp).
  destruct (Forall_exists_Forall2 _ _ Henc') as [bodies Hb].
  exists (sortEntries m), bodies. repeat split; try assumption.
  - apply sortEntries_sorted.
  - rewrite <- (Encode_map_perm (sortEntries m) m); [| |assumption].
    + rewrite (Encode_map_layout (sortEntries m) bodies); try assumption.
      * unfold len. now rewrite (Permutation_length Hp).
      * now rewrite Hp.
      * apply sortEntries_sorted.
    + now rewrite Hp.
Qed.

Lemma Encode_map_canonical_witness :
  NoDup (map fst [(str "b", VInt32 1); (str "a", VInt32 2)])
  /\ [(str "b", VInt32 1); (str "a", VInt32 2)] ≡ₚ [(str "a", VInt32 2); (str "b", VInt32 1)]
  /\ Encode (VMap [(str "b", VInt32 1); (str "a", VInt32 2)])
     = Encode (VMap [(str "a", VInt32 2); (str "b", VInt32 1)]).
Proof.
  assert (Hnd : NoDup (map fst [(str "b", VInt32 1); (str "a", VInt32 2)])).
  { repeat constructor; rewrite ?elem_of_cons, ?elem_of_nil; intros H;
      decompose [or] H; discriminate || contradiction. }
  assert (Hp : [(str "b", VInt32 1); (str "a", VInt32 2)]
               ≡ₚ [(str "a", VInt32 2); (str "b", VInt32 1)]) by apply perm_swap.
  split; [exact Hnd|]. split; [exact Hp|].
  exact (proj1 Encode_map_canonical _ _ Hnd Hp).
Defined.

(** ** The round trip of values made of scalars *)

Section Scalars.
Variable Dec : slice -> res Value.

Lemma decode_int32_bytes (b1 b2 b3 b4 : byte) :
  decodeBody Dec (of_list ([x02] ++ PutUint32 4 ++ [b1; b2; b3; b4]))
  = Ok (VInt32 (int32 (be_value [b1; b2; b3; b4]))).
Proof. reflexivity. Qed.

Lemma decode_float32_bytes (b1 b2 b3 b4 : byte) :
  decodeBody Dec (of_list ([x08] ++ PutUint32 4 ++ [b1; b2; b3; b4]))
  = Ok (VFloat32 (be_value [b1; b2; b3; b4])).
Proof. reflexivity. Qed.

Lemma decode_int64_bytes (b1 b2 b3 b4 b5 b6 b7 b8 : byte) :
  decodeBody Dec (of_list ([x03] ++ PutUint32 8 ++ [b1; b2; b3; b4; b5; b6; b7; b8]))
  = Ok (VInt64 (int64 (be_value [b1; b2; b3; b4; b5; b6; b7; b8]))).
Proof. reflexivity. Qed.

Lemma decode_float64_bytes (b1 b2 b3 b4 b5 b6 b7 b8 : byte) :
  decodeBody Dec (of_list ([x09] ++ PutUint32 8 ++ [b1; b2; b3; b4; b5; b6; b7; b8]))
  = Ok (VFloat64 (be_value [b1; b2; b3; b4; b5; b6; b7; b8])).
Proof. reflexivity. Qed.

(** The header of a buffer that starts with a tag and a length word. *)
Lemma index_tag {E} (tag : byte) (rest : list byte) (s : nat) :
  @index E (Slice (tag :: rest) (S s)) 0 = Ok tag.
Proof. now rewrite index_Ok by (cbn; lia). Qed.

Lemma reslice_word {E} (pre w rest : list byte) (s : nat) :
  length w = 4%nat ->
  @reslice E (Slice (pre ++ w ++ rest) s) (len pre) (len pre + 4)
  = Ok (of_list_cap w rest).
Proof.
  intros Hw. rewrite reslice_Ok.
  - cbn [arr]. unfold len, of_list_cap. rewrite Nat2Z.id, drop_app_length, Hw.
    do 2 f_equal. lia.
  - unfold len. lia.
  - unfold cap, len. cbn [arr]. rewrite !length_app, Hw. lia.
Qed.

Lemma Uint32_word {E} (n : Z) (rest : list byte) :
  0 <= n < 2 ^ 32 -> @Uint32 E (of_list_cap (PutUint32 n) rest) = Ok n.
Proof.
  intros Hn. unfold Uint32, of_list_cap. cbn [slen arr length Nat.leb].
  rewrite take_app_length' by reflexivity.
  now rewrite be_value_PutUint32, Z.mod_small.
Qed.

Lemma reslice_length_word {E} (tag : byte) (n : Z) (body : list byte) (s : nat) :
  @reslice E (Slice (tag :: PutUint32 n ++ body) s) 1 5
  = Ok (of_list_cap (PutUint32 n) body).
Proof. exact (reslice_word [tag] (PutUint32 n) body s eq_refl). Qed.

Lemma reslice_size_word {E} (tag : byte) (n t : Z) (body : list byte) (s : nat) :
  @reslice E (Slice (tag :: PutUint32 n ++ PutUint32 t ++ body) s) 5 9
  = Ok (of_list_cap (PutUint32 t) body).
Proof. exact (reslice_word (tag :: PutUint32 n) (PutUint32 t) body s eq_refl). Qed.

Lemma reslice_from_body {E} (tag : byte) (n : Z) (body : list byte) :
  @reslice_from E (of_list (tag :: PutUint32 n ++ body)) 5 = Ok (of_list body).
Proof.
  rewrite reslice_from_Ok by (cbn; lia). unfold of_list. cbn [arr slen].
  change (Z.to_nat 5) with 5%nat. cbn [PutUint32 app drop length Nat.sub].
  now rewrite drop_0, Nat.sub_0_r.
Qed.

Lemma decode_string_bytes (s : gostring) :
  len s < 2 ^ 32 ->
  decodeBody Dec (of_list (encodeString s)) = Ok (VString s).
Proof.
  intros Hs. assert (H0 : 0 <= len s) by (unfold len; lia).
  unfold decodeBody, encodeString. cbn [app].
  replace (slen _ <? 5)%nat with false by (symmetry; apply Nat.ltb_ge; cbn; lia).
  unfold uint32. rewrite (Z.mod_small (len s)) by lia.
  unfold of_list at 1; cbn [length]; rewrite index_tag. cbn [bind].
  unfold of_list at 1. rewrite reslice_length_word. cbn [bind].
  rewrite Uint32_word by lia. cbn [bind].
  change (Z_of_byte (byte_of_Z TypeString)) with 4.
  cbn [Z.eqb Pos.eqb TypeNull TypeBool TypeInt32 TypeInt64 TypeString].
  rewrite reslice_from_body. cbn [bind slen of_list].
  replace (Z.of_nat (length s)) with (len s) by reflexivity.
  rewrite Z.mod_small, Z.eqb_refl by lia. cbn [negb].
  unfold contents, of_list. cbn [slen arr]. now rewrite firstn_all.
Qed.

Lemma decode_bytes_bytes (s : list byte) :
  len s < 2 ^ 32 ->
  decodeBody Dec (of_list ([x05] ++ PutUint32 (uint32 (len s)) ++ s)) = Ok (VBytes s).
Proof.
  intros Hs. assert (H0 : 0 <= len s) by (unfold len; lia).
  unfold decodeBody. cbn [app].
  replace (slen _ <? 5)%nat with false by (symmetry; apply Nat.ltb_ge; cbn; lia).
  unfold uint32. rewrite (Z.mod_small (len s)) by lia.
  unfold of_list at 1; cbn [length]; rewrite index_tag. cbn [bind].
  unfold of_list at 1. rewrite reslice_length_word. cbn [bind].
  rewrite Uint32_word by lia. cbn [bind].
  change (Z_of_byte x05) with 5.
  cbn [Z.eqb Pos.eqb TypeNull TypeBool TypeInt32 TypeInt64 TypeString TypeBytes].
  rewrite reslice_from_body. cbn [bind slen of_list].
  replace (Z.of_nat (length s)) with (len s) by reflexivity.
  rewrite Z.mod_small, Z.eqb_refl by lia. cbn [negb].
  unfold contents, of_list. cbn [slen arr]. now rewrite firstn_all.
Qed.
End Scalars.

Lemma int32_uint32 (z : Z) : - 2 ^ 31 <= z < 2 ^ 31 -> int32 (uint32 z mod 2 ^ 32) = z.
Proof.
  intros H. unfold int32, uint32. rewrite Z.mod_mod by lia.
  rewrite Zplus_mod_idemp_l. rewrite Z.mod_small by lia. lia.
Qed.

Lemma int64_uint64 (z : Z) : - 2 ^ 63 <= z < 2 ^ 63 -> int64 (uint64 z mod 2 ^ 64) = z.
Proof.
  intros H. unfold int64, uint64. rewrite Z.mod_mod by lia.
  rewrite Zplus_mod_idemp_l. rewrite Z.mod_small by lia. lia.
Qed.

(** A scalar is encoded into a framed buffer that [Decode] reads back
    without calling itself. *)
Lemma scalar_roundtrip (v : Value) :
  scalar v ->
  exists enc, Encode v = Ok enc /\ framed enc /\ DecodeFuel 1 (of_list enc) = Ok v.
Proof.
  destruct v as [|b|z|z|s|s|bits|bits|?|?|]; cbn [scalar]; intros Hv; try contradiction;
    eexists; (split; [reflexivity|]); rewrite ?DecodeFuel_unfold.
  - split; [split; [cbn; lia | reflexivity] | reflexivity].
  - destruct b; (split; [split; [cbn; lia | reflexivity] | reflexivity]).
  - split; [split; [cbn; lia | reflexivity]|].
    change (byte_of_Z TypeInt32) with x02.
    etransitivity; [apply decode_int32_bytes|].
    change (be_value _) with (be_value (PutUint32 (uint32 z))).
    now rewrite be_value_PutUint32, int32_uint32.
  - split; [split; [cbn; lia | reflexivity]|].
    change (byte_of_Z TypeInt64) with x03.
    etransitivity; [apply decode_int64_bytes|].
    change (be_value _) with (be_value (PutUint64 (uint64 z))).
    now rewrite be_value_PutUint64, int64_uint64.
  - assert (H0 : 0 <= len s) by (unfold len; lia).
    split; [split|].
    + unfold encodeString. cbn; lia.
    + unfold encodeString. cbn [app drop]. rewrite drop_0, take_app_length' by reflexivity.
      rewrite be_value_PutUint32. unfold uint32. rewrite Z.mod_mod, Z.mod_small by lia.
      unfold len. cbn [length PutUint32 app]. lia.
    + now apply decode_string_bytes.
  - assert (H0 : 0 <= len s) by (unfold len; lia).
    split; [split|].
    + cbn; lia.
    + cbn [app drop]. rewrite drop_0, take_app_length' by reflexivity.
      rewrite be_value_PutUint32. unfold uint32. rewrite Z.mod_mod, Z.mod_small by lia.
      unfold len. cbn [length PutUint32 app]. lia.
    + now apply decode_bytes_bytes.
  - split; [split; [cbn; lia | reflexivity]|].
    change (byte_of_Z TypeFloat32) with x08.
    etransitivity; [apply decode_float32_bytes|].
    change (be_value _) with (be_value (PutUint32 bits)).
    now rewrite be_value_PutUint32, Z.mod_small.
  - split; [split; [cbn; lia | reflexivity]|].
    change (byte_of_Z TypeFloat64) with x09.
    etransitivity; [apply decode_float64_bytes|].
    change (be_value _) with (be_value (PutUint64 bits)).
    now rewrite be_value_PutUint64, Z.mod_small.
Qed.

Lemma scalar_framed (v : Value) (enc : list byte) :
  scalar v -> Encode v = Ok enc -> framed enc.
Proof.
  intros Hv He. destruct (scalar_roundtrip v Hv) as (enc' & He' & Hf & _). congruence.
Qed.

Lemma DecodeFuel_scalar (f : nat) (v : Value) (enc post : list byte) :
  scalar v -> Encode v = Ok enc -> DecodeFuel (S f) (of_list_cap enc post) = Ok v.
Proof.
  intros Hv He. destruct (scalar_roundtrip v Hv) as (enc' & He' & _ & Hd).
  assert (enc' = enc) as -> by congruence.
  rewrite (DecodeFuel_extends 1 (S f) (of_list enc) (of_list_cap enc post)).
  - exact Hd.
  - lia.
  - apply extends_of_list_cap.
  - rewrite Hd. exact I.
Qed.

(** *** The loops over framed children *)

Section Children.
Context {E : Type}.

Lemma reslice_child_header (pre enc post : list byte) (s : nat) :
  framed enc ->
  @reslice E (Slice (pre ++ enc ++ post) s) (len pre + 1) (len pre + 5)
  = Ok (of_list_cap (take 4 (drop 1 enc)) (drop 5 enc ++ post)).
Proof.
  intros [H5 _].
  rewrite <- (take_drop 1 enc) at 1. rewrite <- (take_drop 4 (drop 1 enc)) at 1.
  rewrite drop_drop. change (1 + 4)%nat with 5%nat.
  assert (H1 : length (take 1 enc) = 1%nat) by (rewrite length_take; lia).
  assert (H4 : length (take 4 (drop 1 enc)) = 4%nat)
    by (rewrite length_take, length_drop; lia).
  rewrite <- !app_assoc, (app_assoc pre).
  replace (len pre + 1) with (len (pre ++ take 1 enc))
    by (unfold len; rewrite length_app, H1; lia).
  replace (len pre + 5) with (len (pre ++ take 1 enc) + 4)
    by (unfold len; rewrite length_app, H1; lia).
  now apply reslice_word.
Qed.

Lemma Uint32_child_header (enc rest : list byte) :
  framed enc ->
  @Uint32 E (of_list_cap (take 4 (drop 1 enc)) rest) = Ok (len enc - 5).
Proof.
  intros [H5 Hv]. unfold Uint32, of_list_cap. cbn [slen arr].
  assert (H4 : length (take 4 (drop 1 enc)) = 4%nat)
    by (rewrite length_take, length_drop; lia).
  rewrite H4. cbn [Nat.leb]. rewrite <- H4 at 1. rewrite take_app_length.
  now rewrite Hv.
Qed.

Lemma reslice_child (pre enc post : list byte) (s : nat) :
  framed enc ->
  @reslice E (Slice (pre ++ enc ++ post) s) (len pre) (len pre + 5 + (len enc - 5))
  = Ok (of_list_cap enc post).
Proof.
  intros [H5 _]. rewrite reslice_Ok.
  - cbn [arr]. unfold len, of_list_cap. rewrite Nat2Z.id, drop_app_length.
    do 2 f_equal. lia.
  - unfold len. lia.
  - unfold cap, len. cbn [arr]. rewrite !length_app. lia.
Qed.
End Children.

Lemma mapSet_fresh (m : list (gostring * Value)) (k : gostring) (v : Value) :
  k ∉ map fst m -> mapSet m k v = m ++ [(k, v)].
Proof.
  induction m as [|[k' x] m IH]; intros Hk; cbn [mapSet app]; [reflexivity|].
  cbn [map fst] in Hk. apply not_elem_of_cons in Hk as [Hne Hk].
  destruct (decide (k' = k)) as [->|_]; [contradiction|]. now rewrite IH.
Qed.

Lemma fold_mapSet_NoDup (es : list (gostring * Value)) : forall result,
  NoDup (map fst (result ++ es)) ->
  fold_left (fun r e => mapSet r (fst e) (snd e)) es result = result ++ es.
Proof.
  induction es as [|[k v] es IH]; intros result Hnd; cbn [fold_left fst snd].
  - now rewrite app_nil_r.
  - replace (result ++ (k, v) :: es) with ((result ++ [(k, v)]) ++ es) in *
      by now rewrite <- app_assoc.
    rewrite mapSet_fresh.
    + now apply IH.
    + rewrite !map_app in Hnd. apply NoDup_app in Hnd as [Hnd _].
      apply NoDup_app in Hnd as (_ & Hd & _). intros Hin. apply (Hd k Hin). now left.
Qed.

Section Loops.
Variable Dec : slice -> res Value.
Hypothesis Dec_scalar : forall v enc post,
  scalar v -> Encode v = Ok enc -> Dec (of_list_cap enc post) = Ok v.

Lemma decodeElems_flat (elems : list Value) (encs : list (list byte)) :
  Forall2 (fun v e => scalar v /\ Encode v = Ok e) elems encs ->
  forall (pre post : list byte) (s : nat) (result : list Value),
    decodeElems Dec (Slice (pre ++ concat encs ++ post) s) (length elems) (len pre) result
    = Ok (result ++ elems).
Proof.
  induction 1 as [|v e elems encs [Hv He] _ IH]; intros pre post s result;
    cbn [decodeElems length concat].
  - now rewrite app_nil_r.
  - pose proof (scalar_framed v e Hv He) as Hf.
    rewrite <- (app_assoc e).
    rewrite (reslice_child_header pre e _ s Hf). cbn [bind].
    rewrite (Uint32_child_header e _ Hf). cbn [bind].
    rewrite (reslice_child pre e _ s Hf). cbn [bind].
    rewrite (Dec_scalar v e _ Hv He). cbn [wrap bind].
    replace (len pre + (5 + (len e - 5))) with (len (pre ++ e))
      by (unfold len; rewrite length_app; lia).
    rewrite (app_assoc pre e), IH, <- app_assoc. reflexivity.
Qed.

Lemma decodeEntries_flat (es : list (gostring * Value)) (bodies : list (list byte)) :
  Forall2 (fun e b => len (fst e) < 2 ^ 32 /\ scalar (snd e) /\ Encode (snd e) = Ok b)
          es bodies ->
  forall (pre post : list byte) (s : nat) (result : list (gostring * Value)),
    decodeEntries Dec (Slice (pre ++ concat (zip_with entryBytes es bodies) ++ post) s)
                  (length es) (len pre) result
    = Ok (fold_left (fun r e => mapSet r (fst e) (snd e)) es result).
Proof.
  induction 1 as [|[k v] b es bodies (Hk & Hv & He) _ IH]; intros pre post s result;
    cbn [decodeEntries length concat zip_with fold_left fst snd] in *; [reflexivity|].
  assert (Hfk : framed (encodeString k)) by now apply (scalar_framed (VString k)).
  pose proof (scalar_framed v b Hv He) as Hfv.
  change (entryBytes (k, v) b) with (encodeString k ++ b).
  rewrite <- !app_assoc.
  rewrite (reslice_child_header pre (encodeString k) _ s Hfk). cbn [bind].
  rewrite (Uint32_child_header (encodeString k) _ Hfk). cbn [bind].
  rewrite (reslice_child pre (encodeString k) _ s Hfk). cbn [bind].
  rewrite (Dec_scalar (VString k) (encodeString k) _ Hk eq_refl). cbn [wrap bind].
  replace (len pre + (5 + (len (encodeString k) - 5))) with (len (pre ++ encodeString k))
    by (unfold len; rewrite length_app; lia).
  rewrite (app_assoc pre (encodeString k)).
  rewrite (reslice_child_header _ b _ s Hfv). cbn [bind].
  rewrite (Uint32_child_header b _ Hfv). cbn [bind].
  rewrite (reslice_child _ b _ s Hfv). cbn [bind].
  rewrite (Dec_scalar v b _ Hv He). cbn [wrap bind].
  replace (len (pre ++ encodeString k) + (5 + (len b - 5)))
    with (len ((pre ++ encodeString k) ++ b))
    by (unfold len; rewrite !length_app; lia).
  rewrite (app_assoc (pre ++ encodeString k) b). apply IH.
Qed.
End Loops.

Lemma Forall_scalar_encodings {A} (val : A -> Value) (P : A -> Prop) (l : list A) :
  Forall (fun a => P a /\ scalar (val a)) l ->
  exists encs, Forall2 (fun a e => P a /\ scalar (val a) /\ Encode (val a) = Ok e) l encs.
Proof.
  induction 1 as [|a l [Hp Ha] _ [encs IH]]; [now exists []|].
  destruct (scalar_roundtrip _ Ha) as (e & He & _). exists (e :: encs). now constructor.
Qed.

Lemma Decode_Encode_flat_array (elems : list Value) (spare : list byte) :
  len elems < 2 ^ 32 -> Forall scalar elems ->
  exists enc, Encode (VArray elems) = Ok enc
              /\ Decode (of_list_cap enc spare) = Ok (VArray elems).
Proof.
  intros Hn Hs.
  destruct (Forall_scalar_encodings (fun v => v) (fun _ => True) elems) as [encs He].
  { eapply Forall_impl; [exact Hs|]. now intros v Hv. }
  assert (He1 : Forall2 (fun v e => Encode v = Ok e) elems encs)
    by (eapply Forall2_impl; [exact He|]; now intros v e (_ & _ & H)).
  assert (He2 : Forall2 (fun v e => scalar v /\ Encode v = Ok e) elems encs)
    by (eapply Forall2_impl; [exact He|]; now intros v e (_ & H)).
  eexists. split; [exact (Encode_array_layout elems encs He1)|].
  assert (H0 : 0 <= len elems) by (unfold len; lia).
  unfold uint32 at 1. rewrite (Z.mod_small (len elems)) by lia.
  set (total := len (concat encs)).
  assert (Ht : 0 <= uint32 total < 2 ^ 32) by (apply Z.mod_pos_bound; lia).
  assert (Hle : uint32 total <= total).
  { apply Z.mod_le; [unfold total, len|]; lia. }
  unfold Decode. rewrite cap_of_list_cap. cbn [app length Nat.add].
  rewrite DecodeFuel_unfold. unfold decodeBody, of_list_cap.
  cbn [app length slen Nat.ltb Nat.leb].
  rewrite index_tag. cbn [bind]. rewrite <- !app_assoc.
  rewrite !reslice_length_word. cbn [bind]. rewrite !Uint32_word by lia. cbn [bind].
  change (Z_of_byte x06) with 6.
  cbn [Z.eqb Pos.eqb TypeNull TypeBool TypeInt32 TypeInt64 TypeString TypeBytes
       TypeFloat32 TypeFloat64 TypeMap TypeArray].
  rewrite reslice_size_word. cbn [bind]. rewrite Uint32_word by lia. cbn [bind].
  match goal with |- context [Z.ltb ?a ?b] => destruct (Z.ltb_spec a b) as [Hlt|_] end.
  { exfalso. revert Hlt. rewrite !length_app, !length_PutUint32.
    fold total in Hle. unfold total, len in *. lia. }
  match goal with |- context [Nat.leb ?a 3] =>
    replace (Nat.leb a 3) with false
      by (symmetry; apply Nat.leb_gt; rewrite length_app, length_PutUint32; lia) end.
  replace (Z.to_nat (len elems)) with (length elems) by (unfold len; lia).
  change (x06 :: PutUint32 (len elems) ++ PutUint32 (uint32 total) ++ concat encs ++ spare)
    with ((x06 :: PutUint32 (len elems) ++ PutUint32 (uint32 total)) ++ concat encs ++ spare).
  change 9 with (len (x06 :: PutUint32 (len elems) ++ PutUint32 (uint32 total))) at 1.
  rewrite (decodeElems_flat _ (fun v enc post => DecodeFuel_scalar _ v enc post) elems encs He2).
  reflexivity.
Qed.

Lemma Decode_Encode_flat_map (m : list (gostring * Value)) (spare : list byte) :
  len m < 2 ^ 32 -> NoDup (map fst m) ->
  Forall (fun e => len (fst e) < 2 ^ 32 /\ scalar (snd e)) m ->
  exists enc, Encode (VMap m) = Ok enc
              /\ Decode (of_list_cap enc spare) = Ok (VMap (sortEntries m)).
Proof.
  intros Hn Hnd Hs.
  assert (Hp := sortEntries_perm m).
  assert (Hnd' : NoDup (map fst (sortEntries m))) by (now rewrite Hp).
  set (es := sortEntries m) in *.
  destruct (Forall_scalar_encodings snd (fun e => len (fst e) < 2 ^ 32) es) as [encs He].
  { now rewrite Hp. }
  assert (He1 : Forall2 (fun e b => Encode (snd e) = Ok b) es encs)
    by (eapply Forall2_impl; [exact He|]; now intros v e (_ & _ & H)).
  eexists. split.
  { rewrite <- (Encode_map_perm es m Hnd' Hp).
    exact (Encode_map_layout es encs Hnd' (sortEntries_sorted m) He1). }
  assert (Hlen : len es = len m) by (unfold len; now rewrite (Permutation_length Hp)).
  assert (H0 : 0 <= len es) by (unfold len; lia).
  unfold uint32 at 1. rewrite (Z.mod_small (len es)) by lia.
  set (body := concat (zip_with entryBytes es encs)).
  set (total := len body).
  assert (Ht : 0 <= uint32 total < 2 ^ 32) by (apply Z.mod_pos_bound; lia).
  assert (Hle : uint32 total <= total).
  { apply Z.mod_le; [unfold total, len|]; lia. }
  unfold Decode. rewrite cap_of_list_cap. cbn [app length Nat.add].
  rewrite DecodeFuel_unfold. unfold decodeBody, of_list_cap.
  cbn [app length slen Nat.ltb Nat.leb].
  rewrite index_tag. cbn [bind]. rewrite <- !app_assoc.
  rewrite !reslice_length_word. cbn [bind]. rewrite !Uint32_word by lia. cbn [bind].
  change (Z_of_byte x07) with 7.
  cbn [Z.eqb Pos.eqb TypeNull TypeBool TypeInt32 TypeInt64 TypeString TypeBytes
       TypeFloat32 TypeFloat64 TypeMap TypeArray].
  rewrite reslice_size_word. cbn [bind]. rewrite Uint32_word by lia. cbn [bind].
  match goal with |- context [Z.ltb ?a ?b] => destruct (Z.ltb_spec a b) as [Hlt|_] end.
  { exfalso. revert Hlt. rewrite !length_app, !length_PutUint32.
    fold total in Hle. unfold total, len in *. lia. }
  match goal with |- context [Nat.leb ?a 3] =>
    replace (Nat.leb a 3) with false
      by (symmetry; apply Nat.leb_gt; rewrite length_app, length_PutUint32; lia) end.
  replace (Z.to_nat (len es)) with (length es) by (unfold len; lia).
  change (x07 :: PutUint32 (len es) ++ PutUint32 (uint32 total) ++ body ++ spare)
    with ((x07 :: PutUint32 (len es) ++ PutUint32 (uint32 total)) ++ body ++ spare).
  change 9 with (len (x07 :: PutUint32 (len es) ++ PutUint32 (uint32 total))) at 1.
  unfold body.
  rewrite (decodeEntries_flat _ (fun v enc post => DecodeFuel_scalar _ v enc post) es encs He).
  cbn [bind]. now rewrite fold_mapSet_NoDup.
Qed.

(** The round trip holds for every value made of scalars only, whatever
    spare capacity the buffer handed to [Decode] has. *)
Lemma Decode_Encode_flat (v : Value) (spare : list byte) :
  flat v ->
  exists enc, Encode v = Ok enc /\ Decode (of_list_cap enc spare) = Ok (decoded v).
Proof.
  assert (Hscalar : forall v', scalar v' ->
            exists enc, Encode v' = Ok enc /\ Decode (of_list_cap enc spare) = Ok v').
  { intros v' Hv'. destruct (scalar_roundtrip v' Hv') as (enc & He & _).
    exists enc. split; [exact He|]. now apply DecodeFuel_scalar. }
  destruct v; cbn [flat decoded]; intros Hv; try (now apply Hscalar).
  - destruct Hv as [Hn Hv]. now apply Decode_Encode_flat_array.
  - destruct Hv as (Hn & Hnd & Hv). now apply Decode_Encode_flat_map.
Qed.

Lemma same_value_scalar (v : Value) : scalar v -> same_value v v.
Proof. destruct v; cbn [scalar]; intros Hv; try contradiction; constructor. Qed.

(** [decoded v] is the Go value [v]. *)
Lemma decoded_same_value (v : Value) : flat v -> same_value v (decoded v).
Proof.
  destruct v as [| | | | | | | |elems|m|]; cbn [flat decoded]; intros Hv;
    try (now apply same_value_scalar).
  - destruct Hv as [_ Hv]. constructor. apply Forall_Forall2_diag.
    eapply Forall_impl; [exact Hv|]. apply same_value_scalar.
  - destruct Hv as (_ & Hnd & Hv). apply (same_map m m); [exact Hnd| |].
    + apply Forall_Forall2_diag. eapply Forall_impl; [exact Hv|].
      intros e [_ He]. split; [reflexivity | now apply same_value_scalar].
    + symmetry. apply sortEntries_perm.
Qed.

(** ** What [Encode] accepts *)

Section EncodeOutcome.
Variable enc : Value -> res (list byte).

Lemma encodeElems_Err (elems : list Value) :
  Forall (fun x => (exists b, enc x = Ok b) \/ (exists e, enc x = Err e)) elems ->
  Exists (fun x => exists e, enc x = Err e) elems ->
  forall result totalSize, exists e, encodeElems enc elems result totalSize = Err e.
Proof.
  induction 1 as [|x elems Hx _ IH]; intros Hex result totalSize.
  - now apply Exists_nil in Hex.
  - cbn [encodeElems]. destruct Hx as [[b Hb]|[e He]].
    + rewrite Hb. cbn [wrap bind]. apply IH.
      apply Exists_cons in Hex as [[e He]|Hex]; [congruence|exact Hex].
    + rewrite He. cbn [wrap bind]. eauto.
Qed.

Lemma encodeEntries_Err (m : list (gostring * Value)) (keys : list gostring) :
  Forall (fun k => (exists b, encodeAt enc m k = Ok b)
                   \/ (exists e, encodeAt enc m k = Err e)) keys ->
  Exists (fun k => exists e, encodeAt enc m k = Err e) keys ->
  forall result totalSize, exists e, encodeEntries enc m keys result totalSize = Err e.
Proof.
  induction 1 as [|k keys Hk _ IH]; intros Hex result totalSize.
  - now apply Exists_nil in Hex.
  - cbn [encodeEntries]. destruct Hk as [[b Hb]|[e He]].
    + rewrite Hb. cbn [wrap bind]. apply IH.
      apply Exists_cons in Hex as [[e He]|Hex]; [congruence|exact Hex].
    + rewrite He. cbn [wrap bind]. eauto.
Qed.

Lemma encodeElems_inv (elems : list Value) : forall result totalSize r,
  encodeElems enc elems result totalSize = Ok r ->
  exists bodies, Forall2 (fun x b => enc x = Ok b) elems bodies.
Proof.
  induction elems as [|x elems IH]; intros result totalSize r H; cbn [encodeElems] in H.
  - exists []. constructor.
  - destruct (enc x) as [b| | |] eqn:Hx; cbn [wrap bind] in H; try discriminate.
    destruct (IH _ _ _ H) as [bodies Hb]. exists (b :: bodies). now constructor.
Qed.

Lemma encodeEntries_prefix (m : list (gostring * Value)) (keys : list gostring) :
  forall result totalSize r,
    encodeEntries enc m keys result totalSize = Ok r ->
    exists body, fst r = result ++ body.
Proof.
  induction keys as [|k keys IH]; intros result totalSize r H; cbn [encodeEntries] in H.
  - injection H as <-. exists []. now rewrite app_nil_r.
  - destruct (encodeAt enc m k) as [b| | |]; cbn [wrap bind] in H; try discriminate.
    destruct (IH _ _ _ H) as [body Hb]. rewrite Hb, <- !app_assoc. eauto.
Qed.
End EncodeOutcome.

Lemma forallb_elem_of {A} (f : A -> bool) (l : list A) :
  forallb f l = true <-> forall x, x ∈ l -> f x = true.
Proof.
  rewrite forallb_forall. split; intros H x Hx; apply H; now apply list_elem_of_In.
Qed.

Lemma forallb_false_elem_of {A} (f : A -> bool) (l : list A) :
  forallb f l = false -> exists x, x ∈ l /\ f x = false.
Proof.
  induction l as [|a l IH]; cbn [forallb]; [discriminate|].
  destruct (f a) eqn:Ha; cbn [andb].
  - intros H. destruct (IH H) as (x & Hx & Hf). exists x. split; [now right|exact Hf].
  - intros _. exists a. split; [now left|exact Ha].
Qed.

(** [Encode] returns bytes for a supported value and an error for any
    other; it never panics. *)
Lemma supported_cases (v : Value) :
  distinctKeys v = true ->
  if supported v then exists enc, Encode v = Ok enc else exists e, Encode v = Err e.
Proof.
  induction v as [| | | | | | | |elems IH|m IH|] using Value_nested_ind;
    cbn [distinctKeys supported]; intros Hd; try (eexists; reflexivity).
  - (* arrays *)
    assert (Hall : forall x, x ∈ elems ->
              if supported x then exists b, Encode x = Ok b
              else exists e, Encode x = Err e).
    { rewrite forallb_elem_of in Hd. rewrite Forall_forall in IH.
      intros x Hx. apply IH; [exact Hx|]. now apply Hd. }
    clear IH Hd.
    destruct (forallb supported elems) eqn:Hs.
    + assert (HF : Forall (fun x => exists b, Encode x = Ok b) elems).
      { rewrite forallb_elem_of in Hs. apply Forall_forall.
        intros x Hx. specialize (Hall x Hx). now rewrite (Hs x Hx) in Hall. }
      destruct (Forall_exists_Forall2 _ _ HF) as [bodies Hb].
      eexists. exact (Encode_array_layout elems bodies Hb).
    + cbn [Encode].
      destruct (encodeElems_Err Encode elems) with
        (result := ([byte_of_Z TypeArray] ++ PutUint32 (uint32 (len elems))) ++ zeros 4)
        (totalSize := 0) as [e He].
      * apply Forall_forall. intros x Hx. specialize (Hall x Hx).
        destruct (supported x); auto.
      * destruct (forallb_false_elem_of _ _ Hs) as (x & Hx & Hns).
        apply Exists_exists. exists x. split; [exact Hx|].
        specialize (Hall x Hx). now rewrite Hns in Hall.
      * rewrite He. cbn [bind]. eauto.
  - (* maps *)
    apply andb_true_iff in Hd as [Hnd Hd]. apply bool_decide_eq_true in Hnd.
    assert (Hall : forall e, e ∈ m ->
              if supported (snd e) then exists b, Encode (snd e) = Ok b
              else exists e', Encode (snd e) = Err e').
    { rewrite forallb_elem_of in Hd. rewrite Forall_forall in IH.
      intros x Hx. apply IH; [exact Hx|]. now apply Hd. }
    clear IH Hd.
    destruct (forallb (fun e => supported (snd e)) m) eqn:Hs.
    + assert (HF : Forall (fun e => exists b, Encode (snd e) = Ok b) m).
      { rewrite forallb_elem_of in Hs. apply Forall_forall.
        intros x Hx. specialize (Hall x Hx). now rewrite (Hs x Hx) in Hall. }
      assert (Hp := sortEntries_perm m).
      assert (HF' : Forall (fun e => exists b, Encode (snd e) = Ok b) (sortEntries m))
        by (now rewrite Hp).
      destruct (Forall_exists_Forall2 _ _ HF') as [bodies Hb].
      eexists. rewrite <- (Encode_map_perm (sortEntries m) m); [| |exact Hp].
      * apply (Encode_map_layout (sortEntries m) bodies); [|apply sortEntries_sorted|exact Hb].
        now rewrite Hp.
      * now rewrite Hp.
    + cbn [Encode].
      assert (Hperm : sortStrings (map fst m) ≡ₚ map fst m) by apply merge_sort_Permutation.
      destruct (encodeEntries_Err Encode m (sortStrings (map fst m))) with
        (result := ([byte_of_Z TypeMap] ++ PutUint32 (uint32 (len (sortStrings (map fst m)))))
                   ++ zeros 4)
        (totalSize := 0) as [e He].
      * apply Forall_forall. intros k Hk. rewrite Hperm in Hk.
        apply list_elem_of_fmap in Hk as ([k' x] & -> & Hin). cbn [fst].
        rewrite (encodeAt_in Encode m k' x Hnd Hin).
        specialize (Hall (k', x) Hin). cbn [snd] in Hall.
        destruct (supported x); auto.
      * destruct (forallb_false_elem_of _ _ Hs) as ([k x] & Hx & Hns). cbn [snd] in Hns.
        apply Exists_exists. exists k. split.
        { rewrite Hperm. apply list_elem_of_fmap. now exists (k, x). }
        rewrite (encodeAt_in Encode m k x Hnd Hx).
        specialize (Hall (k, x) Hx). cbn [snd] in Hall. now rewrite Hns in Hall.
      * rewrite He. cbn [bind]. eauto.
Qed.
(** ** Container buffers *)

Section ContainerHeader.
Variable Dec : slice -> res Value.

(** The header of an array: count word, size word, and the only use of
    the size word. *)
Lemma decodeBody_array (n t : Z) (rest : list byte) (s : nat) :
  0 <= n < 2 ^ 32 -> 0 <= t < 2 ^ 32 -> (5 <= s)%nat ->
  decodeBody Dec (Slice (x06 :: PutUint32 n ++ PutUint32 t ++ rest) s)
  = if Z.of_nat s <? 9 + t then Err (EArrayTooShort (9 + t) (Z.of_nat s))
    else let! result :=
           decodeElems Dec (Slice ((x06 :: PutUint32 n ++ PutUint32 t) ++ rest) s)
                       (Z.to_nat n) 9 [] in
         Ok (VArray result).
Proof.
  intros Hn Ht Hs. unfold decodeBody. cbn [slen].
  destruct (Nat.ltb_spec s 5); [lia|].
  destruct s as [|s]; [lia|]. rewrite index_tag. cbn [bind].
  rewrite !reslice_length_word. cbn [bind]. rewrite !Uint32_word by lia. cbn [bind].
  change (Z_of_byte x06) with 6.
  cbn [Z.eqb Pos.eqb TypeNull TypeBool TypeInt32 TypeInt64 TypeString TypeBytes
       TypeFloat32 TypeFloat64 TypeMap TypeArray].
  rewrite reslice_size_word. cbn [bind]. rewrite Uint32_word by lia. cbn [bind].
  rewrite <- app_comm_cons, <- app_assoc. reflexivity.
Qed.

Lemma decodeBody_map (n t : Z) (rest : list byte) (s : nat) :
  0 <= n < 2 ^ 32 -> 0 <= t < 2 ^ 32 -> (5 <= s)%nat ->
  decodeBody Dec (Slice (x07 :: PutUint32 n ++ PutUint32 t ++ rest) s)
  = if Z.of_nat s <? 9 + t then Err (EMapTooShort (9 + t) (Z.of_nat s))
    else let! result :=
           decodeEntries Dec (Slice ((x07 :: PutUint32 n ++ PutUint32 t) ++ rest) s)
                         (Z.to_nat n) 9 [] in
         Ok (VMap result).
Proof.
  intros Hn Ht Hs. unfold decodeBody. cbn [slen].
  destruct (Nat.ltb_spec s 5); [lia|].
  destruct s as [|s]; [lia|]. rewrite index_tag. cbn [bind].
  rewrite !reslice_length_word. cbn [bind]. rewrite !Uint32_word by lia. cbn [bind].
  change (Z_of_byte x07) with 7.
  cbn [Z.eqb Pos.eqb TypeNull TypeBool TypeInt32 TypeInt64 TypeString TypeBytes
       TypeFloat32 TypeFloat64 TypeMap TypeArray].
  rewrite reslice_size_word. cbn [bind]. rewrite Uint32_word by lia. cbn [bind].
  rewrite <- app_comm_cons, <- app_assoc. reflexivity.
Qed.
End ContainerHeader.

Lemma length_arrayBuffer elems t encs junk :
  length (arrayBuffer elems t encs junk) = (9 + length (concat encs) + length junk)%nat.
Proof.
  unfold arrayBuffer. rewrite !length_app, !length_PutUint32. cbn [length]. lia.
Qed.

Lemma length_mapBuffer es t encs junk :
  length (mapBuffer es t encs junk)
  = (9 + length (concat (zip_with entryBytes es encs)) + length junk)%nat.
Proof.
  unfold mapBuffer. rewrite !length_app, !length_PutUint32. cbn [length]. lia.
Qed.

Lemma Decode_arrayBuffer (elems : list Value) (t : Z) (encs : list (list byte))
    (junk spare : list byte) :
  Forall2 (fun v e => scalar v /\ Encode v = Ok e) elems encs ->
  len elems < 2 ^ 32 -> 0 <= t < 2 ^ 32 ->
  Decode (of_list_cap (arrayBuffer elems t encs junk) spare)
  = if len (concat encs) + len junk <? t
    then Err (EArrayTooShort (9 + t) (9 + len (concat encs) + len junk))
    else Ok (VArray elems).
Proof.
  intros He Hn Ht. assert (H0 : 0 <= len elems) by (unfold len; lia).
  unfold Decode. rewrite cap_of_list_cap, length_arrayBuffer.
  unfold of_list_cap. rewrite length_arrayBuffer. unfold arrayBuffer.
  cbn [app Nat.add]. rewrite DecodeFuel_unfold. rewrite <- !app_assoc.
  rewrite decodeBody_array by lia.
  replace (Z.of_nat (S (S (S (S (S (S (S (S (S (length (concat encs) + length junk)))))))))))
    with (9 + len (concat encs) + len junk) by (unfold len; lia).
  destruct (Z.ltb_spec (9 + len (concat encs) + len junk) (9 + t)) as [Hlt|Hge];
    destruct (Z.ltb_spec (len (concat encs) + len junk) t); try lia; [reflexivity|].
  replace (Z.to_nat (len elems)) with (length elems) by (unfold len; lia).
  change 9 with (len (x06 :: PutUint32 (len elems) ++ PutUint32 t)) at 1.
  rewrite (decodeElems_flat _ (fun v enc post => DecodeFuel_scalar _ v enc post) elems encs He).
  reflexivity.
Qed.

Lemma Decode_mapBuffer (es : list (gostring * Value)) (t : Z) (encs : list (list byte))
    (junk spare : list byte) :
  Forall2 (fun e b => len (fst e) < 2 ^ 32 /\ scalar (snd e) /\ Encode (snd e) = Ok b)
          es encs ->
  len es < 2 ^ 32 -> 0 <= t < 2 ^ 32 ->
  Decode (of_list_cap (mapBuffer es t encs junk) spare)
  = if len (concat (zip_with entryBytes es encs)) + len junk <? t
    then Err (EMapTooShort (9 + t)
                (9 + len (concat (zip_with entryBytes es encs)) + len junk))
    else Ok (VMap (fold_left (fun r e => mapSet r (fst e) (snd e)) es [])).
Proof.
  intros He Hn Ht. assert (H0 : 0 <= len es) by (unfold len; lia).
  set (body := concat (zip_with entryBytes es encs)).
  unfold Decode. rewrite cap_of_list_cap, length_mapBuffer.
  unfold of_list_cap. rewrite length_mapBuffer. unfold mapBuffer. fold body.
  cbn [app Nat.add]. rewrite DecodeFuel_unfold. rewrite <- !app_assoc.
  rewrite decodeBody_map by lia.
  replace (Z.of_nat (S (S (S (S (S (S (S (S (S (length body + length junk)))))))))))
    with (9 + len body + len junk) by (unfold len; lia).
  destruct (Z.ltb_spec (9 + len body + len junk) (9 + t)) as [Hlt|Hge];
    destruct (Z.ltb_spec (len body + len junk) t); try lia; [reflexivity|].
  replace (Z.to_nat (len es)) with (length es) by (unfold len; lia).
  change 9 with (len (x07 :: PutUint32 (len es) ++ PutUint32 t)) at 1.
  unfold body.
  rewrite (decodeEntries_flat _ (fun v enc post => DecodeFuel_scalar _ v enc post) es encs He).
  reflexivity.
Qed.
(** ** Maps as [Decode] builds them *)

Lemma mapGet_mapSet (m : list (gostring * Value)) (k k' : gostring) (v : Value) :
  mapGet (mapSet m k v) k' = if decide (k = k') then Some v else mapGet m k'.
Proof.
  induction m as [|[k0 x] m IH]; cbn [mapSet mapGet].
  - destruct (decide (k = k')); reflexivity.
  - destruct (decide (k0 = k)) as [->|Hne]; cbn [mapGet].
    + destruct (decide (k = k')); reflexivity.
    + rewrite IH. destruct (decide (k0 = k')) as [->|]; [|reflexivity].
      destruct (decide (k = k')); [congruence|reflexivity].
Qed.

Lemma keys_mapSet (m : list (gostring * Value)) (k : gostring) (v : Value) :
  map fst (mapSet m k v) = if decide (k ∈ map fst m) then map fst m else map fst m ++ [k].
Proof.
  induction m as [|[k0 x] m IH]; cbn [mapSet map fst].
  - destruct (decide (k ∈ [])) as [H|_]; [now apply elem_of_nil in H|reflexivity].
  - destruct (decide (k0 = k)) as [->|Hne]; cbn [map fst].
    + destruct (decide (k ∈ k :: map fst m)) as [_|H]; [reflexivity|].
      exfalso. apply H. now left.
    + rewrite IH. destruct (decide (k ∈ map fst m)) as [Hin|Hni].
      * destruct (decide (k ∈ k0 :: map fst m)) as [_|H]; [reflexivity|].
        exfalso. apply H. now right.
      * destruct (decide (k ∈ k0 :: map fst m)) as [H|_]; [|reflexivity].
        apply elem_of_cons in H as [->|H]; [congruence|contradiction].
Qed.

Lemma NoDup_mapSet (m : list (gostring * Value)) (k : gostring) (v : Value) :
  NoDup (map fst m) -> NoDup (map fst (mapSet m k v)).
Proof.
  intros Hnd. rewrite keys_mapSet. destruct (decide (k ∈ map fst m)); [exact Hnd|].
  apply NoDup_app. split; [exact Hnd|]. split; [|apply NoDup_singleton].
  intros x Hx Hx'. apply list_elem_of_singleton in Hx'. now subst.
Qed.

Lemma fold_mapSet_spec (es : list (gostring * Value)) : forall m0,
  NoDup (map fst m0) ->
  let m := fold_left (fun r e => mapSet r (fst e) (snd e)) es m0 in
  NoDup (map fst m)
  /\ forall k, mapGet m k = match mapGet (rev es) k with
                           | Some v => Some v
                           | None => mapGet m0 k
                           end.
Proof.
  induction es as [|[k v] es IH]; intros m0 Hnd; cbn [fold_left fst snd rev].
  - split; [exact Hnd|reflexivity].
  - destruct (IH (mapSet m0 k v) (NoDup_mapSet m0 k v Hnd)) as [Hnd' Hget].
    split; [exact Hnd'|]. intros k'. rewrite Hget, mapGet_mapSet.
    assert (Happ : forall l1 l2, mapGet (l1 ++ l2) k'
                     = match mapGet l1 k' with Some x => Some x | None => mapGet l2 k' end).
    { induction l1 as [|[k1 x1] l1 IH1]; intros l2; cbn [app mapGet]; [reflexivity|].
      destruct (decide (k1 = k')); [reflexivity|apply IH1]. }
    rewrite Happ. cbn [mapGet]. destruct (mapGet (rev es) k'); [reflexivity|].
    destruct (decide (k = k')); reflexivity.
Qed.

(** ** Properties of the codec *)

(** X1.  The round trip law, for the values it holds for: a scalar, a
    slice of scalars or a map of scalars is encoded, and [Decode] reads the
    bytes back, in every backing array, into a value with the same
    content: the same scalar, a [[]interface{}] with the same elements in
    the same order whatever the type of the slice that was encoded, or a
    map with the same entries. *)
Theorem Decode_Encode_flat_roundtrip (v : Value) :
  flat v ->
  exists enc v',
    Encode v = Ok enc
    /\ same_value v v'
    /\ forall spare, Decode (of_list_cap enc spare) = Ok v'.
Proof.
  intros Hv. destruct (Decode_Encode_flat v [] Hv) as (enc & He & _).
  exists enc, (decoded v). split; [exact He|]. split; [now apply decoded_same_value|].
  intros spare. destruct (Decode_Encode_flat v spare Hv) as (enc' & He' & Hd).
  congruence.
Qed.

Lemma Decode_Encode_flat_roundtrip_witness :
  exists enc v',
    Encode (VMap [(str "b", VInt32 1); (str "a", VString (str "x"))]) = Ok enc
    /\ same_value (VMap [(str "b", VInt32 1); (str "a", VString (str "x"))]) v'
    /\ forall spare, Decode (of_list_cap enc spare) = Ok v'.
Proof.
  apply (Decode_Encode_flat_roundtrip (VMap [(str "b", VInt32 1); (str "a", VString (str "x"))])).
  cbn [flat]. split; [vm_compute; reflexivity|]. split.
  - repeat constructor; rewrite ?elem_of_cons, ?elem_of_nil; intros H;
      decompose [or] H; discriminate || contradiction.
  - repeat constructor; cbn [fst snd scalar]; vm_compute; (reflexivity || discriminate).
Defined.

(** X2.  [Encode] returns bytes exactly for the values that hold no value
    of an unsupported type, however deep, and an error for every other
    value. *)
Theorem Encode_accepts_supported_values (v : Value) :
  distinctKeys v = true ->
  ((exists enc, Encode v = Ok enc) <-> supported v = true)
  /\ ((exists e, Encode v = Err e) <-> supported v = false).
Proof.
  intros Hd. pose proof (supported_cases v Hd) as H.
  destruct (supported v); destruct H as [x Hx]; (split; split).
  - reflexivity.
  - eauto.
  - intros [e He]. congruence.
  - discriminate.
  - intros [enc He]. congruence.
  - discriminate.
  - reflexivity.
  - eauto.
Qed.

Lemma Encode_accepts_supported_values_witness :
  ((exists enc, Encode (VArray [VInt32 1; VMap [(str "k", VOther)]]) = Ok enc)
   <-> supported (VArray [VInt32 1; VMap [(str "k", VOther)]]) = true)
  /\ ((exists e, Encode (VArray [VInt32 1; VMap [(str "k", VOther)]]) = Err e)
      <-> supported (VArray [VInt32 1; VMap [(str "k", VOther)]]) = false).
Proof.
  apply (Encode_accepts_supported_values (VArray [VInt32 1; VMap [(str "k", VOther)]])).
  vm_compute. reflexivity.
Defined.
Lemma encodeEntries_body (enc : Value -> res (list byte)) (m : list (gostring * Value))
    (keys : list gostring) :
  forall result totalSize r,
    encodeEntries enc m keys result totalSize = Ok r ->
    exists body, r = (result ++ body, totalSize + len body).
Proof.
  induction keys as [|k keys IH]; intros result totalSize r H; cbn [encodeEntries] in H.
  - injection H as <-. exists []. rewrite app_nil_r. unfold len. cbn [length].
    now rewrite Z.add_0_r.
  - destruct (encodeAt enc m k) as [b| | |]; cbn [wrap bind] in H; try discriminate.
    destruct (IH _ _ _ H) as [body ->]. exists (encodeString k ++ b ++ body).
    rewrite <- !app_assoc, !len_app. f_equal. lia.
Qed.

(** The first five bytes of an encoding: the tag of the value and a word
    that holds the number of members of a slice or of a map, and the
    length of what follows for every other value.  A slice or a map goes
    on with a second word, the length of what follows it. *)
Lemma Encode_header (v : Value) (enc : list byte) :
  Encode v = Ok enc ->
  exists body,
    enc = byte_of_Z (tagOf v) :: PutUint32 (uint32 (match v with
                                                    | VArray elems => len elems
                                                    | VMap m => len m
                                                    | _ => len body
                                                    end)) ++ body
    /\ match v with
       | VArray _ | VMap _ =>
           exists members, body = PutUint32 (uint32 (len members)) ++ members
       | _ => True
       end.
Proof.
  destruct v as [|b|z|z|s|s|bits|bits|elems|m|]; cbn [Encode tagOf]; intros H;
    try (injection H as <-).
  - exists []. split; [reflexivity|exact I].
  - exists [if b then x01 else x00]. split; [destruct b; reflexivity|exact I].
  - exists (PutUint32 (uint32 z)). split; [reflexivity|exact I].
  - exists (PutUint64 (uint64 z)). split; [reflexivity|exact I].
  - exists s. split; [reflexivity|exact I].
  - exists s. split; [reflexivity|exact I].
  - exists (PutUint32 bits). split; [reflexivity|exact I].
  - exists (PutUint64 bits). split; [reflexivity|exact I].
  - destruct (encodeElems Encode elems _ 0) as [r| | |] eqn:Hr; cbn [bind] in H;
      try discriminate.
    destruct (encodeElems_inv Encode elems _ _ _ Hr) as [bodies Hb].
    pose proof (Encode_array_layout elems bodies Hb) as Hl. cbn [Encode] in Hl.
    rewrite Hr in Hl. cbn [bind] in Hl. rewrite Hl in H. injection H as <-.
    eexists. split; [reflexivity|]. eexists. reflexivity.
  - destruct (encodeEntries Encode m _ _ 0) as [r| | |] eqn:Hr; cbn [bind] in H;
      try discriminate.
    destruct (encodeEntries_body Encode m _ _ _ _ Hr) as [body ->].
    rewrite Z.add_0_l, store32_header in H. injection H as <-.
    assert (Hlen : len (sortStrings (map fst m)) = len m).
    { unfold len, sortStrings. now rewrite merge_sort_Permutation, length_map. }
    rewrite Hlen. eexists. split; [reflexivity|]. eexists. reflexivity.
  - discriminate.
Qed.

(** X3.  [GetType] applied to the bytes [Encode] returns gives the tag of
    the encoded value. *)
Theorem GetType_of_Encode (v : Value) (enc spare : list byte) :
  Encode v = Ok enc -> GetType (of_list_cap enc spare) = Ok (tagOf v).
Proof.
  intros H. destruct (Encode_header v enc H) as (body & -> & _).
  unfold GetType, of_list_cap. cbn [slen length Nat.ltb Nat.leb app].
  rewrite index_tag. cbn [bind]. f_equal.
  destruct v; try reflexivity. discriminate.
Qed.

Lemma GetType_of_Encode_witness :
  Encode (VArray [VBool true]) = Ok [x06; x00; x00; x00; x01; x00; x00; x00; x06;
                                     x01; x00; x00; x00; x01; x01]
  /\ GetType (of_list_cap [x06; x00; x00; x00; x01; x00; x00; x00; x06;
                           x01; x00; x00; x00; x01; x01] [x07]) = Ok TypeArray.
Proof.
  split; [reflexivity|].
  apply (GetType_of_Encode (VArray [VBool true])). reflexivity.
Defined.

(** X4.  The count word of an encoded slice or map is its number of
    members, the length word of any other value the number of bytes behind
    the five-byte header (both modulo 2^32). *)
Theorem Encode_header_word (v : Value) (enc : list byte) :
  Encode v = Ok enc ->
  (5 <= length enc)%nat
  /\ be_value (take 4 (drop 1 enc))
     = uint32 (match v with
               | VArray elems => len elems
               | VMap m => len m
               | _ => len enc - 5
               end).
Proof.
  intros H. destruct (Encode_header v enc H) as (body & -> & _).
  cbn [drop]. rewrite drop_0, take_app_length' by reflexivity.
  rewrite be_value_PutUint32. unfold uint32. rewrite Z.mod_mod by lia.
  split; [cbn [length]; rewrite length_app, length_PutUint32; lia|].
  replace (len (byte_of_Z (tagOf v) :: PutUint32 _ ++ body) - 5) with (len body).
  - destruct v; reflexivity.
  - unfold len. cbn [length]. rewrite length_app, length_PutUint32. lia.
Qed.

Lemma Encode_header_word_witness :
  Encode (VString (str "hi")) = Ok [x04; x00; x00; x00; x02; x68; x69]
  /\ (5 <= length [x04; x00; x00; x00; x02; x68; x69])%nat
  /\ be_value (take 4 (drop 1 [x04; x00; x00; x00; x02; x68; x69]))
     = uint32 (len [x04; x00; x00; x00; x02; x68; x69] - 5).
Proof.
  split; [reflexivity|].
  apply (Encode_header_word (VString (str "hi"))). reflexivity.
Defined.

(** X5.  [Decode] uses the size word of an array only to turn down buffers
    that are shorter than it announces: when the buffer is long enough,
    the elements are read one after the other, whatever the size word
    says, and the bytes behind the last element are not looked at. *)
Theorem Decode_array_size_word (elems : list Value) (t : Z) (encs : list (list byte))
    (junk spare : list byte) :
  Forall2 (fun v e => scalar v /\ Encode v = Ok e) elems encs ->
  len elems < 2 ^ 32 -> 0 <= t < 2 ^ 32 ->
  Decode (of_list_cap (arrayBuffer elems t encs junk) spare)
  = if len (concat encs) + len junk <? t
    then Err (EArrayTooShort (9 + t) (9 + len (concat encs) + len junk))
    else Ok (VArray elems).
Proof. apply Decode_arrayBuffer. Qed.

Lemma Decode_array_size_word_witness :
  Decode (of_list_cap (arrayBuffer [VBool true; VNil] 0
                         [[x01; x00; x00; x00; x01; x01]; [x00; x00; x00; x00; x00]]
                         [xff; xff]) [])
  = Ok (VArray [VBool true; VNil]).
Proof.
  apply (Decode_array_size_word [VBool true; VNil] 0
           [[x01; x00; x00; x00; x01; x01]; [x00; x00; x00; x00; x00]] [xff; xff] []).
  - repeat constructor.
  - reflexivity.
  - split; [discriminate|reflexivity].
Defined.

(** X6.  [Decode] does not turn down a map buffer that lists a key more
    than once: the map it returns holds each key once, with the value of
    the last entry of that key. *)
Theorem Decode_map_last_entry_wins (es : list (gostring * Value)) (t : Z)
    (encs : list (list byte)) (junk spare : list byte) :
  Forall2 (fun e b => len (fst e) < 2 ^ 32 /\ scalar (snd e) /\ Encode (snd e) = Ok b)
          es encs ->
  len es < 2 ^ 32 -> 0 <= t < 2 ^ 32 ->
  t <= len (concat (zip_with entryBytes es encs)) + len junk ->
  exists m,
    Decode (of_list_cap (mapBuffer es t encs junk) spare) = Ok (VMap m)
    /\ NoDup (map fst m)
    /\ forall k, mapGet m k = mapGet (rev es) k.
Proof.
  intros He Hn Ht Hfit. rewrite (Decode_mapBuffer es t encs junk spare He Hn Ht).
  destruct (Z.ltb_spec (len (concat (zip_with entryBytes es encs)) + len junk) t); [lia|].
  eexists. split; [reflexivity|].
  destruct (fold_mapSet_spec es [] (NoDup_nil_2)) as [Hnd Hget].
  split; [exact Hnd|]. intros k. rewrite Hget. cbn [mapGet].
  destruct (mapGet (rev es) k); reflexivity.
Qed.

Lemma Decode_map_last_entry_wins_witness :
  exists m,
    Decode (of_list_cap
              (mapBuffer [(str "k", VBool false); (str "k", VBool true)] 22
                 [[x01; x00; x00; x00; x01; x00]; [x01; x00; x00; x00; x01; x01]] [])
              []) = Ok (VMap m)
    /\ NoDup (map fst m)
    /\ forall k, mapGet m k = mapGet (rev [(str "k", VBool false); (str "k", VBool true)]) k.
Proof.
  apply (Decode_map_last_entry_wins [(str "k", VBool false); (str "k", VBool true)] 22
           [[x01; x00; x00; x00; x01; x00]; [x01; x00; x00; x00; x01; x01]] [] []).
  - repeat constructor.
  - reflexivity.
  - split; [discriminate|reflexivity].
  - discriminate.
Defined.

(** X7.  [Decode] comes to an end on every buffer, well-formed or not:
    each call it makes to itself is on a window that starts at least nine
    bytes further into the backing array, so the calls cannot go deeper
    than the array is long. *)
Theorem Decode_ends_on_every_buffer (data : slice) (fuel : nat) :
  halts (Decode data)
  /\ halts (DecodeFuel (S (cap data) + fuel) data).
Proof.
  split; [apply Decode_terminates|]. apply DecodeFuel_halts. lia.
Qed.

(** X8.  Values made of scalars with the same encoding have the same
    content: they are the same scalar, slices with the same elements in
    the same order, or maps with the same entries.  (Slices of different
    types with the same elements, and a nil and an empty slice, do have
    the same encoding.) *)
Theorem Encode_flat_injective (v1 v2 : Value) :
  flat v1 -> flat v2 -> Encode v1 = Encode v2 -> same_value v1 v2.
Proof.
  intros H1 H2 He.
  destruct (Decode_Encode_flat v1 [] H1) as (e1 & He1 & Hd1).
  destruct (Decode_Encode_flat v2 [] H2) as (e2 & He2 & Hd2).
  assert (e1 = e2) by congruence. subst e2.
  assert (Hdec : decoded v1 = decoded v2) by congruence.
  destruct v1 as [| | | | | | | |l1|m1|], v2 as [| | | | | | | |l2|m2|];
    cbn [decoded] in Hdec; try discriminate; try (rewrite <- Hdec; now apply same_value_scalar);
    try (cbn [flat scalar] in H1; contradiction).
  - constructor.
  - injection Hdec as <-. now apply decoded_same_value in H1.
  - injection Hdec as Hs. destruct H1 as (_ & Hnd & Hv1).
    apply (same_map m1 m1 m2); [exact Hnd| |].
    + apply Forall_Forall2_diag. eapply Forall_impl; [exact Hv1|].
      intros e [_ He']. split; [reflexivity | now apply same_value_scalar].
    + rewrite <- (sortEntries_perm m1), Hs. apply sortEntries_perm.
Qed.

Lemma Encode_flat_injective_witness :
  same_value (VMap [(str "b", VInt32 1); (str "a", VNil)])
             (VMap [(str "a", VNil); (str "b", VInt32 1)]).
Proof.
  apply Encode_flat_injective.
  - cbn [flat]. split; [vm_compute; reflexivity|]. split.
    + repeat constructor; rewrite ?elem_of_cons, ?elem_of_nil; intros H;
        decompose [or] H; discriminate || contradiction.
    + repeat constructor; cbn [fst snd scalar]; vm_compute; (reflexivity || discriminate).
  - cbn [flat]. split; [vm_compute; reflexivity|]. split.
    + repeat constructor; rewrite ?elem_of_cons, ?elem_of_nil; intros H;
        decompose [or] H; discriminate || contradiction.
    + repeat constructor; cbn [fst snd scalar]; vm_compute; (reflexivity || discriminate).
  - vm_compute. reflexivity.
Defined.
(* ===================================================================== *)
(** * The commitment protocol                                             *)
(* ===================================================================== *)

Import Transaction CommitmentSpec.

Lemma int_small (v : Z) : - 2 ^ 63 <= v < 2 ^ 63 -> int v = v.
Proof.
  intros H. unfold int, int64. rewrite Z.mod_small by lia. lia.
Qed.

Lemma uint64_small (v : Z) : 0 <= v < 2 ^ 64 -> uint64 v = v.
Proof. intros H. unfold uint64. now rewrite Z.mod_small. Qed.

(** C4.  A payload longer than [chunkSize * 2^depth] is turned down with
    the size error before any leaf is laid out and before the hasher is
    touched; no root, proof or leaf count comes back with an error. *)
Theorem GenerateMerkleTreeWithHardBound_too_large
    (accepts : list byte -> bool) (digest : list (list byte) -> list byte)
    (payload : list byte) (modulus chunkSize depth proofIndex : Z) :
  0 <= chunkSize -> 0 <= depth ->
  len payload < 2 ^ 63 ->
  len payload > chunkSize * 2 ^ depth ->
  GenerateMerkleTreeWithHardBound accepts digest payload modulus chunkSize depth proofIndex
  = Err (EPayloadTooLarge (chunkSize * 2 ^ depth) (len payload)).
Proof.
  intros Hc Hd Hlen Hbig. unfold GenerateMerkleTreeWithHardBound, shl1.
  destruct (Z.ltb_spec depth 0); [lia|]. cbn [bind].
  assert (Hp : 0 < 2 ^ depth) by (apply Z.pow_pos_nonneg; lia).
  assert (Hmax : int (chunkSize * int (2 ^ depth)) = chunkSize * 2 ^ depth).
  { destruct (Z.eq_dec chunkSize 0) as [->|Hne].
    - rewrite !Z.mul_0_l. reflexivity.
    - assert (2 ^ depth <= chunkSize * 2 ^ depth) by nia.
      rewrite (int_small (2 ^ depth)) by lia. apply int_small. nia. }
  rewrite Hmax. destruct (Z.gtb_spec (len payload) (chunkSize * 2 ^ depth)); [reflexivity|lia].
Qed.

Lemma GenerateMerkleTreeWithHardBound_too_large_witness :
  GenerateMerkleTreeWithHardBound (fun _ => true) (fun _ => []) [x01; x02; x03]
    Ecc.BN254_ScalarField 1 1 0
  = Err (EPayloadTooLarge 2 3).
Proof.
  apply (GenerateMerkleTreeWithHardBound_too_large (fun _ => true) (fun _ => [])
           [x01; x02; x03] Ecc.BN254_ScalarField 1 1 0); unfold len; simpl; lia.
Defined.

(** C10.  Every key type but [KeyTypeBLS12377] selects the scalar field of
    BN254 as the padding modulus of both commitment builders and the MiMC
    hasher over BN254; [KeyTypeBLS12377] alone selects the scalar field of
    BW6-761 and its MiMC hasher. *)
Theorem key_type_selects_field_and_hasher :
  (forall keyType : Z,
      keyType <> Crypto.KeyTypeBLS12377 ->
      Crypto.GetHasherByType keyType = Crypto.MiMC_BN254
      /\ (forall accepts digest t,
             KeyType t = keyType ->
             GetUnboundCommitment accepts digest t
             = (let! (payloadRoot, _, _, _, _) :=
                  GenerateMerkleTree accepts digest (Payload t) Ecc.BN254_ScalarField
                    CHUNK_SIZE 0 in
                Ok payloadRoot))
      /\ (forall Sum256 accepts digest t computeRoot c,
             KeyType t = keyType ->
             GetSignatureCommitment Sum256 accepts digest t computeRoot = Ok c ->
             GenerateMerkleTreeWithHardBound accepts digest (Payload t)
               Ecc.BN254_ScalarField CHUNK_SIZE DEPTH 0
             = Ok (PayloadRoot c, ProofElements c, ProofChunk c, NumLeaves c)))
  /\ (Crypto.GetHasherByType Crypto.KeyTypeBLS12377 = Crypto.MiMC_BW6_761
      /\ (forall accepts digest t,
             KeyType t = Crypto.KeyTypeBLS12377 ->
             GetUnboundCommitment accepts digest t
             = (let! (payloadRoot, _, _, _, _) :=
                  GenerateMerkleTree accepts digest (Payload t) Ecc.BW6_761_ScalarField
                    CHUNK_SIZE 0 in
                Ok payloadRoot))
      /\ (forall Sum256 accepts digest t computeRoot c,
             KeyType t = Crypto.KeyTypeBLS12377 ->
             GetSignatureCommitment Sum256 accepts digest t computeRoot = Ok c ->
             GenerateMerkleTreeWithHardBound accepts digest (Payload t)
               Ecc.BW6_761_ScalarField CHUNK_SIZE DEPTH 0
             = Ok (PayloadRoot c, ProofElements c, ProofChunk c, NumLeaves c)))
  /\ Crypto.KeyTypeSecp256k1 <> Crypto.KeyTypeBLS12377
  /\ Crypto.KeyTypeED25519 <> Crypto.KeyTypeBLS12377
  /\ Crypto.KeyTypeMlDSA87 <> Crypto.KeyTypeBLS12377
  /\ Ecc.BN254_ScalarField <> Ecc.BW6_761_ScalarField.
Proof.
  assert (Hsig : forall Sum256 accepts digest t computeRoot c,
    GetSignatureCommitment Sum256 accepts digest t computeRoot = Ok c ->
    GenerateMerkleTreeWithHardBound accepts digest (Payload t) (field (KeyType t))
      CHUNK_SIZE DEPTH 0
    = Ok (PayloadRoot c, ProofElements c, ProofChunk c, NumLeaves c)).
  { intros Sum256 accepts digest t computeRoot c. unfold GetSignatureCommitment.
    destruct (splitHash32 Sum256 (BlockchainId t)) as [[? ?]| | |]; try discriminate.
    destruct (splitHash32 Sum256 (From t)) as [[? ?]| | |]; try discriminate.
    destruct (splitHash32 Sum256 (To t)) as [[? ?]| | |]; try discriminate.
    destruct (splitHash32 Sum256 (Suggestor t)) as [[? ?]| | |]; try discriminate.
    cbn [bind]. change (uint64 0) with 0.
    destruct (GenerateMerkleTreeWithHardBound _ _ _ _ _ _ _) as [[[[? ?] ?] ?]| | |];
      try discriminate.
    cbn [bind]. now intros [= <-]. }
  repeat split; try discriminate.
  - unfold Crypto.GetHasherByType.
    destruct (Z.eqb_spec keyType Crypto.KeyTypeSecp256k1); [reflexivity|].
    destruct (Z.eqb_spec keyType Crypto.KeyTypeBLS12377); [contradiction|reflexivity].
  - intros accepts digest t <-. unfold GetUnboundCommitment, field.
    destruct (Z.eqb_spec (KeyType t) Crypto.KeyTypeBLS12377); [contradiction|reflexivity].
  - intros Sum256 accepts digest t computeRoot c <- Hc. rewrite <- (Hsig _ _ _ _ _ _ Hc).
    unfold field. destruct (Z.eqb_spec (KeyType t) Crypto.KeyTypeBLS12377); [contradiction|reflexivity].
  - intros accepts digest t Hk. unfold GetUnboundCommitment, field. now rewrite Hk.
  - intros Sum256 accepts digest t computeRoot c Hk Hc. rewrite <- (Hsig _ _ _ _ _ _ Hc).
    unfold field. now rewrite Hk.
Qed.

Lemma key_type_selects_field_and_hasher_witness :
  Crypto.KeyTypeED25519 <> Crypto.KeyTypeBLS12377
  /\ Crypto.GetHasherByType Crypto.KeyTypeED25519 = Crypto.MiMC_BN254.
Proof.
  assert (H : Crypto.KeyTypeED25519 <> Crypto.KeyTypeBLS12377) by discriminate.
  split; [exact H|].
  exact (proj1 (proj1 key_type_selects_field_and_hasher Crypto.KeyTypeED25519 H)).
Defined.

Lemma splitHash32_halves (Sum256 : list byte -> list byte) (data hi lo : list byte) :
  splitHash32 Sum256 data = Ok (hi, lo) -> halves (Sum256 data) hi lo.
Proof.
  unfold splitHash32, halves. destruct (Z.eqb_spec (len (Sum256 data)) 32) as [H|H];
    cbn [negb]; [|discriminate].
  intros [= <- <-]. unfold len in H.
  rewrite length_take, length_drop, take_drop. repeat split; lia.
Qed.

(** C2.  [HashSignatureCommitment] resets the hasher and writes, in this
    order, the two halves of the blockchain id, of the sender and of the
    receiver, the payload root, the timestamp as eight big-endian bytes and
    the two halves of the suggestor: the digest is that of exactly this
    sequence (for a streaming hash, of its concatenation).  In a commitment
    built by [GetSignatureCommitment] each pair of halves is the first and
    the last sixteen bytes of the 32-byte SHA-256 digest of the
    identifier. *)
Theorem HashSignatureCommitment_preimage :
  (forall (hasher : Hash.t) (c : TransactionCommitment),
      HashSignatureCommitment hasher c
      = (Hash.digest hasher (CommitmentPreimage c),
         Hash.Make (Hash.digest hasher) (CommitmentPreimage c)))
  /\ (forall (H : list byte -> list byte) (hasher : Hash.t) (c : TransactionCommitment),
      (forall segments, Hash.digest hasher segments = H (concat segments)) ->
      fst (HashSignatureCommitment hasher c)
      = H (BlockchainIdHigh c ++ BlockchainIdLow c ++ FromHigh c ++ FromLow c
           ++ ToHigh c ++ ToLow c ++ PayloadRoot c ++ PutUint64 (Timestamp c)
           ++ SuggestorHigh c ++ SuggestorLow c))
  /\ (forall c : TransactionCommitment,
      length (PutUint64 (Timestamp c)) = 8%nat
      /\ be_value (PutUint64 (Timestamp c)) = Timestamp c mod 2 ^ 64)
  /\ (forall Sum256 accepts digest (t : ULTransactionInput) computeRoot c,
      GetSignatureCommitment Sum256 accepts digest t computeRoot = Ok c ->
      halves (Sum256 (BlockchainId t)) (BlockchainIdHigh c) (BlockchainIdLow c)
      /\ halves (Sum256 (From t)) (FromHigh c) (FromLow c)
      /\ halves (Sum256 (To t)) (ToHigh c) (ToLow c)
      /\ halves (Sum256 (Suggestor t)) (SuggestorHigh c) (SuggestorLow c)
      /\ Timestamp c = uint64 (SenderTimestamp t)).
Proof.
  split; [reflexivity|]. split.
  - intros H hasher c Hs.
    change (fst (HashSignatureCommitment hasher c))
      with (Hash.digest hasher (CommitmentPreimage c)).
    rewrite Hs. unfold CommitmentPreimage. cbn [concat]. now rewrite app_nil_r.
  - split; [intros c; split; [reflexivity | apply be_value_PutUint64]|].
    intros Sum256 accepts digest t computeRoot c. unfold GetSignatureCommitment.
    destruct (splitHash32 Sum256 (BlockchainId t)) as [[? ?]| | |] eqn:H1; try discriminate.
    destruct (splitHash32 Sum256 (From t)) as [[? ?]| | |] eqn:H2; try discriminate.
    destruct (splitHash32 Sum256 (To t)) as [[? ?]| | |] eqn:H3; try discriminate.
    destruct (splitHash32 Sum256 (Suggestor t)) as [[? ?]| | |] eqn:H4; try discriminate.
    cbn [bind].
    destruct (GenerateMerkleTreeWithHardBound _ _ _ _ _ _ _) as [[[[? ?] ?] ?]| | |];
      try discriminate.
    cbn [bind]. intros [= <-].
    cbn [BlockchainIdHigh BlockchainIdLow FromHigh FromLow ToHigh ToLow
         SuggestorHigh SuggestorLow Timestamp].
    split; [now apply splitHash32_halves|]. split; [now apply splitHash32_halves|].
    split; [now apply splitHash32_halves|]. split; [now apply splitHash32_halves|].
    reflexivity.
Qed.

(** C6.  For the four unbound kinds the signed bytes are the root of the
    exact-mode tree over the payload, a function of the payload and of the
    wallet's key type alone; for every other kind they are the digest, by
    the hasher of the key type, of the commitment preimage that
    [GetSignatureCommitment] builds from the completed input. *)
Theorem GenerateTransaction_signed_bytes Sum256 MiMC (session : Session)
    (input : ULTransactionInput) (curTime : Z) (kind : ULTransactionType) :
  PayloadType input = String kind ->
  let digest := MiMC (Crypto.GetHasherByType (walletKeyType session)) in
  let accepts := Mimc.accepts (Crypto.GetHasherByType (walletKeyType session)) in
  signedBytes Sum256 MiMC session input curTime
  = if unbound kind then
      let! (payloadRoot, _, _, _, _) :=
        GenerateMerkleTree accepts digest (Payload input) (field (walletKeyType session))
                           CHUNK_SIZE 0 in
      Ok payloadRoot
    else
      let! commitment :=
        GetSignatureCommitment Sum256 accepts digest
          (boundInput session input curTime) true in
      Ok (digest (CommitmentPreimage commitment)).
Proof.
  intros Hk digest accepts. unfold signedBytes, GenerateTransaction_commitment.
  cbn [PayloadType KeyType]. rewrite Hk.
  destruct kind;
    match goal with
    | |- context [if ?c then _ else _] =>
        let b := eval vm_compute in c in change c with b
    end; cbv iota; cbn [unbound].
  all: try (unfold GetUnboundCommitment; cbn [Payload KeyType];
            change (Hash.digest (NewHasher MiMC ?k)) with (MiMC k); fold digest accepts;
            change (uint64 0) with 0;
            destruct (GenerateMerkleTree _ _ _ _ _ _) as [[[[[? ?] ?] ?] ?]| | |];
            reflexivity).
  all: match goal with
       | |- context [bool_decide ?P] =>
           let b := eval vm_compute in (bool_decide P) in change (bool_decide P) with b
       end; cbv iota;
       change (Hash.digest (NewHasher MiMC ?k)) with (MiMC k); fold digest accepts;
       unfold boundInput;
       destruct (GetSignatureCommitment _ _ _ _ _) as [c| | |]; reflexivity.
Qed.

Lemma HashSignatureCommitment_preimage_witness :
  exists c,
    GetSignatureCommitment exampleSum256 (Mimc.accepts Crypto.MiMC_BN254) exampleDigest
      exampleInput true = Ok c
    /\ halves (exampleSum256 (BlockchainId exampleInput))
              (BlockchainIdHigh c) (BlockchainIdLow c)
    /\ Timestamp c = 1700000000.
Proof.
  eexists. split; [vm_compute; reflexivity|].
  split.
  - apply (proj2 (proj2 (proj2 HashSignatureCommitment_preimage))
             exampleSum256 (Mimc.accepts Crypto.MiMC_BN254) exampleDigest exampleInput true).
    vm_compute; reflexivity.
  - reflexivity.
Defined.

Lemma GenerateTransaction_signed_bytes_witness :
  PayloadType exampleInput = String TX_DATA
  /\ signedBytes exampleSum256 (fun _ => exampleDigest) exampleSession exampleInput
                 1700000000
     = (let! commitment :=
          GetSignatureCommitment exampleSum256 (Mimc.accepts Crypto.MiMC_BN254)
            exampleDigest (boundInput exampleSession exampleInput 1700000000) true in
        Ok (exampleDigest (CommitmentPreimage commitment))).
Proof.
  split; [reflexivity|].
  exact (GenerateTransaction_signed_bytes exampleSum256 (fun _ => exampleDigest)
           exampleSession exampleInput 1700000000 TX_DATA eq_refl).
Defined.
(* ===================================================================== *)
(** * Perfect Merkle trees, for a hasher that takes every write            *)
(* ===================================================================== *)

Module MerkleFacts.
Import MerkleTree PureTree MerkleSpec.

Lemma pow2_S (d : nat) : pow2 (S d) = 2 * pow2 d.
Proof. unfold pow2. rewrite Nat2Z.inj_succ, Z.pow_succ_r; lia. Qed.

Lemma pow2_pos (d : nat) : 0 < pow2 d.
Proof. unfold pow2. apply Z.pow_pos_nonneg; lia. Qed.

Lemma pow2_nat (d : nat) : Z.of_nat (2 ^ d) = pow2 d.
Proof.
  induction d as [|d IH]; [reflexivity|].
  rewrite pow2_S, Nat.pow_succ_r', Nat2Z.inj_mul, IH. reflexivity.
Qed.

Lemma pow2_le (a b : nat) : (a <= b)%nat -> pow2 a <= pow2 b.
Proof. intros H. unfold pow2. apply Z.pow_le_mono_r; lia. Qed.

Lemma pow2_62 (d : nat) : (d <= 62)%nat -> pow2 d <= 2 ^ 62.
Proof. intros H. apply (pow2_le d 62 H). Qed.

Section WithHasher.
Variable digest : list (list byte) -> list byte.

Abbreviation leafSum := (leafSum digest).
Abbreviation nodeSum := (nodeSum digest).
Abbreviation joinAllSubTrees := (joinAllSubTrees digest).
Abbreviation Push := (Push digest).
Abbreviation mroot := (mroot digest).
Abbreviation mpath := (mpath digest).
Abbreviation pushAll := (pushAll digest).
Abbreviation blockProof := (blockProof digest).
Abbreviation climb := (climb digest).

Lemma length_mpath (d : nat) : forall leaves p, length (mpath d leaves p) = d.
Proof.
  induction d as [|d IH]; intros leaves p; cbn [mpath]; [reflexivity|].
  destruct (p <? 2 ^ d)%nat; rewrite length_app, IH; cbn; lia.
Qed.

Lemma pushAll_app (l1 l2 : list (list byte)) : forall t,
  pushAll t (l1 ++ l2) = (let! t := pushAll t l1 in pushAll t l2).
Proof.
  induction l1 as [|x l1 IH]; intros t; cbn [pushAll app bind]; [reflexivity|].
  destruct (Push t x); cbn [bind]; auto.
Qed.

(** Reading a buffer made of segments of the right size pushes the
    segments one by one. *)
Lemma readSegments_concat (w : nat) (leaves : list (list byte)) :
  (0 < w)%nat -> Forall (fun l => length l = w) leaves ->
  forall fuel t, (length (concat leaves) <= fuel)%nat ->
  readSegments digest fuel t (concat leaves) w = pushAll t leaves.
Proof.
  intros Hw HF. induction HF as [|l leaves Hl _ IH]; intros fuel t Hfuel.
  - destruct fuel; reflexivity.
  - cbn [concat] in *. rewrite length_app in Hfuel.
    destruct l as [|b l]; [cbn in Hl; lia|].
    destruct fuel as [|fuel]; [cbn in Hfuel; lia|].
    cbn [app readSegments pushAll].
    change (b :: l ++ concat leaves) with ((b :: l) ++ concat leaves).
    assert (Ht : take w ((b :: l) ++ concat leaves) = b :: l)
      by (rewrite <- Hl; apply take_app_length).
    assert (Hdr : drop w ((b :: l) ++ concat leaves) = concat leaves)
      by (rewrite <- Hl; apply drop_app_length).
    rewrite Ht, Hdr.
    destruct (Push t (b :: l)); cbn [bind]; try reflexivity.
    apply IH. cbn in Hfuel. lia.
Qed.

Lemma joinAll_stop cur p hd rest ps :
  match rest with [] => True | next :: _ => height hd <> height next end ->
  joinAllSubTrees cur p hd rest ps = Ok (hd :: rest, ps).
Proof.
  destruct rest as [|next rest]; intros H; cbn [PureTree.joinAllSubTrees]; [reflexivity|].
  destruct (Z.eqb_spec (height hd) (height next)); [contradiction|reflexivity].
Qed.

Lemma blockProof_in d leaves cur p :
  cur <= p < cur + pow2 d ->
  blockProof d leaves cur p []
  = nth (Z.to_nat (p - cur)) leaves [] :: mpath d leaves (Z.to_nat (p - cur)).
Proof.
  intros [H1 H2]. unfold blockProof. rewrite bool_decide_true by reflexivity.
  destruct (Z.leb_spec cur p); [|lia].
  destruct (Z.ltb_spec p (cur + pow2 d)); [reflexivity|lia].
Qed.

Lemma blockProof_out d leaves cur p ps :
  ps <> [] \/ p < cur \/ cur + pow2 d <= p -> blockProof d leaves cur p ps = ps.
Proof.
  intros H. unfold blockProof.
  destruct (decide (ps = [])) as [->|Hne].
  - rewrite bool_decide_true by reflexivity.
    destruct (Z.leb_spec cur p); cbn [andb]; [|reflexivity].
    destruct (Z.ltb_spec p (cur + pow2 d)); [|reflexivity].
    destruct H as [H|[H|H]]; [congruence|lia|lia].
  - now rewrite bool_decide_false.
Qed.

Lemma uint64_pow2 (d : nat) : (d <= 62)%nat -> uint64 (2 ^ Z.of_nat d) = pow2 d.
Proof.
  intros H. apply uint64_small. pose proof (pow2_pos d). pose proof (pow2_62 d H).
  unfold pow2 in *. lia.
Qed.

(** Two blocks of height [d] side by side are joined into one of height
    [d + 1]; the sibling of the block with the proof index joins the
    proof set. *)
Lemma joinAll_step (d : nat) (r1 r2 : list byte) stack cur k p ps :
  (S d <= 62)%nat -> cur = k * pow2 (S d) -> 0 <= k -> cur + pow2 (S d) <= 2 ^ 63 ->
  (Z.of_nat d = len ps - 1 -> cur <= p) ->
  joinAllSubTrees (cur + pow2 (S d) - 1) p (SubTree (Z.of_nat d) r2)
                  (SubTree (Z.of_nat d) r1 :: stack) ps
  = joinAllSubTrees (cur + pow2 (S d) - 1) p
      (SubTree (Z.of_nat (S d)) (nodeSum r1 r2)) stack
      (if Z.of_nat d =? len ps - 1
       then if p <? cur + pow2 d then ps ++ [r2] else ps ++ [r1]
       else ps).
Proof.
  intros Hd Hcur Hk Hmax Hp.
  pose proof (pow2_pos d) as Hpos. pose proof (pow2_62 d ltac:(lia)) as H62.
  rewrite pow2_S in *.
  cbn [PureTree.joinAllSubTrees height ssum]. rewrite Z.eqb_refl.
  unfold joinSubTrees. cbn [height ssum].
  replace (Z.of_nat d + 1) with (Z.of_nat (S d)) by lia.
  destruct (Z.eqb_spec (Z.of_nat d) (len ps - 1)) as [He|Hne]; [|reflexivity].
  rewrite uint64_pow2 by lia.
  destruct (Z.eqb_spec (pow2 d) 0); [lia|].
  assert (Hdiv : (cur + 2 * pow2 d - 1) / pow2 d = 2 * k + 1).
  { symmetry. apply (Z.div_unique _ _ _ (pow2 d - 1)); lia. }
  rewrite Hdiv.
  replace ((2 * k + 1) * pow2 d) with (cur + pow2 d) by lia.
  rewrite (uint64_small (cur + pow2 d)) by lia.
  replace (cur + pow2 d - pow2 d) with cur by lia.
  rewrite (uint64_small cur) by nia.
  specialize (Hp He). destruct (Z.ltb_spec p cur); [lia|]. reflexivity.
Qed.

Lemma blockProof_join (d : nat) leaves cur p ps :
  length leaves = (2 ^ S d)%nat ->
  (ps = [] \/ (Z.of_nat (S d) < len ps /\ p < cur)) ->
  let ps2 := blockProof d (drop (2 ^ d) leaves) (cur + pow2 d) p
               (blockProof d (take (2 ^ d) leaves) cur p ps) in
  (if Z.of_nat d =? len ps2 - 1
   then if p <? cur + pow2 d
        then ps2 ++ [mroot d (drop (2 ^ d) leaves)]
        else ps2 ++ [mroot d (take (2 ^ d) leaves)]
   else ps2)
  = blockProof (S d) leaves cur p ps
  /\ (Z.of_nat d = len ps2 - 1 -> cur <= p).
Proof.
  intros Hlen Hps ps2. subst ps2.
  pose proof (pow2_pos d) as Hpos. assert (HS := pow2_S d).
  assert (Hnat := pow2_nat d).
  destruct Hps as [->|[Hl Hlt]].
  - destruct (Z_le_dec cur p) as [Hle|Hnle];
      [destruct (Z_lt_dec p (cur + pow2 d)) as [H1|H1];
       [|destruct (Z_lt_dec p (cur + pow2 (S d))) as [H2|H2]]|].
    + (* the proof index is in the left block *)
      rewrite (blockProof_in d _ cur p) by lia.
      rewrite blockProof_out by (now left).
      rewrite (blockProof_in (S d)) by lia.
      unfold len. cbn [length]. rewrite length_mpath.
      destruct (Z.eqb_spec (Z.of_nat d) (Z.of_nat (S d) - 1)); [|lia].
      destruct (Z.ltb_spec p (cur + pow2 d)); [|lia].
      split; [|intros; lia]. cbn [mpath app].
      destruct (Nat.ltb_spec (Z.to_nat (p - cur)) (2 ^ d)); [|lia].
      rewrite nth_firstn. destruct (Nat.ltb_spec (Z.to_nat (p - cur)) (2 ^ d)); [|lia].
      reflexivity.
    + (* the proof index is in the right block *)
      rewrite (blockProof_out d _ cur p) by lia.
      rewrite (blockProof_in d _ (cur + pow2 d) p) by lia.
      rewrite (blockProof_in (S d)) by lia.
      unfold len. cbn [length]. rewrite length_mpath.
      destruct (Z.eqb_spec (Z.of_nat d) (Z.of_nat (S d) - 1)); [|lia].
      destruct (Z.ltb_spec p (cur + pow2 d)); [lia|].
      split; [|intros; lia]. cbn [mpath app].
      destruct (Nat.ltb_spec (Z.to_nat (p - cur)) (2 ^ d)); [lia|].
      rewrite nth_skipn.
      replace (Z.to_nat (p - (cur + pow2 d))) with (Z.to_nat (p - cur) - 2 ^ d)%nat by lia.
      replace (2 ^ d + (Z.to_nat (p - cur) - 2 ^ d))%nat with (Z.to_nat (p - cur)) by lia.
      reflexivity.
    + rewrite (blockProof_out d _ cur p) by lia.
      rewrite (blockProof_out d _ (cur + pow2 d) p) by lia.
      rewrite (blockProof_out (S d)) by lia.
      change (len (@nil (list byte)) - 1) with (-1).
      destruct (Z.eqb_spec (Z.of_nat d) (-1)); [lia|].
      split; [reflexivity|lia].
    + rewrite (blockProof_out d _ cur p) by lia.
      rewrite (blockProof_out d _ (cur + pow2 d) p) by lia.
      rewrite (blockProof_out (S d)) by lia.
      change (len (@nil (list byte)) - 1) with (-1).
      destruct (Z.eqb_spec (Z.of_nat d) (-1)); [lia|].
      split; [reflexivity|lia].
  - assert (Hne : ps <> []) by (intros ->; unfold len in Hl; cbn in Hl; lia).
    rewrite (blockProof_out d _ cur p ps) by (now left).
    rewrite (blockProof_out d _ _ p ps) by (now left).
    rewrite (blockProof_out (S d) _ _ p ps) by (now left).
    destruct (Z.eqb_spec (Z.of_nat d) (len ps - 1)); [lia|].
    split; [reflexivity|lia].
Qed.

Lemma pushAll_block (p : Z) (d : nat) : forall leaves stack cur ps k,
  0 <= p ->
  (d <= 62)%nat ->
  length leaves = (2 ^ d)%nat ->
  cur = k * pow2 d -> 0 <= k -> cur + pow2 d <= 2 ^ 63 ->
  Forall (fun s => Z.of_nat d <= height s) stack ->
  (ps = [] \/ (Z.of_nat d < len ps /\ p < cur)) ->
  pushAll (MkTree stack cur p ps) leaves
  = (let! (stack', ps') :=
       joinAllSubTrees (cur + pow2 d - 1) p (SubTree (Z.of_nat d) (mroot d leaves))
                       stack (blockProof d leaves cur p ps) in
     Ok (MkTree stack' (cur + pow2 d) p ps')).
Proof.
  induction d as [|d IH]; intros leaves stack cur ps k Hp Hd Hlen Hcur Hk Hmax Hst Hps.
  - (* one leaf *)
    destruct leaves as [|leaf [|? ?]]; try discriminate.
    cbn [pushAll]. unfold PureTree.Push. cbn [currentIndex proofIndex proofSet head mroot nth].
    change (pow2 0) with 1 in *. replace (cur + 1 - 1) with cur by lia.
    rewrite (uint64_small (cur + 1)) by lia.
    assert (Hbp : (if cur =? p then ps ++ [leaf] else ps) = blockProof 0 [leaf] cur p ps).
    { unfold blockProof. change (pow2 0) with 1.
      destruct (Z.eqb_spec cur p) as [->|Hne].
      - destruct Hps as [->|[_ ?]]; [|lia]. cbn [bool_decide decide_rel app].
        rewrite bool_decide_true by reflexivity.
        destruct (Z.leb_spec p p); [|lia]. destruct (Z.ltb_spec p (p + 1)); [|lia].
        cbn. now rewrite Z.sub_diag.
      - destruct (bool_decide (ps = [])); cbn [andb]; [|reflexivity].
        destruct (Z.leb_spec cur p); cbn [andb]; [|reflexivity].
        destruct (Z.ltb_spec p (cur + 1)); [lia|reflexivity]. }
    rewrite Hbp.
    destruct (joinAllSubTrees _ _ _ _ _) as [[? ?]| | |]; reflexivity.
  - (* two blocks *)
    pose proof (pow2_pos d) as Hpos. pose proof (pow2_62 d ltac:(lia)) as H62.
    assert (HS := pow2_S d).
    set (L1 := take (2 ^ d) leaves). set (L2 := drop (2 ^ d) leaves).
    assert (HL1 : length L1 = (2 ^ d)%nat).
    { subst L1. rewrite length_take, Hlen, Nat.pow_succ_r'. lia. }
    assert (HL2 : length L2 = (2 ^ d)%nat).
    { subst L2. rewrite length_drop, Hlen, Nat.pow_succ_r'. lia. }
    rewrite <- (take_drop (2 ^ d) leaves) at 1. fold L1 L2.
    rewrite pushAll_app.
    rewrite (IH L1 stack cur ps (2 * k)); try assumption; try lia.
    2:{ eapply Forall_impl; [exact Hst|]. cbn. intros; lia. }
    2:{ destruct Hps as [?|[? ?]]; [now left|right; lia]. }
    rewrite joinAll_stop.
    2:{ destruct stack as [|s stack']; [exact I|]. apply Forall_cons in Hst as [Hs _].
        cbn [height]. lia. }
    cbn [bind].
    rewrite (IH L2 _ (cur + pow2 d) _ (2 * k + 1)); try assumption; try lia.
    2:{ constructor; [cbn [height]; lia|].
        eapply Forall_impl; [exact Hst|]. cbn. intros; lia. }
    2:{ destruct Hps as [->|[? ?]].
        - destruct (Z_le_dec cur p), (Z_lt_dec p (cur + pow2 d)).
          + right. rewrite blockProof_in by lia. unfold len. cbn [length].
            rewrite length_mpath. lia.
          + left. apply blockProof_out. lia.
          + left. apply blockProof_out. lia.
          + left. apply blockProof_out. lia.
        - right. rewrite blockProof_out by (left; intros ->; unfold len in *; cbn in *; lia).
          lia. }
    replace (cur + pow2 d + pow2 d - 1) with (cur + pow2 (S d) - 1) by lia.
    replace (cur + pow2 d + pow2 d) with (cur + pow2 (S d)) by lia.
    rewrite (joinAll_step d _ _ stack cur k p); try assumption.
    + (* the proof set is the one of the joined block *)
      cbn [mroot]. fold L1 L2.
      match goal with
      | |- (let! _ := joinAllSubTrees _ _ _ _ ?a in _) = (let! _ := joinAllSubTrees _ _ _ _ ?b in _) =>
          assert (Hsame : a = b); [|rewrite Hsame; reflexivity]
      end.
      subst L1 L2. apply (blockProof_join d leaves cur p ps Hlen Hps).
    + subst L1 L2. apply (blockProof_join d leaves cur p ps Hlen Hps).
Qed.
(** The tree built from [2^depth] leaves of [w] bytes each. *)
Lemma BuildReaderProof_perfect (depth w : nat) (leaves : list (list byte)) (p : Z) :
  (depth <= 62)%nat -> (0 < w)%nat ->
  length leaves = (2 ^ depth)%nat ->
  Forall (fun l => length l = w) leaves ->
  0 <= p < pow2 depth ->
  BuildReaderProof digest (concat leaves) (Z.of_nat w) p
  = Ok (mroot depth leaves,
        nth (Z.to_nat p) leaves [] :: mpath depth leaves (Z.to_nat p),
        pow2 depth).
Proof.
  intros Hd Hw Hlen HF Hp. unfold BuildReaderProof, ReadAll, New.
  destruct (Z.ltb_spec (Z.of_nat w) 0); [lia|].
  destruct (Z.eqb_spec (Z.of_nat w) 0); [lia|].
  rewrite Nat2Z.id, (readSegments_concat w leaves Hw HF) by lia.
  pose proof (pow2_pos depth) as Hpos. pose proof (pow2_62 depth Hd) as H62.
  rewrite (pushAll_block p depth leaves [] 0 [] 0); try lia; try assumption;
    [|constructor|now left].
  rewrite joinAll_stop by exact I. cbn [bind].
  rewrite blockProof_in by lia. rewrite Z.sub_0_r, Z.add_0_l.
  unfold Prove, Root. cbn [head proofSet proofIndex currentIndex collapse ssum].
  unfold len at 1. cbn [length]. rewrite length_mpath.
  destruct (Z.eqb_spec (Z.of_nat (S depth)) 0); [lia|].
  cbn [joinLower]. rewrite andb_false_r. cbn [map bind]. rewrite app_nil_r.
  unfold len. cbn [length]. rewrite length_mpath.
  destruct (Z.eqb_spec (Z.of_nat (S depth)) 0); [lia|]. reflexivity.
Qed.

Lemma climb_app (a b : list (list byte)) (p : Z) : forall h sum,
  climb (a ++ b) p h sum = climb b p (h + len a) (climb a p h sum).
Proof.
  induction a as [|s a IH]; intros h sum; cbn [app climb].
  - unfold len; cbn. now rewrite Z.add_0_r.
  - rewrite IH. f_equal. unfold len. cbn [length]. lia.
Qed.

Lemma mod_halves (p P q : Z) :
  0 < P -> p mod (2 * P) = q ->
  (q < P -> p mod P = q) /\ (P <= q -> p mod P = q - P).
Proof.
  intros HP Hq. rewrite (Z.mul_comm 2 P), Z.rem_mul_r in Hq by lia.
  pose proof (Z.mod_pos_bound p P HP) as Hr.
  pose proof (Z.mod_pos_bound (p / P) 2 ltac:(lia)) as Hb.
  set (r := p mod P) in *. set (b := (p / P) mod 2) in *.
  assert (Hb' : b = 0 \/ b = 1) by lia.
  destruct Hb' as [Hb'|Hb']; rewrite Hb' in Hq; split; intros; lia.
Qed.

Lemma climb_mpath (p : Z) (d : nat) : forall leaves q,
  length leaves = (2 ^ d)%nat -> (q < 2 ^ d)%nat ->
  p mod pow2 d = Z.of_nat q ->
  climb (mpath d leaves q) p 1 (leafSum (nth q leaves [])) = mroot d leaves.
Proof.
  induction d as [|d IH]; intros leaves q Hlen Hq Hmod.
  - cbn in Hq. replace q with 0%nat by lia. reflexivity.
  - pose proof (pow2_pos d) as Hpos. assert (Hnat := pow2_nat d).
    rewrite pow2_S in Hmod. destruct (mod_halves p (pow2 d) _ Hpos Hmod) as [Hlo Hhi].
    assert (Hstep : p - p / 2 ^ (1 + Z.of_nat d) * 2 ^ (1 + Z.of_nat d) = Z.of_nat q).
    { rewrite <- Hmod. replace (2 ^ (1 + Z.of_nat d)) with (2 * pow2 d)
        by (unfold pow2; rewrite Z.pow_add_r by lia; reflexivity).
      rewrite Z.mod_eq by lia. lia. }
    assert (HL1 : length (take (2 ^ d) leaves) = (2 ^ d)%nat)
      by (rewrite length_take, Hlen, Nat.pow_succ_r'; lia).
    assert (HL2 : length (drop (2 ^ d) leaves) = (2 ^ d)%nat)
      by (rewrite length_drop, Hlen, Nat.pow_succ_r'; lia).
    cbn [mpath mroot]. destruct (Nat.ltb_spec q (2 ^ d)) as [Hlt|Hge].
    + rewrite climb_app. unfold len. rewrite length_mpath.
      replace (nth q leaves []) with (nth q (take (2 ^ d) leaves) [])
        by (rewrite nth_firstn; destruct (Nat.ltb_spec q (2 ^ d)); [reflexivity|lia]).
      rewrite IH; [|assumption|assumption|apply Hlo; lia].
      cbn [climb]. rewrite Hstep.
      replace (1 + Z.of_nat d - 1) with (Z.of_nat d) by lia. fold (pow2 d).
      destruct (Z.ltb_spec (Z.of_nat q) (pow2 d)); [reflexivity|lia].
    + rewrite climb_app. unfold len. rewrite length_mpath.
      replace (nth q leaves []) with (nth (q - 2 ^ d) (drop (2 ^ d) leaves) [])
        by (rewrite nth_skipn; f_equal; lia).
      rewrite IH; [|assumption|rewrite Nat.pow_succ_r' in Hq; lia|].
      2:{ rewrite Hhi by lia. lia. }
      cbn [climb]. rewrite Hstep.
      replace (1 + Z.of_nat d - 1) with (Z.of_nat d) by lia. fold (pow2 d).
      destruct (Z.ltb_spec (Z.of_nat q) (pow2 d)); [lia|reflexivity].
Qed.

Lemma pow2_add (a b : nat) : pow2 (a + b) = pow2 a * pow2 b.
Proof. unfold pow2. rewrite Nat2Z.inj_add, Z.pow_add_r; lia. Qed.

Lemma aligned_block_fits (a b : nat) (p : Z) :
  (a <= b)%nat -> 0 <= p < pow2 b ->
  0 <= p / pow2 a * pow2 a <= p /\ p / pow2 a * pow2 a + pow2 a <= pow2 b.
Proof.
  intros Hab Hp. pose proof (pow2_pos a) as Ha. pose proof (pow2_pos (b - a)) as Hba.
  assert (Hb : pow2 b = pow2 a * pow2 (b - a))
    by (rewrite <- pow2_add; f_equal; lia).
  assert (Hq : p / pow2 a < pow2 (b - a))
    by (apply Z.div_lt_upper_bound; lia).
  pose proof (Z.mul_div_le p (pow2 a) Ha).
  assert (0 <= p / pow2 a) by (apply Z.div_pos; lia).
  split; nia.
Qed.

Lemma verifyStable_perfect (depth : nat) (leaf : list byte)
    (sibs : list (list byte)) (p : Z) :
  (depth <= 62)%nat -> length sibs = depth -> 0 <= p < pow2 depth ->
  forall (j i fuel : nat) (sum : list byte) (stableEnd : Z),
    (i + j = depth)%nat -> (j < fuel)%nat ->
    verifyStable digest fuel (leaf :: sibs) p (pow2 depth) (Z.of_nat (S i)) sum stableEnd
    = Some (Z.of_nat (S depth),
            climb (drop i sibs) p (Z.of_nat (S i)) sum,
            if (j =? 0)%nat then stableEnd else pow2 depth - 1).
Proof.
  intros Hd Hlen Hp.
  pose proof (pow2_pos depth) as Hpos. pose proof (pow2_62 depth Hd) as H62.
  induction j as [|j IH]; intros i fuel sum stableEnd Hij Hfuel;
    (destruct fuel as [|fuel]; [lia|]); cbn [verifyStable].
  - (* above the root *)
    assert (i = depth) by lia. subst i.
    change (2 ^ Z.of_nat (S depth)) with (pow2 (S depth)). rewrite pow2_S.
    rewrite (uint64_small (2 * pow2 depth)) by lia.
    destruct (Z.eqb_spec (2 * pow2 depth) 0); [lia|].
    rewrite (Z.div_small p) by lia. rewrite Z.mul_0_l, (uint64_small 0) by lia.
    rewrite (uint64_small (0 + 2 * pow2 depth - 1)) by lia.
    destruct (Z.geb_spec (0 + 2 * pow2 depth - 1) (pow2 depth)); [|lia].
    rewrite drop_ge by lia. reflexivity.
  - (* one level up *)
    assert (Hi : (S i <= depth)%nat) by lia.
    pose proof (pow2_pos (S i)) as Hposi. pose proof (pow2_le (S i) depth Hi) as Hle.
    destruct (aligned_block_fits (S i) depth p Hi Hp) as [Hstart Hend].
    change (2 ^ Z.of_nat (S i)) with (pow2 (S i)).
    rewrite (uint64_small (pow2 (S i))) by lia.
    destruct (Z.eqb_spec (pow2 (S i)) 0); [lia|].
    rewrite (uint64_small (p / pow2 (S i) * pow2 (S i))) by lia.
    rewrite (uint64_small (p / pow2 (S i) * pow2 (S i) + pow2 (S i) - 1)) by lia.
    destruct (Z.geb_spec (p / pow2 (S i) * pow2 (S i) + pow2 (S i) - 1) (pow2 depth)); [lia|].
    unfold len at 1. cbn [length]. rewrite Hlen.
    destruct (Z.leb_spec (Z.of_nat (S depth)) (Z.of_nat (S i))); [lia|].
    rewrite Nat2Z.id. cbn [nth].
    replace (Z.of_nat (S i) - 1) with (Z.of_nat i) by lia.
    change (2 ^ Z.of_nat i) with (pow2 i).
    pose proof (pow2_pos i) as Hposi'. pose proof (pow2_le i depth ltac:(lia)).
    rewrite (uint64_small (p - _)) by lia.
    rewrite (uint64_small (pow2 i)) by lia.
    replace (Z.of_nat (S i) + 1) with (Z.of_nat (S (S i))) by lia.
    rewrite (IH (S i)) by lia.
    assert (Hdrop : drop i sibs = nth i sibs [] :: drop (S i) sibs).
    { apply drop_S. destruct (nth_lookup_or_length sibs i []) as [Hnth|Hnth]; [exact Hnth|lia]. }
    rewrite Hdrop. cbn [climb].
    change (2 ^ Z.of_nat (S i)) with (pow2 (S i)).
    replace (Z.of_nat (S i) - 1) with (Z.of_nat i) by lia.
    change (2 ^ Z.of_nat i) with (pow2 i).
    replace (Z.of_nat (S i) + 1) with (Z.of_nat (S (S i))) by lia.
    f_equal. f_equal. clear IH.
    destruct j as [|j]; [|reflexivity]. cbn [Nat.eqb].
    replace (S i) with depth by lia.
    rewrite (Z.div_small p) by lia. lia.
Qed.

(** The proof of a leaf of a perfect tree is accepted. *)
Lemma VerifyProof_perfect (depth : nat) (leaves : list (list byte)) (p : Z) :
  (depth <= 62)%nat ->
  length leaves = (2 ^ depth)%nat ->
  0 <= p < pow2 depth ->
  mroot depth leaves <> [] ->
  VerifyProof digest (mroot depth leaves)
    (nth (Z.to_nat p) leaves [] :: mpath depth leaves (Z.to_nat p)) p (pow2 depth)
  = true.
Proof.
  intros Hd Hlen Hp Hroot. unfold VerifyProof.
  pose proof (pow2_pos depth) as Hpos. pose proof (pow2_62 depth Hd) as H62.
  rewrite bool_decide_false by assumption.
  destruct (Z.geb_spec p (pow2 depth)); [lia|].
  rewrite (verifyStable_perfect depth _ _ p Hd (length_mpath _ _ _) Hp depth 0%nat)
    by lia.
  rewrite drop_0.
  rewrite climb_mpath; [|assumption| |].
  2:{ assert (Hnat := pow2_nat depth). lia. }
  2:{ rewrite Z.mod_small by lia. lia. }
  rewrite (uint64_small (pow2 depth - 1)) by lia.
  assert (Hse : ((if (depth =? 0)%nat then p else pow2 depth - 1) =? pow2 depth - 1) = true).
  { destruct (Nat.eqb_spec depth 0) as [->|]; [|apply Z.eqb_refl].
    change (pow2 0) with 1 in *. apply Z.eqb_eq. lia. }
  rewrite Hse. cbn [negb].
  rewrite Nat2Z.id, drop_ge by (cbn [length]; rewrite length_mpath; lia).
  cbn [fold_left]. now apply bool_decide_true.
Qed.

End WithHasher.
End MerkleFacts.
Import MerkleSpec MerkleFacts.

(* ===================================================================== *)
(** * The library on byte strings the hasher takes                        *)
(* ===================================================================== *)

Lemma fold_Write (digest : list (list byte) -> list byte) (data : list (list byte)) :
  forall written,
    fold_left Hash.Write data (Hash.Make digest written) = Hash.Make digest (written ++ data).
Proof.
  induction data as [|d data IH]; intros written; cbn [fold_left].
  - now rewrite app_nil_r.
  - unfold Hash.Write at 2. cbn [Hash.digest Hash.written]. rewrite IH.
    now rewrite <- app_assoc.
Qed.

(** The library hashes exactly the byte strings it is given. *)
Lemma sum_digest (digest : list (list byte) -> list byte) (data : list (list byte)) :
  PureTree.sum digest data = digest data.
Proof. unfold PureTree.sum, Hash.Reset. cbn [Hash.digest]. now rewrite fold_Write. Qed.

Module Refinement.
Import MerkleTree.

Section WithHasher.
Variable accepts : list byte -> bool.
Variable digest : list (list byte) -> list byte.

(** A digest is a byte string the hasher takes: MiMC's is a field
    element. *)
Hypothesis accepts_digest : forall segments, accepts (digest segments) = true.

Let taken (l : list (list byte)) : Prop := Forall (fun p => accepts p = true) l.
Let takenStack (st : list subTree) : Prop := Forall (fun s => accepts (ssum s) = true) st.
Let takenTree (t : Tree) : Prop := takenStack (head t) /\ taken (proofSet t).

Lemma writeAll_taken (data : list (list byte)) : forall h,
  taken data -> writeAll accepts h data = Ok (fold_left Hash.Write data h).
Proof.
  induction data as [|d data IH]; intros h Hd; cbn [writeAll fold_left]; [reflexivity|].
  inversion Hd as [|? ? Hacc Hrest]; subst. rewrite Hacc. now apply IH.
Qed.

Lemma sum_refines (data : list (list byte)) :
  taken data -> sum accepts digest data = Ok (PureTree.sum digest data).
Proof.
  intros Hd. unfold sum, PureTree.sum. now rewrite writeAll_taken.
Qed.

Lemma sum_taken (data : list (list byte)) : accepts (PureTree.sum digest data) = true.
Proof. rewrite sum_digest. apply accepts_digest. Qed.

Lemma leafSum_refines (a : list byte) :
  accepts a = true -> leafSum accepts digest a = Ok (PureTree.leafSum digest a).
Proof. intros Ha. apply sum_refines. repeat constructor. exact Ha. Qed.

(** A leaf the hasher turns down stops the program. *)
Lemma leafSum_refused (a : list byte) :
  accepts a = false -> leafSum accepts digest a = Panic.
Proof. intros Ha. unfold leafSum, sum. cbn [writeAll]. now rewrite Ha. Qed.

Lemma nodeSum_refines (a b : list byte) :
  accepts a = true -> accepts b = true ->
  nodeSum accepts digest a b = Ok (PureTree.nodeSum digest a b).
Proof. intros Ha Hb. apply sum_refines. repeat constructor; assumption. Qed.

Lemma joinSubTrees_refines (a b : subTree) :
  accepts (ssum a) = true -> accepts (ssum b) = true ->
  joinSubTrees accepts digest a b = Ok (PureTree.joinSubTrees digest a b).
Proof.
  intros Ha Hb. unfold joinSubTrees. now rewrite nodeSum_refines.
Qed.

Lemma joinSubTrees_taken (a b : subTree) :
  accepts (ssum (PureTree.joinSubTrees digest a b)) = true.
Proof. apply sum_taken. Qed.

Lemma joinAllSubTrees_refines (cur pidx : Z) (rest : list subTree) : forall hd ps,
  accepts (ssum hd) = true -> takenStack rest ->
  joinAllSubTrees accepts digest cur pidx hd rest ps
  = PureTree.joinAllSubTrees digest cur pidx hd rest ps.
Proof.
  induction rest as [|next rest IH]; intros hd ps Hhd Hrest;
    cbn [joinAllSubTrees PureTree.joinAllSubTrees]; [reflexivity|].
  inversion Hrest as [|? ? Hnext Hrest']; subst.
  destruct (height hd =? height next); [|reflexivity].
  match goal with |- bind ?m _ = bind ?m _ => destruct m as [ps'| | |] end;
    cbn [bind]; try reflexivity.
  rewrite joinSubTrees_refines by assumption. cbn [bind].
  apply IH; [apply joinSubTrees_taken | assumption].
Qed.

Lemma joinAllSubTrees_taken (cur pidx : Z) (rest : list subTree) : forall hd ps st ps',
  accepts (ssum hd) = true -> takenStack rest -> taken ps ->
  PureTree.joinAllSubTrees digest cur pidx hd rest ps = Ok (st, ps') ->
  takenStack st /\ taken ps'.
Proof.
  induction rest as [|next rest IH]; intros hd ps st ps' Hhd Hrest Hps;
    cbn [PureTree.joinAllSubTrees].
  - intros [= <- <-]. split; [repeat constructor; exact Hhd | exact Hps].
  - inversion Hrest as [|? ? Hnext Hrest']; subst.
    destruct (height hd =? height next).
    + destruct (height hd =? len ps - 1).
      * destruct (uint64 (2 ^ height hd) =? 0); [discriminate|].
        match goal with
        | |- context [if ?c then Panic else Ok ?q] => destruct c; [discriminate|]
        end.
        cbn [bind]. apply IH; [apply joinSubTrees_taken | assumption |].
        destruct (pidx <? _); apply Forall_app; split; try assumption;
          repeat constructor; assumption.
      * cbn [bind]. apply IH; [apply joinSubTrees_taken | assumption | assumption].
    + intros [= <- <-]. split; [constructor; assumption | exact Hps].
Qed.

Lemma Push_refines (t : Tree) (data : list byte) :
  accepts data = true -> takenStack (head t) ->
  Push accepts digest t data = PureTree.Push digest t data.
Proof.
  intros Hd Ht. unfold Push, PureTree.Push.
  rewrite leafSum_refines by exact Hd. cbn [bind].
  rewrite joinAllSubTrees_refines; [reflexivity | apply sum_taken | exact Ht].
Qed.

Lemma Push_refused (t : Tree) (data : list byte) :
  accepts data = false -> Push accepts digest t data = Panic.
Proof. intros Hd. unfold Push. now rewrite leafSum_refused. Qed.

Lemma Push_taken (t t' : Tree) (data : list byte) :
  accepts data = true -> takenTree t ->
  PureTree.Push digest t data = Ok t' -> takenTree t'.
Proof.
  intros Hd [Hst Hps]. unfold PureTree.Push.
  destruct (PureTree.joinAllSubTrees _ _ _ _ _ _) as [[st ps']| | |] eqn:Hj;
    cbn [bind]; try discriminate.
  intros [= <-]. cbn [head proofSet]. unfold takenTree. cbn [head proofSet].
  eapply joinAllSubTrees_taken; [| |  |exact Hj].
  - apply sum_taken.
  - exact Hst.
  - destruct (currentIndex t =? proofIndex t); [|exact Hps].
    apply Forall_app. split; [exact Hps | repeat constructor; exact Hd].
Qed.

(** Reading a buffer of segments the hasher takes. *)
Lemma readSegments_refines (w : nat) (leaves : list (list byte)) :
  (0 < w)%nat -> Forall (fun l => length l = w) leaves -> taken leaves ->
  forall fuel t, takenTree t ->
    readSegments accepts digest fuel t (concat leaves) w
    = PureTree.readSegments digest fuel t (concat leaves) w
    /\ forall t', PureTree.readSegments digest fuel t (concat leaves) w = Ok t' ->
                  takenTree t'.
Proof.
  intros Hw HF. induction HF as [|l leaves Hl _ IH]; intros Hacc fuel t Ht.
  - split; [destruct fuel; reflexivity|]. destruct fuel; intros t' [= <-]; exact Ht.
  - inversion Hacc as [|? ? Hal Hrest]; subst.
    cbn [concat]. destruct l as [|b l]; [cbn in Hw; lia|].
    destruct fuel as [|fuel]; [split; [reflexivity | discriminate]|].
    cbn [app readSegments PureTree.readSegments].
    change (b :: l ++ concat leaves) with ((b :: l) ++ concat leaves).
    rewrite take_app_length, drop_app_length.
    rewrite Push_refines by (exact Hal || apply Ht).
    destruct (PureTree.Push digest t (b :: l)) as [t1| | |] eqn:Hpush; cbn [bind];
      try (split; [reflexivity | discriminate]).
    apply IH; [exact Hrest|]. eapply Push_taken; eassumption.
Qed.

Lemma collapse_refines (rest : list subTree) : forall current,
  accepts (ssum current) = true -> takenStack rest ->
  collapse accepts digest current rest = Ok (PureTree.collapse digest current rest).
Proof.
  induction rest as [|next rest IH]; intros current Hc Hrest;
    cbn [collapse PureTree.collapse]; [reflexivity|].
  inversion Hrest as [|? ? Hnext Hrest']; subst.
  rewrite joinSubTrees_refines by assumption. cbn [bind].
  apply IH; [apply joinSubTrees_taken | assumption].
Qed.

Lemma Root_refines (t : Tree) :
  takenStack (head t) -> Root accepts digest t = Ok (PureTree.Root digest t).
Proof.
  unfold Root, PureTree.Root. destruct (head t) as [|hd rest]; [reflexivity|].
  intros Ht. inversion Ht as [|? ? Hhd Hrest]; subst.
  now rewrite collapse_refines.
Qed.

Lemma joinLower_refines (rest : list subTree) : forall current n,
  accepts (ssum current) = true -> takenStack rest ->
  joinLower accepts digest current rest n = Ok (PureTree.joinLower digest current rest n)
  /\ accepts (ssum (fst (PureTree.joinLower digest current rest n))) = true
  /\ takenStack (snd (PureTree.joinLower digest current rest n)).
Proof.
  induction rest as [|next rest IH]; intros current n Hc Hrest;
    cbn [joinLower PureTree.joinLower].
  - split; [reflexivity|]. split; [exact Hc | constructor].
  - inversion Hrest as [|? ? Hnext Hrest']; subst.
    destruct (height next <? n - 1).
    + rewrite joinSubTrees_refines by assumption. cbn [bind].
      apply IH; [apply joinSubTrees_taken | assumption].
    + split; [reflexivity|]. split; [exact Hc | exact Hrest].
Qed.

Lemma taken_sums (st : list subTree) : takenStack st -> taken (map ssum st).
Proof.
  intros H. induction H as [|s st Hs _ IH]; cbn [map]; constructor; assumption.
Qed.

Lemma Prove_refines (t : Tree) :
  takenTree t ->
  Prove accepts digest t = PureTree.Prove digest t
  /\ forall root ps i n, PureTree.Prove digest t = Ok (root, ps, i, n) -> taken ps.
Proof.
  intros [Hst Hps]. unfold Prove, PureTree.Prove.
  rewrite (Root_refines t Hst). cbn [bind].
  destruct (head t) as [|hd rest] eqn:Hhead.
  { split; [reflexivity|]. intros root ps i n [= _ <- _ _]. constructor. }
  destruct (len (proofSet t) =? 0).
  { split; [reflexivity|]. intros root ps i n [= _ <- _ _]. constructor. }
  inversion Hst as [|? ? Hhd Hrest]; subst.
  destruct (joinLower_refines rest hd (len (proofSet t)) Hhd Hrest) as (-> & Hcur & Hrest').
  cbn [bind].
  destruct (PureTree.joinLower digest hd rest (len (proofSet t))) as [current rest'].
  cbn [fst snd] in Hcur, Hrest'.
  match goal with |- context [if ?c then Panic else _] => destruct c end;
    [split; [reflexivity | discriminate]|].
  destruct rest' as [|next rest''].
  - split; [reflexivity|]. intros root ps i n [= _ <- _ _].
    cbn [map]. rewrite app_nil_r. exact Hps.
  - inversion Hrest' as [|? ? Hnext Hrest'']; subst.
    destruct (height next =? len (proofSet t) - 1).
    + split; [reflexivity|]. intros root ps i n [= _ <- _ _].
      apply Forall_app. split.
      * apply Forall_app. split; [exact Hps | repeat constructor; exact Hcur].
      * exact (taken_sums rest'' Hrest'').
    + split; [reflexivity|]. intros root ps i n [= _ <- _ _].
      apply Forall_app. split; [exact Hps|].
      exact (taken_sums (next :: rest'') Hrest').
Qed.

(** [BuildReaderProof] on leaves the hasher takes computes what it
    computes when no write is turned down, and every element of the proof
    it returns is a byte string the hasher takes. *)
Lemma BuildReaderProof_refines (w : nat) (leaves : list (list byte)) (p : Z) :
  (0 < w)%nat -> Forall (fun l => length l = w) leaves -> taken leaves ->
  BuildReaderProof accepts digest (concat leaves) (Z.of_nat w) p
  = PureTree.BuildReaderProof digest (concat leaves) (Z.of_nat w) p
  /\ forall root ps n,
       PureTree.BuildReaderProof digest (concat leaves) (Z.of_nat w) p = Ok (root, ps, n) ->
       taken ps.
Proof.
  intros Hw HF Hacc. unfold BuildReaderProof, PureTree.BuildReaderProof, ReadAll,
    PureTree.ReadAll.
  destruct (Z.of_nat w <? 0); [split; [reflexivity | discriminate]|].
  destruct (Z.of_nat w =? 0); [split; [reflexivity | discriminate]|].
  rewrite Nat2Z.id.
  assert (Hnew : takenTree (New p)) by (split; constructor).
  destruct (readSegments_refines w leaves Hw HF Hacc (length (concat leaves)) (New p) Hnew)
    as [-> Htree].
  destruct (PureTree.readSegments digest _ _ _ _) as [tree| | |]; cbn [bind];
    try (split; [reflexivity | discriminate]).
  destruct (Prove_refines tree (Htree tree eq_refl)) as [-> Hproof].
  destruct (PureTree.Prove digest tree) as [[[[root ps] i] n]| | |]; cbn [bind];
    try (split; [reflexivity | discriminate]).
  split; [reflexivity|].
  destruct (len ps =? 0); [discriminate|].
  intros root' ps' n' [= _ <- _]. eapply Hproof. reflexivity.
Qed.

(** A leaf the hasher turns down stops [BuildReaderProof]. *)
Lemma BuildReaderProof_refused (w : nat) (leaf : list byte) (leaves : list (list byte))
    (p : Z) :
  (0 < w)%nat -> length leaf = w -> accepts leaf = false ->
  BuildReaderProof accepts digest (concat (leaf :: leaves)) (Z.of_nat w) p = Panic.
Proof.
  intros Hw Hl Hacc. unfold BuildReaderProof, ReadAll.
  destruct (Z.ltb_spec (Z.of_nat w) 0); [lia|].
  destruct (Z.eqb_spec (Z.of_nat w) 0); [lia|].
  rewrite Nat2Z.id. cbn [concat].
  destruct leaf as [|b leaf]; [cbn in Hl; lia|].
  cbn [app length readSegments].
  change (b :: leaf ++ concat leaves) with ((b :: leaf) ++ concat leaves).
  rewrite <- Hl, take_app_length. now rewrite Push_refused.
Qed.

Lemma verifyStable_refines (ps : list (list byte)) (p n : Z) (fuel : nat) :
  taken ps ->
  forall h sum stableEnd, 0 <= h -> accepts sum = true ->
    verifyStable accepts digest fuel ps p n h sum stableEnd
    = Ok (PureTree.verifyStable digest fuel ps p n h sum stableEnd)
    /\ forall h' sum' e',
         PureTree.verifyStable digest fuel ps p n h sum stableEnd = Some (h', sum', e') ->
         0 <= h' /\ accepts sum' = true.
Proof.
  intros Hps. induction fuel as [|fuel IH]; intros h sum stableEnd Hh Hsum;
    cbn [verifyStable PureTree.verifyStable].
  - split; [reflexivity|]. intros h' sum' e' [= <- <- _]. auto.
  - destruct (uint64 (2 ^ h) =? 0).
    { split; [reflexivity|]. intros h' sum' e' [= <- <- _]. auto. }
    match goal with |- context [?a >=? n] => destruct (a >=? n) end.
    { split; [reflexivity|]. intros h' sum' e' [= <- <- _]. auto. }
    destruct (Z.leb_spec (len ps) h) as [Hle|Hlt].
    { split; [reflexivity | discriminate]. }
    assert (Hsib : accepts (nth (Z.to_nat h) ps []) = true).
    { unfold taken in Hps. rewrite Forall_forall in Hps. apply Hps.
      apply list_elem_of_In, nth_In. unfold len in Hlt. lia. }
    match goal with |- context [if ?c then nodeSum _ _ _ _ else _] => destruct c end;
      rewrite nodeSum_refines by assumption; cbn [bind];
      apply IH; try lia; apply sum_taken.
Qed.

Lemma joinLeft_refines (siblings : list (list byte)) : forall sum,
  taken siblings -> accepts sum = true ->
  joinLeft accepts digest siblings sum
  = Ok (fold_left (fun sum sibling => PureTree.nodeSum digest sibling sum) siblings sum).
Proof.
  induction siblings as [|s siblings IH]; intros sum Hs Hsum;
    cbn [joinLeft fold_left]; [reflexivity|].
  inversion Hs as [|? ? Hacc Hrest]; subst.
  rewrite nodeSum_refines by assumption. cbn [bind].
  apply IH; [exact Hrest | apply sum_taken].
Qed.

(** [VerifyProof] on a proof of byte strings the hasher takes computes
    what it computes when no write is turned down. *)
Lemma VerifyProof_refines (root : list byte) (ps : list (list byte)) (p n : Z) :
  taken ps ->
  VerifyProof accepts digest root ps p n = Ok (PureTree.VerifyProof digest root ps p n).
Proof.
  intros Hps. unfold VerifyProof, PureTree.VerifyProof.
  destruct (bool_decide (root = [])); [reflexivity|].
  destruct (p >=? n); [reflexivity|].
  destruct ps as [|leaf ps']; [reflexivity|].
  assert (Hleaf : accepts leaf = true) by (inversion Hps; assumption).
  rewrite leafSum_refines by exact Hleaf. cbn [bind].
  destruct (verifyStable_refines (leaf :: ps') p n 64 Hps 1 (PureTree.leafSum digest leaf) p
              ltac:(lia) (sum_taken _)) as [-> Hres].
  cbn [bind].
  destruct (PureTree.verifyStable digest 64 (leaf :: ps') p n 1 _ p)
    as [[[h sum] stableEnd]|]; [|reflexivity].
  destruct (Hres h sum stableEnd eq_refl) as [Hh Hsum].
  assert (Hdrop : forall k, taken (drop k (leaf :: ps')))
    by (intros k; apply Forall_drop; exact Hps).
  destruct (negb (stableEnd =? uint64 (n - 1))).
  - destruct (Z.leb_spec (len (leaf :: ps')) h) as [Hle|Hlt]; [reflexivity|].
    assert (Hsib : accepts (nth (Z.to_nat h) (leaf :: ps') []) = true).
    { unfold taken in Hps. rewrite Forall_forall in Hps. apply Hps.
      apply list_elem_of_In, nth_In. unfold len in Hlt. lia. }
    rewrite nodeSum_refines by assumption. cbn [bind].
    rewrite joinLeft_refines; [reflexivity | apply Hdrop | apply sum_taken].
  - cbn [bind]. rewrite joinLeft_refines; [reflexivity | apply Hdrop | exact Hsum].
Qed.

End WithHasher.
End Refinement.
(* ===================================================================== *)
(** * The leaves of the two builders                                      *)
(* ===================================================================== *)

Lemma len_zeros (n : nat) : len (zeros n) = Z.of_nat n.
Proof. unfold len, zeros. now rewrite repeat_length. Qed.

Lemma zeros_app (a b : nat) : zeros a ++ zeros b = zeros (a + b).
Proof. unfold zeros. now rewrite repeat_app. Qed.

Lemma make_Ok {E} (n : Z) : 0 <= n -> @make E n = Ok (zeros (Z.to_nat n)).
Proof. intros H. unfold make. destruct (Z.ltb_spec n 0); [lia|reflexivity]. Qed.

Lemma len_chunkOf (payload : list byte) (chunkSize i : Z) :
  0 <= chunkSize -> 0 <= i ->
  len (chunkOf payload chunkSize i) = Z.max 0 (Z.min chunkSize (len payload - i * chunkSize)).
Proof.
  intros Hc Hi. unfold chunkOf, len. rewrite length_take, length_drop. nia.
Qed.

Lemma sub_chunkOf {E} (payload : list byte) (chunkSize i : Z) :
  0 <= chunkSize -> 0 <= i -> i * chunkSize <= len payload ->
  @sub E payload (i * chunkSize)
       (if i * chunkSize + chunkSize >? len payload
        then len payload else i * chunkSize + chunkSize)
  = Ok (chunkOf payload chunkSize i).
Proof.
  intros Hc Hi Hle. unfold sub, chunkOf.
  assert (Hs : 0 <= i * chunkSize) by nia.
  destruct (Z.gtb_spec (i * chunkSize + chunkSize) (len payload)) as [Hgt|Hngt].
  - destruct (Z.leb_spec 0 (i * chunkSize)); [|lia].
    destruct (Z.leb_spec (i * chunkSize) (len payload)); [|lia].
    rewrite Z.leb_refl. cbn [andb]. f_equal.
    rewrite !take_ge; [reflexivity| |]; rewrite length_drop; unfold len in *; lia.
  - destruct (Z.leb_spec 0 (i * chunkSize)); [|lia].
    destruct (Z.leb_spec (i * chunkSize) (i * chunkSize + chunkSize)); [|lia].
    destruct (Z.leb_spec (i * chunkSize + chunkSize) (len payload)); [|lia].
    cbn [andb]. do 2 f_equal. lia.
Qed.

Lemma length_hardBoundLeaf (payload : list byte) (w chunkSize i : Z) :
  0 <= chunkSize -> 0 <= i -> chunkSize + Z.min chunkSize (len payload) <= w ->
  length (hardBoundLeaf payload w chunkSize i) = Z.to_nat w.
Proof.
  intros Hc Hi Hw. unfold hardBoundLeaf.
  pose proof (len_chunkOf payload chunkSize i Hc Hi) as Hl.
  assert (0 <= len payload) by (unfold len; lia).
  destruct (Z.ltb_spec (i * chunkSize) (len payload)).
  - rewrite !length_app. unfold zeros. rewrite !repeat_length. unfold len in *. nia.
  - unfold zeros. now rewrite repeat_length.
Qed.

(** The hard-bound loop writes one [hardBoundLeaf] per slot. *)
Lemma hardBoundLeaves_spec (payload : list byte) (w chunkSize proofIndex : Z) (n : nat) :
  forall (i : nat) (buf proofChunk : list byte),
    0 <= chunkSize ->
    Z.of_nat (i + n) * chunkSize < 2 ^ 63 ->
    len payload < 2 ^ 63 ->
    chunkSize + Z.min chunkSize (len payload) <= w ->
    exists proofChunk',
      hardBoundLeaves n (Z.of_nat i) payload w chunkSize proofIndex buf proofChunk
      = Ok (buf ++ concat (map (fun k => hardBoundLeaf payload w chunkSize (Z.of_nat k))
                               (seq i n)),
            proofChunk').
Proof.
  induction n as [|n IH]; intros i buf proofChunk Hc Hmax Hlen Hw.
  - exists proofChunk. cbn. now rewrite app_nil_r.
  - cbn [hardBoundLeaves seq map concat].
    assert (Hpl : 0 <= len payload) by (unfold len; lia).
    assert (Hi : 0 <= Z.of_nat i * chunkSize) by nia.
    assert (Hi' : Z.of_nat i * chunkSize + chunkSize < 2 ^ 63) by nia.
    rewrite make_Ok by lia. cbn [bind].
    rewrite (int_small (Z.of_nat i * chunkSize)) by lia.
    rewrite (int_small (Z.of_nat i * chunkSize + chunkSize)) by lia.
    pose proof (len_chunkOf payload chunkSize (Z.of_nat i) Hc ltac:(lia)) as Hl.
    unfold hardBoundLeaf at 1.
    destruct (Z.ltb_spec (Z.of_nat i * chunkSize) (len payload)) as [Hcov|Hnot].
    + rewrite sub_chunkOf by lia. cbn [bind].
      rewrite len_app, len_zeros, Z2Nat.id by lia.
      rewrite make_Ok by lia. cbn [bind].
      set (leaf := (zeros (Z.to_nat chunkSize) ++ chunkOf payload chunkSize (Z.of_nat i))
                   ++ zeros (Z.to_nat (w - (chunkSize + len (chunkOf payload chunkSize (Z.of_nat i)))))).
      assert (Hleaf : len leaf = w).
      { subst leaf. rewrite !len_app, !len_zeros. lia. }
      rewrite Hleaf. rewrite Z.ltb_irrefl. cbn [bind].
      rewrite Hleaf, Z.sub_diag. rewrite make_Ok by lia. cbn [bind].
      change (zeros (Z.to_nat 0)) with (@nil byte). rewrite app_nil_r.
      replace (Z.of_nat i + 1) with (Z.of_nat (S i)) by lia.
      destruct (IH (S i) (buf ++ leaf)
                   (if Z.of_nat i =? int proofIndex then leaf else proofChunk))
        as [pc' Hpc']; try assumption; [rewrite <- Nat.add_succ_comm in Hmax; lia|].
      exists pc'. rewrite Hpc'. f_equal. f_equal. subst leaf.
      replace (w - (chunkSize + len (chunkOf payload chunkSize (Z.of_nat i))))
        with (w - chunkSize - len (chunkOf payload chunkSize (Z.of_nat i))) by lia.
      now rewrite <- !app_assoc.
    + cbn [bind]. rewrite len_zeros, Z2Nat.id by lia.
      assert (Hcw : chunkSize <= w) by lia.
      destruct (Z.ltb_spec chunkSize w) as [Hlt|Hge].
      * rewrite make_Ok by lia. cbn [bind].
        rewrite zeros_app. replace (Z.to_nat chunkSize + Z.to_nat (w - chunkSize))%nat
          with (Z.to_nat w) by lia.
        rewrite len_zeros, Z2Nat.id by lia. rewrite Z.sub_diag.
        rewrite make_Ok by lia. cbn [bind].
        change (zeros (Z.to_nat 0)) with (@nil byte). rewrite app_nil_r.
        replace (Z.of_nat i + 1) with (Z.of_nat (S i)) by lia.
        destruct (IH (S i) (buf ++ zeros (Z.to_nat w))
                     (if Z.of_nat i =? int proofIndex
                      then zeros (Z.to_nat chunkSize) else proofChunk))
          as [pc' Hpc']; try assumption; [rewrite <- Nat.add_succ_comm in Hmax; lia|].
        exists pc'. rewrite Hpc'. f_equal. f_equal. now rewrite <- !app_assoc.
      * cbn [bind]. assert (chunkSize = w) by lia. subst w.
        rewrite len_zeros, Z2Nat.id by lia. rewrite Z.sub_diag.
        rewrite make_Ok by lia. cbn [bind].
        change (zeros (Z.to_nat 0)) with (@nil byte). rewrite app_nil_r.
        replace (Z.of_nat i + 1) with (Z.of_nat (S i)) by lia.
        destruct (IH (S i) (buf ++ zeros (Z.to_nat chunkSize))
                     (if Z.of_nat i =? int proofIndex
                      then zeros (Z.to_nat chunkSize) else proofChunk))
          as [pc' Hpc']; try assumption; [rewrite <- Nat.add_succ_comm in Hmax; lia|].
        exists pc'. rewrite Hpc'. f_equal. f_equal. now rewrite <- !app_assoc.
Qed.

Lemma mroot_nonempty (digest : list (list byte) -> list byte) (d : nat) leaves :
  (forall segments, digest segments <> []) -> mroot digest d leaves <> [].
Proof.
  intros H. destruct d; cbn [mroot]; unfold PureTree.leafSum, PureTree.nodeSum;
    rewrite sum_digest; apply H.
Qed.

(** The exact-mode loop writes one left-padded chunk per leaf. *)
Lemma exactLeaves_spec (payload : list byte) (w chunkSize proofIndex : Z) (n : nat) :
  forall (i : nat) (buf proofChunk : list byte),
    0 < chunkSize ->
    Z.of_nat (i + n) * chunkSize < len payload + chunkSize ->
    len payload < 2 ^ 62 -> chunkSize < 2 ^ 62 ->
    Z.min chunkSize (len payload) <= w ->
    exists proofChunk',
      exactLeaves n (Z.of_nat i) payload w chunkSize proofIndex buf proofChunk
      = Ok (buf ++ concat (map (fun k => leftPad w (chunkOf payload chunkSize (Z.of_nat k)))
                               (seq i n)),
            proofChunk').
Proof.
  induction n as [|n IH]; intros i buf proofChunk Hc Hcov Hlen Hcs Hw.
  - exists proofChunk. cbn. now rewrite app_nil_r.
  - cbn [exactLeaves seq map concat].
    assert (Hpl : 0 <= len payload) by (unfold len; lia).
    assert (Hi : 0 <= Z.of_nat i * chunkSize) by nia.
    assert (Hi' : Z.of_nat i * chunkSize < len payload) by nia.
    rewrite (int_small (Z.of_nat i * chunkSize)) by lia.
    rewrite (int_small (Z.of_nat i * chunkSize + chunkSize)) by lia.
    rewrite sub_chunkOf by lia. cbn [bind].
    pose proof (len_chunkOf payload chunkSize (Z.of_nat i) ltac:(lia) ltac:(lia)) as Hl.
    rewrite make_Ok by lia. cbn [bind].
    replace (Z.of_nat i + 1) with (Z.of_nat (S i)) by lia.
    fold (leftPad w (chunkOf payload chunkSize (Z.of_nat i))).
    destruct (IH (S i) (buf ++ leftPad w (chunkOf payload chunkSize (Z.of_nat i)))
                 (if Z.of_nat i =? int proofIndex
                  then leftPad w (chunkOf payload chunkSize (Z.of_nat i)) else proofChunk))
      as [pc' Hpc']; try assumption; [rewrite <- Nat.add_succ_comm in Hcov; lia|].
    exists pc'. rewrite Hpc'. now rewrite <- app_assoc.
Qed.

(** C5 (failing input).  For the one-byte payload [[1]], the BN254 field
    (32 bytes) and the protocol's chunk size 16, the exact-mode builder
    hashes the leaf that is the chunk with 31 zero bytes in front, as every
    exact-mode leaf is the left-padded chunk; the hard-bound builder
    hashes 16 zero bytes, the chunk and 15 more zero bytes, which is not
    the left-padded chunk.  Its slots behind the payload are all zero.
    Both builders hand the leaf back as the proof chunk and as the first
    element of the proof. *)
Theorem hard_bound_leaf_is_not_left_padded :
  let w := len (Big.Bytes Ecc.BN254_ScalarField) in
  let padded := zeros 31 ++ [x01] in
  let written := zeros 16 ++ [x01] ++ zeros 15 in
  w = 32
  /\ leftPad w [x01] = padded
  /\ written <> padded
  /\ (exists proofChunk,
        exactLeaves 1 0 [x01] w CHUNK_SIZE 0 [] [] = Ok (padded, proofChunk))
  /\ (exists proofChunk,
        hardBoundLeaves 2 0 [x01] w CHUNK_SIZE 0 [] []
        = Ok (written ++ zeros 32, proofChunk))
  /\ (exists root depth,
        GenerateMerkleTree (Mimc.accepts Crypto.MiMC_BN254) exampleDigest [x01]
          Ecc.BN254_ScalarField CHUNK_SIZE 0
        = Ok (root, [padded], padded, 1, depth))
  /\ (exists root sibling,
        GenerateMerkleTreeWithHardBound (Mimc.accepts Crypto.MiMC_BN254) exampleDigest
          [x01] Ecc.BN254_ScalarField CHUNK_SIZE 1 0
        = Ok (root, [written; sibling], written, 2)).
Proof.
  cbv zeta. split; [vm_compute; reflexivity|].
  split; [vm_compute; reflexivity|].
  split; [vm_compute; discriminate|].
  split; [eexists; vm_compute; reflexivity|].
  split; [eexists; vm_compute; reflexivity|].
  split; do 2 eexists; vm_compute; reflexivity.
Qed.

(** C3 (failing input).  A chunk as wide as the modulus is within the
    constraint the specification states ([chunkSize <= modulusByteWidth]):
    with the BN254 field (32 bytes), chunk size 32, depth 1 and the
    one-byte payload [[1]], the payload is within the bound 32 * 2^1.  The
    hard-bound builder panics on it, whatever the hasher and the proof
    index: the slot starts from the 32 zero bytes of
    [make([]byte, chunkSize)], the chunk is appended behind them, and the
    padding [make([]byte, modulusSizeBytes-len(chunk))] is asked for with
    the length 32 - 33.  The exact-mode builder, which puts the padding in
    front of the chunk, lays out its leaf for the same payload, field and
    chunk size and returns a proof. *)
Theorem GenerateMerkleTreeWithHardBound_panics_on_full_width_chunk :
  let w := len (Big.Bytes Ecc.BN254_ScalarField) in
  w = 32
  /\ len [x01] <= 32 * 2 ^ 1
  /\ (forall proofIndex, hardBoundLeaves 2 0 [x01] w 32 proofIndex [] [] = Panic)
  /\ (forall accepts digest proofIndex,
        GenerateMerkleTreeWithHardBound accepts digest [x01] Ecc.BN254_ScalarField
          32 1 proofIndex
        = Panic)
  /\ (exists proofChunk,
        exactLeaves 1 0 [x01] w 32 0 [] [] = Ok (zeros 31 ++ [x01], proofChunk))
  /\ (exists root depth,
        GenerateMerkleTree (Mimc.accepts Crypto.MiMC_BN254) exampleDigest [x01]
          Ecc.BN254_ScalarField 32 0
        = Ok (root, [zeros 31 ++ [x01]], zeros 31 ++ [x01], 1, depth)).
Proof.
  cbv zeta. split; [vm_compute; reflexivity|].
  split; [vm_compute; discriminate|].
  split; [intros proofIndex; vm_compute; reflexivity|].
  split; [intros accepts digest proofIndex; vm_compute; reflexivity|].
  split; [eexists; vm_compute; reflexivity|].
  do 2 eexists. vm_compute. reflexivity.
Qed.
(* ===================================================================== *)
(** * The hard-bound builder in full                                      *)
(* ===================================================================== *)

(** ** What the hard-bound builder returns *)

(** The proof chunk the loop leaves behind. *)
Lemma hardBoundLeaves_proofChunk (payload : list byte) (w chunkSize p : Z) (n : nat) :
  forall (i : nat) (buf proofChunk : list byte),
    0 <= chunkSize ->
    Z.of_nat (i + n) * chunkSize < 2 ^ 63 ->
    len payload < 2 ^ 63 ->
    chunkSize + Z.min chunkSize (len payload) <= w ->
    hardBoundLeaves n (Z.of_nat i) payload w chunkSize p buf proofChunk
    = Ok (buf ++ concat (map (fun k => hardBoundLeaf payload w chunkSize (Z.of_nat k))
                             (seq i n)),
          if (Z.of_nat i <=? int p) && (int p <? Z.of_nat (i + n))
          then hardBoundProofChunk payload w chunkSize (int p) else proofChunk).
Proof.
  induction n as [|n IH]; intros i buf proofChunk Hc Hmax Hlen Hw.
  - cbn [hardBoundLeaves seq map concat]. rewrite app_nil_r, Nat.add_0_r.
    destruct (Z.leb_spec (Z.of_nat i) (int p)), (Z.ltb_spec (int p) (Z.of_nat i));
      try reflexivity; lia.
  - destruct (hardBoundLeaves_spec payload w chunkSize p (S n) i buf proofChunk Hc Hmax Hlen Hw)
      as [pc' Hspec].
    rewrite Hspec. f_equal. f_equal.
    revert Hspec. cbn [hardBoundLeaves seq map concat].
    assert (Hpl : 0 <= len payload) by (unfold len; lia).
    assert (Hi : 0 <= Z.of_nat i * chunkSize) by nia.
    assert (Hi' : Z.of_nat i * chunkSize + chunkSize < 2 ^ 63) by nia.
    rewrite make_Ok by lia. cbn [bind].
    rewrite (int_small (Z.of_nat i * chunkSize)) by lia.
    rewrite (int_small (Z.of_nat i * chunkSize + chunkSize)) by lia.
    pose proof (len_chunkOf payload chunkSize (Z.of_nat i) Hc ltac:(lia)) as Hl.
    replace (Z.of_nat i + 1) with (Z.of_nat (S i)) by lia.
    assert (Hstep : forall chunk leaf,
      (if Z.of_nat i =? int p then chunk else proofChunk)
      = (if Z.of_nat i =? int p then hardBoundProofChunk payload w chunkSize (int p)
         else proofChunk) ->
      hardBoundLeaves n (Z.of_nat (S i)) payload w chunkSize p (buf ++ leaf)
        (if Z.of_nat i =? int p then chunk else proofChunk)
      = Ok (buf ++ hardBoundLeaf payload w chunkSize (Z.of_nat i)
                ++ concat (map (fun k => hardBoundLeaf payload w chunkSize (Z.of_nat k))
                               (seq (S i) n)), pc') ->
      pc' = (if (Z.of_nat i <=? int p) && (int p <? Z.of_nat (i + S n))
             then hardBoundProofChunk payload w chunkSize (int p) else proofChunk)).
    { intros chunk leaf Hch Hrun. rewrite Hch in Hrun.
      rewrite IH in Hrun; try assumption; [|rewrite <- Nat.add_succ_comm in Hmax; lia].
      injection Hrun as _ <-.
      destruct (Z.eqb_spec (Z.of_nat i) (int p)) as [He|Hne];
        repeat match goal with
        | |- context [?a <=? ?b] => destruct (Z.leb_spec a b)
        | |- context [?a <? ?b] => destruct (Z.ltb_spec a b)
        end; cbn [andb]; try reflexivity; lia. }
    destruct (Z.ltb_spec (Z.of_nat i * chunkSize) (len payload)) as [Hcov|Hnot].
    + rewrite sub_chunkOf by lia. cbn [bind].
      rewrite len_app, len_zeros, Z2Nat.id by lia.
      rewrite make_Ok by lia. cbn [bind].
      set (leaf := (zeros (Z.to_nat chunkSize) ++ chunkOf payload chunkSize (Z.of_nat i))
                   ++ zeros (Z.to_nat (w - (chunkSize + len (chunkOf payload chunkSize (Z.of_nat i)))))).
      assert (Hleaf : len leaf = w).
      { subst leaf. rewrite !len_app, !len_zeros. lia. }
      assert (Hleaf' : leaf = hardBoundLeaf payload w chunkSize (Z.of_nat i)).
      { subst leaf. unfold hardBoundLeaf.
        destruct (Z.ltb_spec (Z.of_nat i * chunkSize) (len payload)); [|lia].
        replace (w - (chunkSize + len (chunkOf payload chunkSize (Z.of_nat i))))
          with (w - chunkSize - len (chunkOf payload chunkSize (Z.of_nat i))) by lia.
        now rewrite <- !app_assoc. }
      rewrite Hleaf. rewrite Z.ltb_irrefl. cbn [bind].
      rewrite Hleaf, Z.sub_diag. rewrite make_Ok by lia. cbn [bind].
      change (zeros (Z.to_nat 0)) with (@nil byte). rewrite app_nil_r.
      intros Hrun. apply (Hstep leaf leaf).
      * destruct (Z.eqb_spec (Z.of_nat i) (int p)) as [He|]; [|reflexivity].
        rewrite <- He. unfold hardBoundProofChunk.
        destruct (Z.ltb_spec (Z.of_nat i * chunkSize) (len payload)); [exact Hleaf'|lia].
      * exact Hrun.
    + cbn [bind]. rewrite len_zeros, Z2Nat.id by lia.
      assert (Hcw : chunkSize <= w) by lia.
      assert (Hleaf' : zeros (Z.to_nat w) = hardBoundLeaf payload w chunkSize (Z.of_nat i)).
      { unfold hardBoundLeaf.
        destruct (Z.ltb_spec (Z.of_nat i * chunkSize) (len payload)); [lia|reflexivity]. }
      assert (Hpc : (if Z.of_nat i =? int p then zeros (Z.to_nat chunkSize) else proofChunk)
                    = (if Z.of_nat i =? int p
                       then hardBoundProofChunk payload w chunkSize (int p)
                       else proofChunk)).
      { destruct (Z.eqb_spec (Z.of_nat i) (int p)) as [He|]; [|reflexivity].
        rewrite <- He. unfold hardBoundProofChunk.
        destruct (Z.ltb_spec (Z.of_nat i * chunkSize) (len payload)); [lia|reflexivity]. }
      destruct (Z.ltb_spec chunkSize w) as [Hlt|Hge].
      * rewrite make_Ok by lia. cbn [bind].
        rewrite zeros_app. replace (Z.to_nat chunkSize + Z.to_nat (w - chunkSize))%nat
          with (Z.to_nat w) by lia.
        rewrite len_zeros, Z2Nat.id by lia. rewrite Z.sub_diag.
        rewrite make_Ok by lia. cbn [bind].
        change (zeros (Z.to_nat 0)) with (@nil byte). rewrite app_nil_r.
        intros Hrun. apply (Hstep (zeros (Z.to_nat chunkSize)) (zeros (Z.to_nat w)) Hpc).
        exact Hrun.
      * cbn [bind]. assert (chunkSize = w) by lia. subst w.
        rewrite len_zeros, Z2Nat.id by lia. rewrite Z.sub_diag.
        rewrite make_Ok by lia. cbn [bind].
        change (zeros (Z.to_nat 0)) with (@nil byte). rewrite app_nil_r.
        intros Hrun.
        apply (Hstep (zeros (Z.to_nat chunkSize)) (zeros (Z.to_nat chunkSize)) Hpc).
        exact Hrun.
Qed.

Lemma length_hardBoundLeafList (payload : list byte) (w chunkSize : Z) (d : nat) :
  length (hardBoundLeafList payload w chunkSize d) = (2 ^ d)%nat.
Proof. unfold hardBoundLeafList. now rewrite length_map, length_seq. Qed.

Lemma BuildReaderProof_index_not_reached (digest : list (list byte) -> list byte)
    (depth w : nat) (leaves : list (list byte)) (p : Z) :
  (depth <= 62)%nat -> (0 < w)%nat ->
  length leaves = (2 ^ depth)%nat ->
  Forall (fun l => length l = w) leaves ->
  pow2 depth <= p ->
  PureTree.BuildReaderProof digest (concat leaves) (Z.of_nat w) p
  = Err MerkleTree.EIndexNotReached.
Proof.
  intros Hd Hw Hlen HF Hp. unfold PureTree.BuildReaderProof, PureTree.ReadAll, MerkleTree.New.
  destruct (Z.ltb_spec (Z.of_nat w) 0); [lia|].
  destruct (Z.eqb_spec (Z.of_nat w) 0); [lia|].
  rewrite Nat2Z.id, (readSegments_concat digest w leaves Hw HF) by lia.
  pose proof (pow2_pos depth) as Hpos. pose proof (pow2_62 depth Hd) as H62.
  rewrite (pushAll_block digest p depth leaves [] 0 [] 0); try lia; try assumption;
    [|constructor|now left].
  rewrite joinAll_stop by exact I. cbn [bind].
  rewrite blockProof_out by lia.
  unfold PureTree.Prove. cbn [MerkleTree.head MerkleTree.proofSet].
  change (len (@nil (list byte)) =? 0) with true. cbn [bind]. reflexivity.
Qed.

Section HardBound.
Variable accepts : list byte -> bool.
Variable digest : list (list byte) -> list byte.
Variables (payload : list byte) (modulus chunkSize depth : Z).

Let w := len (Big.Bytes modulus).
Let d := Z.to_nat depth.
Let leaves := hardBoundLeafList payload w chunkSize d.

Hypothesis Hc : 0 <= chunkSize.
Hypothesis Hd : 0 <= depth <= 62.
Hypothesis Hmax : chunkSize * 2 ^ depth < 2 ^ 63.
Hypothesis Hlen : len payload <= chunkSize * 2 ^ depth.
Hypothesis Hw0 : 0 < w.
Hypothesis Hw : chunkSize + Z.min chunkSize (len payload) <= w.
(** The hasher takes the digests and the leaves. *)
Hypothesis Hacc : forall segments, accepts (digest segments) = true.
Hypothesis Hleaf : Forall (fun leaf => accepts leaf = true) leaves.

Lemma hardBound_upto_proof (proofIndex : Z) :
  GenerateMerkleTreeWithHardBound accepts digest payload modulus chunkSize depth proofIndex
  = (let! (merkleRoot, proofElements, numLeaves) :=
       lib (PureTree.BuildReaderProof digest (concat leaves) (Z.of_nat (Z.to_nat w))
              proofIndex) in
     if negb (numLeaves =? pow2 d) then Err ELeafCount
     else
       if negb (PureTree.VerifyProof digest merkleRoot proofElements proofIndex numLeaves)
       then Err EProofNotValid
       else Ok (merkleRoot, proofElements,
                if (0 <=? int proofIndex) && (int proofIndex <? pow2 d)
                then hardBoundProofChunk payload w chunkSize (int proofIndex) else [],
                numLeaves))
    /\ length leaves = (2 ^ d)%nat
    /\ Forall (fun l => length l = Z.to_nat w) leaves.
Proof.
  assert (Hdepth : depth = Z.of_nat d) by (subst d; lia).
  assert (Hpow : 2 ^ depth = pow2 d) by (unfold pow2; now rewrite <- Hdepth).
  assert (Hd62 : (d <= 62)%nat) by lia.
  pose proof (pow2_pos d) as Hpos. pose proof (pow2_62 d Hd62) as H62.
  assert (Hn : Z.to_nat (pow2 d) = (2 ^ d)%nat) by (rewrite <- pow2_nat; lia).
  assert (Hleaves : length leaves = (2 ^ d)%nat) by apply length_hardBoundLeafList.
  assert (HF : Forall (fun l => length l = Z.to_nat w) leaves).
  { subst leaves. unfold hardBoundLeafList. apply Forall_forall. intros l Hl.
    apply list_elem_of_fmap in Hl as (k & -> & _).
    apply length_hardBoundLeaf; lia. }
  split; [|split; assumption].
  unfold GenerateMerkleTreeWithHardBound, shl1.
  destruct (Z.ltb_spec depth 0); [lia|]. cbn [bind].
  rewrite Hpow in *. rewrite (int_small (pow2 d)) by lia.
  rewrite (int_small (chunkSize * pow2 d)) by nia.
  destruct (Z.gtb_spec (len payload) (chunkSize * pow2 d)); [lia|].
  fold w.
  pose proof (hardBoundLeaves_proofChunk payload w chunkSize proofIndex (Z.to_nat (pow2 d))
                0%nat [] [] Hc) as Hrun.
  change (Z.of_nat 0) with 0 in Hrun. rewrite Hrun; try assumption.
  2:{ rewrite Nat.add_0_l, Z2Nat.id by lia. lia. }
  2:{ nia. }
  clear Hrun. cbn [bind app]. rewrite Hn. fold (hardBoundLeafList payload w chunkSize d). fold leaves.
  rewrite (uint64_small (pow2 d)) by lia.
  rewrite Nat.add_0_l, pow2_nat.
  replace (MerkleTree.BuildReaderProof accepts digest (concat leaves) w proofIndex)
    with (MerkleTree.BuildReaderProof accepts digest (concat leaves)
            (Z.of_nat (Z.to_nat w)) proofIndex)
    by (now rewrite Z2Nat.id by lia).
  destruct (Refinement.BuildReaderProof_refines accepts digest Hacc (Z.to_nat w) leaves
              proofIndex ltac:(lia) HF Hleaf) as [-> Htaken].
  destruct (PureTree.BuildReaderProof digest (concat leaves) (Z.of_nat (Z.to_nat w))
              proofIndex) as [[[root ps] numLeaves]| | |]; cbn [lib bind]; try reflexivity.
  destruct (negb (numLeaves =? pow2 d)); [reflexivity|].
  rewrite (Refinement.VerifyProof_refines accepts digest Hacc root ps proofIndex numLeaves
             (Htaken root ps numLeaves eq_refl)).
  cbn [lib bind]. reflexivity.
Qed.

(** The proof of a slot is made of byte strings the hasher takes. *)
Lemma hardBound_proof_taken (proofIndex : Z) :
  0 <= proofIndex < 2 ^ depth ->
  Forall (fun p => accepts p = true)
         (nth (Z.to_nat proofIndex) leaves [] :: mpath digest d leaves (Z.to_nat proofIndex)).
Proof.
  intros Hp.
  assert (Hdepth : depth = Z.of_nat d) by (subst d; lia).
  assert (Hpow : 2 ^ depth = pow2 d) by (unfold pow2; now rewrite <- Hdepth).
  assert (Hd62 : (d <= 62)%nat) by lia.
  pose proof (pow2_pos d) as Hpos. pose proof (pow2_62 d Hd62) as H62.
  destruct (hardBound_upto_proof proofIndex) as (_ & Hleaves & HF).
  rewrite Hpow in *.
  destruct (Refinement.BuildReaderProof_refines accepts digest Hacc (Z.to_nat w) leaves
              proofIndex ltac:(lia) HF Hleaf) as [_ Htaken].
  eapply Htaken.
  apply (BuildReaderProof_perfect digest d (Z.to_nat w) leaves proofIndex);
    try assumption; lia.
Qed.

(** The value returned for a proof index inside the tree. *)
Lemma hardBound_value (proofIndex : Z) :
  (forall segments, digest segments <> []) ->
  0 <= proofIndex < 2 ^ depth ->
  GenerateMerkleTreeWithHardBound accepts digest payload modulus chunkSize depth proofIndex
  = Ok (mroot digest d leaves,
        nth (Z.to_nat proofIndex) leaves [] :: mpath digest d leaves (Z.to_nat proofIndex),
        hardBoundProofChunk payload w chunkSize proofIndex,
        2 ^ depth).
Proof.
  intros Hdig Hp.
  assert (Hdepth : depth = Z.of_nat d) by (subst d; lia).
  assert (Hpow : 2 ^ depth = pow2 d) by (unfold pow2; now rewrite <- Hdepth).
  assert (Hd62 : (d <= 62)%nat) by lia.
  pose proof (pow2_pos d) as Hpos. pose proof (pow2_62 d Hd62) as H62.
  destruct (hardBound_upto_proof proofIndex) as (-> & Hleaves & HF).
  rewrite Hpow in *.
  rewrite (BuildReaderProof_perfect digest d (Z.to_nat w) leaves proofIndex);
    try assumption; try lia.
  cbn [lib bind]. rewrite Z.eqb_refl. cbn [negb].
  rewrite (VerifyProof_perfect digest d leaves proofIndex); try assumption; try lia;
    [|now apply mroot_nonempty].
  cbn [negb]. rewrite (int_small proofIndex) by lia.
  destruct (Z.leb_spec 0 proofIndex); [|lia].
  destruct (Z.ltb_spec proofIndex (pow2 d)); [|lia]. reflexivity.
Qed.

Lemma hardBound_index_not_reached (proofIndex : Z) :
  2 ^ depth <= proofIndex ->
  GenerateMerkleTreeWithHardBound accepts digest payload modulus chunkSize depth proofIndex
  = Err (EMerkle MerkleTree.EIndexNotReached).
Proof.
  intros Hp.
  assert (Hdepth : depth = Z.of_nat d) by (subst d; lia).
  assert (Hpow : 2 ^ depth = pow2 d) by (unfold pow2; now rewrite <- Hdepth).
  assert (Hd62 : (d <= 62)%nat) by lia.
  destruct (hardBound_upto_proof proofIndex) as (-> & Hleaves & HF).
  rewrite Hpow in *.
  rewrite (BuildReaderProof_index_not_reached digest d (Z.to_nat w) leaves proofIndex);
    try assumption; try lia.
  reflexivity.
Qed.
End HardBound.

(** X9.  For inputs within the bounds and a hasher that takes the leaves
    and the digests, the hard-bound builder returns the root of the perfect
    tree of depth [depth] over its [2^depth] leaves, the proved leaf
    followed by the [depth] sibling hashes on its path, and, as proof
    chunk, the leaf when the slot holds payload bytes and [chunkSize] zero
    bytes (not the leaf, which has the width of the modulus) when it lies
    behind the payload. *)
Theorem GenerateMerkleTreeWithHardBound_returns
    (accepts : list byte -> bool) (digest : list (list byte) -> list byte)
    (payload : list byte) (modulus chunkSize depth proofIndex : Z) :
  (forall segments, digest segments <> []) ->
  (forall segments, accepts (digest segments) = true) ->
  Forall (fun leaf => accepts leaf = true)
         (hardBoundLeafList payload (len (Big.Bytes modulus)) chunkSize (Z.to_nat depth)) ->
  0 <= chunkSize -> 0 <= depth <= 62 ->
  chunkSize * 2 ^ depth < 2 ^ 63 ->
  len payload <= chunkSize * 2 ^ depth ->
  0 < len (Big.Bytes modulus) ->
  chunkSize + Z.min chunkSize (len payload) <= len (Big.Bytes modulus) ->
  0 <= proofIndex < 2 ^ depth ->
  let w := len (Big.Bytes modulus) in
  let leaves := hardBoundLeafList payload w chunkSize (Z.to_nat depth) in
  GenerateMerkleTreeWithHardBound accepts digest payload modulus chunkSize depth proofIndex
  = Ok (mroot digest (Z.to_nat depth) leaves,
        nth (Z.to_nat proofIndex) leaves []
          :: mpath digest (Z.to_nat depth) leaves (Z.to_nat proofIndex),
        (if proofIndex * chunkSize <? len payload
         then nth (Z.to_nat proofIndex) leaves []
         else zeros (Z.to_nat chunkSize)),
        2 ^ depth).
Proof.
  intros Hdig Hacc Hleaf Hc Hd Hmax Hlen Hw0 Hw Hp w leaves.
  rewrite (hardBound_value accepts digest payload modulus chunkSize depth Hc Hd Hmax Hlen
             Hw0 Hw Hacc Hleaf proofIndex Hdig Hp).
  fold w. fold leaves. do 3 f_equal. unfold hardBoundProofChunk.
  destruct (Z.ltb_spec (proofIndex * chunkSize) (len payload)); [|reflexivity].
  subst leaves. unfold hardBoundLeafList.
  assert (Hlt : (Z.to_nat proofIndex < 2 ^ Z.to_nat depth)%nat).
  { apply Nat2Z.inj_lt. rewrite pow2_nat. unfold pow2. rewrite !Z2Nat.id by lia. lia. }
  rewrite (nth_indep _ [] (hardBoundLeaf payload w chunkSize (Z.of_nat 0)))
    by (now rewrite length_map, length_seq).
  rewrite (map_nth (fun k => hardBoundLeaf payload w chunkSize (Z.of_nat k))).
  rewrite seq_nth by exact Hlt. now rewrite Nat.add_0_l, Z2Nat.id by lia.
Qed.

(** ** What the MiMC hashers take *)

Lemma taken_forallb (accepts : list byte -> bool) (l : list (list byte)) :
  forallb accepts l = true -> Forall (fun p => accepts p = true) l.
Proof.
  induction l as [|x l IH]; cbn [forallb]; intros H; [constructor|].
  apply andb_prop in H as [Hx Hl]. constructor; [exact Hx | exact (IH Hl)].
Qed.

Lemma be_fold_zeros (n : nat) :
  fold_left (fun acc b => acc * 256 + Z_of_byte b) (zeros n) 0 = 0.
Proof. induction n as [|n IH]; [reflexivity|]. cbn [zeros repeat fold_left]. exact IH. Qed.

Lemma be_value_zeros (n : nat) (l : list byte) : be_value (zeros n ++ l) = be_value l.
Proof. unfold be_value. now rewrite fold_left_app, be_fold_zeros. Qed.

Lemma be_fold_bound (l : list byte) : forall acc,
  0 <= acc ->
  fold_left (fun acc b => acc * 256 + Z_of_byte b) l acc < (acc + 1) * 256 ^ len l.
Proof.
  induction l as [|b l IH]; intros acc Hacc; cbn [fold_left].
  - unfold len. cbn [length]. change (256 ^ Z.of_nat 0) with 1. lia.
  - pose proof (Z_of_byte_range b) as Hb.
    specialize (IH (acc * 256 + Z_of_byte b) ltac:(lia)).
    assert (Hpow : 256 ^ len (b :: l) = 256 * 256 ^ len l).
    { unfold len. cbn [length]. rewrite Nat2Z.inj_succ, Z.pow_succ_r by lia. reflexivity. }
    rewrite Hpow.
    assert (0 < 256 ^ len l) by (apply Z.pow_pos_nonneg; unfold len; lia).
    nia.
Qed.

Lemma be_value_bound (l : list byte) : be_value l < 256 ^ len l.
Proof. pose proof (be_fold_bound l 0 ltac:(lia)) as H. unfold be_value. lia. Qed.

(** The two curves of the SDK: field and hasher go together. *)
Lemma field_hasher (keyType : Z) :
  field keyType = Mimc.Modulus (Crypto.GetHasherByType keyType)
  /\ len (Big.Bytes (field keyType)) = Mimc.BlockSize (Crypto.GetHasherByType keyType).
Proof.
  unfold field, Crypto.GetHasherByType.
  destruct (Z.eqb_spec keyType Crypto.KeyTypeBLS12377) as [->|Hne].
  - split; vm_compute; reflexivity.
  - destruct (keyType =? Crypto.KeyTypeSecp256k1); split; vm_compute; reflexivity.
Qed.

Lemma Mimc_width (kind : Crypto.Hasher) :
  0 < Mimc.BlockSize kind
  /\ 256 ^ (Mimc.BlockSize kind - 1) <= Mimc.Modulus kind.
Proof. destruct kind; split; vm_compute; (reflexivity || discriminate). Qed.

(** A whole block below the modulus is taken. *)
Lemma Mimc_accepts_block (kind : Crypto.Hasher) (p : list byte) :
  len p = Mimc.BlockSize kind -> be_value p < Mimc.Modulus kind ->
  Mimc.accepts kind p = true.
Proof.
  intros Hlen Hv. unfold Mimc.accepts. cbv zeta.
  destruct (Mimc_width kind) as [Hpos _].
  rewrite Hlen, Z.ltb_irrefl, andb_false_r.
  assert (Hl : length p = Z.to_nat (Mimc.BlockSize kind)) by (unfold len in Hlen; lia).
  rewrite Hl, Nat.Div0.mod_same, Nat.div_same by lia.
  cbn [Nat.eqb seq forallb andb Nat.mul].
  rewrite drop_0, <- Hl, firstn_all, andb_true_r. now apply Z.ltb_lt.
Qed.

(** What is shorter than a block is taken: it is read as one block with
    zero bytes in front. *)
Lemma Mimc_accepts_short (kind : Crypto.Hasher) (p : list byte) :
  0 < len p < Mimc.BlockSize kind -> Mimc.accepts kind p = true.
Proof.
  intros [H0 Hlt]. destruct (Mimc_width kind) as [Hpos Hmod].
  unfold Mimc.accepts. cbv zeta.
  destruct (Z.ltb_spec 0 (len p)); [|lia].
  destruct (Z.ltb_spec (len p) (Mimc.BlockSize kind)); [|lia]. cbn [andb].
  set (size := Z.to_nat (Mimc.BlockSize kind)).
  assert (Hl : length (zeros (size - length p) ++ p) = size).
  { unfold zeros. rewrite length_app, repeat_length. unfold len in *. lia. }
  rewrite Hl, Nat.Div0.mod_same, Nat.div_same by lia.
  cbn [Nat.eqb seq forallb andb Nat.mul].
  rewrite drop_0, take_ge by lia. rewrite andb_true_r, be_value_zeros.
  apply Z.ltb_lt. pose proof (be_value_bound p) as Hb.
  assert (256 ^ len p <= 256 ^ (Mimc.BlockSize kind - 1))
    by (apply Z.pow_le_mono_r; lia).
  lia.
Qed.


(** A block that starts with sixteen zero bytes is below both moduli. *)
Lemma Mimc_accepts_leaf (kind : Crypto.Hasher) (rest : list byte) :
  len (zeros 16 ++ rest) = Mimc.BlockSize kind ->
  Mimc.accepts kind (zeros 16 ++ rest) = true.
Proof.
  intros Hlen. apply Mimc_accepts_block; [exact Hlen|].
  rewrite be_value_zeros. pose proof (be_value_bound rest) as Hb.
  assert (Hr : len rest = Mimc.BlockSize kind - 16).
  { unfold len in *. rewrite length_app in Hlen. unfold zeros in Hlen.
    rewrite repeat_length in Hlen. lia. }
  rewrite Hr in Hb.
  assert (256 ^ (Mimc.BlockSize kind - 16) <= Mimc.Modulus kind)
    by (destruct kind; vm_compute; discriminate).
  lia.
Qed.

(** The digests of the examples are two bytes long. *)
Lemma exampleDigest_taken (kind : Crypto.Hasher) (segments : list (list byte)) :
  Mimc.accepts kind (exampleDigest segments) = true.
Proof.
  apply Mimc_accepts_short. unfold exampleDigest, len. cbn [length].
  destruct kind; split; vm_compute; reflexivity.
Qed.

(** With the protocol's chunks of sixteen bytes, every leaf of the
    hard-bound builder is one the hasher of the key type takes. *)
Lemma hardBoundLeaves_taken (keyType : Z) (payload : list byte) (d : nat) :
  Forall (fun leaf => Mimc.accepts (Crypto.GetHasherByType keyType) leaf = true)
         (hardBoundLeafList payload (len (Big.Bytes (field keyType))) CHUNK_SIZE d).
Proof.
  destruct (field_hasher keyType) as [_ Hw]. rewrite Hw.
  set (kind := Crypto.GetHasherByType keyType).
  assert (Hw32 : 32 <= Mimc.BlockSize kind) by (destruct kind; vm_compute; discriminate).
  unfold hardBoundLeafList. apply Forall_forall. intros leaf Hl.
  apply list_elem_of_fmap in Hl as (k & -> & _).
  assert (Hlen : length (hardBoundLeaf payload (Mimc.BlockSize kind) CHUNK_SIZE (Z.of_nat k))
                 = Z.to_nat (Mimc.BlockSize kind)).
  { apply length_hardBoundLeaf; [vm_compute; discriminate | lia |].
    change CHUNK_SIZE with 16. lia. }
  revert Hlen. unfold hardBoundLeaf.
  destruct (Z.of_nat k * CHUNK_SIZE <? len payload); intros Hlen.
  - change (Z.to_nat CHUNK_SIZE) with 16%nat in *.
    apply Mimc_accepts_leaf. unfold len in *. lia.
  - replace (Z.to_nat (Mimc.BlockSize kind))
      with (16 + (Z.to_nat (Mimc.BlockSize kind) - 16))%nat by lia.
    rewrite <- zeros_app. apply Mimc_accepts_leaf.
    unfold len. rewrite zeros_app. unfold zeros. rewrite repeat_length. lia.
Qed.

Lemma GenerateMerkleTreeWithHardBound_returns_witness :
  let leaves := hardBoundLeafList (str "test") 32 CHUNK_SIZE 6 in
  GenerateMerkleTreeWithHardBound (Mimc.accepts Crypto.MiMC_BN254) exampleDigest
    (str "test") Ecc.BN254_ScalarField CHUNK_SIZE DEPTH 5
  = Ok (mroot exampleDigest 6 leaves,
        nth 5 leaves [] :: mpath exampleDigest 6 leaves 5,
        zeros 16,
        64).
Proof.
  apply (GenerateMerkleTreeWithHardBound_returns (Mimc.accepts Crypto.MiMC_BN254)
           exampleDigest (str "test") Ecc.BN254_ScalarField CHUNK_SIZE DEPTH 5).
  - intros segments. discriminate.
  - apply exampleDigest_taken.
  - apply taken_forallb. vm_compute. reflexivity.
  - vm_compute. discriminate.
  - split; vm_compute; discriminate.
  - vm_compute. reflexivity.
  - vm_compute. discriminate.
  - vm_compute. reflexivity.
  - vm_compute. discriminate.
  - split; vm_compute; [discriminate | reflexivity].
Defined.

(** X10.  A proof index that is not one of the [2^depth] slots makes the
    hard-bound builder return the library's error, when the hasher takes
    the leaves and the digests: the tree is built, the index is never
    reached, and there is no proof to hand back. *)
Theorem GenerateMerkleTreeWithHardBound_index_out_of_range
    (accepts : list byte -> bool) (digest : list (list byte) -> list byte)
    (payload : list byte) (modulus chunkSize depth proofIndex : Z) :
  (forall segments, accepts (digest segments) = true) ->
  Forall (fun leaf => accepts leaf = true)
         (hardBoundLeafList payload (len (Big.Bytes modulus)) chunkSize (Z.to_nat depth)) ->
  0 <= chunkSize -> 0 <= depth <= 62 ->
  chunkSize * 2 ^ depth < 2 ^ 63 ->
  len payload <= chunkSize * 2 ^ depth ->
  0 < len (Big.Bytes modulus) ->
  chunkSize + Z.min chunkSize (len payload) <= len (Big.Bytes modulus) ->
  2 ^ depth <= proofIndex ->
  GenerateMerkleTreeWithHardBound accepts digest payload modulus chunkSize depth proofIndex
  = Err (EMerkle MerkleTree.EIndexNotReached).
Proof.
  intros Hacc Hleaf Hc Hd Hmax Hlen Hw0 Hw Hp.
  now apply hardBound_index_not_reached.
Qed.

Lemma GenerateMerkleTreeWithHardBound_index_out_of_range_witness :
  GenerateMerkleTreeWithHardBound (Mimc.accepts Crypto.MiMC_BN254) exampleDigest
    (str "test") Ecc.BN254_ScalarField CHUNK_SIZE 2 4
  = Err (EMerkle MerkleTree.EIndexNotReached).
Proof.
  apply (GenerateMerkleTreeWithHardBound_index_out_of_range
           (Mimc.accepts Crypto.MiMC_BN254) exampleDigest (str "test")
           Ecc.BN254_ScalarField CHUNK_SIZE 2 4).
  - apply exampleDigest_taken.
  - apply taken_forallb. vm_compute. reflexivity.
  - vm_compute. discriminate.
  - split; vm_compute; discriminate.
  - vm_compute. reflexivity.
  - vm_compute. discriminate.
  - vm_compute. reflexivity.
  - vm_compute. discriminate.
  - vm_compute. discriminate.
Defined.

(** ** The commitment of a transaction input *)

Lemma field_width (keyType : Z) :
  len (Big.Bytes (field keyType)) = if keyType =? Crypto.KeyTypeBLS12377 then 48 else 32.
Proof. unfold field. destruct (keyType =? Crypto.KeyTypeBLS12377); vm_compute; reflexivity. Qed.

Lemma splitHash32_Ok (Sum256 : list byte -> list byte) (data : list byte) :
  length (Sum256 data) = 32%nat ->
  splitHash32 Sum256 data = Ok (take 16 (Sum256 data), drop 16 (Sum256 data)).
Proof.
  intros H. unfold splitHash32, len. rewrite H. reflexivity.
Qed.

Lemma GetSignatureCommitment_cases
    (Sum256 : list byte -> list byte) (digest : list (list byte) -> list byte)
    (t : ULTransactionInput) (computeRoot : bool) :
  let accepts := Mimc.accepts (Crypto.GetHasherByType (KeyType t)) in
  (forall data, length (Sum256 data) = 32%nat) ->
  (forall segments, digest segments <> []) ->
  (forall segments, accepts (digest segments) = true) ->
  if len (Payload t) <=? 1024
  then exists c,
         GetSignatureCommitment Sum256 accepts digest t computeRoot = Ok c
         /\ NumLeaves c = 64 /\ ChunkSize c = 16 /\ Depth c = 6 /\ ChunkIndex c = 0
         /\ length (ProofElements c) = 7%nat
         /\ MerkleTree.VerifyProof accepts digest (PayloadRoot c) (ProofElements c) 0 64
            = Ok true
  else GetSignatureCommitment Sum256 accepts digest t computeRoot
       = Err (EPayloadTooLarge 1024 (len (Payload t))).
Proof.
  intros accepts Hsum Hdig Hacc. unfold GetSignatureCommitment.
  rewrite !splitHash32_Ok by apply Hsum. cbn [bind].
  assert (Hpl : 0 <= len (Payload t)) by (unfold len; lia).
  pose proof (field_width (KeyType t)) as Hfw.
  assert (Hw32 : 32 <= len (Big.Bytes (field (KeyType t))))
    by (rewrite Hfw; destruct (KeyType t =? Crypto.KeyTypeBLS12377); lia).
  change (uint64 0) with 0.
  destruct (Z.leb_spec (len (Payload t)) 1024) as [Hle|Hgt].
  - assert (Hc : 0 <= CHUNK_SIZE) by (vm_compute; discriminate).
    assert (Hd : 0 <= DEPTH <= 62) by (split; vm_compute; discriminate).
    assert (Hmax : CHUNK_SIZE * 2 ^ DEPTH < 2 ^ 63) by (vm_compute; reflexivity).
    assert (Hlen : len (Payload t) <= CHUNK_SIZE * 2 ^ DEPTH)
      by (change (CHUNK_SIZE * 2 ^ DEPTH) with 1024; exact Hle).
    assert (Hw0 : 0 < len (Big.Bytes (field (KeyType t)))) by lia.
    assert (Hw : CHUNK_SIZE + Z.min CHUNK_SIZE (len (Payload t))
                 <= len (Big.Bytes (field (KeyType t))))
      by (change CHUNK_SIZE with 16; lia).
    assert (Hp : 0 <= 0 < 2 ^ DEPTH) by (split; vm_compute; [discriminate|reflexivity]).
    pose proof (hardBoundLeaves_taken (KeyType t) (Payload t) (Z.to_nat DEPTH)) as Hleaf.
    fold accepts in Hleaf.
    rewrite (hardBound_value accepts digest (Payload t) (field (KeyType t)) CHUNK_SIZE DEPTH
               Hc Hd Hmax Hlen Hw0 Hw Hacc Hleaf 0 Hdig Hp).
    cbn [bind]. eexists. split; [reflexivity|].
    cbn [NumLeaves ChunkSize Depth ChunkIndex ProofElements PayloadRoot].
    do 4 (split; [reflexivity|]).
    split; [cbn [length]; now rewrite length_mpath|].
    rewrite (Refinement.VerifyProof_refines accepts digest Hacc).
    + f_equal. apply (VerifyProof_perfect digest 6); [lia| |split; vm_compute; congruence|].
      * apply length_hardBoundLeafList.
      * now apply mroot_nonempty.
    + exact (hardBound_proof_taken accepts digest (Payload t) (field (KeyType t))
               CHUNK_SIZE DEPTH Hc Hd Hmax Hlen Hw0 Hw Hacc Hleaf 0 Hp).
  - unfold GenerateMerkleTreeWithHardBound.
    change (@shl1 error DEPTH) with (@Ok error Z 64). cbn [bind].
    change (int (CHUNK_SIZE * 64)) with 1024.
    destruct (Z.gtb_spec (len (Payload t)) 1024); [reflexivity|lia].
Qed.

(** X11.  With the constants of the SDK (chunks of 16 bytes, depth 6), a
    32-byte hash for the identifiers and the MiMC hasher of the input's
    key type, [GetSignatureCommitment] succeeds exactly for the payloads
    of at most 1024 bytes, for every key type: the commitment has 64
    leaves and a proof of the first leaf that [VerifyProof] accepts; a
    longer payload gets the size error. *)
Theorem GetSignatureCommitment_payload_bound
    (Sum256 : list byte -> list byte) (digest : list (list byte) -> list byte)
    (t : ULTransactionInput) (computeRoot : bool) :
  let accepts := Mimc.accepts (Crypto.GetHasherByType (KeyType t)) in
  (forall data, length (Sum256 data) = 32%nat) ->
  (forall segments, digest segments <> []) ->
  (forall segments, accepts (digest segments) = true) ->
  if len (Payload t) <=? 1024
  then exists c,
         GetSignatureCommitment Sum256 accepts digest t computeRoot = Ok c
         /\ NumLeaves c = 64 /\ ChunkSize c = 16 /\ Depth c = 6 /\ ChunkIndex c = 0
         /\ length (ProofElements c) = 7%nat
         /\ MerkleTree.VerifyProof accepts digest (PayloadRoot c) (ProofElements c) 0 64
            = Ok true
  else GetSignatureCommitment Sum256 accepts digest t computeRoot
       = Err (EPayloadTooLarge 1024 (len (Payload t))).
Proof. apply GetSignatureCommitment_cases. Qed.

Lemma GetSignatureCommitment_payload_bound_witness :
  exists c,
    GetSignatureCommitment exampleSum256 (Mimc.accepts Crypto.MiMC_BN254) exampleDigest
      exampleInput true = Ok c
    /\ NumLeaves c = 64 /\ ChunkSize c = 16 /\ Depth c = 6 /\ ChunkIndex c = 0
    /\ length (ProofElements c) = 7%nat
    /\ MerkleTree.VerifyProof (Mimc.accepts Crypto.MiMC_BN254) exampleDigest
         (PayloadRoot c) (ProofElements c) 0 64 = Ok true.
Proof.
  apply (GetSignatureCommitment_payload_bound exampleSum256 exampleDigest exampleInput true).
  - intros data. unfold exampleSum256. rewrite length_take, length_app, length_map, length_seq.
    lia.
  - intros segments. discriminate.
  - intros segments. apply exampleDigest_taken.
Defined.


(* ===================================================================== *)
(** * Trees over any number of leaves: the exact builder                  *)
(* ===================================================================== *)

Module ForestFacts.
Import MerkleTree PureTree ForestSpec.

Section WithHasher.
Variable digest : list (list byte) -> list byte.

Abbreviation nodeSum := (nodeSum digest).
Abbreviation leafSum := (leafSum digest).
Abbreviation mroot := (mroot digest).
Abbreviation mpath := (mpath digest).
Abbreviation pushAll := (pushAll digest).
Abbreviation blockProof := (blockProof digest).
Abbreviation climb := (climb digest).
Abbreviation forest := (forest digest).
Abbreviation forestProof := (forestProof digest).
Abbreviation joined := (joined digest).

Lemma forest_heights (d : nat) : forall leaves,
  Forall (fun s => height s < Z.of_nat d) (forest d leaves).
Proof.
  induction d as [|d IH]; intros leaves; cbn [ForestSpec.forest]; [constructor|].
  destruct (2 ^ d <=? length leaves)%nat.
  - apply Forall_app. split.
    + eapply Forall_impl; [apply IH|]. cbn. intros; lia.
    + constructor; [cbn [height]; lia|constructor].
  - eapply Forall_impl; [apply IH|]. cbn. intros; lia.
Qed.

Lemma forest_nil (d : nat) : forall leaves,
  (length leaves < 2 ^ d)%nat -> (forest d leaves = [] <-> leaves = []).
Proof.
  induction d as [|d IH]; intros leaves Hlen; cbn [ForestSpec.forest].
  - cbn in Hlen. destruct leaves; [tauto|cbn in Hlen; lia].
  - destruct (Nat.leb_spec (2 ^ d) (length leaves)) as [Hge|Hlt].
    + split; [intros H; now apply app_nil in H as [_ H]|].
      intros ->. cbn in Hge. pose proof (Nat.pow_nonzero 2 d). lia.
    + now apply IH.
Qed.

Lemma forestProof_out (d : nat) : forall leaves cur p ps,
  ps <> [] \/ p < cur -> forestProof d leaves cur p ps = ps.
Proof.
  induction d as [|d IH]; intros leaves cur p ps H; cbn [ForestSpec.forestProof];
    [reflexivity|].
  pose proof (pow2_pos d).
  destruct (2 ^ d <=? length leaves)%nat.
  - rewrite blockProof_out by (destruct H; [now left|right; left; lia]).
    apply IH. destruct H; [now left|right; lia].
  - now apply IH.
Qed.

(** Pushing fewer than [2^d] leaves onto a stack of taller subtrees. *)
Lemma pushAll_forest (p : Z) (d : nat) : forall leaves stack cur ps k,
  0 <= p ->
  (d <= 62)%nat ->
  (length leaves < 2 ^ d)%nat ->
  cur = k * pow2 d -> 0 <= k -> cur + pow2 d <= 2 ^ 63 ->
  Forall (fun s => Z.of_nat d <= height s) stack ->
  (ps = [] \/ (Z.of_nat d <= len ps /\ p < cur)) ->
  pushAll (MkTree stack cur p ps) leaves
  = Ok (MkTree (forest d leaves ++ stack) (cur + len leaves) p
               (forestProof d leaves cur p ps)).
Proof.
  induction d as [|d IH]; intros leaves stack cur ps k Hp Hd Hlen Hcur Hk Hmax Hst Hps.
  - cbn in Hlen. destruct leaves; [|cbn in Hlen; lia].
    cbn [MerkleSpec.pushAll ForestSpec.forest ForestSpec.forestProof app].
    unfold len. cbn [length]. now rewrite Z.add_0_r.
  - pose proof (pow2_pos d) as Hpos. pose proof (pow2_62 d ltac:(lia)) as H62.
    assert (HS := pow2_S d). assert (Hnat := pow2_nat d).
    cbn [ForestSpec.forest ForestSpec.forestProof].
    destruct (Nat.leb_spec (2 ^ d) (length leaves)) as [Hge|Hlt].
    + set (B := take (2 ^ d) leaves). set (R := drop (2 ^ d) leaves).
      assert (HB : length B = (2 ^ d)%nat) by (subst B; rewrite length_take; lia).
      assert (HR : (length R < 2 ^ d)%nat).
      { subst R. rewrite length_drop. rewrite Nat.pow_succ_r' in Hlen. lia. }
      assert (HL : len leaves = pow2 d + len R).
      { subst R. unfold len. rewrite length_drop. lia. }
      rewrite <- (take_drop (2 ^ d) leaves) at 1. fold B R.
      rewrite pushAll_app.
      rewrite (pushAll_block digest p d B stack cur ps (2 * k)); try assumption; try lia.
      2:{ eapply Forall_impl; [exact Hst|]. cbn. intros; lia. }
      2:{ destruct Hps as [?|[? ?]]; [now left|right; lia]. }
      rewrite joinAll_stop.
      2:{ destruct stack as [|s stack']; [exact I|]. apply Forall_cons in Hst as [Hs _].
          cbn [height]. lia. }
      cbn [bind].
      rewrite (IH R _ (cur + pow2 d) _ (2 * k + 1)); try assumption; try lia.
      * rewrite <- app_assoc. cbn [app]. do 2 f_equal. lia.
      * constructor; [cbn [height]; lia|].
        eapply Forall_impl; [exact Hst|]. cbn. intros; lia.
      * destruct Hps as [->|[? ?]].
        -- destruct (Z_le_dec cur p), (Z_lt_dec p (cur + pow2 d)).
           ++ right. rewrite blockProof_in by lia. unfold len. cbn [length].
              rewrite length_mpath. lia.
           ++ left. apply blockProof_out. lia.
           ++ left. apply blockProof_out. lia.
           ++ left. apply blockProof_out. lia.
        -- right. rewrite blockProof_out by (left; intros ->; unfold len in *; cbn in *; lia).
           lia.
    + apply (IH leaves stack cur ps (2 * k)); try assumption; try lia.
      * eapply Forall_impl; [exact Hst|]. cbn. intros; lia.
      * destruct Hps as [?|[? ?]]; [now left|right; lia].
Qed.

(** Where the proof index sits in the stack: the perfect tree [B] of
    height [h] that holds it starts at an index [s] that is a multiple of
    [2^(h+1)], the subtrees before it in the stack are lower, those behind
    it taller, and fewer than [2^h] leaves follow the block. *)
Lemma forest_structure (p : Z) (d : nat) : forall leaves cur k,
  (d <= 62)%nat ->
  (length leaves < 2 ^ d)%nat ->
  cur = k * pow2 d -> 0 <= k ->
  cur <= p < cur + len leaves ->
  exists (small big : list subTree) (h : nat) (B : list (list byte)) (s k' : Z),
    forest d leaves = small ++ SubTree (Z.of_nat h) (mroot h B) :: big
    /\ forestProof d leaves cur p []
       = nth (Z.to_nat (p - s)) B [] :: mpath h B (Z.to_nat (p - s))
    /\ Forall (fun t => height t < Z.of_nat h) small
    /\ Forall (fun t => Z.of_nat h < height t) big
    /\ length B = (2 ^ h)%nat /\ (h < d)%nat
    /\ s = k' * pow2 (S h) /\ 0 <= k'
    /\ s <= p < s + pow2 h
    /\ s + pow2 h <= cur + len leaves < s + pow2 (S h)
    /\ (small = [] <-> cur + len leaves = s + pow2 h)
    /\ nth (Z.to_nat (p - s)) B [] = nth (Z.to_nat (p - cur)) leaves [].
Proof.
  induction d as [|d IH]; intros leaves cur k Hd Hlen Hcur Hk Hp.
  - cbn in Hlen. destruct leaves; [|cbn in Hlen; lia]. unfold len in Hp. cbn in Hp. lia.
  - pose proof (pow2_pos d) as Hpos. pose proof (pow2_62 d ltac:(lia)) as H62.
    assert (HS := pow2_S d). assert (Hnat := pow2_nat d).
    cbn [ForestSpec.forest ForestSpec.forestProof].
    destruct (Nat.leb_spec (2 ^ d) (length leaves)) as [Hge|Hlt].
    + set (B := take (2 ^ d) leaves). set (R := drop (2 ^ d) leaves).
      assert (HB : length B = (2 ^ d)%nat) by (subst B; rewrite length_take; lia).
      assert (HR : (length R < 2 ^ d)%nat).
      { subst R. rewrite length_drop. rewrite Nat.pow_succ_r' in Hlen. lia. }
      assert (HL : len leaves = pow2 d + len R).
      { subst R. unfold len. rewrite length_drop. lia. }
      destruct (Z_lt_dec p (cur + pow2 d)) as [Hin|Hout].
      * (* the index is in the block *)
        exists (forest d R), [], d, B, cur, k.
        rewrite blockProof_in by lia.
        rewrite forestProof_out by (left; discriminate).
        split; [reflexivity|]. split; [reflexivity|].
        split; [apply forest_heights|]. split; [constructor|].
        split; [exact HB|]. split; [lia|]. split; [exact Hcur|]. split; [exact Hk|].
        split; [lia|]. split; [unfold len in *; lia|].
        split; [split; intros H|].
        -- apply forest_nil in H; [|exact HR]. rewrite H in HL.
           unfold len in *. cbn [length] in HL. lia.
        -- apply forest_nil; [exact HR|].
           assert (length R = 0%nat) by (unfold len in *; lia).
           now destruct R.
        -- subst B. rewrite nth_firstn.
           destruct (Nat.ltb_spec (Z.to_nat (p - cur)) (2 ^ d)); [reflexivity|lia].
      * (* the index is behind the block *)
        rewrite blockProof_out by lia.
        destruct (IH R (cur + pow2 d) (2 * k + 1)) as
          (small & big & h & B' & s & k' & Hf & Hps & Hsm & Hbig & HB' & Hh & Hs & Hk'
           & Hps' & Hn & Hnil & Hnth); try assumption; try lia.
        exists small, (big ++ [SubTree (Z.of_nat d) (mroot d B)]), h, B', s, k'.
        rewrite Hf, Hps, <- app_assoc. cbn [app].
        split; [reflexivity|]. split; [reflexivity|]. split; [exact Hsm|].
        split.
        { apply Forall_app. split; [exact Hbig|].
          constructor; [cbn [height]; lia|constructor]. }
        split; [exact HB'|]. split; [lia|]. split; [exact Hs|]. split; [exact Hk'|].
        split; [exact Hps'|]. split; [lia|].
        split; [split; intros H; [apply Hnil in H; lia|apply Hnil; lia]|].
        rewrite Hnth. subst R. rewrite nth_skipn. f_equal. lia.
    + destruct (IH leaves cur (2 * k)) as
        (small & big & h & B' & s & k' & Hf & Hps & Hsm & Hbig & HB' & Hh & Hs & Hk'
         & Hps' & Hn & Hnil & Hnth); try assumption; try lia.
      exists small, big, h, B', s, k'.
      split; [exact Hf|]. split; [exact Hps|]. split; [exact Hsm|]. split; [exact Hbig|].
      split; [exact HB'|]. split; [lia|]. split; [exact Hs|]. split; [exact Hk'|].
      split; [exact Hps'|]. split; [exact Hn|]. split; [exact Hnil|exact Hnth].
Qed.

(** *** [Root] and [Prove] on a stack *)

Lemma collapse_joined (rest : list subTree) : forall current,
  ssum (collapse digest current rest) = joined (ssum current) rest.
Proof.
  induction rest as [|next rest IH]; intros current; cbn [collapse]; [reflexivity|].
  rewrite IH. reflexivity.
Qed.

Lemma joined_app (a b : list subTree) (current : list byte) :
  joined current (a ++ b) = joined (joined current a) b.
Proof. unfold ForestSpec.joined. apply fold_left_app. Qed.

Lemma joinLower_small (n : Z) (small : list subTree) : forall current rest,
  Forall (fun t => height t < n - 1) small ->
  match rest with [] => True | next :: _ => n - 1 <= height next end ->
  exists agg,
    joinLower digest current (small ++ rest) n = (agg, rest)
    /\ ssum agg = joined (ssum current) small.
Proof.
  induction small as [|t small IH]; intros current rest Hs Hr; cbn [app joinLower].
  - exists current. split; [|reflexivity].
    destruct rest as [|next rest]; cbn [joinLower]; [reflexivity|].
    destruct (Z.ltb_spec (height next) (n - 1)); [lia|reflexivity].
  - apply Forall_cons in Hs as [Ht Hs].
    destruct (Z.ltb_spec (height t) (n - 1)); [|lia].
    destruct (IH (joinSubTrees digest t current) rest Hs Hr) as (agg & Hj & Hsum).
    exists agg. split; [exact Hj|]. rewrite Hsum. reflexivity.
Qed.

(** [Prove] on a stack in which the subtree [SubTree h r] holds the proof
    index: the lower subtrees are joined into one right sibling, the
    taller ones are left siblings. *)
Lemma Prove_forest (small big : list subTree) (h : nat) (r : list byte)
    (ps : list (list byte)) (cur p : Z) :
  Forall (fun t => height t < Z.of_nat h) small ->
  Forall (fun t => Z.of_nat h < height t) big ->
  len ps = Z.of_nat h + 1 ->
  Prove digest (MkTree (small ++ SubTree (Z.of_nat h) r :: big) cur p ps)
  = Ok (joined (match small with
                | [] => r
                | hd :: small' => nodeSum r (joined (ssum hd) small')
                end) big,
        ps ++ match small with
              | [] => []
              | hd :: small' => [joined (ssum hd) small']
              end ++ map ssum big,
        p, cur).
Proof.
  intros Hsm Hbig Hps.
  assert (Hbig' : match big with [] => True | next :: _ => len ps - 1 <= height next end).
  { destruct big as [|next big']; [exact I|]. apply Forall_cons in Hbig as [Hn _]. lia. }
  unfold Prove, Root. destruct small as [|hd small']; cbn [app head proofSet].
  - destruct (Z.eqb_spec (len ps) 0); [lia|].
    rewrite collapse_joined. cbn [ssum proofIndex currentIndex].
    destruct big as [|next big']; cbn [joinLower].
    + cbn [height]. replace (Z.of_nat h =? len ps - 1) with true by (symmetry; lia).
      reflexivity.
    + apply Forall_cons in Hbig as [Hn _].
      destruct (Z.ltb_spec (height next) (len ps - 1)); [lia|].
      cbn [height]. replace (Z.of_nat h =? len ps - 1) with true by (symmetry; lia).
      cbn [negb andb].
      destruct (Z.eqb_spec (height next) (len ps - 1)); [lia|]. reflexivity.
  - destruct (Z.eqb_spec (len ps) 0); [lia|].
    apply Forall_cons in Hsm as [_ Hsm].
    destruct (joinLower_small (len ps) small' hd (SubTree (Z.of_nat h) r :: big))
      as (agg & Hj & Hsum).
    { eapply Forall_impl; [exact Hsm|]. cbn. intros; lia. }
    { cbn [height]. lia. }
    rewrite Hj. cbn [height].
    replace (Z.of_nat h =? len ps - 1) with true by (symmetry; lia).
    cbn [negb]. rewrite andb_false_r.
    rewrite collapse_joined, joined_app. cbn [proofIndex currentIndex].
    rewrite Hsum, <- app_assoc. reflexivity.
Qed.

(** The first loop of [VerifyProof] climbs the perfect tree that holds the
    proof index and stops above it. *)
Lemma verifyStable_block (h : nat) (leaf : list byte) (sibs tail : list (list byte))
    (p n s k' : Z) :
  (h <= 62)%nat -> length sibs = h ->
  s = k' * pow2 (S h) -> 0 <= k' ->
  s <= p < s + pow2 h ->
  s + pow2 h <= n < s + pow2 (S h) -> n <= 2 ^ 62 ->
  forall (j i fuel : nat) (sum : list byte) (stableEnd : Z),
    (i + j = h)%nat -> (j < fuel)%nat ->
    verifyStable digest fuel (leaf :: sibs ++ tail) p n (Z.of_nat (S i)) sum stableEnd
    = Some (Z.of_nat (S h),
            climb (drop i sibs) p (Z.of_nat (S i)) sum,
            if (j =? 0)%nat then stableEnd else s + pow2 h - 1).
Proof.
  intros Hh Hlen Hs Hk' Hp Hn Hn62.
  pose proof (pow2_pos h) as Hpos. pose proof (pow2_62 h Hh) as H62.
  assert (HSh := pow2_S h).
  induction j as [|j IH]; intros i fuel sum stableEnd Hij Hfuel;
    (destruct fuel as [|fuel]; [lia|]); cbn [verifyStable].
  - (* above the block *)
    assert (i = h) by lia. subst i.
    change (2 ^ Z.of_nat (S h)) with (pow2 (S h)).
    rewrite (uint64_small (pow2 (S h))) by lia.
    destruct (Z.eqb_spec (pow2 (S h)) 0); [lia|].
    assert (Hdiv : p / pow2 (S h) = k').
    { symmetry. apply (Z.div_unique _ _ _ (p - s)); lia. }
    rewrite Hdiv, <- Hs.
    rewrite (uint64_small s) by lia.
    rewrite (uint64_small (s + pow2 (S h) - 1)) by lia.
    destruct (Z.geb_spec (s + pow2 (S h) - 1) n); [|lia].
    rewrite drop_ge by lia. reflexivity.
  - (* one level up *)
    assert (Hi : (S i <= h)%nat) by lia.
    pose proof (pow2_pos (S i)) as Hposi. pose proof (pow2_le (S i) h Hi) as Hle.
    assert (Hal : pow2 (S h) = pow2 (S i) * pow2 (h - i)).
    { rewrite <- pow2_add. f_equal. lia. }
    pose proof (pow2_pos (h - i)) as Hposd.
    destruct (aligned_block_fits (S i) h (p - s) Hi ltac:(lia)) as [Hstart Hend].
    assert (Hdiv : p / pow2 (S i) * pow2 (S i)
                   = s + (p - s) / pow2 (S i) * pow2 (S i)).
    { replace p with ((p - s) + (k' * pow2 (h - i)) * pow2 (S i)) at 1 by nia.
      rewrite Z.div_add by lia. nia. }
    change (2 ^ Z.of_nat (S i)) with (pow2 (S i)).
    rewrite (uint64_small (pow2 (S i))) by lia.
    destruct (Z.eqb_spec (pow2 (S i)) 0); [lia|].
    rewrite (uint64_small (p / pow2 (S i) * pow2 (S i))) by lia.
    rewrite (uint64_small (p / pow2 (S i) * pow2 (S i) + pow2 (S i) - 1)) by lia.
    destruct (Z.geb_spec (p / pow2 (S i) * pow2 (S i) + pow2 (S i) - 1) n); [lia|].
    unfold len at 1. cbn [length]. rewrite length_app, Hlen.
    destruct (Z.leb_spec (Z.of_nat (S (h + length tail))) (Z.of_nat (S i))); [lia|].
    rewrite Nat2Z.id. cbn [nth]. rewrite app_nth1 by lia.
    replace (Z.of_nat (S i) - 1) with (Z.of_nat i) by lia.
    change (2 ^ Z.of_nat i) with (pow2 i).
    pose proof (pow2_pos i) as Hposi'. pose proof (pow2_le i h ltac:(lia)).
    rewrite (uint64_small (p - _)) by lia.
    rewrite (uint64_small (pow2 i)) by lia.
    replace (Z.of_nat (S i) + 1) with (Z.of_nat (S (S i))) by lia.
    rewrite (IH (S i)) by lia.
    assert (Hdrop : drop i sibs = nth i sibs [] :: drop (S i) sibs).
    { apply drop_S. destruct (nth_lookup_or_length sibs i []) as [Hnth|Hnth]; [exact Hnth|lia]. }
    rewrite Hdrop. cbn [MerkleSpec.climb].
    change (2 ^ Z.of_nat (S i)) with (pow2 (S i)).
    replace (Z.of_nat (S i) - 1) with (Z.of_nat i) by lia.
    change (2 ^ Z.of_nat i) with (pow2 i).
    replace (Z.of_nat (S i) + 1) with (Z.of_nat (S (S i))) by lia.
    f_equal. f_equal. clear IH.
    destruct j as [|j]; [|reflexivity]. cbn [Nat.eqb].
    assert (Hih : h = S i) by lia. rewrite Hih in Hp |- *.
    rewrite Hdiv, (Z.div_small (p - s)) by lia. lia.
Qed.

Lemma joined_nonempty (rest : list subTree) : forall current,
  (forall segments, digest segments <> []) ->
  current <> [] -> joined current rest <> [].
Proof.
  induction rest as [|next rest IH]; intros current Hdig Hc; [exact Hc|].
  unfold ForestSpec.joined. cbn [fold_left]. apply IH; [exact Hdig|].
  unfold PureTree.nodeSum. rewrite sum_digest. apply Hdig.
Qed.

Lemma joined_map (big : list subTree) : forall sum,
  fold_left (fun sum sibling => nodeSum sibling sum) (map ssum big) sum = joined sum big.
Proof.
  induction big as [|t big IH]; intros sum; [reflexivity|].
  cbn [map fold_left]. rewrite IH. reflexivity.
Qed.

(** The proof [Prove] makes for a leaf is one [VerifyProof] accepts,
    whatever the number of leaves. *)
Lemma BuildReaderProof_verifies (D w : nat) (leaves : list (list byte)) (p : Z) :
  (forall segments, digest segments <> []) ->
  (D <= 62)%nat -> (0 < w)%nat ->
  (length leaves < 2 ^ D)%nat ->
  Forall (fun l => length l = w) leaves ->
  0 <= p < len leaves ->
  exists root proofSet,
    BuildReaderProof digest (concat leaves) (Z.of_nat w) p = Ok (root, proofSet, len leaves)
    /\ VerifyProof digest root proofSet p (len leaves) = true
    /\ nth 0 proofSet [] = nth (Z.to_nat p) leaves [].
Proof.
  intros Hdig HD Hw Hlen HF Hp.
  pose proof (pow2_pos D) as HposD. pose proof (pow2_62 D HD) as H62D.
  assert (HnD : len leaves < pow2 D) by (unfold len; rewrite <- pow2_nat; lia).
  destruct (forest_structure p D leaves 0 0) as
    (small & big & h & B & s & k' & Hf & Hps & Hsm & Hbig & HB & Hh & Hs & Hk'
     & Hps' & Hn & Hnil & Hnth); try assumption; try lia.
  rewrite Z.add_0_l in Hn, Hnil. rewrite Z.sub_0_r in Hnth.
  pose proof (pow2_pos h) as Hpos. pose proof (pow2_62 h ltac:(lia)) as H62.
  assert (HSh := pow2_S h).
  set (q := Z.to_nat (p - s)) in *.
  set (agg := match small with
              | [] => []
              | hd :: small' => [joined (ssum hd) small']
              end).
  set (root := joined (match small with
                       | [] => mroot h B
                       | hd :: small' => nodeSum (mroot h B) (joined (ssum hd) small')
                       end) big).
  exists root, ((nth q B [] :: mpath h B q) ++ agg ++ map ssum big).
  assert (Hbuild : BuildReaderProof digest (concat leaves) (Z.of_nat w) p
                   = Ok (root, (nth q B [] :: mpath h B q) ++ agg ++ map ssum big,
                         len leaves)).
  { unfold BuildReaderProof, ReadAll, New.
    destruct (Z.ltb_spec (Z.of_nat w) 0); [lia|].
    destruct (Z.eqb_spec (Z.of_nat w) 0); [lia|].
    rewrite Nat2Z.id, (readSegments_concat digest w leaves Hw HF) by lia.
    rewrite (pushAll_forest p D leaves [] 0 [] 0); try lia; try assumption;
      [|constructor|now left].
    cbn [bind]. rewrite app_nil_r, Z.add_0_l, Hf, Hps.
    rewrite Prove_forest; try assumption.
    2:{ unfold len. cbn [length]. rewrite length_mpath. lia. }
    cbn [bind]. fold agg. fold root.
    replace (len ((nth q B [] :: mpath h B q) ++ agg ++ map ssum big) =? 0) with false;
      [reflexivity|].
    symmetry. apply Z.eqb_neq. unfold len. cbn [app length]. lia. }
  split; [exact Hbuild|]. split; [|cbn [app nth]; exact Hnth].
  (* the proof is accepted *)
  assert (Hroot : root <> []).
  { subst root. apply joined_nonempty; [exact Hdig|].
    destruct small; [now apply mroot_nonempty|].
    unfold PureTree.nodeSum. rewrite sum_digest. apply Hdig. }
  unfold VerifyProof. rewrite bool_decide_false by exact Hroot.
  destruct (Z.geb_spec p (len leaves)); [lia|].
  cbn [app].
  rewrite (verifyStable_block h (nth q B []) (mpath h B q) (agg ++ map ssum big)
             p (len leaves) s k' ltac:(lia) (length_mpath _ _ _ _) Hs Hk' Hps' Hn ltac:(lia)
             h 0%nat 64%nat) by lia.
  rewrite drop_0.
  rewrite climb_mpath; [|exact HB|subst q; rewrite <- pow2_nat in Hps'; lia|].
  2:{ subst q. rewrite Z2Nat.id by lia.
      assert (Hal : s = (k' * 2) * pow2 h) by lia.
      replace p with ((p - s) + (k' * 2) * pow2 h) at 1 by lia.
      rewrite Z.mod_add by lia. apply Z.mod_small. lia. }
  assert (Hse : (if (h =? 0)%nat then p else s + pow2 h - 1) = s + pow2 h - 1).
  { destruct (Nat.eqb_spec h 0) as [->|]; [|reflexivity].
    change (pow2 0) with 1 in *. lia. }
  rewrite Hse. rewrite (uint64_small (len leaves - 1)) by lia.
  assert (Hlps : length (mpath h B q) = h) by apply length_mpath.
  destruct small as [|hd small'].
  - (* the block is the last one *)
    assert (Hend : len leaves = s + pow2 h) by (now apply Hnil).
    replace (s + pow2 h - 1 =? len leaves - 1) with true by (symmetry; lia).
    cbn [negb]. subst agg. cbn [app].
    rewrite Nat2Z.id. cbn [drop].
    rewrite drop_app_length' by (symmetry; exact Hlps). rewrite joined_map.

    now apply bool_decide_true.
  - (* lower subtrees follow the block *)
    assert (Hend : len leaves <> s + pow2 h).
    { intros Heq. apply Hnil in Heq. discriminate. }
    replace (s + pow2 h - 1 =? len leaves - 1) with false by (symmetry; lia).
    cbn [negb]. subst agg.
    unfold len at 1. cbn [length]. rewrite !length_app, Hlps. cbn [length].
    match goal with |- context [?a <=? ?b] => destruct (Z.leb_spec a b); [lia|] end.
    rewrite Nat2Z.id. cbn [nth]. rewrite app_nth2 by lia.
    rewrite Hlps, Nat.sub_diag. cbn [app nth].
    replace (Z.to_nat (Z.of_nat (S h) + 1)) with (S (h + 1)) by lia.
    cbn [drop]. rewrite cons_middle, app_assoc.
    rewrite drop_app_length' by (rewrite length_app, Hlps; reflexivity).
    rewrite joined_map.
    now apply bool_decide_true.
Qed.

Lemma forestProof_not_reached (d : nat) : forall leaves cur p,
  cur + len leaves <= p -> forestProof d leaves cur p [] = [].
Proof.
  induction d as [|d IH]; intros leaves cur p Hp; cbn [ForestSpec.forestProof];
    [reflexivity|].
  assert (Hnat := pow2_nat d).
  destruct (Nat.leb_spec (2 ^ d) (length leaves)) as [Hge|Hlt]; [|now apply IH].
  rewrite blockProof_out by (unfold len in Hp; lia).
  apply IH. unfold len in *. rewrite length_drop. lia.
Qed.

Lemma BuildReaderProof_not_reached (D w : nat) (leaves : list (list byte)) (p : Z) :
  (D <= 62)%nat -> (0 < w)%nat ->
  (length leaves < 2 ^ D)%nat ->
  Forall (fun l => length l = w) leaves ->
  len leaves <= p ->
  BuildReaderProof digest (concat leaves) (Z.of_nat w) p = Err EIndexNotReached.
Proof.
  intros HD Hw Hlen HF Hp.
  pose proof (pow2_pos D) as HposD. pose proof (pow2_62 D HD) as H62D.
  assert (H0 : 0 <= len leaves) by (unfold len; lia).
  unfold BuildReaderProof, ReadAll, New.
  destruct (Z.ltb_spec (Z.of_nat w) 0); [lia|].
  destruct (Z.eqb_spec (Z.of_nat w) 0); [lia|].
  rewrite Nat2Z.id, (readSegments_concat digest w leaves Hw HF) by lia.
  rewrite (pushAll_forest p D leaves [] 0 [] 0); try lia; try assumption;
    [|constructor|now left].
  cbn [bind]. rewrite forestProof_not_reached by lia.
  unfold Prove. cbn [head proofSet].
  destruct (forest D leaves ++ []); reflexivity.
Qed.
End WithHasher.
End ForestFacts.
Import ForestFacts.

(** ** What the exact-mode builder returns *)

Lemma leafCount_spec (payload : list byte) (chunkSize : Z) :
  0 < chunkSize ->
  let n := leafCount payload chunkSize in
  0 <= n <= len payload
  /\ n * chunkSize < len payload + chunkSize
  /\ len payload <= n * chunkSize.
Proof.
  intros Hc n. subst n. unfold leafCount.
  assert (H0 : 0 <= len payload) by (unfold len; lia).
  pose proof (Z.div_mod (len payload + chunkSize - 1) chunkSize ltac:(lia)) as Hdm.
  pose proof (Z.mod_pos_bound (len payload + chunkSize - 1) chunkSize Hc) as Hmb.
  set (q := (len payload + chunkSize - 1) / chunkSize) in *.
  assert (0 <= q) by (subst q; apply Z.div_pos; lia).
  repeat split; nia.
Qed.

Lemma length_leftPad (w : Z) (chunk : list byte) :
  len chunk <= w -> length (leftPad w chunk) = Z.to_nat w.
Proof.
  intros H. unfold leftPad, zeros. rewrite length_app, repeat_length. unfold len in *. lia.
Qed.

(** The proof chunk the exact-mode loop leaves behind. *)
Lemma exactLeaves_proofChunk (payload : list byte) (w chunkSize p : Z) (n : nat) :
  forall (i : nat) (buf proofChunk : list byte),
    0 < chunkSize ->
    Z.of_nat (i + n) * chunkSize < len payload + chunkSize ->
    len payload < 2 ^ 62 -> chunkSize < 2 ^ 62 ->
    Z.min chunkSize (len payload) <= w ->
    exactLeaves n (Z.of_nat i) payload w chunkSize p buf proofChunk
    = Ok (buf ++ concat (map (fun k => leftPad w (chunkOf payload chunkSize (Z.of_nat k)))
                             (seq i n)),
          if (Z.of_nat i <=? int p) && (int p <? Z.of_nat (i + n))
          then leftPad w (chunkOf payload chunkSize (int p)) else proofChunk).
Proof.
  induction n as [|n IH]; intros i buf proofChunk Hc Hcov Hlen Hcs Hw.
  - cbn [exactLeaves seq map concat]. rewrite app_nil_r, Nat.add_0_r.
    destruct (Z.leb_spec (Z.of_nat i) (int p)), (Z.ltb_spec (int p) (Z.of_nat i));
      try reflexivity; lia.
  - cbn [exactLeaves seq map concat].
    assert (Hpl : 0 <= len payload) by (unfold len; lia).
    assert (Hi : 0 <= Z.of_nat i * chunkSize) by nia.
    assert (Hi' : Z.of_nat i * chunkSize < len payload) by nia.
    rewrite (int_small (Z.of_nat i * chunkSize)) by lia.
    rewrite (int_small (Z.of_nat i * chunkSize + chunkSize)) by lia.
    rewrite sub_chunkOf by lia. cbn [bind].
    pose proof (len_chunkOf payload chunkSize (Z.of_nat i) ltac:(lia) ltac:(lia)) as Hl.
    rewrite make_Ok by lia. cbn [bind].
    replace (Z.of_nat i + 1) with (Z.of_nat (S i)) by lia.
    fold (leftPad w (chunkOf payload chunkSize (Z.of_nat i))).
    rewrite IH; try assumption; [|rewrite <- Nat.add_succ_comm in Hcov; lia].
    rewrite <- app_assoc. f_equal. f_equal.
    destruct (Z.eqb_spec (Z.of_nat i) (int p)) as [He|Hne]; [rewrite <- He|];
      repeat match goal with
      | |- context [?a <=? ?b] => destruct (Z.leb_spec a b)
      | |- context [?a <? ?b] => destruct (Z.ltb_spec a b)
      end; cbn [andb]; try reflexivity; lia.
Qed.

Section Exact.
Variable accepts : list byte -> bool.
Variable digest : list (list byte) -> list byte.
Variables (payload : list byte) (modulus chunkSize : Z).

Let w := len (Big.Bytes modulus).
Let n := leafCount payload chunkSize.
Let leaves := exactLeafList payload w chunkSize (Z.to_nat n).

Hypothesis Hc : 0 < chunkSize < 2 ^ 62.
Hypothesis Hlen : len payload < 2 ^ 62.
Hypothesis Hw0 : 0 < w.
Hypothesis Hw : Z.min chunkSize (len payload) <= w.
(** The hasher takes the digests and the leaves. *)
Hypothesis Hacc : forall segments, accepts (digest segments) = true.
Hypothesis Hleaf : Forall (fun leaf => accepts leaf = true) leaves.

Lemma exact_upto_proof (proofIndex : Z) :
  GenerateMerkleTree accepts digest payload modulus chunkSize proofIndex
  = (let! (merkleRoot, proofElements, numLeaves) :=
       lib (PureTree.BuildReaderProof digest (concat leaves) (Z.of_nat (Z.to_nat w))
              proofIndex) in
     if negb (PureTree.VerifyProof digest merkleRoot proofElements proofIndex numLeaves)
     then Err EProofNotValid
     else Ok (merkleRoot, proofElements,
              if (0 <=? int proofIndex) && (int proofIndex <? n)
              then leftPad w (chunkOf payload chunkSize (int proofIndex)) else [],
              numLeaves, Z.log2 numLeaves))
    /\ len leaves = n
    /\ (exists D, (D <= 62)%nat /\ (length leaves < 2 ^ D)%nat)
    /\ Forall (fun l => length l = Z.to_nat w) leaves.
Proof.
  destruct (leafCount_spec payload chunkSize ltac:(lia)) as (Hn & Hcov & Hfull). fold n in Hn, Hcov, Hfull.
  assert (Hpl : 0 <= len payload) by (unfold len; lia).
  assert (Hleaves : len leaves = n).
  { subst leaves. unfold exactLeafList, len. rewrite length_map, length_seq. lia. }
  assert (HF : Forall (fun l => length l = Z.to_nat w) leaves).
  { subst leaves. unfold exactLeafList. apply Forall_forall. intros l Hl.
    apply list_elem_of_fmap in Hl as (k & -> & _).
    apply length_leftPad. rewrite len_chunkOf by lia. lia. }
  split; [|split; [exact Hleaves|split; [|exact HF]]].
  2:{ exists 62%nat. split; [lia|]. apply Nat2Z.inj_lt. fold (len leaves).
      rewrite Hleaves, pow2_nat. unfold pow2. change (Z.of_nat 62) with 62. lia. }
  unfold GenerateMerkleTree. fold w.
  destruct (Z.eqb_spec chunkSize 0); [lia|].
  rewrite (int_small (len payload + chunkSize)) by lia.
  rewrite (int_small (len payload + chunkSize - 1)) by lia.
  rewrite Z.quot_div_nonneg by lia. fold (leafCount payload chunkSize). fold n.
  rewrite (int_small n) by lia.
  pose proof (exactLeaves_proofChunk payload w chunkSize proofIndex (Z.to_nat n)
                0%nat [] [] ltac:(lia)) as Hrun.
  change (Z.of_nat 0) with 0 in Hrun. rewrite Hrun; try assumption; try lia.
  clear Hrun. cbn [bind app]. fold (exactLeafList payload w chunkSize (Z.to_nat n)).
  fold leaves. rewrite Nat.add_0_l, !Z2Nat.id by lia.
  replace (MerkleTree.BuildReaderProof accepts digest (concat leaves) w proofIndex)
    with (MerkleTree.BuildReaderProof accepts digest (concat leaves)
            (Z.of_nat (Z.to_nat w)) proofIndex)
    by (now rewrite Z2Nat.id by lia).
  destruct (Refinement.BuildReaderProof_refines accepts digest Hacc (Z.to_nat w) leaves
              proofIndex ltac:(lia) HF Hleaf) as [-> Htaken].
  rewrite Z2Nat.id by lia.
  destruct (PureTree.BuildReaderProof digest (concat leaves) w proofIndex)
    as [[[root ps] numLeaves]| | |] eqn:Hb; cbn [lib bind]; try reflexivity.
  rewrite Z2Nat.id in Htaken by lia.
  rewrite (Refinement.VerifyProof_refines accepts digest Hacc root ps proofIndex numLeaves
             (Htaken root ps numLeaves Hb)).
  cbn [lib bind]. reflexivity.
Qed.

Lemma exact_value (proofIndex : Z) :
  (forall segments, digest segments <> []) ->
  0 <= proofIndex < n ->
  exists root proofElements,
    GenerateMerkleTree accepts digest payload modulus chunkSize proofIndex
    = Ok (root, proofElements, leftPad w (chunkOf payload chunkSize proofIndex),
          n, Z.log2 n)
    /\ MerkleTree.VerifyProof accepts digest root proofElements proofIndex n = Ok true
    /\ nth 0 proofElements [] = leftPad w (chunkOf payload chunkSize proofIndex).
Proof.
  intros Hdig Hp.
  destruct (leafCount_spec payload chunkSize ltac:(lia)) as (Hn & _). fold n in Hn.
  destruct (exact_upto_proof proofIndex) as (-> & Hleaves & (D & HD & Hlt) & HF).
  destruct (Refinement.BuildReaderProof_refines accepts digest Hacc (Z.to_nat w) leaves
              proofIndex ltac:(lia) HF Hleaf) as [_ Htaken].
  destruct (BuildReaderProof_verifies digest D (Z.to_nat w) leaves proofIndex)
    as (root & ps & Hb & Hv & Hfirst); try assumption; try lia.
  rewrite Hleaves in Hb, Hv. rewrite Hb. cbn [lib bind]. rewrite Hv. cbn [negb].
  exists root, ps. rewrite (int_small proofIndex) by lia.
  destruct (Z.leb_spec 0 proofIndex); [|lia].
  destruct (Z.ltb_spec proofIndex n); [|lia]. cbn [andb].
  split; [reflexivity|]. split.
  { rewrite (Refinement.VerifyProof_refines accepts digest Hacc root ps proofIndex n
               (Htaken root ps n Hb)).
    now rewrite Hv. }
  rewrite Hfirst. subst leaves. unfold exactLeafList.
  assert (Hlt' : (Z.to_nat proofIndex < Z.to_nat n)%nat) by lia.
  rewrite (nth_indep _ [] (leftPad w (chunkOf payload chunkSize (Z.of_nat 0))))
    by (now rewrite length_map, length_seq).
  rewrite (map_nth (fun k => leftPad w (chunkOf payload chunkSize (Z.of_nat k)))).
  rewrite seq_nth by exact Hlt'. now rewrite Nat.add_0_l, Z2Nat.id by lia.
Qed.

Lemma exact_index_not_reached (proofIndex : Z) :
  n <= proofIndex ->
  GenerateMerkleTree accepts digest payload modulus chunkSize proofIndex
  = Err (EMerkle MerkleTree.EIndexNotReached).
Proof.
  intros Hp.
  destruct (exact_upto_proof proofIndex) as (-> & Hleaves & (D & HD & Hlt) & HF).
  rewrite (BuildReaderProof_not_reached digest D (Z.to_nat w) leaves proofIndex);
    try assumption; try lia.
  reflexivity.
Qed.
End Exact.

(** With the protocol's chunks of sixteen bytes, every leaf of the
    exact-mode builder is one the hasher of the key type takes. *)
Lemma exactLeaves_taken (keyType : Z) (payload : list byte) (n : nat) :
  Forall (fun leaf => Mimc.accepts (Crypto.GetHasherByType keyType) leaf = true)
         (exactLeafList payload (len (Big.Bytes (field keyType))) CHUNK_SIZE n).
Proof.
  destruct (field_hasher keyType) as [_ Hw]. rewrite Hw.
  set (kind := Crypto.GetHasherByType keyType).
  assert (Hw32 : 32 <= Mimc.BlockSize kind) by (destruct kind; vm_compute; discriminate).
  unfold exactLeafList. apply Forall_forall. intros leaf Hl.
  apply list_elem_of_fmap in Hl as (k & -> & _).
  pose proof (len_chunkOf payload CHUNK_SIZE (Z.of_nat k) ltac:(vm_compute; discriminate)
                ltac:(lia)) as Hchunk.
  change CHUNK_SIZE with 16 in *.
  set (chunk := chunkOf payload 16 (Z.of_nat k)) in *.
  unfold leftPad.
  replace (Z.to_nat (Mimc.BlockSize kind - len chunk))
    with (16 + Z.to_nat (Mimc.BlockSize kind - 16 - len chunk))%nat by lia.
  rewrite <- zeros_app, <- app_assoc. apply Mimc_accepts_leaf.
  unfold len in *. rewrite !length_app. unfold zeros. rewrite !repeat_length. lia.
Qed.

(** X12.  In exact mode, with a hasher that takes the leaves and the
    digests, every leaf the payload reaches can be proved: the builder
    returns the number of chunks as leaf count, the left-padded chunk of
    the proof index as proof chunk and as first proof element, and a proof
    that [VerifyProof] accepts for the returned root, whether or not the
    number of chunks is a power of two. *)
Theorem GenerateMerkleTree_complete
    (accepts : list byte -> bool) (digest : list (list byte) -> list byte)
    (payload : list byte) (modulus chunkSize proofIndex : Z) :
  (forall segments, digest segments <> []) ->
  (forall segments, accepts (digest segments) = true) ->
  Forall (fun leaf => accepts leaf = true)
         (exactLeafList payload (len (Big.Bytes modulus)) chunkSize
            (Z.to_nat (leafCount payload chunkSize))) ->
  0 < chunkSize < 2 ^ 62 -> len payload < 2 ^ 62 ->
  0 < len (Big.Bytes modulus) ->
  Z.min chunkSize (len payload) <= len (Big.Bytes modulus) ->
  0 <= proofIndex < leafCount payload chunkSize ->
  exists root proofElements treeDepth,
    GenerateMerkleTree accepts digest payload modulus chunkSize proofIndex
    = Ok (root, proofElements,
          leftPad (len (Big.Bytes modulus)) (chunkOf payload chunkSize proofIndex),
          leafCount payload chunkSize, treeDepth)
    /\ MerkleTree.VerifyProof accepts digest root proofElements proofIndex
         (leafCount payload chunkSize) = Ok true
    /\ nth 0 proofElements []
       = leftPad (len (Big.Bytes modulus)) (chunkOf payload chunkSize proofIndex).
Proof.
  intros Hdig Hacc Hleaf Hc Hlen Hw0 Hw Hp.
  destruct (exact_value accepts digest payload modulus chunkSize Hc Hlen Hw0 Hw Hacc Hleaf
              proofIndex Hdig Hp)
    as (root & ps & Hrun & Hv & Hfirst).
  exists root, ps, (Z.log2 (leafCount payload chunkSize)). auto.
Qed.

Lemma GenerateMerkleTree_complete_witness :
  exists root proofElements treeDepth,
    GenerateMerkleTree (Mimc.accepts Crypto.MiMC_BN254) exampleDigest
      (str "a payload of three chunks, 16 bytes each")
      Ecc.BN254_ScalarField CHUNK_SIZE 2
    = Ok (root, proofElements, zeros 24 ++ str "tes each", 3, treeDepth)
    /\ MerkleTree.VerifyProof (Mimc.accepts Crypto.MiMC_BN254) exampleDigest
         root proofElements 2 3 = Ok true
    /\ nth 0 proofElements [] = zeros 24 ++ str "tes each".
Proof.
  apply (GenerateMerkleTree_complete (Mimc.accepts Crypto.MiMC_BN254) exampleDigest
           (str "a payload of three chunks, 16 bytes each") Ecc.BN254_ScalarField
           CHUNK_SIZE 2).
  - intros segments. discriminate.
  - apply exampleDigest_taken.
  - apply taken_forallb. vm_compute. reflexivity.
  - split; vm_compute; reflexivity.
  - vm_compute. reflexivity.
  - vm_compute. reflexivity.
  - vm_compute. discriminate.
  - split; vm_compute; [discriminate|reflexivity].
Defined.

(** X13.  A proof index at or behind the number of chunks, and so any proof
    index for the empty payload, makes the exact-mode builder return the
    library's error, when the hasher takes the leaves and the digests. *)
Theorem GenerateMerkleTree_index_not_reached
    (accepts : list byte -> bool) (digest : list (list byte) -> list byte)
    (payload : list byte) (modulus chunkSize proofIndex : Z) :
  (forall segments, accepts (digest segments) = true) ->
  Forall (fun leaf => accepts leaf = true)
         (exactLeafList payload (len (Big.Bytes modulus)) chunkSize
            (Z.to_nat (leafCount payload chunkSize))) ->
  0 < chunkSize < 2 ^ 62 -> len payload < 2 ^ 62 ->
  0 < len (Big.Bytes modulus) ->
  Z.min chunkSize (len payload) <= len (Big.Bytes modulus) ->
  leafCount payload chunkSize <= proofIndex ->
  GenerateMerkleTree accepts digest payload modulus chunkSize proofIndex
  = Err (EMerkle MerkleTree.EIndexNotReached).
Proof. intros Hacc Hleaf Hc Hlen Hw0 Hw Hp. now apply exact_index_not_reached. Qed.

Lemma GenerateMerkleTree_index_not_reached_witness :
  GenerateMerkleTree (Mimc.accepts Crypto.MiMC_BN254) exampleDigest []
    Ecc.BN254_ScalarField CHUNK_SIZE 0
  = Err (EMerkle MerkleTree.EIndexNotReached).
Proof.
  apply (GenerateMerkleTree_index_not_reached (Mimc.accepts Crypto.MiMC_BN254)
           exampleDigest [] Ecc.BN254_ScalarField CHUNK_SIZE 0).
  - apply exampleDigest_taken.
  - apply taken_forallb. vm_compute. reflexivity.
  - split; vm_compute; reflexivity.
  - vm_compute. reflexivity.
  - vm_compute. reflexivity.
  - vm_compute. discriminate.
  - vm_compute. discriminate.
Defined.

(** X29.  A leaf the hasher turns down stops the exact-mode builder with a
    panic in the Merkle library: when the first chunk of the payload, read
    as a number, is not below the modulus of the hasher's field (chunks as
    wide as the modulus), the first write of the tree fails and the
    library, which does not expect that, panics. *)
Theorem GenerateMerkleTree_refused_leaf_panics
    (kind : Crypto.Hasher) (digest : list (list byte) -> list byte)
    (payload : list byte) (proofIndex : Z) :
  let w := Mimc.BlockSize kind in
  w <= len payload < 2 ^ 62 ->
  Mimc.Modulus kind <= be_value (take (Z.to_nat w) payload) ->
  GenerateMerkleTree (Mimc.accepts kind) digest payload (Mimc.Modulus kind) w proofIndex
  = Panic.
Proof.
  intros w [Hle Hlen] Hv.
  assert (Hw : len (Big.Bytes (Mimc.Modulus kind)) = w) by (destruct kind; vm_compute; reflexivity).
  assert (Hw32 : 32 <= w < 2 ^ 62)
    by (destruct kind; split; vm_compute; (discriminate || reflexivity)).
  destruct (leafCount_spec payload w ltac:(lia)) as (Hn & Hcov & Hfull).
  assert (Hn1 : 1 <= leafCount payload w) by nia.
  unfold GenerateMerkleTree. rewrite Hw.
  destruct (Z.eqb_spec w 0); [lia|].
  rewrite (int_small (len payload + w)) by lia.
  rewrite (int_small (len payload + w - 1)) by lia.
  rewrite Z.quot_div_nonneg by lia. fold (leafCount payload w).
  rewrite (int_small (leafCount payload w)) by lia.
  pose proof (exactLeaves_proofChunk payload w w proofIndex
                (Z.to_nat (leafCount payload w)) 0%nat [] [] ltac:(lia)) as Hrun.
  change (Z.of_nat 0) with 0 in Hrun. rewrite Hrun; try lia.
  clear Hrun. cbn [bind app].
  destruct (Z.to_nat (leafCount payload w)) as [|m] eqn:Hm; [lia|].
  cbn [seq map].
  set (leaf := leftPad w (chunkOf payload w (Z.of_nat 0))).
  assert (Hleaf : leaf = take (Z.to_nat w) payload).
  { subst leaf. unfold leftPad, chunkOf. change (Z.of_nat 0 * w) with 0.
    change (Z.to_nat 0) with 0%nat. rewrite drop_0.
    unfold len at 1. rewrite length_take.
    replace (Z.to_nat (w - Z.of_nat (Z.to_nat w `min` length payload))) with 0%nat
      by (unfold len in Hle; lia).
    reflexivity. }
  assert (Hl : length leaf = Z.to_nat w).
  { rewrite Hleaf, length_take. unfold len in Hle. lia. }
  assert (Hacc : Mimc.accepts kind leaf = false).
  { unfold Mimc.accepts. cbv zeta.
    destruct (Z.ltb_spec (len leaf) (Mimc.BlockSize kind)) as [Hlt|_];
      [unfold len in Hlt; fold w in Hlt; lia|].
    rewrite andb_false_r. fold w. rewrite Hl, Nat.Div0.mod_same, Nat.div_same by lia.
    cbn [Nat.eqb seq forallb andb Nat.mul].
    rewrite drop_0, <- Hl, firstn_all, andb_true_r, Hleaf. apply Z.ltb_ge. exact Hv. }
  match goal with
  | |- context [MerkleTree.BuildReaderProof ?a ?d ?buf w proofIndex] =>
      replace (MerkleTree.BuildReaderProof a d buf w proofIndex)
        with (MerkleTree.BuildReaderProof a d buf (Z.of_nat (Z.to_nat w)) proofIndex)
        by (now rewrite Z2Nat.id by lia)
  end.
  rewrite (Refinement.BuildReaderProof_refused (Mimc.accepts kind) digest
             (Z.to_nat w) leaf _ proofIndex ltac:(lia) Hl Hacc).
  reflexivity.
Qed.

Lemma GenerateMerkleTree_refused_leaf_panics_witness :
  GenerateMerkleTree (Mimc.accepts Crypto.MiMC_BN254) exampleDigest
    (repeat xff 32) Ecc.BN254_ScalarField 32 0
  = Panic.
Proof.
  apply (GenerateMerkleTree_refused_leaf_panics Crypto.MiMC_BN254 exampleDigest
           (repeat xff 32) 0).
  - split; vm_compute; [discriminate|reflexivity].
  - vm_compute. discriminate.
Defined.

Lemma GetUnboundCommitment_cases (digest : list (list byte) -> list byte)
    (t : ULTransactionInput) :
  let accepts := Mimc.accepts (Crypto.GetHasherByType (KeyType t)) in
  (forall segments, digest segments <> []) ->
  (forall segments, accepts (digest segments) = true) ->
  len (Payload t) < 2 ^ 62 ->
  if len (Payload t) =? 0
  then GetUnboundCommitment accepts digest t = Err (EMerkle MerkleTree.EIndexNotReached)
  else exists root proofElements,
         GetUnboundCommitment accepts digest t = Ok root
         /\ MerkleTree.VerifyProof accepts digest root proofElements 0
              (leafCount (Payload t) CHUNK_SIZE) = Ok true.
Proof.
  intros accepts Hdig Hacc Hlen. unfold GetUnboundCommitment. change (uint64 0) with 0.
  assert (Hpl : 0 <= len (Payload t)) by (unfold len; lia).
  pose proof (field_width (KeyType t)) as Hfw.
  assert (Hw32 : 32 <= len (Big.Bytes (field (KeyType t))))
    by (rewrite Hfw; destruct (KeyType t =? Crypto.KeyTypeBLS12377); lia).
  assert (Hc : 0 < CHUNK_SIZE < 2 ^ 62) by (split; vm_compute; reflexivity).
  assert (Hw0 : 0 < len (Big.Bytes (field (KeyType t)))) by lia.
  assert (Hw : Z.min CHUNK_SIZE (len (Payload t)) <= len (Big.Bytes (field (KeyType t))))
    by (change CHUNK_SIZE with 16; lia).
  pose proof (exactLeaves_taken (KeyType t) (Payload t)
                (Z.to_nat (leafCount (Payload t) CHUNK_SIZE))) as Hleaf.
  fold accepts in Hleaf.
  destruct (leafCount_spec (Payload t) CHUNK_SIZE ltac:(lia)) as (Hn & Hcov & Hfull).
  change CHUNK_SIZE with 16 in Hcov, Hfull, Hn.
  destruct (Z.eqb_spec (len (Payload t)) 0) as [Hz|Hnz].
  - rewrite (exact_index_not_reached accepts digest (Payload t) (field (KeyType t)) CHUNK_SIZE
               Hc Hlen Hw0 Hw Hacc Hleaf 0); [reflexivity|].
    change CHUNK_SIZE with 16. lia.
  - destruct (exact_value accepts digest (Payload t) (field (KeyType t)) CHUNK_SIZE
                Hc Hlen Hw0 Hw Hacc Hleaf 0 Hdig) as (root & ps & Hrun & Hv & _).
    { change CHUNK_SIZE with 16. lia. }
    rewrite Hrun. cbn [bind]. exists root, ps. split; [reflexivity|exact Hv].
Qed.

(** X14.  With the constants of the SDK and the MiMC hasher of the input's
    key type, [GetUnboundCommitment] returns a root for every payload but
    the empty one, for which the tree has no leaf and the library reports
    that the proof index was not reached. *)
Theorem GetUnboundCommitment_needs_payload (digest : list (list byte) -> list byte)
    (t : ULTransactionInput) :
  let accepts := Mimc.accepts (Crypto.GetHasherByType (KeyType t)) in
  (forall segments, digest segments <> []) ->
  (forall segments, accepts (digest segments) = true) ->
  len (Payload t) < 2 ^ 62 ->
  match Payload t with
  | [] => GetUnboundCommitment accepts digest t = Err (EMerkle MerkleTree.EIndexNotReached)
  | _ :: _ =>
      exists root proofElements,
        GetUnboundCommitment accepts digest t = Ok root
        /\ MerkleTree.VerifyProof accepts digest root proofElements 0
             (leafCount (Payload t) CHUNK_SIZE) = Ok true
  end.
Proof.
  intros accepts Hdig Hacc Hlen.
  pose proof (GetUnboundCommitment_cases digest t Hdig Hacc Hlen) as H.
  fold accepts in H.
  destruct (Payload t) as [|x rest] eqn:Hp; exact H.
Qed.

Lemma GetUnboundCommitment_needs_payload_witness :
  exists root proofElements,
    GetUnboundCommitment (Mimc.accepts Crypto.MiMC_BN254) exampleDigest exampleInput
    = Ok root
    /\ MerkleTree.VerifyProof (Mimc.accepts Crypto.MiMC_BN254) exampleDigest
         root proofElements 0 (leafCount (Payload exampleInput) CHUNK_SIZE) = Ok true.
Proof.
  apply (GetUnboundCommitment_needs_payload exampleDigest exampleInput).
  - intros segments. discriminate.
  - intros segments. apply exampleDigest_taken.
  - vm_compute. reflexivity.
Defined.

(** X15.  [GenerateTransaction] gets as far as signing exactly when the payload
    suits the branch its type selects: any payload but the empty one for
    the four unbound kinds, a payload of at most 1024 bytes for every
    other payload type.  The hasher is the MiMC hasher of the wallet's key
    type, which takes every leaf of the two builders; its digests are
    assumed to be byte strings it takes, as field elements are. *)
Theorem GenerateTransaction_reaches_signing
    (Sum256 : list byte -> list byte)
    (MiMC : Crypto.Hasher -> list (list byte) -> list byte)
    (session : Session) (input : ULTransactionInput) (curTime : Z) :
  (forall data, length (Sum256 data) = 32%nat) ->
  (forall kind segments, MiMC kind segments <> []) ->
  (forall kind segments, Mimc.accepts kind (MiMC kind segments) = true) ->
  len (Payload input) < 2 ^ 62 ->
  (exists r, GenerateTransaction_commitment Sum256 MiMC session input curTime = Ok r)
  <-> (if unboundType (PayloadType input)
       then Payload input <> []
       else len (Payload input) <= 1024).
Proof.
  intros Hsum Hdig Htaken Hlen. unfold GenerateTransaction_commitment.
  cbn [PayloadType KeyType]. fold (unboundType (PayloadType input)).
  set (digest := Hash.digest (NewHasher MiMC (Crypto.GetHasherByType (walletKeyType session)))).
  set (accepts := Mimc.accepts (Crypto.GetHasherByType (walletKeyType session))).
  assert (Hd : forall segments, digest segments <> []) by (intros; apply Hdig).
  assert (Ha : forall segments, accepts (digest segments) = true) by (intros; apply Htaken).
  destruct (unboundType (PayloadType input)).
  - match goal with |- context [GetUnboundCommitment accepts digest ?t] => set (t' := t) end.
    pose proof (GetUnboundCommitment_cases digest t' Hd Ha Hlen) as Hu.
    change (Mimc.accepts (Crypto.GetHasherByType (KeyType t'))) with accepts in Hu.
    change (Payload t') with (Payload input) in Hu.
    destruct (Z.eqb_spec (len (Payload input)) 0) as [Hz|Hnz].
    + rewrite Hu. split; [intros [r Hr]; discriminate|].
      intros Hp. exfalso. apply Hp.
      destruct (Payload input); [reflexivity|]. unfold len in Hz. cbn in Hz. lia.
    + destruct Hu as (root & ps & -> & _). cbn [bind]. split; [|eauto].
      intros _ Hp. rewrite Hp in Hnz. unfold len in Hnz. cbn in Hnz. lia.
  - match goal with |- context [GetSignatureCommitment Sum256 accepts digest ?t _] => set (t' := t) end.
    pose proof (GetSignatureCommitment_cases Sum256 digest t' true Hsum Hd Ha) as Hc.
    change (Mimc.accepts (Crypto.GetHasherByType (KeyType t'))) with accepts in Hc.
    change (Payload t') with (Payload input) in Hc.
    destruct (Z.leb_spec (len (Payload input)) 1024) as [Hle|Hgt].
    + destruct Hc as (c & -> & _). cbn [bind].
      destruct (HashSignatureCommitment _ c) as [commitment hasher'].
      split; [intros _; exact Hle|eauto].
    + rewrite Hc. cbn [bind]. split; [intros [r Hr]; discriminate|lia].
Qed.

Lemma GenerateTransaction_reaches_signing_witness :
  (exists r, GenerateTransaction_commitment exampleSum256 (fun _ => exampleDigest)
               exampleSession exampleInput 1700000000 = Ok r)
  <-> len (Payload exampleInput) <= 1024.
Proof.
  apply (GenerateTransaction_reaches_signing exampleSum256 (fun _ => exampleDigest)
           exampleSession exampleInput 1700000000).
  - intros data. unfold exampleSum256. rewrite length_take, length_app, length_map, length_seq.
    lia.
  - intros kind segments. discriminate.
  - intros kind segments. apply exampleDigest_taken.
  - vm_compute. reflexivity.
Defined.
(* ===================================================================== *)
(** * Hex text, the reader, names and addresses                           *)
(* ===================================================================== *)

(** ** Hexadecimal text *)

Lemma hexDigit_upper (x : byte) :
  Crypto.hexDigit (Z_of_byte x / 16) = Strings.upperByte (Hex.digit (Z.shiftr (Z_of_byte x) 4))
  /\ Crypto.hexDigit (Z_of_byte x mod 16) = Strings.upperByte (Hex.digit (Z.land (Z_of_byte x) 15)).
Proof. destruct x; vm_compute; split; reflexivity. Qed.

Lemma digit_ascii (x : byte) :
  Strings.isASCII (Hex.digit (Z.shiftr (Z_of_byte x) 4)) = true
  /\ Strings.isASCII (Hex.digit (Z.land (Z_of_byte x) 15)) = true.
Proof. destruct x; vm_compute; split; reflexivity. Qed.

Lemma EncodeToString_ascii (b : list byte) :
  forallb Strings.isASCII (Hex.EncodeToString b) = true.
Proof.
  induction b as [|x b IH]; [reflexivity|].
  cbn [Hex.EncodeToString flat_map app forallb].
  destruct (digit_ascii x) as [-> ->]. exact IH.
Qed.

(** [BytesToHex] as the source composes it. *)
Lemma BytesToHex_source (mapUnicodeUpper : gostring -> gostring) (b : list byte) :
  Crypto.BytesToHex b = Strings.ToUpper mapUnicodeUpper (Hex.EncodeToString b).
Proof.
  unfold Strings.ToUpper. rewrite EncodeToString_ascii.
  induction b as [|x b IH]; [reflexivity|].
  cbn [Crypto.BytesToHex Hex.EncodeToString flat_map app map].
  destruct (hexDigit_upper x) as [-> ->]. f_equal. f_equal. exact IH.
Qed.

Lemma Decode_digits (x : byte) (rest : list byte) :
  Hex.Decode (Hex.digit (Z.shiftr (Z_of_byte x) 4) :: Hex.digit (Z.land (Z_of_byte x) 15) :: rest)
  = (x :: fst (Hex.Decode rest), snd (Hex.Decode rest))
  /\ Hex.Decode (Crypto.hexDigit (Z_of_byte x / 16) :: Crypto.hexDigit (Z_of_byte x mod 16) :: rest)
     = (x :: fst (Hex.Decode rest), snd (Hex.Decode rest)).
Proof.
  split.
  - cbn [Hex.Decode].
    assert (H : Hex.fromHexChar (Hex.digit (Z.shiftr (Z_of_byte x) 4)) = Some (Z.shiftr (Z_of_byte x) 4)
                /\ Hex.fromHexChar (Hex.digit (Z.land (Z_of_byte x) 15)) = Some (Z.land (Z_of_byte x) 15)
                /\ byte_of_Z (Z.lor (Z.shiftl (Z.shiftr (Z_of_byte x) 4) 4) (Z.land (Z_of_byte x) 15)) = x)
      by (destruct x; vm_compute; repeat split; reflexivity).
    destruct H as (-> & -> & ->). destruct (Hex.Decode rest); reflexivity.
  - cbn [Hex.Decode].
    assert (H : Hex.fromHexChar (Crypto.hexDigit (Z_of_byte x / 16)) = Some (Z_of_byte x / 16)
                /\ Hex.fromHexChar (Crypto.hexDigit (Z_of_byte x mod 16)) = Some (Z_of_byte x mod 16)
                /\ byte_of_Z (Z.lor (Z.shiftl (Z_of_byte x / 16) 4) (Z_of_byte x mod 16)) = x)
      by (destruct x; vm_compute; repeat split; reflexivity).
    destruct H as (-> & -> & ->). destruct (Hex.Decode rest); reflexivity.
Qed.

Lemma Decode_EncodeToString (b : list byte) :
  Hex.Decode (Hex.EncodeToString b) = (b, None).
Proof.
  induction b as [|x b IH]; [reflexivity|].
  cbn [Hex.EncodeToString flat_map app].
  rewrite (proj1 (Decode_digits x _)).
  change (flat_map _ b) with (Hex.EncodeToString b). rewrite IH. reflexivity.
Qed.

Lemma Decode_BytesToHex (b : list byte) :
  Hex.Decode (Crypto.BytesToHex b) = (b, None).
Proof.
  induction b as [|x b IH]; [reflexivity|].
  cbn [Crypto.BytesToHex flat_map app].
  rewrite (proj2 (Decode_digits x _)).
  change (flat_map _ b) with (Crypto.BytesToHex b). rewrite IH. reflexivity.
Qed.

(** The value of a digit does not depend on its case, and a byte is a
    digit exactly when it has a value. *)
Lemma fromHexChar_upper (c : byte) :
  Hex.fromHexChar (Strings.upperByte c) = Hex.fromHexChar c.
Proof. destruct c; vm_compute; reflexivity. Qed.

Lemma fromHexChar_Some (c : byte) (v : Z) :
  Hex.fromHexChar c = Some v ->
  isHexDigit c = true /\ 0 <= v < 16 /\ Crypto.hexDigit v = Strings.upperByte c.
Proof.
  destruct c; vm_compute; intros H; try discriminate;
    injection H as <-; repeat split; discriminate.
Qed.

Lemma fromHexChar_None (c : byte) :
  Hex.fromHexChar c = None -> isHexDigit c = false.
Proof. destruct c; vm_compute; intros H; try discriminate; reflexivity. Qed.

Lemma fromHexChar_hexDigit (x : byte) :
  Hex.fromHexChar (Crypto.hexDigit (Z_of_byte x / 16)) = Some (Z_of_byte x / 16)
  /\ Hex.fromHexChar (Crypto.hexDigit (Z_of_byte x mod 16)) = Some (Z_of_byte x mod 16)
  /\ byte_of_Z (Z.lor (Z.shiftl (Z_of_byte x / 16) 4) (Z_of_byte x mod 16)) = x.
Proof. destruct x; vm_compute; repeat split; reflexivity. Qed.

Lemma nibbles (a v : Z) :
  0 <= a < 16 -> 0 <= v < 16 ->
  Z_of_byte (byte_of_Z (Z.lor (Z.shiftl a 4) v)) / 16 = a
  /\ Z_of_byte (byte_of_Z (Z.lor (Z.shiftl a 4) v)) mod 16 = v.
Proof.
  intros Ha Hv.
  assert (Hall : forallb (fun a' => forallb (fun v' =>
            (Z_of_byte (byte_of_Z (Z.lor (Z.shiftl a' 4) v')) / 16 =? a')
            && (Z_of_byte (byte_of_Z (Z.lor (Z.shiftl a' 4) v')) mod 16 =? v'))
            (map Z.of_nat (seq 0 16))) (map Z.of_nat (seq 0 16)) = true)
    by (vm_compute; reflexivity).
  assert (Hin : forall z, 0 <= z < 16 -> In z (map Z.of_nat (seq 0 16))).
  { intros z Hz. replace z with (Z.of_nat (Z.to_nat z)) by lia.
    apply in_map, in_seq. lia. }
  rewrite forallb_forall in Hall. specialize (Hall a (Hin a Ha)).
  rewrite forallb_forall in Hall. specialize (Hall v (Hin v Hv)).
  apply andb_prop in Hall as [H1 H2]. split; lia.
Qed.

Lemma list_pair_ind {A} (P : list A -> Prop) :
  P [] -> (forall x, P [x]) -> (forall x y l, P l -> P (x :: y :: l)) -> forall l, P l.
Proof.
  intros H0 H1 H2 l.
  enough (H : P l /\ forall x, P (x :: l)) by exact (proj1 H).
  induction l as [|y l [IH1 IH2]]; split; auto.
Qed.

Lemma Decode_Ok_upper (h b : list byte) :
  Hex.Decode h = (b, None) <-> Crypto.BytesToHex b = map Strings.upperByte h.
Proof.
  split.
  - revert b. induction h as [| p | p q rest IH] using list_pair_ind; intros b H.
    + injection H as <-. reflexivity.
    + cbn [Hex.Decode] in H. destruct (Hex.fromHexChar p); discriminate.
    + cbn [Hex.Decode] in H.
      destruct (Hex.fromHexChar p) as [a|] eqn:Hp; [|discriminate].
      destruct (Hex.fromHexChar q) as [v|] eqn:Hq; [|discriminate].
      destruct (Hex.Decode rest) as [dst err] eqn:Hrest.
      injection H as <- ->.
      apply fromHexChar_Some in Hp as (_ & Ha & Hpa).
      apply fromHexChar_Some in Hq as (_ & Hv & Hqv).
      cbn [Crypto.BytesToHex flat_map app map].
      destruct (nibbles a v Ha Hv) as [-> ->].
      rewrite Hpa, Hqv. f_equal. f_equal. apply IH. reflexivity.
  - revert h. induction b as [|x b IH]; intros h H.
    + destruct h; [reflexivity | discriminate].
    + cbn [Crypto.BytesToHex flat_map app] in H.
      destruct h as [|p [|q rest]]; try discriminate.
      cbn [map] in H. injection H as Hp Hq Hrest.
      destruct (fromHexChar_hexDigit x) as (Hhi & Hlo & Hx).
      cbn [Hex.Decode].
      rewrite <- (fromHexChar_upper p), <- Hp, Hhi.
      rewrite <- (fromHexChar_upper q), <- Hq, Hlo.
      rewrite (IH rest Hrest), Hx. reflexivity.
Qed.

Lemma length_BytesToHex (b : list byte) : len (Crypto.BytesToHex b) = 2 * len b.
Proof.
  unfold len. induction b as [|x b IH]; [reflexivity|].
  cbn [Crypto.BytesToHex flat_map app length].
  change (flat_map _ b) with (Crypto.BytesToHex b). lia.
Qed.

Lemma BytesToHex_upper (b : list byte) :
  map Strings.upperByte (Crypto.BytesToHex b) = Crypto.BytesToHex b.
Proof.
  induction b as [|x b IH]; [reflexivity|].
  cbn [Crypto.BytesToHex flat_map app map].
  change (flat_map _ b) with (Crypto.BytesToHex b). rewrite IH.
  assert (H : Strings.upperByte (Crypto.hexDigit (Z_of_byte x / 16)) = Crypto.hexDigit (Z_of_byte x / 16)
              /\ Strings.upperByte (Crypto.hexDigit (Z_of_byte x mod 16)) = Crypto.hexDigit (Z_of_byte x mod 16))
    by (destruct x; vm_compute; split; reflexivity).
  destruct H as [-> ->]. reflexivity.
Qed.

Lemma HexToBytes_Decode (h b : list byte) :
  CryptoUtils.HexToBytes h = Ok b <-> Hex.Decode h = (b, None).
Proof.
  unfold CryptoUtils.HexToBytes, Hex.DecodeString.
  destruct (Hex.Decode h) as [dst [e|]]; split; intros H; try discriminate.
  - injection H as <-. reflexivity.
  - injection H as <-. reflexivity.
Qed.

(** X16.  [HexToBytes] inverts [BytesToHex], and accepts nothing else than
    its outputs in either case of the letters. *)
Theorem HexToBytes_inverts_BytesToHex (h b : list byte) :
  CryptoUtils.HexToBytes (Crypto.BytesToHex b) = Ok b
  /\ CryptoUtils.HexToBytes (Hex.EncodeToString b) = Ok b
  /\ (CryptoUtils.HexToBytes h = Ok b <-> Crypto.BytesToHex b = map Strings.upperByte h).
Proof.
  split; [|split].
  - apply HexToBytes_Decode, Decode_BytesToHex.
  - apply HexToBytes_Decode, Decode_EncodeToString.
  - rewrite HexToBytes_Decode. apply Decode_Ok_upper.
Qed.

(** X17.  what [HexToBytes] answers on every string. *)
Theorem HexToBytes_errors (h : gostring) :
  match find (fun c => negb (isHexDigit c)) h with
  | Some c => CryptoUtils.HexToBytes h = Err (CryptoUtils.EUnableToDecode (Hex.InvalidByteError c))
  | None =>
      if Z.odd (len h)
      then CryptoUtils.HexToBytes h = Err (CryptoUtils.EUnableToDecode Hex.ErrLength)
      else exists b, CryptoUtils.HexToBytes h = Ok b /\ len h = 2 * len b
  end.
Proof.
  induction h as [| p | p q rest IH] using list_pair_ind.
  - exists []. split; reflexivity.
  - cbn [find]. unfold CryptoUtils.HexToBytes, Hex.DecodeString. cbn [Hex.Decode].
    destruct (Hex.fromHexChar p) as [a|] eqn:Hp.
    + apply fromHexChar_Some in Hp as (-> & _). reflexivity.
    + apply fromHexChar_None in Hp as ->. reflexivity.
  - cbn [find]. unfold CryptoUtils.HexToBytes, Hex.DecodeString in *. cbn [Hex.Decode].
    destruct (Hex.fromHexChar p) as [a|] eqn:Hp.
    2:{ apply fromHexChar_None in Hp as ->. reflexivity. }
    apply fromHexChar_Some in Hp as (-> & _). cbn [negb].
    destruct (Hex.fromHexChar q) as [v|] eqn:Hq.
    2:{ apply fromHexChar_None in Hq as ->. reflexivity. }
    apply fromHexChar_Some in Hq as (-> & _). cbn [negb].
    assert (Hodd : Z.odd (len (p :: q :: rest)) = Z.odd (len rest)).
    { unfold len. cbn [length]. rewrite !Nat2Z.inj_succ.
      rewrite Z.odd_succ, Z.even_succ. reflexivity. }
    rewrite Hodd.
    destruct (find (fun c => negb (isHexDigit c)) rest) as [c|].
    + destruct (Hex.Decode rest) as [dst [e|]]; [|discriminate].
      injection IH as ->. reflexivity.
    + destruct (Z.odd (len rest)).
      * destruct (Hex.Decode rest) as [dst [e|]]; [|discriminate].
        injection IH as ->. reflexivity.
      * destruct IH as (b & Hb & Hlen).
        destruct (Hex.Decode rest) as [dst [e|]]; [discriminate|].
        injection Hb as ->. eexists. split; [reflexivity|].
        unfold len in *. cbn [length]. lia.
Qed.

(** ** The deterministic reader *)

(** X18.  two reads in a row deliver what one read into the two buffers
    joined delivers, as long as the first buffer does not exhaust the
    reader. *)
Theorem Read_Read (r : CryptoUtils.deterministicReader) (p1 p2 : list byte) :
  0 <= CryptoUtils.offset r ->
  CryptoUtils.offset r + len p1 < len (CryptoUtils.data r) ->
  len (CryptoUtils.data r) < 2 ^ 63 ->
  exists r1 b1 r2 b2 n2,
    CryptoUtils.Read r p1 = Ok (r1, b1, len p1)
    /\ CryptoUtils.Read r1 p2 = Ok (r2, b2, n2)
    /\ CryptoUtils.Read r (p1 ++ p2) = Ok (r2, b1 ++ b2, len p1 + n2)
    /\ b1 ++ take (Z.to_nat n2) b2
       = take (length p1 + Z.to_nat n2) (drop (Z.to_nat (CryptoUtils.offset r)) (CryptoUtils.data r)).
Proof.
  destruct r as [data off]. cbn [CryptoUtils.offset CryptoUtils.data].
  intros Hoff Hlt Hmax.
  set (d := drop (Z.to_nat off) data).
  assert (Hd : len d = len data - off).
  { unfold d, len. rewrite length_drop. unfold len in Hlt. lia. }
  set (d2 := drop (Z.to_nat (off + len p1)) data).
  assert (Hd2 : d2 = drop (length p1) d).
  { unfold d2, d. rewrite drop_drop. f_equal. unfold len. lia. }
  assert (Hld2 : len d2 = len d - len p1).
  { rewrite Hd2. unfold len. rewrite length_drop. unfold len in *. lia. }
  set (n2 := Z.min (len p2) (len d2)).
  assert (Hn2 : 0 <= n2 <= len d2) by (unfold n2, len in *; lia).
  assert (Hlen1 : Z.to_nat (len p1) = length p1) by (unfold len; lia).
  assert (Hlen12 : Z.to_nat (len p1 + n2) = (length p1 + Z.to_nat n2)%nat)
    by (unfold len; lia).
  assert (H1 : CryptoUtils.Read (CryptoUtils.Reader data off) p1
               = Ok (CryptoUtils.Reader data (off + len p1), take (length p1) d, len p1)).
  { unfold CryptoUtils.Read. cbn [CryptoUtils.offset CryptoUtils.data]. fold d.
    destruct (Z.geb_spec off (len data)) as [Hge|_]; [unfold len in *; lia|].
    destruct (Z.ltb_spec off 0) as [Hneg|_]; [lia|].
    replace (Z.min (len p1) (len d)) with (len p1) by lia.
    rewrite (int_small (off + len p1)) by (unfold len in *; lia).
    rewrite Hlen1, drop_all, app_nil_r. reflexivity. }
  assert (H2 : CryptoUtils.Read (CryptoUtils.Reader data (off + len p1)) p2
               = Ok (CryptoUtils.Reader data (off + len p1 + n2),
                     take (Z.to_nat n2) d2 ++ drop (Z.to_nat n2) p2, n2)).
  { unfold CryptoUtils.Read. cbn [CryptoUtils.offset CryptoUtils.data]. fold d2. fold n2.
    destruct (Z.geb_spec (off + len p1) (len data)) as [Hge|_]; [lia|].
    destruct (Z.ltb_spec (off + len p1) 0) as [Hneg|_]; [unfold len in *; lia|].
    rewrite (int_small (off + len p1 + n2)) by (unfold len in *; lia).
    reflexivity. }
  assert (H3 : CryptoUtils.Read (CryptoUtils.Reader data off) (p1 ++ p2)
               = Ok (CryptoUtils.Reader data (off + len p1 + n2),
                     take (length p1) d ++ take (Z.to_nat n2) d2 ++ drop (Z.to_nat n2) p2,
                     len p1 + n2)).
  { unfold CryptoUtils.Read. cbn [CryptoUtils.offset CryptoUtils.data]. fold d.
    destruct (Z.geb_spec off (len data)) as [Hge|_]; [unfold len in *; lia|].
    destruct (Z.ltb_spec off 0) as [Hneg|_]; [lia|].
    replace (Z.min (len (p1 ++ p2)) (len d)) with (len p1 + n2)
      by (unfold n2, len in *; rewrite length_app; lia).
    rewrite (int_small (off + (len p1 + n2))) by (unfold len in *; lia).
    rewrite Hlen12, drop_app_add, <- take_take_drop, <- Hd2, <- app_assoc, Z.add_assoc.
    reflexivity. }
  exists (CryptoUtils.Reader data (off + len p1)), (take (length p1) d),
         (CryptoUtils.Reader data (off + len p1 + n2)),
         (take (Z.to_nat n2) d2 ++ drop (Z.to_nat n2) p2), n2.
  split; [exact H1|]. split; [exact H2|]. split; [exact H3|].
  rewrite take_app_length' by (rewrite length_take; unfold len in *; lia).
  rewrite Hd2. apply take_take_drop.
Qed.

Lemma Read_Read_witness :
  exists r1 b1 r2 b2 n2,
    CryptoUtils.Read (CryptoUtils.Reader (str "0123456789") 2) (zeros 3) = Ok (r1, b1, 3)
    /\ CryptoUtils.Read r1 (zeros 4) = Ok (r2, b2, n2)
    /\ CryptoUtils.Read (CryptoUtils.Reader (str "0123456789") 2) (zeros 7) = Ok (r2, b1 ++ b2, 3 + n2)
    /\ b1 ++ take (Z.to_nat n2) b2 = take (3 + Z.to_nat n2) (str "23456789").
Proof.
  destruct (Read_Read (CryptoUtils.Reader (str "0123456789") 2) (zeros 3) (zeros 4))
    as (r1 & b1 & r2 & b2 & n2 & H1 & H2 & H3 & H4).
  - vm_compute. discriminate.
  - vm_compute. reflexivity.
  - vm_compute. reflexivity.
  - exists r1, b1, r2, b2, n2. repeat split; assumption.
Defined.

(** X19.  a reader made from the hex text of a seed hands the seed back,
    and then reports the end of the stream. *)
Theorem HexSeed_reader_replays_seed (seed : list byte) :
  seed <> [] ->
  len seed < 2 ^ 63 ->
  exists r r',
    CryptoUtils.NewDeterministicReaderHexSeed (Crypto.BytesToHex seed) = Ok r
    /\ CryptoUtils.Read r (zeros (length seed)) = Ok (r', seed, len seed)
    /\ forall p, CryptoUtils.Read r' p = Err CryptoUtils.EOF.
Proof.
  intros Hne Hmax.
  assert (Hpos : 0 < len seed) by (destruct seed; [congruence | unfold len; cbn [length]; lia]).
  exists (CryptoUtils.Reader seed 0), (CryptoUtils.Reader seed (len seed)).
  split; [|split].
  - unfold CryptoUtils.NewDeterministicReaderHexSeed, Hex.DecodeString.
    rewrite Decode_BytesToHex. reflexivity.
  - unfold CryptoUtils.Read. cbn [CryptoUtils.offset CryptoUtils.data].
    destruct (Z.geb_spec 0 (len seed)) as [Hge|_]; [lia|].
    change (0 <? 0) with false. cbv iota.
    change (Z.to_nat 0) with 0%nat. rewrite drop_0.
    assert (Hz : len (zeros (length seed)) = len seed)
      by (unfold len, zeros; rewrite repeat_length; reflexivity).
    rewrite Hz, Z.min_id, Z.add_0_l, (int_small (len seed)) by lia.
    replace (Z.to_nat (len seed)) with (length seed) by (unfold len; lia).
    rewrite firstn_all.
    rewrite drop_ge by (unfold zeros; rewrite repeat_length; lia).
    rewrite app_nil_r. reflexivity.
  - intros p. unfold CryptoUtils.Read. cbn [CryptoUtils.offset CryptoUtils.data].
    destruct (Z.geb_spec (len seed) (len seed)) as [_|Hlt]; [reflexivity | lia].
Qed.

Lemma HexSeed_reader_replays_seed_witness :
  exists r r',
    CryptoUtils.NewDeterministicReaderHexSeed (str "00FF1A") = Ok r
    /\ CryptoUtils.Read r (zeros 3) = Ok (r', [x00; xff; x1a], 3)
    /\ forall p, CryptoUtils.Read r' p = Err CryptoUtils.EOF.
Proof.
  apply (HexSeed_reader_replays_seed [x00; xff; x1a]).
  - discriminate.
  - vm_compute. reflexivity.
Defined.

(** ** Names of statuses, types and outputs *)

Lemma switchOn_Some {A} (name : A -> gostring) (cases : list A) (tag : gostring) (c : A) :
  TransactionParsing.switchOn name cases tag = Some c -> In c cases /\ tag = name c.
Proof.
  unfold TransactionParsing.switchOn. intros H.
  apply find_some in H as [Hin Heq].
  apply bool_decide_eq_true in Heq. auto.
Qed.

(** X20.  [ParseTransactionType] reads the name of a type in any case of
    the letters, except the names of the two wallet types. *)
Theorem ParseTransactionType_spec (mapUnicodeUpper : gostring -> gostring)
    (s : gostring) (kind : Transaction.ULTransactionType) :
  (TransactionParsing.ParseTransactionType mapUnicodeUpper s = Ok kind
   <-> (Strings.ToUpper mapUnicodeUpper s = Transaction.String kind
        /\ kind <> Transaction.INVALID_TX_TYPE
        /\ kind <> Transaction.TX_CREATE_WALLET
        /\ kind <> Transaction.TX_ALTER_WALLET))
  /\ TransactionParsing.ParseTransactionType mapUnicodeUpper (Transaction.String kind)
     = match kind with
       | Transaction.INVALID_TX_TYPE | Transaction.TX_CREATE_WALLET
       | Transaction.TX_ALTER_WALLET =>
           Err (TransactionParsing.ErrParsingTransactionType (Transaction.String kind))
       | _ => Ok kind
       end.
Proof.
  split; [|destruct kind; vm_compute; reflexivity].
  unfold TransactionParsing.ParseTransactionType. split.
  - destruct (TransactionParsing.switchOn _ _ _) as [k|] eqn:Hsw; [|discriminate].
    intros H. injection H as ->.
    apply switchOn_Some in Hsw as [Hin Heq]. split; [exact Heq|].
    cbn [In] in Hin.
    repeat (destruct Hin as [<- | Hin]; [repeat split; discriminate|]).
    contradiction.
  - intros (-> & H0 & H1 & H2).
    destruct kind; try contradiction; vm_compute; reflexivity.
Qed.

(** X21.  [ParseTransactionStatus] reads exactly the names of the three
    statuses, in any case of the letters. *)
Theorem ParseTransactionStatus_spec (mapUnicodeUpper : gostring -> gostring)
    (s : gostring) (ts : Z) :
  TransactionParsing.ParseTransactionStatus mapUnicodeUpper s = Ok ts
  <-> (1 <= ts <= 3
       /\ Strings.ToUpper mapUnicodeUpper s = TransactionParsing.UL_TransactionStatus_String ts).
Proof.
  unfold TransactionParsing.ParseTransactionStatus. split.
  - destruct (TransactionParsing.switchOn _ _ _) as [k|] eqn:Hsw; [|discriminate].
    intros H. injection H as ->.
    apply switchOn_Some in Hsw as [Hin Heq]. split; [|exact Heq].
    cbn [In] in Hin.
    repeat (destruct Hin as [<- | Hin]; [vm_compute; split; discriminate|]).
    contradiction.
  - intros (Hr & ->).
    assert (Hc : ts = 1 \/ ts = 2 \/ ts = 3) by lia.
    repeat (destruct Hc as [-> | Hc]; [vm_compute; reflexivity|]).
    subst ts. vm_compute. reflexivity.
Qed.

(** X22.  [ParseTransactionOutput] reads exactly the names of the nine
    outputs, in any case of the letters. *)
Theorem ParseTransactionOutput_spec (mapUnicodeUpper : gostring -> gostring)
    (s : gostring) (out : Z) :
  TransactionParsing.ParseTransactionOutput mapUnicodeUpper s = Ok out
  <-> (1 <= out <= 9
       /\ Strings.ToUpper mapUnicodeUpper s = TransactionParsing.UL_TransactionOutput_String out).
Proof.
  unfold TransactionParsing.ParseTransactionOutput. split.
  - destruct (TransactionParsing.switchOn _ _ _) as [k|] eqn:Hsw; [|discriminate].
    intros H. injection H as ->.
    apply switchOn_Some in Hsw as [Hin Heq]. split; [|exact Heq].
    cbn [In] in Hin.
    repeat (destruct Hin as [<- | Hin]; [vm_compute; split; discriminate|]).
    contradiction.
  - intros (Hr & ->).
    assert (Hc : out = 1 \/ out = 2 \/ out = 3 \/ out = 4 \/ out = 5 \/ out = 6
                 \/ out = 7 \/ out = 8 \/ out = 9) by lia.
    repeat (destruct Hc as [-> | Hc]; [vm_compute; reflexivity|]).
    subst out. vm_compute. reflexivity.
Qed.

(** ** Key types *)

(** X23.  [ParseCryptoKeyType] reads the name [String] gives a key type, in
    any case of the letters; a number that is no key type has the name of
    the default type. *)
Theorem ParseCryptoKeyType_String (mapUnicodeLower : gostring -> gostring)
    (s : gostring) (k : Z) :
  Strings.ToLower mapUnicodeLower s = CryptoKey.String k ->
  CryptoKey.ParseCryptoKeyType mapUnicodeLower s
  = (if (0 <=? k) && (k <=? 3) then k else Crypto.KeyTypeSecp256k1).
Proof.
  intros H. unfold CryptoKey.ParseCryptoKeyType. cbv zeta. rewrite H.
  destruct (Z.leb_spec 0 k) as [H0|H0]; [destruct (Z.leb_spec k 3) as [H3|H3]|]; cbn [andb].
  - assert (Hc : k = 0 \/ k = 1 \/ k = 2 \/ k = 3) by lia.
    repeat (destruct Hc as [-> | Hc]; [vm_compute; reflexivity|]).
    subst k. vm_compute. reflexivity.
  - assert (Hs : CryptoKey.String k = str "secp256k1").
    { unfold CryptoKey.String, Crypto.KeyTypeBLS12377, Crypto.KeyTypeED25519,
        Crypto.KeyTypeMlDSA87, Crypto.KeyTypeSecp256k1.
      repeat match goal with
             | |- context [?a =? ?b] => destruct (Z.eqb_spec a b); [lia|]
             end.
      reflexivity. }
    rewrite Hs. vm_compute. reflexivity.
  - assert (Hs : CryptoKey.String k = str "secp256k1").
    { unfold CryptoKey.String, Crypto.KeyTypeBLS12377, Crypto.KeyTypeED25519,
        Crypto.KeyTypeMlDSA87, Crypto.KeyTypeSecp256k1.
      repeat match goal with
             | |- context [?a =? ?b] => destruct (Z.eqb_spec a b); [lia|]
             end.
      reflexivity. }
    rewrite Hs. vm_compute. reflexivity.
Qed.

Lemma ParseCryptoKeyType_String_witness :
  CryptoKey.ParseCryptoKeyType (fun s => s) (str "ED25519") = 2.
Proof.
  apply (ParseCryptoKeyType_String (fun s => s) (str "ED25519") 2).
  vm_compute. reflexivity.
Defined.

(** X24.  [GetKeyByType] gives a key of the type asked for, and fails
    exactly on a number that is no key type. *)
Theorem GetKeyByType_GetType (keyType : Z) (hasher : Crypto.Hasher) :
  (forall key, CryptoKey.GetKeyByType keyType hasher = Ok key <-> CryptoKey.GetType key = keyType)
  /\ (CryptoKey.GetKeyByType keyType hasher = Err (CryptoKey.EInvalidKeyType keyType)
      <-> keyType < 0 \/ 3 < keyType).
Proof.
  unfold CryptoKey.GetKeyByType, Crypto.KeyTypeBLS12377, Crypto.KeyTypeED25519,
    Crypto.KeyTypeMlDSA87, Crypto.KeyTypeSecp256k1.
  split.
  - intros key.
    repeat match goal with
           | |- context [?a =? ?b] => destruct (Z.eqb_spec a b)
           end;
      destruct key; cbn [CryptoKey.GetType];
      unfold Crypto.KeyTypeBLS12377, Crypto.KeyTypeED25519,
        Crypto.KeyTypeMlDSA87, Crypto.KeyTypeSecp256k1;
      split; intros H; try discriminate; try lia; try reflexivity.
  - repeat match goal with
           | |- context [?a =? ?b] => destruct (Z.eqb_spec a b)
           end;
      split; intros H; try discriminate; try lia; try reflexivity.
Qed.

(** ** Addresses *)

Lemma lowerByte_upperByte (c : byte) :
  Strings.lowerByte (Strings.upperByte c) = Strings.lowerByte c
  /\ Strings.isASCII (Strings.upperByte c) = Strings.isASCII c.
Proof. destruct c; vm_compute; split; reflexivity. Qed.

Lemma ToLower_ToUpper (u l : gostring -> gostring) (s : gostring) :
  forallb Strings.isASCII s = true ->
  Strings.ToLower l (Strings.ToUpper u s) = Strings.ToLower l s.
Proof.
  intros H. unfold Strings.ToUpper. rewrite H.
  unfold Strings.ToLower.
  assert (Ha : forallb Strings.isASCII (map Strings.upperByte s) = true).
  { clear u l. induction s as [|c s IH]; [reflexivity|].
    cbn [forallb map] in *. apply andb_prop in H as [Hc Hs].
    rewrite (proj2 (lowerByte_upperByte c)), Hc. exact (IH Hs). }
  rewrite Ha, H. rewrite map_map.
  apply map_ext. intros c. apply lowerByte_upperByte.
Qed.

Lemma lower_digit (x : byte) :
  Strings.lowerByte (Crypto.hexDigit (Z_of_byte x / 16)) = Hex.digit (Z.shiftr (Z_of_byte x) 4)
  /\ Strings.lowerByte (Crypto.hexDigit (Z_of_byte x mod 16)) = Hex.digit (Z.land (Z_of_byte x) 15)
  /\ Strings.isASCII (Crypto.hexDigit (Z_of_byte x / 16)) = true
  /\ Strings.isASCII (Crypto.hexDigit (Z_of_byte x mod 16)) = true
  /\ isLowerHexDigit (Hex.digit (Z.shiftr (Z_of_byte x) 4)) = true
  /\ isLowerHexDigit (Hex.digit (Z.land (Z_of_byte x) 15)) = true.
Proof. destruct x; vm_compute; repeat split; reflexivity. Qed.

Lemma ToLower_BytesToHex (l : gostring -> gostring) (b : list byte) :
  Strings.ToLower l (Crypto.BytesToHex b) = Hex.EncodeToString b.
Proof.
  unfold Strings.ToLower.
  assert (Ha : forallb Strings.isASCII (Crypto.BytesToHex b) = true).
  { induction b as [|x b IH]; [reflexivity|].
    cbn [Crypto.BytesToHex flat_map app forallb].
    destruct (lower_digit x) as (_ & _ & -> & -> & _). exact IH. }
  rewrite Ha.
  induction b as [|x b IH]; [reflexivity|].
  cbn [Crypto.BytesToHex Hex.EncodeToString flat_map app map forallb] in *.
  destruct (lower_digit x) as (-> & -> & Hx1 & Hx2 & _).
  rewrite Hx1, Hx2 in Ha. cbn [andb] in Ha.
  f_equal. f_equal. exact (IH Ha).
Qed.

Lemma EncodeToString_lower (b : list byte) :
  forallb isLowerHexDigit (Hex.EncodeToString b) = true
  /\ len (Hex.EncodeToString b) = 2 * len b.
Proof.
  unfold len. induction b as [|x b [IH1 IH2]]; [split; reflexivity|].
  cbn [Hex.EncodeToString flat_map app forallb length].
  destruct (lower_digit x) as (_ & _ & _ & _ & -> & ->).
  change (flat_map _ b) with (Hex.EncodeToString b).
  split; [exact IH1 | lia].
Qed.

(** X25.  the address of a public key does not depend on the case of the
    letters of its hex text; it is the lower-case hex text of a digest,
    from which [HexToBytes] gives the digest back. *)
Theorem ParseAddress_case_insensitive (mapUnicodeUpper mapUnicodeLower : gostring -> gostring)
    (Sum256 : list byte -> list byte) (publicKeyHex : gostring) :
  forallb Strings.isASCII publicKeyHex = true ->
  Wallet.ParseAddress mapUnicodeLower Sum256 (Strings.ToUpper mapUnicodeUpper publicKeyHex)
  = Wallet.ParseAddress mapUnicodeLower Sum256 publicKeyHex
  /\ CryptoUtils.HexToBytes (Wallet.ParseAddress mapUnicodeLower Sum256 publicKeyHex)
     = Ok (Sum256 (map Strings.lowerByte publicKeyHex))
  /\ forallb isLowerHexDigit (Wallet.ParseAddress mapUnicodeLower Sum256 publicKeyHex) = true.
Proof.
  intros H. unfold Wallet.ParseAddress. cbv zeta.
  split; [|split].
  - rewrite ToLower_ToUpper by exact H. reflexivity.
  - apply HexToBytes_Decode. rewrite Decode_EncodeToString.
    unfold Strings.ToLower. rewrite H. reflexivity.
  - apply EncodeToString_lower.
Qed.

Lemma ParseAddress_case_insensitive_witness :
  Wallet.ParseAddress (fun s => s) exampleSum256 (Strings.ToUpper (fun s => s) (str "04f2f0fd"))
  = Wallet.ParseAddress (fun s => s) exampleSum256 (str "04f2f0fd")
  /\ CryptoUtils.HexToBytes (Wallet.ParseAddress (fun s => s) exampleSum256 (str "04f2f0fd"))
     = Ok (exampleSum256 (map Strings.lowerByte (str "04f2f0fd")))
  /\ forallb isLowerHexDigit (Wallet.ParseAddress (fun s => s) exampleSum256 (str "04f2f0fd")) = true.
Proof.
  apply (ParseAddress_case_insensitive (fun s => s) (fun s => s) exampleSum256 (str "04f2f0fd")).
  vm_compute. reflexivity.
Defined.

(** X26.  the address [GetWalletFromHex] derives from the upper-case hex
    text of a public key is the hex text of the digest of the lower-case
    hex text of the key: twice as many characters as the digest has
    bytes. *)
Theorem ParseAddress_of_public_key (mapUnicodeLower : gostring -> gostring)
    (Sum256 : list byte -> list byte) (publicKey : list byte) :
  Wallet.ParseAddress mapUnicodeLower Sum256 (Crypto.BytesToHex publicKey)
  = Hex.EncodeToString (Sum256 (Hex.EncodeToString publicKey))
  /\ len (Wallet.ParseAddress mapUnicodeLower Sum256 (Crypto.BytesToHex publicKey))
     = 2 * len (Sum256 (Hex.EncodeToString publicKey)).
Proof.
  unfold Wallet.ParseAddress. cbv zeta. rewrite ToLower_BytesToHex.
  split; [reflexivity | apply EncodeToString_lower].
Qed.

(** ** Entropy sizes *)

(** X27.  [GenerateMnemonic] refuses a size exactly when it is none of
    128, 160, 192, 224 and 256, so it refuses no size [MakeEntropy]
    gives. *)
Theorem GenerateMnemonic_entropy_sizes (E : Type)
    (randRead : list byte -> outcome E (list byte))
    (NewMnemonic : list byte -> outcome E gostring) (entropySize i : Z) :
  (Wallet.GenerateMnemonic E randRead NewMnemonic entropySize = Err Wallet.EEntropySize
   <-> ~ In entropySize [128; 160; 192; 224; 256])
  /\ Wallet.GenerateMnemonic E randRead NewMnemonic (Wallet.MakeEntropy i) <> Err Wallet.EEntropySize.
Proof.
  assert (Hiff : forall e,
    Wallet.GenerateMnemonic E randRead NewMnemonic e = Err Wallet.EEntropySize
    <-> ~ In e [128; 160; 192; 224; 256]).
  { intros e. unfold Wallet.GenerateMnemonic.
    destruct (Z.eqb_spec (Z.rem e 32) 0) as [Hrem|Hrem]; cbn [negb orb].
    - destruct (Z.ltb_spec e 128) as [Hlo|Hlo]; cbn [orb].
      + split; [|reflexivity]. intros _ Hin. cbn [In] in Hin. lia.
      + destruct (Z.gtb_spec e 256) as [Hhi|Hhi].
        * split; [|reflexivity]. intros _ Hin. cbn [In] in Hin. lia.
        * assert (Hin : In e [128; 160; 192; 224; 256]).
          { pose proof (Z.quot_rem' e 32) as Hqr. rewrite Hrem in Hqr.
            cbn [In]. lia. }
          split; [|intros Hn; contradiction].
          destruct (randRead _) as [entropy|?| |]; try discriminate.
          destruct (NewMnemonic entropy); discriminate.
    - split; [|reflexivity]. intros _ Hin. cbn [In] in Hin.
      repeat (destruct Hin as [<- | Hin]; [apply Hrem; reflexivity|]). contradiction. }
  split; [apply Hiff|].
  rewrite Hiff. intros Hn. apply Hn. unfold Wallet.MakeEntropy,
    Wallet.DefaultEntropy, Wallet.Entropy128, Wallet.Entropy160, Wallet.Entropy192,
    Wallet.Entropy224, Wallet.Entropy256.
  repeat match goal with
         | |- context [?a =? ?b] => destruct (Z.eqb_spec a b)
         end; cbn [In]; lia.
Qed.
